(* ===== verification/_CoqProject ===== *)
-Q . S2P
Prelude.v
GoRuntime.v
SecretsManager.v
Store.v
Validator.v
CreateSecret.v
FinishSecret.v
FinishSpec.v
Handler.v
Rotation.v
Progress.v
Replay.v
Concurrent.v
Converge.v
Scheduler.v
Propagation.v
Faults.v
