(* ===== verification/Prelude.v ===== *)
(** * Verification of the Secrets Manager rotation lambda (src/main.go)

    The program is an AWS Lambda handler, written in Go, that implements the
    four-step rotation protocol of AWS Secrets Manager.  One invocation
    carries an event (ClientRequestToken, SecretId, Step).  [HandleRequest]
    first validates the staging labels of the version named by the token
    (one DescribeSecret call), then dispatches on the step name to exactly
    one of [createSecret], [setSecret], [testSecret], [finishSecret].  The
    program keeps no state of its own: everything durable lives in the remote
    secret store, which the program reaches through five SDK operations.

    ** Files, in dependency order

    - [Prelude] (this file): the state-and-panic monad [prog] in which the Go
      code is written, its notations (scope [prog_scope]), the pointwise
      equivalence of programs with its [Proper] instances, the weakest
      precondition [wp], preservation of a preorder on worlds
      ([preserves]), the hint databases [prog] and [wp_rules], the tactics
      shared by all files, the list lemmas about the first element that
      passes a test ([first_such]) and sums over lists and finite maps
      ([map_sum]).
    - [GoRuntime]: what the source uses of the Go language and its standard
      library: [error] values ([errors.New], [fmt.Errorf], [awserr.Error]),
      panic values, pointers as [option] with the nil dereference as a
      panic, [Sprintf] for the verb [%s], the process state [world]
      (remote state, trace of service calls, log lines) and [log_Printf].
    - [SecretsManager]: the SDK surface the source touches: one record per
      request and response struct (a Module per struct, fields as in the
      source's struct literals), the interface [SecretsManagerAPI] (a
      typeclass: the five operations over an abstract remote state), the
      recorded [api_call]s, the [svc_*] wrappers through which the
      handlers call the service and which append the call to the trace,
      the bounds on the calls of a program ([issues] for the mutating
      calls, [emits] for all of them), the programs whose mutating call
      is their last call ([writes_last]) and the invariants of a service
      ([ServiceInvariant], [keeps]).
    - [Store]: a reference implementation of the remote store, written from
      the specification (the SDK and the service are not part of the
      repository): versions with a value and a list of labels, the five
      operations, the consistency invariant [store_consistent] (a label on
      at most one version, some version labelled AWSCURRENT) and the proof
      that every operation maintains it, what reading returns after
      writing, and the generator of passwords.  It also holds the states
      of the specification's scenario and a scripted client ([script]) for
      the answers the store never gives.
    - [Validator]: lines 29-58 of [HandleRequest]: [stage_loop] (the range
      loop over the token's labels), [check_staging], [validate], the
      abstract classification [classify] and the refinement of one by the
      other, the errors it can return ([validation_error]).
    - [CreateSecret]: [createSecret] (lines 78-128) with [excChars] and its
      requests; the laws [CreateLaws] under which it is idempotent and the
      proof that the reference store satisfies them.
    - [FinishSecret]: [finishSecret] (lines 143-176) with its scan of the
      version map [scan_versions]; the unordered iteration of a Go map is an
      explicit parameter, the order in which the keys are visited.
    - [FinishSpec]: the function the specification describes
      ([finishSecret_spec], whose scan looks for the label AWSCURRENT) and
      its comparison with the code.
    - [Handler]: [setSecret], [testSecret], [dispatch] (lines 60-73),
      [HandleRequest] and [main] (the Lambda runtime's view of one
      invocation).
    - [Rotation]: the program run against the reference store: what the
      validation answers for a state of the store, the two implemented
      steps as functions of the store, the scheduler as a step relation
      over stores ([invocation], [reachable]) with the invariants of all
      reachable states, failed and redelivered invocations, and a rotation
      from its first step to its last.
    - [Progress]: what an invocation can change and how often: the two
      moves of a rotation as an abstract machine ([advance]), the proof
      that the program makes no other change, the work left on the
      pending versions ([remaining]) and the termination of redelivery.
    - [Replay]: an invocation as a sequence of calls: a client of the
      interface that reads its answers from a script ([replay_api]) and
      stops at the first call without answer, the relation [coupled]
      between the run of a handler against a service and its run against
      the answers of that service, and the independence of a replayed run
      from the answers it has not read ([steady]).  The handlers are not
      written a second time: they are the definitions of the files above,
      instantiated at the replaying client.
    - [Concurrent]: invocations that overlap: a pool of invocations
      ([thread]) that take turns at the service, one call per turn
      ([step]), the enumeration of the interleavings ([explore]) and the
      races of two deliveries on the scenario.
    - [Converge]: overlapping invocations of any number: what an
      invocation has learnt from the description it validated
      ([learnt]), the invariant that this is still true of the store
      ([informed], [sound]), and the turns that change a secret
      ([write_turn]) measured by [remaining].
    - [Scheduler]: the scheduler the specification describes, which
      delivers the four steps of one rotation in order and the next one
      only after a success ([ordered], and the executable [attempt]), and
      the handler with the bodies of setSecret and testSecret as
      parameters ([dispatch_with], [HandleRequest_with], [main_with]),
      under the law that a downstream step leaves the secrets alone
      ([Downstream]).
    - [Propagation]: the propagation of errors: the errors the program does
      not recognise ([fatal], every error but "resource not found"), and
      the predicate [abrupt] on handlers, with its rules, that says that
      a run stuck at a call ends in a failure once the call is answered
      with such an error.
    - [Faults]: the communication with the store can fail: an instance of
      the client interface that wraps a service and loses the request or
      the response of the calls a plan names ([faulty_api]), the turns
      of a pool against such a service ([reply], [fault_step]), and the
      ordered scheduler against the failing store ([lossy]).

    ** How the model corresponds to the code

    A Go function that calls the service is a [prog] over [world]: a
    function from the world to an outcome and a new world.  The outcome is
    [Returned v] for a normal return or [Panicked p] for a panic that
    unwinds to the Lambda runtime; the world after a panic keeps every
    effect that happened before it, as the remote store does.  A Go
    [(out, err)] pair is a sum ([inl out] or [inr err]): the source never
    reads [out] when [err] is not nil.  A pointer [*T] is [option T], and
    every dereference in the source is a [deref] that panics on [None].  A
    slice [[]*string] is [option (list (option string))], nil being [None],
    because line 154 tells a nil slice from an empty one.  The map
    [VersionIdsToStages] is a [gmap string _]; lookups of absent keys
    return [None] as Go's comma-ok form does.  Go iterates over a map in an
    unspecified order: [finishSecret] takes the order as an argument and the
    theorems about it quantify over every order that is a permutation of
    the keys.  Strings are [string]; error messages are built by [Sprintf]
    from the source's own format strings.

    The trace of service calls and the log are ghost state: the program does
    not read them; they let the theorems speak about which calls an
    invocation issues (no mutating call on a validation failure, at most
    one mutating call per invocation).

    The specification relies on the store for the atomicity of each call,
    not of an invocation.  In [Concurrent] the unit of interleaving is
    therefore one call: an invocation in progress is its event together
    with the answers it has received, [poll] runs [main] against those
    answers to find its next call, and a turn lets the service perform
    that call.  Running the program afresh at every turn is sound because
    a run does not depend on answers it has not read
    ([invocation_is_one_run]).  Nothing is assumed of the order of the turns, and nothing
    of fairness: an invocation whose call never returns is one that is
    never given its turn, and an invocation that arrives later is one
    whose first turn comes later, so a fixed pool covers both.

    The source has no body for setSecret and testSecret and the
    specification asks that they be pluggable.  [Scheduler] takes the
    switch of lines 60-73 with the two calls as parameters; at the
    placeholders of the source it is [dispatch], by computation.  A call
    that fails on its way is a call of the same program against another
    instance of the interface: [Faults] changes no handler, and the
    theorems proved against the interface (the bound on the calls, the
    last call being the write, the invariants) hold for the failing
    service as they are.

    ** What the theorems show

    - [Validator]: the value returned on every branch (service error,
      rotation disabled, unknown version, already current, not pending,
      pass), the nil-dereference panics, that validation issues exactly one
      DescribeSecret call and nothing else, that on well-formed responses
      [validate] refines [classify], and the text of its errors.
    - [CreateSecret]: the outcome on every branch, that the only mutating
      call it can issue is one PutSecretValue for the token with the single
      label AWSPENDING, and idempotence against any store that satisfies
      [CreateLaws].
    - [FinishSecret]: the scan stops at the first key in iteration order
      whose label slice is not nil (not at the version labelled
      AWSCURRENT); the outcome on every branch; at most one mutating call;
      the consequences: the result depends on the iteration order; and
      that it is a no-op once the token's version is the only labelled
      one.
    - [FinishSpec]: the code computes the specified function exactly when
      the first labelled version visited is the first holder of AWSCURRENT;
      the specified function does not depend on the order.
    - [Handler]: unknown steps fail after one DescribeSecret; a failed
      validation never reaches a handler; [setSecret] and [testSecret]
      always panic; every invocation issues at most one mutating call, at
      most five calls in all, each about the event's secret; the errors it
      returns are of three kinds; its mutating call, when it makes one,
      is its last call; a finishSecret invocation can succeed without
      promoting.
    - [Rotation], against the reference store: consistency and the history
      of values hold in every reachable state; a failed invocation changes
      no secret; createSecret never changes the value a consumer reads; a
      redelivered createSecret changes nothing and an invocation for a
      promoted token is refused; finishSecret promotes the token when the
      holder of AWSCURRENT is visited first and fails when a third
      labelled version is; a rotation can be completed; the generated
      password has 32 characters, none of them excluded; and the scenario
      of the specification, evaluated step by step.
    - [Progress]: every invocation leaves the secrets as they were or
      makes one move of [advance], and on a consistent store the changes
      invocations can make are exactly those moves; every move lowers
      [remaining], so the invocations that change a consistent store are
      strongly normalising and a store of [k] secrets is changed at most
      [2 * k] times; without consistency the label can move back and
      forth for ever; a finishSecret delivered before createSecret leaves
      the secret without a readable current value.
    - [Replay]: every handler is coupled with itself: run against a script
      that agrees with the answers of a service, it stops at the first
      call the script does not answer and otherwise returns what the run
      against the service returned; a run that stops has read fewer than
      five answers, and the call it stops at is the call of the whole run
      that follows the answers read; every handler is steady: with more
      answers to read it makes the same calls up to the one it was stuck
      at.
    - [Concurrent]: one invocation alone in the pool does what [main] does
      in one piece, and invocations handled in order are one of the
      interleavings; the calls an invocation makes turn after turn are
      those of one run of [HandleRequest], and a write is its last turn;
      every invariant of the service holds at every turn
      of every interleaving; every interleaving ends, after at most five
      turns for each invocation and with every invocation finished;
      against the reference store, a secret that no event of the pool
      names is never changed, and an invocation stopped after any number
      of its calls has changed nothing or has done what the whole
      invocation does; on the scenario, two createSecret
      deliveries at once store one value, two finishSecret deliveries at
      once move the label once, and createSecret with finishSecret at
      once either finish the rotation or leave AWSCURRENT on a version
      without value.
    - [Converge]: an invocation writes on a store that others have
      changed since it validated its event; its check is still valid
      then, because no call of the program takes AWSPENDING off a
      version: under every interleaving of a pool of any size, the
      version an invocation is about to write to carries AWSPENDING; every
      turn that changes a secret settles one unit of [remaining], so the
      changing turns are strongly normalising and at most [2 * k] for a
      store of [k] secrets, and at most one for each invocation.
    - [Scheduler]: under the ordered scheduler, with any downstream
      steps that leave the secrets alone, every reachable state serves
      the old value or, from finishSecret on, the value of the token's
      version, which then holds AWSCURRENT (the invariant [on_course],
      which [Faults] carries over to the failing store); with downstream
      steps that work, four deliveries complete the rotation when finishSecret
      visits the holder of AWSCURRENT first, and are all answered with
      success without the label having moved when it visits the token's
      version first; with the placeholders of the source the scheduler
      never gets past setSecret.
    - [Propagation]: every handler is abrupt: an invocation whose call is
      answered with an error other than "resource not found" makes no
      further call and answers the runtime with a failure.
    - [Faults]: the invariants of the store hold at every turn whatever
      requests and responses are lost and whatever errors answer them;
      the turns that change a secret still settle one unit of
      [remaining] each and are at most one for each invocation; an
      invocation against the failing service is the invocation against
      the service cut short at the first fault, so it has changed
      nothing or done all it does, and with no fault planned it is the
      invocation against the service; under the ordered scheduler
      against the failing store every reachable state still serves the
      old value or the value of the promoted version; from every such
      state in which the end is not recorded and the label has not
      moved, at most three deliveries without faults and a delivery of
      finishSecret that visits the holder of AWSCURRENT first complete
      the rotation; after a lost response to the update of finishSecret
      the label has moved, every invocation for the token is rejected
      and the scheduler waits at finishSecret for ever.

    Each theorem with hypotheses has a witness: a closed lemma that applies
    it to the states of the scenario (secret "db-pwd", versions "v1" and
    "v2"), whose hypotheses are discharged by evaluation.

    ** Bounds and fuel

    No definition of the program uses fuel: every loop of the source
    ranges over a finite slice or over the keys of a finite map and is a
    structural [Fixpoint] over that list, so every program is a total
    function and the theorems state the outcome itself.  Strings and maps
    are unbounded, as in Go.
    The reference store generates passwords of 32 characters, the default
    of the service, from a linear congruential sequence: the theorems
    depend on the length and on the excluded characters only.

    The one use of fuel is [explore] in [Concurrent], which enumerates the
    ends of the interleavings of a pool.  Each invocation makes at most
    five calls, so a pool of [k] invocations makes at most [5 * k] turns;
    [explore_spec] proves that with that much fuel the enumeration is
    exact, and the races of two invocations are explored with fuel 10.
    The measure of [Progress] is at most 2 for each secret: one unit for
    the value of the pending version, one for the label AWSCURRENT.
    The convergence theorems of [Converge] and [Faults] are for events
    whose token is not the empty string: the empty string is the zero value that
    [finishSecret] keeps for the current version when it finds none, and
    the program cannot tell the two apart; the tokens of the service are
    never empty.
    The plan of a failing service is a finite list, one entry for each
    call; the calls after its end go through.  The theorems about turns
    under faults do not use plans: they hold for every sequence of
    replies, each answered with any error.
    [attempt] in [Scheduler] delivers one event for each iteration order
    of its list: four deliveries are what a rotation without failures
    takes, and the theorems about [ordered] hold for any number.

    ** Not modelled

    The JSON decoding of the event and the transport of the Lambda runtime
    (aws-lambda-go), the AWS session and credentials ([session.New]), the
    network, timeouts, and the timestamps that [log.Printf] prepends.
    [Sprintf] covers the verb [%s] only, the one the source uses.  The
    remote service is the reference store of [Store]; the real service's
    extra behaviour (automatic AWSPREVIOUS, version limits, resource
    policies) is outside the specification and outside the model.
    Time is not modelled: an invocation that hangs is an invocation that
    is not given its turn, and the theorems about interleavings hold at
    every turn, so they do not depend on it.  The races are decided for
    pools of two invocations on the scenario of the specification; for
    arbitrary pools the theorems are the invariants, the termination,
    the isolation of the secrets no event names and the convergence of
    the changes.
    The steps setSecret and testSecret have no body in the source, so
    nothing of the downstream system they would talk to is modelled: a
    downstream step is any program that leaves the secrets alone.
    The decoding of the event is the work of encoding/json inside the
    Lambda runtime, a library that is neither in the repository nor
    described by the specification: the model starts from the decoded
    event, whose three fields may each be nil.
    A failure of the communication loses a whole request or a whole
    response: the store performs each call atomically or not at all, as
    the specification assumes of it. *)

From stdpp Require Import base tactics option list gmap.

(** * Outcomes and programs *)

(** The result of running a Go function: a normal return with a value, or a
    panic that is unwinding the stack. *)
Inductive outcome (P A : Type) : Type :=
| Returned (a : A)
| Panicked (p : P).
Arguments Returned {P A} a.
Arguments Panicked {P A} p.

#[export] Instance outcome_eq_dec `{EqDecision P, EqDecision A} :
  EqDecision (outcome P A).
Proof. solve_decision. Defined.

(** A program over worlds [W] that may panic with a [P]: the world is
    threaded through and survives a panic. *)
Definition prog (W P A : Type) : Type := W → outcome P A * W.

Definition ret {W P A} (a : A) : prog W P A := λ w, (Returned a, w).

Definition bind {W P A B} (c : prog W P A) (k : A → prog W P B) : prog W P B :=
  λ w, match c w with
       | (Returned a, w') => k a w'
       | (Panicked p, w') => (Panicked p, w')
       end.

(** Go's [panic(v)]: nothing after it runs. *)
Definition panic {W P A} (p : P) : prog W P A := λ w, (Panicked p, w).

Definition gets {W P A} (f : W → A) : prog W P A := λ w, (Returned (f w), w).

Definition modify {W P} (f : W → W) : prog W P unit := λ w, (Returned tt, f w).

(** The two components of a run. *)
Definition result_of {W P A} (c : prog W P A) (w : W) : outcome P A := (c w).1.
Definition world_after {W P A} (c : prog W P A) (w : W) : W := (c w).2.

Declare Scope prog_scope.
Delimit Scope prog_scope with prog.
Notation "x <- c ;; k" := (bind c (λ x, k))
  (at level 100, c at next level, right associativity) : prog_scope.
Notation "c ;;; k" := (bind c (λ _, k))
  (at level 100, right associativity) : prog_scope.
Open Scope prog_scope.

(** * Equivalence of programs *)

(** Programs are functions: they are compared pointwise, which avoids
    function extensionality. *)
#[export] Instance prog_equiv {W P A} : Equiv (prog W P A) :=
  λ c1 c2, ∀ w, c1 w = c2 w.

#[export] Instance prog_equivalence {W P A} : Equivalence (≡@{prog W P A}).
Proof.
  split.
  - by intros c w.
  - by intros c1 c2 H w.
  - intros c1 c2 c3 H1 H2 w. by rewrite H1.
Qed.

#[export] Instance bind_proper {W P A B} :
  Proper ((≡) ==> pointwise_relation A (≡) ==> (≡)) (@bind W P A B).
Proof.
  intros c1 c2 Hc k1 k2 Hk w. unfold bind. rewrite Hc.
  destruct (c2 w) as [[a|p] w']; [apply Hk | done].
Qed.

#[export] Instance result_of_proper {W P A} :
  Proper ((≡) ==> (=) ==> (=)) (@result_of W P A).
Proof. intros c1 c2 Hc w ? <-. unfold result_of. by rewrite Hc. Qed.

#[export] Instance world_after_proper {W P A} :
  Proper ((≡) ==> (=) ==> (=)) (@world_after W P A).
Proof. intros c1 c2 Hc w ? <-. unfold world_after. by rewrite Hc. Qed.

Section laws.
Context {W P : Type}.

Lemma bind_ret_l {A B} (a : A) (k : A → prog W P B) : bind (ret a) k ≡ k a.
Proof. by intros w. Qed.

Lemma bind_ret_r {A} (c : prog W P A) : bind c ret ≡ c.
Proof. intros w. unfold bind. by destruct (c w) as [[a|p] w']. Qed.

Lemma bind_assoc {A B C} (c : prog W P A) (k : A → prog W P B)
    (h : B → prog W P C) :
  bind (bind c k) h ≡ bind c (λ a, bind (k a) h).
Proof. intros w. unfold bind. by destruct (c w) as [[a|p] w']. Qed.

Lemma bind_panic {A B} (p : P) (k : A → prog W P B) : bind (panic p) k ≡ panic p.
Proof. by intros w. Qed.

(** Running a sequence: the two cases of the first program. *)
Lemma run_bind_returned {A B} (c : prog W P A) (k : A → prog W P B) w a w' :
  c w = (Returned a, w') → bind c k w = k a w'.
Proof. intros Hc. unfold bind. by rewrite Hc. Qed.

Lemma run_bind_panicked {A B} (c : prog W P A) (k : A → prog W P B) w p w' :
  c w = (Panicked p, w') → bind c k w = (Panicked p, w').
Proof. intros Hc. unfold bind. by rewrite Hc. Qed.

(** Inversion of a sequence: either the first program panicked, or it
    returned and the continuation produced the result. *)
Lemma bind_inv {A B} (c : prog W P A) (k : A → prog W P B) w r w2 :
  bind c k w = (r, w2) →
  (∃ a w1, c w = (Returned a, w1) ∧ k a w1 = (r, w2)) ∨
  (∃ p, c w = (Panicked p, w2) ∧ r = Panicked p).
Proof.
  unfold bind. destruct (c w) as [[a|p] w1]; intros Hk.
  - left. by exists a, w1.
  - right. exists p. by simplify_eq.
Qed.

End laws.

(** * Weakest preconditions *)

(** [wp c Q w]: running [c] from [w] ends in an outcome and a world that
    satisfy [Q].  Programs are total, so this is a plain computation. *)
Definition wp {W P A} (c : prog W P A) (Q : outcome P A → W → Prop) (w : W) : Prop :=
  Q (c w).1 (c w).2.

#[export] Instance wp_proper {W P A} :
  Proper ((≡) ==> (=) ==> (=) ==> (=)) (@wp W P A).
Proof. intros c1 c2 Hc Q ? <- w ? <-. unfold wp. by rewrite Hc. Qed.

Section wp.
Context {W P : Type}.

Lemma wp_ret {A} (a : A) (Q : outcome P A → W → Prop) w :
  wp (ret a) Q w ↔ Q (Returned a) w.
Proof. done. Qed.

Lemma wp_panic {A} (p : P) (Q : outcome P A → W → Prop) w :
  wp (panic p) Q w ↔ Q (Panicked p) w.
Proof. done. Qed.

Lemma wp_gets {A} (f : W → A) (Q : outcome P A → W → Prop) w :
  wp (gets f) Q w ↔ Q (Returned (f w)) w.
Proof. done. Qed.

Lemma wp_modify (f : W → W) (Q : outcome P unit → W → Prop) w :
  wp (modify f) Q w ↔ Q (Returned tt) (f w).
Proof. done. Qed.

(** The rule of sequence: a panic of the first program skips the rest. *)
Lemma wp_bind {A B} (c : prog W P A) (k : A → prog W P B)
    (Q : outcome P B → W → Prop) w :
  wp (bind c k) Q w ↔
  wp c (λ r w', match r with
                | Returned a => wp (k a) Q w'
                | Panicked p => Q (Panicked p) w'
                end) w.
Proof. unfold wp, bind. by destruct (c w) as [[a|p] w']. Qed.

Lemma wp_mono {A} (c : prog W P A) (Q1 Q2 : outcome P A → W → Prop) w :
  (∀ r w', Q1 r w' → Q2 r w') → wp c Q1 w → wp c Q2 w.
Proof. unfold wp. auto. Qed.

Lemma wp_run {A} (c : prog W P A) (Q : outcome P A → W → Prop) w r w' :
  c w = (r, w') → wp c Q w ↔ Q r w'.
Proof. unfold wp. by intros ->. Qed.

End wp.

(** * Programs that move the world along a preorder *)

(** [preserves R c]: whatever [c] does, the world it leaves is [R]-related
    to the one it started from.  With [R] a prefix order on traces this
    says that [c] only appends; with [R] an equality on a component it says
    that [c] leaves the component alone. *)
Definition preserves {W P A} (R : relation W) (c : prog W P A) : Prop :=
  ∀ w, R w (c w).2.

Section preserves.
Context {W P : Type} (R : relation W) `{!PreOrder R}.

Lemma preserves_ret {A} (a : A) : preserves R (@ret W P A a).
Proof. by intros w. Qed.

Lemma preserves_panic {A} (p : P) : preserves R (@panic W P A p).
Proof. by intros w. Qed.

Lemma preserves_gets {A} (f : W → A) : preserves R (@gets W P A f).
Proof. by intros w. Qed.

Lemma preserves_modify (f : W → W) :
  (∀ w, R w (f w)) → preserves R (@modify W P f).
Proof. intros Hf w. apply Hf. Qed.

Lemma preserves_bind {A B} (c : prog W P A) (k : A → prog W P B) :
  preserves R c → (∀ a, preserves R (k a)) → preserves R (bind c k).
Proof.
  intros Hc Hk w. unfold bind. specialize (Hc w).
  destruct (c w) as [[a|p] w']; simpl in *; [|done].
  by etrans; [|apply Hk].
Qed.

End preserves.

(** * Automation *)

(** The database [prog] collects the facts that close the routine goals
    about programs: the preservation rules above and, in the files that
    follow, the preservation facts of each primitive and handler. *)
Create HintDb prog discriminated.
#[export] Hint Resolve preserves_ret preserves_panic preserves_gets
  preserves_bind : prog.
#[export] Hint Extern 1 (PreOrder _) => apply _ : prog.

(** The rewrite database [wp_rules] pushes [wp] through the structure of a
    program: [autorewrite with wp_rules] is a symbolic execution step. *)
Create Rewrite HintDb wp_rules.
#[export] Hint Rewrite @wp_ret @wp_panic @wp_gets @wp_modify @wp_bind : wp_rules.

(** Unfold the monad's operations in the goal and in the hypotheses. *)
Ltac prog_unfold :=
  unfold wp, result_of, world_after, bind, ret, panic, gets, modify in *.

(** Case analysis on an outcome or on a sum that a [match] of the goal
    scrutinises, keeping the equation. *)
Ltac case_run :=
  match goal with
  | |- context [match ?c ?w with (_, _) => _ end] =>
      let r := fresh "r" in let w' := fresh "w" in let E := fresh "Hrun" in
      destruct (c w) as [r w'] eqn:E
  end.

(** Prove that a program built from binds, matches and conditionals
    preserves a preorder, from the facts of the database [prog]. *)
Ltac solve_preserves :=
  repeat first
    [ progress intros
    | progress cbv zeta
    | solve [eauto with prog]
    | apply preserves_bind; [apply _| |]
    | match goal with
      | |- preserves _ (match ?x with _ => _ end) => destruct x
      | |- preserves _ (if ?b then _ else _) => destruct b
      end ].

(** Decide a closed proposition by evaluating its decision procedure. *)
Ltac by_compute := apply (bool_decide_unpack _); vm_compute; reflexivity.

(** A program that preserves equality leaves the world as it found it. *)
Lemma preserves_eq_world {W P A} (c : prog W P A) w :
  preserves (=) c → (c w).2 = w.
Proof. intros Hc. symmetry. apply Hc. Qed.

(** * Lists *)

Section lists.
Context {A : Type}.
Implicit Types (l : list A) (x : A).

(** The first element that satisfies a boolean test. *)
Fixpoint first_such (f : A → bool) l : option A :=
  match l with
  | [] => None
  | x :: l' => if f x then Some x else first_such f l'
  end.

Lemma first_such_Some f l x :
  first_such f l = Some x →
  x ∈ l ∧ f x = true.
Proof.
  induction l as [|y l IH]; simpl; [done|].
  destruct (f y) eqn:Hy; intros Hx.
  - simplify_eq. split; [left | done].
  - destruct (IH Hx). split; [by right | done].
Qed.

Lemma first_such_None f l :
  first_such f l = None ↔ ∀ x, x ∈ l → f x = false.
Proof.
  induction l as [|y l IH]; simpl.
  - split; [|done]. intros _ x Hx. by apply elem_of_nil in Hx.
  - destruct (f y) eqn:Hy.
    + split; [done|]. intros H. specialize (H y (list_elem_of_here _ _)). congruence.
    + rewrite IH. split.
      * intros H x [->|Hx]%elem_of_cons; auto.
      * intros H x Hx. apply H. by right.
Qed.

Lemma first_such_app f l1 l2 :
  first_such f (l1 ++ l2) =
  match first_such f l1 with Some x => Some x | None => first_such f l2 end.
Proof.
  induction l1 as [|y l1 IH]; simpl; [done|]. by destruct (f y).
Qed.

(** With a single candidate, the order of the list does not matter. *)
Lemma first_such_unique f l x :
  x ∈ l → f x = true → (∀ y, y ∈ l → f y = true → y = x) →
  first_such f l = Some x.
Proof.
  intros Hx Hfx Huniq. destruct (first_such f l) as [y|] eqn:Hy.
  - apply first_such_Some in Hy as [Hy1 Hy2]. f_equal. by apply Huniq.
  - rewrite first_such_None in Hy. specialize (Hy x Hx). congruence.
Qed.

(** With at most one candidate, permuting the list changes nothing. *)
Lemma first_such_perm f l l' :
  l ≡ₚ l' →
  (∀ x y, x ∈ l → y ∈ l → f x = true → f y = true → x = y) →
  first_such f l = first_such f l'.
Proof.
  intros Hperm Huniq. destruct (first_such f l) as [x|] eqn:Hx; symmetry.
  - apply first_such_Some in Hx as [Hx Hfx].
    apply first_such_unique; [by rewrite <-Hperm|done|].
    intros y Hy Hfy. rewrite <-Hperm in Hy. by apply Huniq.
  - rewrite first_such_None in Hx. apply first_such_None.
    intros y Hy. rewrite <-Hperm in Hy. by apply Hx.
Qed.

(** Removing an element that does not occur changes nothing. *)
Lemma filter_ne_id `{!EqDecision A} l x : x ∉ l → filter (λ y, y ≠ x) l = l.
Proof.
  induction l as [|y l IH]; [done|]. intros [Hy Hl]%not_elem_of_cons.
  rewrite filter_cons_True by done. by rewrite IH.
Qed.

(** Moving an element of a duplicate-free list to the front permutes it. *)
Lemma cons_filter_ne_perm `{!EqDecision A} l x :
  NoDup l → x ∈ l → x :: filter (λ y, y ≠ x) l ≡ₚ l.
Proof.
  induction 1 as [|y l Hy Hnd IH]; [by intros ?%elem_of_nil|].
  destruct (decide (y = x)) as [->|Hne]; intros Hx.
  - rewrite filter_cons_False by (by intros ?). by rewrite filter_ne_id.
  - apply elem_of_cons in Hx as [?|Hx]; [congruence|].
    rewrite filter_cons_True by done. rewrite Permutation_swap. f_equiv. by apply IH.
Qed.

(** An element of a list has a first occurrence. *)
Lemma elem_of_split_first `{!EqDecision A} l x :
  x ∈ l → ∃ l1 l2, l = l1 ++ x :: l2 ∧ x ∉ l1.
Proof.
  induction l as [|y l IH]; [by intros ?%elem_of_nil|].
  destruct (decide (y = x)) as [->|Hne].
  - intros _. exists [], l. split; [done | apply not_elem_of_nil].
  - intros [?|Hx]%elem_of_cons; [congruence|].
    destruct (IH Hx) as (l1 & l2 & -> & Hl1). exists (y :: l1), l2.
    split; [done|]. rewrite not_elem_of_cons. auto.
Qed.

End lists.

(** * Sums over lists *)

Section sums.
Context {A : Type} (f : A → nat).
Implicit Types (l : list A).

(** Replacing one element moves the sum by the difference of the two. *)
Lemma sum_list_with_insert l i x y :
  l !! i = Some x → sum_list_with f (<[i:=y]> l) + f x = sum_list_with f l + f y.
Proof.
  revert i. induction l as [|z l IH]; intros [|i] Hi; simplify_eq/=; [lia|].
  specialize (IH i Hi). lia.
Qed.

Lemma sum_list_with_bound l k : (∀ x, f x ≤ k) → sum_list_with f l ≤ k * length l.
Proof. intros Hk. induction l as [|x l IH]; simpl; [lia|]. specialize (Hk x). lia. Qed.

End sums.

(** * Sums over finite maps *)

(** The sum of [f] over the values of a map, the measure of a store that
    is a sum of measures of its entries. *)
Definition map_sum `{Countable K} {A} (f : A → nat) (m : gmap K A) : nat :=
  map_fold (λ _ x n, f x + n) 0 m.

Section map_sum.
Context `{Countable K} {A : Type} (f : A → nat).
Implicit Types (m : gmap K A).

Lemma map_sum_empty : map_sum f (∅ : gmap K A) = 0.
Proof. apply map_fold_empty. Qed.

Lemma map_sum_insert m i x :
  m !! i = None → map_sum f (<[i:=x]> m) = f x + map_sum f m.
Proof. intros. unfold map_sum. rewrite map_fold_insert_L; [done|lia|done]. Qed.

Lemma map_sum_delete m i x :
  m !! i = Some x → map_sum f m = f x + map_sum f (delete i m).
Proof. intros. unfold map_sum. erewrite map_fold_delete_L; [done|lia|done]. Qed.

(** Replacing one value moves the sum by the difference of the two. *)
Lemma map_sum_update m i x y :
  m !! i = Some x → map_sum f (<[i:=y]> m) + f x = map_sum f m + f y.
Proof.
  intros Hi. rewrite (map_sum_delete m i x Hi), <-(insert_delete_eq m).
  rewrite map_sum_insert by apply lookup_delete_eq. lia.
Qed.

Lemma map_sum_bound m k : (∀ x, f x ≤ k) → map_sum f m ≤ k * size m.
Proof.
  intros Hk. induction m as [|i x m Hi IH] using map_ind.
  - by rewrite map_sum_empty, map_size_empty, Nat.mul_0_r.
  - rewrite map_sum_insert, map_size_insert_None by done. specialize (Hk x). lia.
Qed.

End map_sum.
