(* ===== verification/GoRuntime.v ===== *)
(** * The part of Go that src/main.go relies on

    Error values and the way the source builds and inspects them
    ([errors.New], [fmt.Errorf], the type assertion to [awserr.Error]), the
    values a panic carries, pointers with their nil dereference,
    [fmt.Sprintf] restricted to the verb [%s], and the state of the running
    process: the remote service's state, the trace of calls made to it and
    the lines written with [log.Printf]. *)

From Stdlib Require Import Ascii.
From stdpp Require Import base tactics option list strings.
From S2P Require Import Prelude.

(** * Errors *)

(** A non-nil value of Go's interface [error], by its dynamic type.  The
    source creates [errorString]s (lines 41, 45, 51, 57, 70), receives
    errors from the SDK and asks whether they are [awserr.Error]s (line 97). *)
Inductive error : Type :=
| errorString (s : string)
| awserrError (code message : string)
| foreignError (s : string).

#[export] Instance error_eq_dec : EqDecision error.
Proof. solve_decision. Defined.

(** [fmt.Sprintf] for the verb [%s] with string operands.  An operand that
    is missing prints as [%!s(MISSING)], as the fmt package does. *)
Fixpoint Sprintf (format : string) (args : list string) : string :=
  match format with
  | EmptyString => EmptyString
  | String "%"%char (String "s"%char rest) =>
      match args with
      | a :: args' => a +:+ Sprintf rest args'
      | [] => "%!s(MISSING)" +:+ Sprintf rest []
      end
  | String c rest => String c (Sprintf rest args)
  end.

Definition errors_New (text : string) : error := errorString text.

Definition Errorf (format : string) (args : list string) : error :=
  errorString (Sprintf format args).

(** The text of an error, [err.Error()]. *)
Definition Error (e : error) : string :=
  match e with
  | errorString s => s
  | awserrError code message => code +:+ ": " +:+ message
  | foreignError s => s
  end.

(** The type assertion [err.(awserr.Error)] of line 97, in its comma-ok
    form: the error code when the dynamic type is an [awserr.Error]. *)
Definition as_awserr (e : error) : option string :=
  match e with
  | awserrError code _ => Some code
  | _ => None
  end.

(** * Slices *)

(** The elements a [range] over a slice visits: none for the nil slice. *)
Definition range_slice {A} (s : option (list A)) : list A := default [] s.

(** The strings a [[]*string] holds, provided no element is nil. *)
Definition slice_strings (s : option (list (option string))) : option (list string) :=
  mapM id (range_slice s).

(** * Panics *)

(** What a panic carries: the source panics with an error ([panic(err)]) and
    with a string literal (lines 133 and 140); the runtime panics on a nil
    pointer dereference. *)
Inductive panic_value : Type :=
| PanicError (e : error)
| PanicString (s : string)
| NilDereference.

#[export] Instance panic_value_eq_dec : EqDecision panic_value.
Proof. solve_decision. Defined.

(** * The process *)

(** The state an invocation runs in: the remote service's state [Σ], the
    calls made so far (of type [C], oldest first) and the log. *)
Record world (Σ C : Type) : Type := World {
  remote : Σ;
  calls : list C;
  logs : list string;
}.
Arguments World {Σ C} remote calls logs.
Arguments remote {Σ C} w.
Arguments calls {Σ C} w.
Arguments logs {Σ C} w.

(** A fresh process in front of a remote state. *)
Definition boot {Σ C} (σ : Σ) : world Σ C := World σ [] [].

(** Go code: a program over the process state that may panic. *)
Abbreviation go Σ C A := (prog (world Σ C) panic_value A).

Section runtime.
Context {Σ C : Type}.
Implicit Types (w : world Σ C).

(** [*p]: the pointee, or the runtime panic when [p] is nil. *)
Definition deref {A} (p : option A) : go Σ C A :=
  match p with
  | Some a => ret a
  | None => panic NilDereference
  end.

(** [log.Printf(format, args...)]: one more line in the log. *)
Definition log_Printf (format : string) (args : list string) : go Σ C unit :=
  modify (λ w, World (remote w) (calls w) (logs w ++ [Sprintf format args])).


(** The world with one more line in the log. *)
Definition logged w (line : string) : world Σ C :=
  World (remote w) (calls w) (logs w ++ [line]).

(** Record a call in the trace. *)
Definition record_call (c : C) : go Σ C unit :=
  modify (λ w, World (remote w) (calls w ++ [c]) (logs w)).

(** ** Orders on worlds *)

(** The trace and the log only grow. *)
Definition grows w w' : Prop :=
  calls w `prefix_of` calls w' ∧ logs w `prefix_of` logs w'.

(** The remote state and the trace are untouched (the log may grow). *)
Definition quiet w w' : Prop :=
  remote w' = remote w ∧ calls w' = calls w.

#[export] Instance grows_preorder : PreOrder grows.
Proof.
  split.
  - by intros w.
  - intros w1 w2 w3 [??] [??]. split; by etrans.
Qed.

#[export] Instance quiet_preorder : PreOrder quiet.
Proof.
  split.
  - by intros w.
  - intros w1 w2 w3 [??] [??]. split; congruence.
Qed.

Lemma quiet_grows_calls w w' : quiet w w' → calls w `prefix_of` calls w'.
Proof. by intros [_ ->]. Qed.

(** A program that leaves the world alone is quiet. *)
Lemma pure_quiet {A} (c : go Σ C A) : preserves (=) c → preserves quiet c.
Proof. intros Hc w. by rewrite <-(Hc w). Qed.

(** ** The primitives *)

Lemma deref_Some {A} (a : A) w : deref (Some a) w = (Returned a, w).
Proof. done. Qed.

Lemma deref_None {A} w : deref (@None A) w = (Panicked NilDereference, w).
Proof. done. Qed.

(** A dereference either yields the pointee or panics; it never changes
    the world. *)
Lemma deref_world {A} (p : option A) w : (deref p w).2 = w.
Proof. by destruct p. Qed.

Lemma deref_inv {A} (p : option A) w r w' :
  deref p w = (r, w') →
  w' = w ∧ match p with Some a => r = Returned a | None => r = Panicked NilDereference end.
Proof. destruct p; simpl; by intros [= <- <-]. Qed.

Lemma deref_pure {A} (p : option A) : preserves (=) (deref p).
Proof. intros w. by rewrite deref_world. Qed.

Lemma deref_quiet {A} (p : option A) : preserves quiet (deref p).
Proof. intros w. by rewrite deref_world. Qed.

Lemma deref_grows {A} (p : option A) : preserves grows (deref p).
Proof. intros w. by rewrite deref_world. Qed.

Lemma log_Printf_run format args w :
  log_Printf format args w = (Returned tt, logged w (Sprintf format args)).
Proof. done. Qed.

Lemma log_Printf_quiet format args : preserves quiet (log_Printf format args).
Proof. by intros w. Qed.

Lemma log_Printf_grows format args : preserves grows (log_Printf format args).
Proof. intros w. split; simpl; [done | by apply prefix_app_r]. Qed.

Lemma record_call_grows c : preserves grows (record_call c).
Proof. intros w. split; simpl; [by apply prefix_app_r | done]. Qed.

End runtime.

#[export] Hint Resolve deref_pure deref_quiet deref_grows log_Printf_quiet
  log_Printf_grows record_call_grows : prog.
#[export] Hint Rewrite @deref_Some @deref_None @log_Printf_run : wp_rules.

(** * Facts about [Sprintf] *)

(** A format without a percent sign prints as itself. *)
Fixpoint no_verb (format : string) : bool :=
  match format with
  | EmptyString => true
  | String c rest => negb (Ascii.eqb c "%"%char) && no_verb rest
  end.

(** Any character but the percent sign is copied. *)
Lemma Sprintf_copy c rest args :
  c ≠ "%"%char → Sprintf (String c rest) args = String c (Sprintf rest args).
Proof.
  intros Hc. by destruct c as [[] [] [] [] [] [] [] []].
Qed.

Lemma no_verb_cons c rest :
  no_verb (String c rest) = true → c ≠ "%"%char ∧ no_verb rest = true.
Proof.
  simpl. intros [Hc Hrest]%andb_prop. split; [|done].
  by destruct (Ascii.eqb_spec c "%"%char).
Qed.

Lemma Sprintf_no_verb format args :
  no_verb format = true → Sprintf format args = format.
Proof.
  induction format as [|c rest IH]; [done|].
  intros [Hc Hrest]%no_verb_cons. by rewrite Sprintf_copy, IH.
Qed.

(** A verb-free prefix is copied, and the rest is formatted with all the
    operands. *)
Lemma Sprintf_app_no_verb pre rest args :
  no_verb pre = true → Sprintf (pre +:+ rest) args = pre +:+ Sprintf rest args.
Proof.
  induction pre as [|c pre IH]; [done|].
  intros [Hc Hpre]%no_verb_cons.
  change (Sprintf (String c (pre +:+ rest)) args = String c (pre +:+ Sprintf rest args)).
  by rewrite Sprintf_copy, IH.
Qed.

(** The verb consumes the first operand. *)
Lemma Sprintf_verb rest a args :
  Sprintf ("%s" +:+ rest) (a :: args) = a +:+ Sprintf rest args.
Proof. done. Qed.

(** A format with one verb and a format with two: the operands are
    inserted as they are, whatever they contain. *)
Lemma Sprintf_one pre post a :
  no_verb pre = true → no_verb post = true →
  Sprintf (pre +:+ "%s" +:+ post) [a] = pre +:+ a +:+ post.
Proof.
  intros Hpre Hpost. by rewrite Sprintf_app_no_verb, Sprintf_verb, Sprintf_no_verb.
Qed.

Lemma Sprintf_two pre mid post a b :
  no_verb pre = true → no_verb mid = true → no_verb post = true →
  Sprintf (pre +:+ "%s" +:+ mid +:+ "%s" +:+ post) [a; b] =
  pre +:+ a +:+ mid +:+ b +:+ post.
Proof.
  intros Hpre Hmid Hpost.
  by rewrite Sprintf_app_no_verb, Sprintf_verb, Sprintf_app_no_verb, Sprintf_verb,
    Sprintf_no_verb.
Qed.

(** * Facts about slices *)

Lemma slice_strings_fmap (labels : list string) :
  slice_strings (Some (Some <$> labels)) = Some labels.
Proof.
  unfold slice_strings. simpl. apply mapM_Some. induction labels; by constructor.
Qed.

Lemma slice_strings_Some s labels :
  slice_strings s = Some labels → range_slice s = Some <$> labels.
Proof.
  unfold slice_strings. intros Hm%mapM_Some. induction Hm as [|x y l k Hxy _ IH]; [done|].
  simpl in *. by rewrite Hxy, IH.
Qed.

Lemma slice_strings_nil : slice_strings None = Some [].
Proof. done. Qed.
