(* ===== verification/SecretsManager.v ===== *)
(** * The Secrets Manager SDK as src/main.go uses it

    One record per request and response struct, with the fields the source
    sets or reads (a Module per struct, since the structs share field names);
    the interface [SecretsManagerAPI] of the five operations the source
    calls on its client [svc]; the trace events [api_call]; and the [svc_*]
    wrappers, which run an operation against the remote state of the
    process and append the call to the trace. *)

From stdpp Require Import base tactics option list strings gmap.
From S2P Require Import Prelude GoRuntime.

(** * Request and response structs *)

(** Every field of these structs is a pointer in the SDK ([*string],
    [*bool]) and is an [option] here; [[]*string] is an optional list of
    optional strings ([None] is the nil slice). *)

Module DescribeSecretInput.
Record t : Type := mk { SecretId : option string }.
End DescribeSecretInput.

Module DescribeSecretOutput.
Record t : Type := mk {
  RotationEnabled : option bool;
  VersionIdsToStages : gmap string (option (list (option string)));
}.
End DescribeSecretOutput.

Module GetSecretValueInput.
Record t : Type := mk {
  SecretId : option string;
  VersionId : option string;
  VersionStage : option string;
}.
End GetSecretValueInput.

Module GetSecretValueOutput.
Record t : Type := mk { SecretString : option string }.
End GetSecretValueOutput.

Module GetRandomPasswordInput.
Record t : Type := mk { ExcludeCharacters : option string }.
End GetRandomPasswordInput.

Module GetRandomPasswordOutput.
Record t : Type := mk { RandomPassword : option string }.
End GetRandomPasswordOutput.

Module PutSecretValueInput.
Record t : Type := mk {
  SecretId : option string;
  ClientRequestToken : option string;
  SecretString : option string;
  VersionStages : option (list (option string));
}.
End PutSecretValueInput.

Module PutSecretValueOutput.
Record t : Type := mk { VersionId : option string }.
End PutSecretValueOutput.

Module UpdateSecretVersionStageInput.
Record t : Type := mk {
  SecretId : option string;
  VersionStage : option string;
  MoveToVersionId : option string;
  RemoveFromVersionId : option string;
}.
End UpdateSecretVersionStageInput.

Module UpdateSecretVersionStageOutput.
Record t : Type := mk { Name : option string }.
End UpdateSecretVersionStageOutput.

#[export] Instance DescribeSecretInput_eq_dec : EqDecision DescribeSecretInput.t.
Proof. solve_decision. Defined.
#[export] Instance DescribeSecretOutput_eq_dec : EqDecision DescribeSecretOutput.t.
Proof. solve_decision. Defined.
#[export] Instance GetSecretValueInput_eq_dec : EqDecision GetSecretValueInput.t.
Proof. solve_decision. Defined.
#[export] Instance GetSecretValueOutput_eq_dec : EqDecision GetSecretValueOutput.t.
Proof. solve_decision. Defined.
#[export] Instance GetRandomPasswordInput_eq_dec : EqDecision GetRandomPasswordInput.t.
Proof. solve_decision. Defined.
#[export] Instance GetRandomPasswordOutput_eq_dec : EqDecision GetRandomPasswordOutput.t.
Proof. solve_decision. Defined.
#[export] Instance PutSecretValueInput_eq_dec : EqDecision PutSecretValueInput.t.
Proof. solve_decision. Defined.
#[export] Instance PutSecretValueOutput_eq_dec : EqDecision PutSecretValueOutput.t.
Proof. solve_decision. Defined.
#[export] Instance UpdateSecretVersionStageInput_eq_dec :
  EqDecision UpdateSecretVersionStageInput.t.
Proof. solve_decision. Defined.
#[export] Instance UpdateSecretVersionStageOutput_eq_dec :
  EqDecision UpdateSecretVersionStageOutput.t.
Proof. solve_decision. Defined.

(** The two staging labels the rotation protocol moves, and the error code
    the source compares with on line 98. *)
Definition AWSCURRENT : string := "AWSCURRENT".
Definition AWSPENDING : string := "AWSPENDING".
Definition ErrCodeResourceNotFoundException : string := "ResourceNotFoundException".

(** * The client interface *)

(** The operations of [*secretsmanager.SecretsManager] that the source
    calls, over an abstract state [Σ] of the remote service.  A Go result
    [(out, err)] is [inl out] when [err] is nil and [inr err] otherwise. *)
Class SecretsManagerAPI (Σ : Type) : Type := {
  DescribeSecret :
    DescribeSecretInput.t → Σ → (DescribeSecretOutput.t + error) * Σ;
  GetSecretValue :
    GetSecretValueInput.t → Σ → (GetSecretValueOutput.t + error) * Σ;
  GetRandomPassword :
    GetRandomPasswordInput.t → Σ → (GetRandomPasswordOutput.t + error) * Σ;
  PutSecretValue :
    PutSecretValueInput.t → Σ → (PutSecretValueOutput.t + error) * Σ;
  UpdateSecretVersionStage :
    UpdateSecretVersionStageInput.t → Σ →
    (UpdateSecretVersionStageOutput.t + error) * Σ;
}.

(** * The trace *)

(** One event per call to the service, with the request it carried. *)
Inductive api_call : Type :=
| DescribeSecretCall (i : DescribeSecretInput.t)
| GetSecretValueCall (i : GetSecretValueInput.t)
| GetRandomPasswordCall (i : GetRandomPasswordInput.t)
| PutSecretValueCall (i : PutSecretValueInput.t)
| UpdateSecretVersionStageCall (i : UpdateSecretVersionStageInput.t).

#[export] Instance api_call_eq_dec : EqDecision api_call.
Proof. solve_decision. Defined.

(** The calls that can change the secret. *)
Definition mutating (c : api_call) : bool :=
  match c with
  | PutSecretValueCall _ | UpdateSecretVersionStageCall _ => true
  | _ => false
  end.

(** The mutating calls of a trace, in order. *)
Definition mutations (tr : list api_call) : list api_call :=
  filter (λ c, mutating c = true) tr.

(** The calls an invocation added to the trace. *)
Definition new_calls {Σ} (w w' : world Σ api_call) : list api_call :=
  drop (length (calls w)) (calls w').

Abbreviation sm Σ A := (go Σ api_call A).

(** The world [w] after the calls [cs] have been made and have left the
    remote state [σ']. *)
Definition called {Σ} (w : world Σ api_call) (σ' : Σ) (cs : list api_call)
    : world Σ api_call :=
  World σ' (calls w ++ cs) (logs w).

(** * Calling the service *)

Section calls.
Context `{SecretsManagerAPI Σ}.
Implicit Types (w : world Σ api_call).

(** A call of [svc.Op(input)]: the operation runs on the remote state and
    the call is recorded. *)
Definition call {I O : Type} (op : I → Σ → (O + error) * Σ)
    (event : I → api_call) (input : I) : sm Σ (O + error) :=
  λ w, (Returned (op input (remote w)).1,
        World (op input (remote w)).2 (calls w ++ [event input]) (logs w)).

Definition svc_DescribeSecret := call DescribeSecret DescribeSecretCall.
Definition svc_GetSecretValue := call GetSecretValue GetSecretValueCall.
Definition svc_GetRandomPassword := call GetRandomPassword GetRandomPasswordCall.
Definition svc_PutSecretValue := call PutSecretValue PutSecretValueCall.
Definition svc_UpdateSecretVersionStage :=
  call UpdateSecretVersionStage UpdateSecretVersionStageCall.

Lemma call_run {I O} (op : I → Σ → (O + error) * Σ) event input w r σ' :
  op input (remote w) = (r, σ') →
  call op event input w =
  (Returned r, World σ' (calls w ++ [event input]) (logs w)).
Proof. unfold call. by intros ->. Qed.

(** A call never panics. *)
Lemma call_returns {I O} (op : I → Σ → (O + error) * Σ) event input w :
  ∃ r, (call op event input w).1 = Returned r.
Proof. by eexists. Qed.

Lemma call_grows {I O} (op : I → Σ → (O + error) * Σ) event input :
  preserves grows (call op event input).
Proof. intros w. split; simpl; [by apply prefix_app_r | done]. Qed.

Lemma call_logs {I O} (op : I → Σ → (O + error) * Σ) event input w :
  logs (call op event input w).2 = logs w.
Proof. done. Qed.

(** A call followed by the rest of the function: the rest runs on the
    result of the operation, in the world the call left. *)
Lemma bind_call {I O B} (op : I → Σ → (O + error) * Σ) event input
    (k : O + error → sm Σ B) w r σ' :
  op input (remote w) = (r, σ') →
  bind (call op event input) k w = k r (called w σ' [event input]).
Proof. intros Hop. by erewrite run_bind_returned by (by apply call_run). Qed.

(** A call followed by steps that issue no call adds that one call. *)
Lemma calls_bind_call_quiet {I O B} (op : I → Σ → (O + error) * Σ) event input
    (k : O + error → sm Σ B) w :
  (∀ r, preserves quiet (k r)) →
  calls (bind (call op event input) k w).2 = calls w ++ [event input].
Proof.
  intros Hk. destruct (op input (remote w)) as [r σ'] eqn:Hop.
  erewrite bind_call by done. by destruct (Hk r (called w σ' [event input])) as [_ ->].
Qed.

Lemma called_called w σ1 σ2 cs1 cs2 :
  called (called w σ1 cs1) σ2 cs2 = called w σ2 (cs1 ++ cs2).
Proof. unfold called. simpl. by rewrite app_assoc. Qed.

Lemma remote_called w σ' cs : remote (called w σ' cs) = σ'.
Proof. done. Qed.

End calls.

#[export] Hint Resolve call_grows : prog.

(** Run the next service call of the goal with a hypothesis that gives its
    result. *)
Ltac run_call :=
  erewrite bind_call by (rewrite ?remote_called; eassumption);
  rewrite ?called_called; simpl.

(** * Traces *)

Section traces.
Context {Σ : Type}.
Implicit Types (w : world Σ api_call) (tr : list api_call).

Lemma mutations_app tr1 tr2 : mutations (tr1 ++ tr2) = mutations tr1 ++ mutations tr2.
Proof. apply filter_app. Qed.

Lemma mutations_nil_iff tr : mutations tr = [] ↔ ∀ c, c ∈ tr → mutating c = false.
Proof.
  unfold mutations. split.
  - intros Hf c Hc. destruct (mutating c) eqn:Hm; [|done].
    by destruct (filter_nil_not_elem_of _ _ c Hf Hm).
  - intros Hf. destruct (filter _ tr) as [|c l] eqn:Hl; [done|].
    assert (c ∈ filter (λ c, mutating c = true) tr) as Hc by (rewrite Hl; left).
    apply list_elem_of_filter in Hc as [Hm Hc]. rewrite (Hf c Hc) in Hm. done.
Qed.

Lemma new_calls_app w w' tr : calls w' = calls w ++ tr → new_calls w w' = tr.
Proof. unfold new_calls. intros ->. by rewrite drop_app_length. Qed.

Lemma new_calls_called w (σ' : Σ) cs : new_calls w (called w σ' cs) = cs.
Proof. by apply new_calls_app. Qed.

Lemma new_calls_logged w w' line : new_calls w (logged w' line) = new_calls w w'.
Proof. done. Qed.

Lemma new_calls_same w w' : calls w' = calls w → new_calls w w' = [].
Proof. intros Heq. apply new_calls_app. by rewrite app_nil_r. Qed.

Lemma new_calls_boot (σ : Σ) w' : new_calls (boot σ) w' = calls w'.
Proof. unfold new_calls. simpl. by rewrite drop_0. Qed.

(** When the world only grew, the trace is the old one followed by the new
    calls. *)
Lemma grows_new_calls w w' : grows w w' → calls w' = calls w ++ new_calls w w'.
Proof.
  intros [[tr Htr] _]. rewrite Htr. f_equal. symmetry. by apply new_calls_app.
Qed.

Lemma quiet_new_calls w w' : quiet w w' → new_calls w w' = [].
Proof. intros [_ Hc]. by apply new_calls_same. Qed.

End traces.

(** The rewrite database [trace] computes the calls an invocation added
    from the shape of the world it left. *)
Create Rewrite HintDb trace.
#[export] Hint Rewrite @new_calls_logged @new_calls_called @called_called
  @remote_called : trace.

(** * Bounding the mutating calls of a program *)

(** [issues n P c]: from any world, [c] appends to the trace (it never
    rewrites it), at most [n] of the calls it appends are mutating, and each
    of those satisfies [P]. *)
Definition issues {Σ A} (n : nat) (P : api_call → Prop) (c : sm Σ A) : Prop :=
  ∀ w, ∃ tr, calls (c w).2 = calls w ++ tr ∧
             length (mutations tr) ≤ n ∧ Forall P (mutations tr).

Section issues.
Context `{SecretsManagerAPI Σ}.
Implicit Types (w : world Σ api_call) (P : api_call → Prop).

Lemma issues_quiet {A} n P (c : sm Σ A) : preserves quiet c → issues n P c.
Proof.
  intros Hc w. exists []. destruct (Hc w) as [_ ->].
  rewrite app_nil_r. repeat split; [simpl; lia | constructor].
Qed.

Lemma issues_weaken {A} n m P (c : sm Σ A) : n ≤ m → issues n P c → issues m P c.
Proof.
  intros Hnm Hc w. destruct (Hc w) as (tr & ? & ? & ?). exists tr.
  repeat split; [done | lia | done].
Qed.

Lemma issues_read {I O} n P (op : I → Σ → (O + error) * Σ) event input :
  mutating (event input) = false → issues n P (call op event input).
Proof.
  intros Hm w. exists [event input]. unfold mutations. simpl.
  rewrite filter_cons_False, filter_nil by (by rewrite Hm).
  repeat split; [simpl; lia | constructor].
Qed.

Lemma issues_write {I O} n P (op : I → Σ → (O + error) * Σ) event input :
  P (event input) → issues (S n) P (call op event input).
Proof.
  intros HP w. exists [event input]. split; [done|]. unfold mutations.
  destruct (mutating (event input)) eqn:Hm.
  - rewrite filter_cons_True, filter_nil by done.
    split; [simpl; lia | by repeat constructor].
  - rewrite filter_cons_False, filter_nil by (by rewrite Hm).
    split; [simpl; lia | constructor].
Qed.

Lemma issues_bind {A B} n m P (c : sm Σ A) (k : A → sm Σ B) :
  issues n P c → (∀ a, issues m P (k a)) → issues (n + m) P (bind c k).
Proof.
  intros Hc Hk w. destruct (Hc w) as (tr1 & Htr1 & Hn & HP1). unfold bind.
  destruct (c w) as [[a|p] w1]; simpl in *.
  - destruct (Hk a w1) as (tr2 & Htr2 & Hm & HP2). exists (tr1 ++ tr2).
    rewrite Htr2, Htr1, app_assoc, mutations_app, length_app, Forall_app.
    repeat split; [lia | done..].
  - exists tr1. repeat split; [done | lia | done].
Qed.

(** Reads first, then a program with its own bound. *)
Lemma issues_bind_read {A B} n P (c : sm Σ A) (k : A → sm Σ B) :
  issues 0 P c → (∀ a, issues n P (k a)) → issues n P (bind c k).
Proof. intros Hc Hk. by apply (issues_bind 0 n). Qed.

(** A program without calls first, whose result decides what follows:
    the bound is needed for the results it can return only. *)
Lemma issues_bind_result {A B} n P (Q : A → Prop) (c : sm Σ A) (k : A → sm Σ B) :
  preserves quiet c → (∀ w a w', c w = (Returned a, w') → Q a) →
  (∀ a, Q a → issues n P (k a)) → issues n P (bind c k).
Proof.
  intros Hc HQ Hk w. unfold bind. pose proof (Hc w) as [_ Hcalls].
  destruct (c w) as [[a|p] w1] eqn:Hrun; simpl in *.
  - destruct (Hk a (HQ _ _ _ Hrun) w1) as (tr & Htr & ?). exists tr.
    by rewrite Htr, Hcalls.
  - exists []. rewrite Hcalls, app_nil_r. repeat split; [simpl; lia|constructor].
Qed.

(** What a bound says about the calls an invocation added. *)
Lemma issues_new_calls {A} n P (c : sm Σ A) w :
  issues n P c →
  length (mutations (new_calls w (c w).2)) ≤ n ∧
  Forall P (mutations (new_calls w (c w).2)).
Proof.
  intros Hc. destruct (Hc w) as (tr & Htr & Hn & HP).
  by rewrite (new_calls_app _ _ _ Htr).
Qed.

End issues.

#[export] Hint Resolve issues_quiet issues_read : prog.

(** Prove a bound on the mutating calls of a program built from binds,
    matches and conditionals: quiet steps and reads cost nothing. *)
Ltac solve_issues :=
  repeat first
    [ progress intros
    | progress cbv zeta
    | solve [eauto]
    | solve [apply issues_quiet; solve_preserves]
    | solve [apply issues_read; reflexivity]
    | apply issues_bind_read
    | match goal with
      | |- issues _ _ (match ?x with _ => _ end) => destruct x
      | |- issues _ _ (if ?b then _ else _) => destruct b
      end ].

(** * Invariants of the service *)

(** A property of the remote state that every operation maintains,
    whatever the request and whether it is accepted or refused. *)
Class ServiceInvariant `{SecretsManagerAPI Σ} (Inv : Σ → Prop) : Prop := {
  describe_keeps i σ : Inv σ → Inv (DescribeSecret i σ).2;
  get_keeps i σ : Inv σ → Inv (GetSecretValue i σ).2;
  random_keeps i σ : Inv σ → Inv (GetRandomPassword i σ).2;
  put_keeps i σ : Inv σ → Inv (PutSecretValue i σ).2;
  update_keeps i σ : Inv σ → Inv (UpdateSecretVersionStage i σ).2;
}.

(** The order on worlds that a program maintaining [Inv] preserves. *)
Definition keeps {Σ} (Inv : Σ → Prop) (w w' : world Σ api_call) : Prop :=
  Inv (remote w) → Inv (remote w').

#[export] Instance keeps_preorder {Σ} (Inv : Σ → Prop) : PreOrder (keeps Inv).
Proof. split; unfold keeps; [by intros w | intros w1 w2 w3; tauto]. Qed.

Section invariants.
Context `{SecretsManagerAPI Σ} (Inv : Σ → Prop) `{!ServiceInvariant Inv}.

Lemma quiet_keeps {A} (c : sm Σ A) : preserves quiet c → preserves (keeps Inv) c.
Proof. intros Hc w. unfold keeps. by destruct (Hc w) as [-> _]. Qed.

Lemma call_keeps {I O} (op : I → Σ → (O + error) * Σ) event input :
  (∀ σ, Inv σ → Inv (op input σ).2) → preserves (keeps Inv) (call op event input).
Proof. intros Hop w Hw. by apply Hop. Qed.

Lemma svc_DescribeSecret_keeps i : preserves (keeps Inv) (svc_DescribeSecret i).
Proof. apply call_keeps, describe_keeps. Qed.
Lemma svc_GetSecretValue_keeps i : preserves (keeps Inv) (svc_GetSecretValue i).
Proof. apply call_keeps, get_keeps. Qed.
Lemma svc_GetRandomPassword_keeps i : preserves (keeps Inv) (svc_GetRandomPassword i).
Proof. apply call_keeps, random_keeps. Qed.
Lemma svc_PutSecretValue_keeps i : preserves (keeps Inv) (svc_PutSecretValue i).
Proof. apply call_keeps, put_keeps. Qed.
Lemma svc_UpdateSecretVersionStage_keeps i :
  preserves (keeps Inv) (svc_UpdateSecretVersionStage i).
Proof. apply call_keeps, update_keeps. Qed.

End invariants.

#[export] Hint Resolve svc_DescribeSecret_keeps svc_GetSecretValue_keeps
  svc_GetRandomPassword_keeps svc_PutSecretValue_keeps
  svc_UpdateSecretVersionStage_keeps : prog.
#[export] Hint Extern 5 (preserves (keeps _) _) =>
  apply quiet_keeps; solve [eauto with prog] : prog.

(** * Bounding all the calls of a program *)

(** The secret a call is about: the SecretId of its request.  Generating a
    password concerns no secret. *)
Definition call_secret (c : api_call) : option (option string) :=
  match c with
  | DescribeSecretCall i => Some (DescribeSecretInput.SecretId i)
  | GetSecretValueCall i => Some (GetSecretValueInput.SecretId i)
  | GetRandomPasswordCall _ => None
  | PutSecretValueCall i => Some (PutSecretValueInput.SecretId i)
  | UpdateSecretVersionStageCall i => Some (UpdateSecretVersionStageInput.SecretId i)
  end.

(** [c] is about the secret [Arn], or about none. *)
Definition about (Arn : option string) (c : api_call) : Prop :=
  ∀ id, call_secret c = Some id → id = Arn.

(** [emits n P c]: from any world, [c] appends at most [n] calls to the
    trace, each of which satisfies [P]. *)
Definition emits {Σ A} (n : nat) (P : api_call → Prop) (c : sm Σ A) : Prop :=
  ∀ w, ∃ tr, calls (c w).2 = calls w ++ tr ∧ length tr ≤ n ∧ Forall P tr.

Section emits.
Context `{SecretsManagerAPI Σ}.
Implicit Types (w : world Σ api_call) (P : api_call → Prop).

Lemma emits_quiet {A} n P (c : sm Σ A) : preserves quiet c → emits n P c.
Proof.
  intros Hc w. exists []. destruct (Hc w) as [_ ->].
  rewrite app_nil_r. repeat split; [simpl; lia | constructor].
Qed.

Lemma emits_bind {A B} n m P (c : sm Σ A) (k : A → sm Σ B) :
  emits n P c → (∀ a, emits m P (k a)) → emits (n + m) P (bind c k).
Proof.
  intros Hc Hk w. destruct (Hc w) as (tr1 & Htr1 & Hn & HP1). unfold bind.
  destruct (c w) as [[a|p] w1]; simpl in *.
  - destruct (Hk a w1) as (tr2 & Htr2 & Hm & HP2). exists (tr1 ++ tr2).
    rewrite Htr2, Htr1, app_assoc, length_app, Forall_app.
    repeat split; [lia | done..].
  - exists tr1. repeat split; [done | lia | done].
Qed.

(** A call and the rest of the function. *)
Lemma emits_bind_call {I O B} n P (op : I → Σ → (O + error) * Σ) event input
    (k : O + error → sm Σ B) :
  P (event input) → (∀ r, emits n P (k r)) →
  emits (S n) P (bind (call op event input) k).
Proof.
  intros HP Hk. apply (emits_bind 1 n); [|done].
  intros w. exists [event input]. repeat split; [done|by repeat constructor].
Qed.

(** A step that calls nothing and the rest of the function. *)
Lemma emits_bind_quiet {A B} n P (c : sm Σ A) (k : A → sm Σ B) :
  preserves quiet c → (∀ a, emits n P (k a)) → emits n P (bind c k).
Proof. intros Hc Hk. apply (emits_bind 0 n); [by apply emits_quiet|done]. Qed.

Lemma emits_weaken {A} n m P (c : sm Σ A) : n ≤ m → emits n P c → emits m P c.
Proof.
  intros Hnm Hc w. destruct (Hc w) as (tr & ? & ? & ?). exists tr.
  repeat split; [done | lia | done].
Qed.

Lemma emits_new_calls {A} n P (c : sm Σ A) w :
  emits n P c →
  length (new_calls w (c w).2) ≤ n ∧ Forall P (new_calls w (c w).2).
Proof.
  intros Hc. destruct (Hc w) as (tr & Htr & Hn & HP).
  by rewrite (new_calls_app _ _ _ Htr).
Qed.

End emits.

(** Prove a bound on the calls of a program built from binds, matches and
    conditionals; the facts about its parts are taken from the context. *)
Ltac solve_emits :=
  repeat first
    [ progress intros
    | progress cbv zeta
    | solve [eauto]
    | solve [apply emits_quiet; solve_preserves]
    | apply emits_bind_call; [by intros ? [= <-]|]
    | apply emits_bind_quiet; [solve [solve_preserves]|]
    | match goal with
      | |- emits _ _ (match ?x with _ => _ end) => destruct x
      | |- emits _ _ (if ?b then _ else _) => destruct b
      | H : emits ?n _ ?c |- emits ?m _ ?c => apply (emits_weaken n m); [lia|exact H]
      | H : emits ?n _ ?c |- emits ?m _ (bind ?c _) =>
          apply (emits_weaken (n + 0) m); [lia|apply (emits_bind n 0); [exact H|]]
      end ].

(** * Programs whose mutating call is their last call *)

(** [writes_last c]: from any world, [c] appends to the trace, and every
    call it appends but the last is a read.  A program of this shape that
    is stopped between two calls has changed nothing. *)
Definition writes_last {Σ A} (c : sm Σ A) : Prop :=
  ∀ w, ∃ tr, calls (c w).2 = calls w ++ tr ∧
             ∀ k x, tr !! k = Some x → S k < length tr → mutating x = false.

Section writes_last.
Context `{SecretsManagerAPI Σ}.
Implicit Types (w : world Σ api_call).

Lemma writes_last_quiet {A} (c : sm Σ A) : preserves quiet c → writes_last c.
Proof.
  intros Hc w. exists []. destruct (Hc w) as [_ ->]. by rewrite app_nil_r.
Qed.

Lemma writes_last_call {I O} (op : I → Σ → (O + error) * Σ) event input :
  writes_last (call op event input).
Proof. intros w. exists [event input]. split; [done|]. intros [|k] x; simpl; [lia|done]. Qed.

(** Reads first, then a program that writes last. *)
Lemma writes_last_bind_read {A B} (c : sm Σ A) (k : A → sm Σ B) :
  issues 0 (λ _, True) c → (∀ a, writes_last (k a)) → writes_last (bind c k).
Proof.
  intros Hc Hk w. destruct (Hc w) as (tr1 & Htr1 & Hn & _). unfold bind.
  assert (mutations tr1 = []) as Hreads by (apply length_zero_iff_nil; lia).
  rewrite mutations_nil_iff in Hreads.
  destruct (c w) as [[a|p] w1]; simpl in *.
  - destruct (Hk a w1) as (tr2 & Htr2 & Hlast). exists (tr1 ++ tr2).
    split; [by rewrite Htr2, Htr1, app_assoc|]. intros i x Hx Hi.
    rewrite length_app in Hi. apply lookup_app_Some in Hx as [Hx|[? Hx]].
    + by eapply Hreads, list_elem_of_lookup_2.
    + apply (Hlast _ _ Hx). lia.
  - exists tr1. split; [done|]. intros i x Hx _. by eapply Hreads, list_elem_of_lookup_2.
Qed.

(** A program that writes last, then steps that call nothing. *)
Lemma writes_last_bind_quiet {A B} (c : sm Σ A) (k : A → sm Σ B) :
  writes_last c → (∀ a, preserves quiet (k a)) → writes_last (bind c k).
Proof.
  intros Hc Hk w. destruct (Hc w) as (tr & Htr & Hlast). unfold bind.
  destruct (c w) as [[a|p] w1]; simpl in *; exists tr; [|done].
  by destruct (Hk a w1) as [_ ->].
Qed.

Lemma writes_last_new_calls {A} (c : sm Σ A) w k x :
  writes_last c → new_calls w (c w).2 !! k = Some x →
  S k < length (new_calls w (c w).2) → mutating x = false.
Proof.
  intros Hc. destruct (Hc w) as (tr & Htr & Hlast).
  rewrite (new_calls_app _ _ _ Htr). apply Hlast.
Qed.

End writes_last.

(** Prove that a program built from binds, matches and conditionals makes
    its mutating call last; the facts about its parts are taken from the
    context. *)
Ltac solve_writes_last :=
  repeat first
    [ progress intros
    | progress cbv zeta
    | solve [eauto]
    | solve [apply writes_last_quiet; solve_preserves]
    | apply writes_last_call
    | apply writes_last_bind_quiet;
        [solve [eauto | apply writes_last_call]|solve [solve_preserves]]
    | apply writes_last_bind_read; [solve [solve_issues]|]
    | match goal with
      | |- writes_last (match ?x with _ => _ end) => destruct x
      | |- writes_last (if ?b then _ else _) => destruct b
      end ].
