(* ===== verification/Store.v ===== *)
(** * A reference secret store

    The remote service is not part of the repository.  This file gives a
    reference implementation of the five operations the program consumes,
    written from the specification's data model (a secret has a rotation
    flag and versions; a version has an optional value and staging labels;
    a label sits on at most one version) and its description of the
    operations.  The handlers are verified against the interface
    [SecretsManagerAPI]; this store is the instance against which the
    scenarios run.  The file also proves what the store guarantees to its
    clients: every operation maintains consistency ([store_consistent]),
    a value can be read after it was written, labels move as asked, and
    generated passwords have the length and the characters asked for.

    Choices where the specification is silent: a version without labels is
    not reported by DescribeSecret; PutSecretValue with the value a version
    already has is accepted (it only adds the labels that are missing),
    with another value it is refused; a label that another version holds is
    never taken away by
    PutSecretValue (the request is refused); UpdateSecretVersionStage
    refuses to remove a label from a version that does not hold it, and to
    leave AWSCURRENT on no version. *)

From Stdlib Require Import Ascii.
From stdpp Require Import base tactics option list strings gmap numbers.
From S2P Require Import Prelude GoRuntime SecretsManager.

(** * State *)

Record version : Type := Version {
  value : option string;
  stages : list string;
}.

Record secret : Type := Secret {
  rotation_enabled : option bool;
  versions : gmap string version;
}.

Record store : Type := Store {
  secrets : gmap string secret;
  seed : N;
}.

#[export] Instance version_eq_dec : EqDecision version.
Proof. solve_decision. Defined.
#[export] Instance secret_eq_dec : EqDecision secret.
Proof. solve_decision. Defined.
#[export] Instance store_eq_dec : EqDecision store.
Proof. solve_decision. Defined.

(** * Errors of the service *)

Definition ResourceNotFound (what : string) : error :=
  awserrError ErrCodeResourceNotFoundException what.
Definition InvalidParameter (what : string) : error :=
  awserrError "InvalidParameterException" what.
Definition InvalidRequest (what : string) : error :=
  awserrError "InvalidRequestException" what.
Definition ResourceExists (what : string) : error :=
  awserrError "ResourceExistsException" what.

(** * Queries on a secret *)

(** The versions that carry the label [stage]. *)
Definition holders (stage : string) (vs : gmap string version) : gmap string version :=
  filter (λ kv, stage ∈ stages kv.2) vs.

(** The identifier of a version that carries [stage], when there is one. *)
Definition holder (stage : string) (vs : gmap string version) : option string :=
  head (elements (dom (holders stage vs))).

(** Some version other than [id] carries [stage]. *)
Definition held_elsewhere (stage id : string) (vs : gmap string version) : bool :=
  bool_decide (holders stage (delete id vs) ≠ ∅).

(** The version map as DescribeSecret reports it: the versions that carry
    at least one label, each with the slice of its labels. *)
Definition describe_versions (vs : gmap string version)
    : gmap string (option (list (option string))) :=
  (λ v, Some (Some <$> stages v)) <$> filter (λ kv, stages kv.2 ≠ []) vs.

(** * Random passwords *)

(** The printable ASCII characters from which passwords are drawn. *)
Definition alphabet : list ascii := ascii_of_nat <$> seq 33 94.

(** The characters a password may use when those of [exclude] are barred. *)
Definition pool (exclude : string) : list ascii :=
  filter (λ c, c ∉ String.list_ascii_of_string exclude) alphabet.

Definition next_seed (s : N) : N := ((s * 1103515245 + 12345) mod 2147483648)%N.

Fixpoint draw (n : nat) (s : N) (cs : list ascii) : string :=
  match n with
  | O => EmptyString
  | S n' =>
      match cs !! N.to_nat (s mod N.of_nat (length cs))%N with
      | Some c => String c (draw n' (next_seed s) cs)
      | None => EmptyString
      end
  end.

Definition password_length : nat := 32.

(** * Operations *)

Definition store_DescribeSecret (i : DescribeSecretInput.t) (σ : store)
    : (DescribeSecretOutput.t + error) * store :=
  match DescribeSecretInput.SecretId i with
  | None => (inr (InvalidParameter "SecretId is required"), σ)
  | Some arn =>
      match secrets σ !! arn with
      | None => (inr (ResourceNotFound "secret not found"), σ)
      | Some s =>
          (inl {| DescribeSecretOutput.RotationEnabled := rotation_enabled s;
                  DescribeSecretOutput.VersionIdsToStages :=
                    describe_versions (versions s) |}, σ)
      end
  end.

(** The version a GetSecretValue request designates: by identifier when one
    is given (and then it must carry the requested label, if any), else by
    label, AWSCURRENT when none is given. *)
Definition select_version (vid stage : option string) (vs : gmap string version)
    : option version :=
  match vid with
  | Some id =>
      v ← vs !! id;
      match stage with
      | Some st => if decide (st ∈ stages v) then Some v else None
      | None => Some v
      end
  | None => id ← holder (default AWSCURRENT stage) vs; vs !! id
  end.

Definition store_GetSecretValue (i : GetSecretValueInput.t) (σ : store)
    : (GetSecretValueOutput.t + error) * store :=
  match GetSecretValueInput.SecretId i with
  | None => (inr (InvalidParameter "SecretId is required"), σ)
  | Some arn =>
      match secrets σ !! arn with
      | None => (inr (ResourceNotFound "secret not found"), σ)
      | Some s =>
          match select_version (GetSecretValueInput.VersionId i)
                  (GetSecretValueInput.VersionStage i) (versions s) ≫= value with
          | Some val => (inl {| GetSecretValueOutput.SecretString := Some val |}, σ)
          | None => (inr (ResourceNotFound "secret value not found"), σ)
          end
      end
  end.

Definition store_GetRandomPassword (i : GetRandomPasswordInput.t) (σ : store)
    : (GetRandomPasswordOutput.t + error) * store :=
  let cs := pool (default EmptyString (GetRandomPasswordInput.ExcludeCharacters i)) in
  match cs with
  | [] => (inr (InvalidParameter "every character is excluded"), σ)
  | _ =>
      (inl {| GetRandomPasswordOutput.RandomPassword :=
                Some (draw password_length (seed σ) cs) |},
       Store (secrets σ) (N.iter (N.of_nat password_length) next_seed (seed σ)))
  end.

(** Give version [id] the value [val] and the labels [sts] on top of those
    it has. *)
Definition put_version (id val : string) (sts : list string)
    (vs : gmap string version) : gmap string version :=
  let old := default [] (stages <$> vs !! id) in
  <[id := Version (Some val) (old ++ filter (λ st, st ∉ old) sts)]> vs.

Definition set_versions (arn : string) (s : secret) (vs : gmap string version)
    (σ : store) : store :=
  Store (<[arn := Secret (rotation_enabled s) vs]> (secrets σ)) (seed σ).

Definition store_PutSecretValue (i : PutSecretValueInput.t) (σ : store)
    : (PutSecretValueOutput.t + error) * store :=
  match PutSecretValueInput.SecretId i, PutSecretValueInput.ClientRequestToken i,
        PutSecretValueInput.SecretString i,
        slice_strings (PutSecretValueInput.VersionStages i) with
  | Some arn, Some tok, Some val, Some sts =>
      match secrets σ !! arn with
      | None => (inr (ResourceNotFound "secret not found"), σ)
      | Some s =>
          if decide (versions s !! tok ≫= value ∈ [None; Some val]) then
            if existsb (λ st, held_elsewhere st tok (versions s)) sts
            then (inr (InvalidRequest "a label is attached to another version"), σ)
            else (inl {| PutSecretValueOutput.VersionId := Some tok |},
                  set_versions arn s (put_version tok val sts (versions s)) σ)
          else (inr (ResourceExists "the version has another value"), σ)
      end
  | _, _, _, _ => (inr (InvalidParameter "missing or malformed parameter"), σ)
  end.

Definition remove_stage (st id : string) (vs : gmap string version)
    : gmap string version :=
  alter (λ v, Version (value v) (filter (λ s, s ≠ st) (stages v))) id vs.

Definition add_stage (st id : string) (vs : gmap string version)
    : gmap string version :=
  alter (λ v, Version (value v)
                (if decide (st ∈ stages v) then stages v else st :: stages v)) id vs.

(** Take [st] off the version [from], which must hold it. *)
Definition detach (st : string) (from : option string) (vs : gmap string version)
    : gmap string version + error :=
  match from with
  | None => inl vs
  | Some id =>
      if decide (is_Some (holders st vs !! id)) then inl (remove_stage st id vs)
      else inr (InvalidParameter "the label is not attached to RemoveFromVersionId")
  end.

(** Put [st] on the version [to], which must exist, provided no other
    version holds it.  Without a target, AWSCURRENT may not be dropped and
    a request that names no version at all is refused. *)
Definition attach (st : string) (to from : option string) (vs : gmap string version)
    : gmap string version + error :=
  match to with
  | Some id =>
      match vs !! id with
      | None => inr (ResourceNotFound "version not found")
      | Some _ =>
          if held_elsewhere st id vs
          then inr (InvalidParameter "the label is attached to another version")
          else inl (add_stage st id vs)
      end
  | None =>
      if decide (from = None ∨ st = AWSCURRENT)
      then inr (InvalidParameter "no version to move the label to")
      else inl vs
  end.

Definition store_UpdateSecretVersionStage (i : UpdateSecretVersionStageInput.t)
    (σ : store) : (UpdateSecretVersionStageOutput.t + error) * store :=
  match UpdateSecretVersionStageInput.SecretId i,
        UpdateSecretVersionStageInput.VersionStage i with
  | Some arn, Some st =>
      match secrets σ !! arn with
      | None => (inr (ResourceNotFound "secret not found"), σ)
      | Some s =>
          let from := UpdateSecretVersionStageInput.RemoveFromVersionId i in
          let to := UpdateSecretVersionStageInput.MoveToVersionId i in
          match detach st from (versions s) with
          | inr e => (inr e, σ)
          | inl vs1 =>
              match attach st to from vs1 with
              | inr e => (inr e, σ)
              | inl vs2 =>
                  (inl {| UpdateSecretVersionStageOutput.Name := Some arn |},
                   set_versions arn s vs2 σ)
              end
          end
      end
  | _, _ => (inr (InvalidParameter "missing parameter"), σ)
  end.

#[export] Instance store_api : SecretsManagerAPI store := {|
  DescribeSecret := store_DescribeSecret;
  GetSecretValue := store_GetSecretValue;
  GetRandomPassword := store_GetRandomPassword;
  PutSecretValue := store_PutSecretValue;
  UpdateSecretVersionStage := store_UpdateSecretVersionStage;
|}.

(** * Consistency

    The invariant of the specification's data model: within a secret a
    label sits on at most one version, and one version holds AWSCURRENT. *)
Definition one_holder (vs : gmap string version) : Prop :=
  map_Forall (λ id1 v1,
    map_Forall (λ id2 v2,
      Forall (λ st, st ∈ stages v2 → id1 = id2) (stages v1)) vs) vs.

Definition consistent (s : secret) : Prop :=
  one_holder (versions s) ∧ is_Some (holder AWSCURRENT (versions s)).

Definition store_consistent (σ : store) : Prop :=
  map_Forall (λ _, consistent) (secrets σ).

#[export] Instance one_holder_dec vs : Decision (one_holder vs).
Proof. unfold one_holder. apply _. Defined.
#[export] Instance consistent_dec s : Decision (consistent s).
Proof. unfold consistent. apply _. Defined.
#[export] Instance store_consistent_dec σ : Decision (store_consistent σ).
Proof. unfold store_consistent. apply _. Defined.

(** * The scenario of the specification

    Secret "db-pwd", enabled for rotation, whose version "v1" holds the
    value "old123" and the label AWSCURRENT, and for which a rotation to
    version "v2" has been started: "v2" carries AWSPENDING and no value. *)
Definition scenario_versions : gmap string version :=
  {[ "v1" := Version (Some "old123") [AWSCURRENT];
     "v2" := Version None [AWSPENDING] ]}.

Definition scenario_store : store :=
  Store {[ "db-pwd" := Secret (Some true) scenario_versions ]} 2024.

(** The same secret with rotation switched off, and with no rotation
    configuration at all. *)
Definition scenario_disabled : store :=
  Store {[ "db-pwd" := Secret (Some false) scenario_versions ]} 2024.

Definition scenario_unconfigured : store :=
  Store {[ "db-pwd" := Secret None scenario_versions ]} 2024.

(** The password the generator hands out in the scenario (seed 2024,
    excluding slash, at sign, quote, double quote and backslash), the
    store once "v2" holds it, and the store once "v2" has been promoted. *)
Definition scenario_password : string := "hjmm^ToLw;wZLm24NW58_knfD=?~Q`#2".

Definition scenario_seed : N := N.iter (N.of_nat password_length) next_seed 2024%N.

Definition scenario_created : store :=
  Store {[ "db-pwd" := Secret (Some true)
             {[ "v1" := Version (Some "old123") [AWSCURRENT];
                "v2" := Version (Some scenario_password) [AWSPENDING] ]} ]}
    scenario_seed.

Definition scenario_finished : store :=
  Store {[ "db-pwd" := Secret (Some true)
             {[ "v1" := Version (Some "old123") [];
                "v2" := Version (Some scenario_password) [AWSCURRENT; AWSPENDING] ]} ]}
    scenario_seed.

(** The secret during a later rotation: the version "v0" of an earlier
    rotation carries AWSPREVIOUS, "v1" is current and "v2" is pending. *)
Definition scenario_with_previous : store :=
  Store {[ "db-pwd" := Secret (Some true)
             {[ "v0" := Version (Some "older") ["AWSPREVIOUS"];
                "v1" := Version (Some "old123") [AWSCURRENT];
                "v2" := Version (Some scenario_password) [AWSPENDING] ]} ]}
    scenario_seed.

(** A secret without any version. *)
Definition scenario_empty : store :=
  Store {[ "db-pwd" := Secret (Some true) ∅ ]} 0.

(** * A scripted service

    A stateless client whose answers are given by functions of the
    request: the instance used to exhibit the paths that the reference
    store never takes (errors of the transport, malformed answers). *)
Record script : Type := Script {
  on_describe : DescribeSecretInput.t → DescribeSecretOutput.t + error;
  on_get : GetSecretValueInput.t → GetSecretValueOutput.t + error;
  on_random : GetRandomPasswordInput.t → GetRandomPasswordOutput.t + error;
  on_put : PutSecretValueInput.t → PutSecretValueOutput.t + error;
  on_update : UpdateSecretVersionStageInput.t → UpdateSecretVersionStageOutput.t + error;
}.

#[export] Instance script_api : SecretsManagerAPI script := {|
  DescribeSecret i s := (on_describe s i, s);
  GetSecretValue i s := (on_get s i, s);
  GetRandomPassword i s := (on_random s i, s);
  PutSecretValue i s := (on_put s i, s);
  UpdateSecretVersionStage i s := (on_update s i, s);
|}.

(** A transport failure, which is no [awserr.Error]. *)
Definition timeout : error := foreignError "net/http: request canceled".

(** The script in which every operation fails with [timeout], except that
    the value labelled AWSCURRENT can be read. *)
Definition flaky : script :=
  Script (λ _, inr timeout)
    (λ i, match GetSecretValueInput.VersionId i with
          | None => inl {| GetSecretValueOutput.SecretString := Some "old123" |}
          | Some _ => inr timeout
          end)
    (λ _, inr timeout) (λ _, inr timeout) (λ _, inr timeout).

(** * Facts about the reference store *)

Section store_queries.
Implicit Types (vs : gmap string version) (st id : string) (v : version).

Lemma holders_lookup st vs id v :
  holders st vs !! id = Some v ↔ vs !! id = Some v ∧ st ∈ stages v.
Proof. unfold holders. by rewrite map_lookup_filter_Some. Qed.

Lemma elem_of_holders st vs id :
  id ∈ dom (holders st vs) ↔ ∃ v, vs !! id = Some v ∧ st ∈ stages v.
Proof. rewrite elem_of_dom. unfold is_Some. by setoid_rewrite holders_lookup. Qed.

(** [holder] depends on the identifiers of the holders only. *)
Lemma holder_dom st vs vs' :
  dom (holders st vs) = dom (holders st vs') → holder st vs = holder st vs'.
Proof. unfold holder. by intros ->. Qed.

Lemma holder_Some st vs id :
  holder st vs = Some id → ∃ v, vs !! id = Some v ∧ st ∈ stages v.
Proof.
  unfold holder. intros Hhead. apply elem_of_holders, elem_of_elements.
  destruct (elements _) as [|x l]; simplify_eq/=. left.
Qed.

Lemma holder_None st vs id v :
  holder st vs = None → vs !! id = Some v → st ∉ stages v.
Proof.
  unfold holder. intros Hhead Hv Hst.
  assert (id ∈ elements (dom (holders st vs))) as Hin
    by (apply elem_of_elements, elem_of_holders; eauto).
  destruct (elements _); [by apply elem_of_nil in Hin|done].
Qed.

Lemma held_elsewhere_false st id vs :
  held_elsewhere st id vs = false ↔
  ∀ id' v, id' ≠ id → vs !! id' = Some v → st ∉ stages v.
Proof.
  unfold held_elsewhere. rewrite bool_decide_eq_false. split.
  - intros Hempty id' v Hne Hv Hst. apply Hempty. intros Heq.
    assert (holders st (delete id vs) !! id' = Some v) as Hin
      by (apply holders_lookup; by rewrite lookup_delete_ne).
    by rewrite Heq, lookup_empty in Hin.
  - intros Hfree Hne. apply Hne, map_empty. intros id'.
    destruct (holders st (delete id vs) !! id') as [v|] eqn:Hin; [|done].
    apply holders_lookup in Hin as [Hv Hst].
    apply lookup_delete_Some in Hv as [? Hv]. by destruct (Hfree id' v).
Qed.

(** The labels of a version after [put_version]. *)
Lemma put_version_lookup tok val sts vs :
  put_version tok val sts vs !! tok =
  Some (Version (Some val)
          (let old := default [] (stages <$> vs !! tok) in
           old ++ filter (λ st, st ∉ old) sts)).
Proof. unfold put_version. by rewrite lookup_insert_eq. Qed.

Lemma put_version_lookup_ne tok val sts vs id :
  id ≠ tok → put_version tok val sts vs !! id = vs !! id.
Proof. intros. unfold put_version. by rewrite lookup_insert_ne. Qed.

(** A label that [put_version] is not asked to add is held by the same
    versions afterwards. *)
Lemma put_version_holders st tok val sts vs :
  st ∉ sts → dom (holders st (put_version tok val sts vs)) = dom (holders st vs).
Proof.
  intros Hst. apply set_eq. intros id. rewrite !elem_of_holders.
  destruct (decide (id = tok)) as [->|Hne];
    [|by rewrite put_version_lookup_ne].
  rewrite put_version_lookup. split.
  - intros (v & [= <-] & Hin). simpl in Hin.
    apply elem_of_app in Hin as [Hin|Hin];
      [|by apply list_elem_of_filter in Hin as [_ ?]].
    destruct (vs !! tok) as [v|]; [by eauto|by apply elem_of_nil in Hin].
  - intros (v & Hv & Hin). eexists. split; [done|]. rewrite Hv. simpl.
    apply elem_of_app. by left.
Qed.

End store_queries.

(** * The operations, case by case *)

Section store_operations.
Implicit Types (σ : store) (s : secret) (vs : gmap string version).

Lemma store_DescribeSecret_state i σ : (store_DescribeSecret i σ).2 = σ.
Proof. unfold store_DescribeSecret. by repeat case_match. Qed.

Lemma store_GetSecretValue_state i σ : (store_GetSecretValue i σ).2 = σ.
Proof. unfold store_GetSecretValue. by repeat case_match. Qed.

(** Reading a value looks at the secrets only, not at the generator. *)
Lemma store_GetSecretValue_secrets i σ σ' :
  secrets σ = secrets σ' →
  (store_GetSecretValue i σ).1 = (store_GetSecretValue i σ').1.
Proof. unfold store_GetSecretValue. intros ->. by repeat case_match. Qed.

Lemma store_GetSecretValue_found arn vid stage σ s :
  secrets σ !! arn = Some s →
  (store_GetSecretValue (GetSecretValueInput.mk (Some arn) vid stage) σ).1 =
  match select_version vid stage (versions s) ≫= value with
  | Some val => inl {| GetSecretValueOutput.SecretString := Some val |}
  | None => inr (ResourceNotFound "secret value not found")
  end.
Proof. unfold store_GetSecretValue. simpl. intros ->. by case_match. Qed.

Lemma store_GetRandomPassword_secrets i σ :
  secrets (store_GetRandomPassword i σ).2 = secrets σ.
Proof. unfold store_GetRandomPassword. by case_match. Qed.

(** An accepted PutSecretValue: what was asked and what it did. *)
Lemma store_PutSecretValue_done i σ out σ' :
  store_PutSecretValue i σ = (inl out, σ') →
  ∃ arn tok val sts s,
    PutSecretValueInput.SecretId i = Some arn ∧
    PutSecretValueInput.ClientRequestToken i = Some tok ∧
    PutSecretValueInput.SecretString i = Some val ∧
    slice_strings (PutSecretValueInput.VersionStages i) = Some sts ∧
    secrets σ !! arn = Some s ∧
    versions s !! tok ≫= value ∈ [None; Some val] ∧
    Forall (λ st, held_elsewhere st tok (versions s) = false) sts ∧
    σ' = set_versions arn s (put_version tok val sts (versions s)) σ.
Proof.
  unfold store_PutSecretValue. intros Hput.
  repeat case_match; simplify_eq. eexists _, _, _, _, _.
  repeat (split; [done|]). split; [|done].
  apply List.Forall_forall. intros st Hst. apply not_true_iff_false. intros Hheld.
  match goal with Hnone : existsb _ _ = false |- _ =>
    apply not_true_iff_false in Hnone; apply Hnone end.
  apply existsb_exists. by exists st.
Qed.

Lemma store_PutSecretValue_refused i σ err σ' :
  store_PutSecretValue i σ = (inr err, σ') → σ' = σ.
Proof. unfold store_PutSecretValue. intros Hput. by repeat case_match; simplify_eq. Qed.

(** An accepted UpdateSecretVersionStage. *)
Lemma store_UpdateSecretVersionStage_done i σ out σ' :
  store_UpdateSecretVersionStage i σ = (inl out, σ') →
  ∃ arn st s vs1 vs2,
    UpdateSecretVersionStageInput.SecretId i = Some arn ∧
    UpdateSecretVersionStageInput.VersionStage i = Some st ∧
    secrets σ !! arn = Some s ∧
    detach st (UpdateSecretVersionStageInput.RemoveFromVersionId i) (versions s) = inl vs1 ∧
    attach st (UpdateSecretVersionStageInput.MoveToVersionId i)
      (UpdateSecretVersionStageInput.RemoveFromVersionId i) vs1 = inl vs2 ∧
    σ' = set_versions arn s vs2 σ.
Proof.
  unfold store_UpdateSecretVersionStage. intros Hupd.
  repeat case_match; simplify_eq. by eexists _, _, _, _, _.
Qed.

Lemma store_UpdateSecretVersionStage_refused i σ err σ' :
  store_UpdateSecretVersionStage i σ = (inr err, σ') → σ' = σ.
Proof.
  unfold store_UpdateSecretVersionStage. intros Hupd.
  by repeat case_match; simplify_eq.
Qed.

(** A call changes no secret but the one it names. *)
Lemma set_versions_other arn s vs σ arn' :
  arn' ≠ arn → secrets (set_versions arn s vs σ) !! arn' = secrets σ !! arn'.
Proof. intros Hne. unfold set_versions. simpl. by rewrite lookup_insert_ne. Qed.

Lemma store_PutSecretValue_other i σ arn :
  PutSecretValueInput.SecretId i ≠ Some arn →
  secrets (store_PutSecretValue i σ).2 !! arn = secrets σ !! arn.
Proof.
  intros Hne. destruct (store_PutSecretValue i σ) as [[out|err] σ'] eqn:Hput; simpl.
  - apply store_PutSecretValue_done in Hput as (arn' & ? & ? & ? & s & Hid & _ & _ & _ & _ & _ & _ & ->).
    apply set_versions_other. congruence.
  - by apply store_PutSecretValue_refused in Hput as ->.
Qed.

Lemma store_UpdateSecretVersionStage_other i σ arn :
  UpdateSecretVersionStageInput.SecretId i ≠ Some arn →
  secrets (store_UpdateSecretVersionStage i σ).2 !! arn = secrets σ !! arn.
Proof.
  intros Hne.
  destruct (store_UpdateSecretVersionStage i σ) as [[out|err] σ'] eqn:Hupd; simpl.
  - apply store_UpdateSecretVersionStage_done in Hupd as (arn' & ? & s & ? & ? & Hid & _ & _ & _ & _ & ->).
    apply set_versions_other. congruence.
  - by apply store_UpdateSecretVersionStage_refused in Hupd as ->.
Qed.

End store_operations.

(** Close a goal about the holders of a label once the lookups have been
    rewritten: first-order reasoning over the equations in the context. *)
Ltac solve_holders := firstorder (simplify_eq; eauto).

(** * Consistency is preserved *)

Section store_consistency.
Implicit Types (σ : store) (s : secret) (vs : gmap string version) (st id : string).

Lemma one_holder_alt vs :
  one_holder vs ↔
  ∀ st id1 id2, id1 ∈ dom (holders st vs) → id2 ∈ dom (holders st vs) → id1 = id2.
Proof.
  unfold one_holder, map_Forall. setoid_rewrite list.Forall_forall.
  setoid_rewrite elem_of_holders. split.
  - intros Hone st id1 id2 (v1 & Hv1 & Hst1) (v2 & Hv2 & Hst2). eauto.
  - intros Hone id1 v1 Hv1 id2 v2 Hv2 st Hst1 Hst2. eauto 10.
Qed.

Lemma holder_is_Some st vs :
  is_Some (holder st vs) ↔ ∃ id, id ∈ dom (holders st vs).
Proof.
  unfold holder. rewrite head_is_Some. split.
  - destruct (elements _) as [|id l] eqn:Hel; [done|]. intros _. exists id.
    apply elem_of_elements. rewrite Hel. left.
  - intros [id Hid] Hnil. apply elem_of_elements in Hid.
    rewrite Hnil in Hid. by apply elem_of_nil in Hid.
Qed.

(** Under [one_holder] the holder of a label is the version that has it. *)
Lemma holder_unique st vs id :
  one_holder vs → id ∈ dom (holders st vs) → holder st vs = Some id.
Proof.
  intros Hone Hid.
  destruct (holder st vs) as [id'|] eqn:Hholder.
  - f_equal. apply holder_Some, elem_of_holders in Hholder.
    by apply (proj1 (one_holder_alt vs) Hone st).
  - assert (is_Some (holder st vs)) as [? ?] by (apply holder_is_Some; eauto).
    congruence.
Qed.

(** Who holds [st] after [put_version]. *)
Lemma put_version_holder st tok val sts vs id :
  id ∈ dom (holders st (put_version tok val sts vs)) ↔
  id ∈ dom (holders st vs) ∨ (id = tok ∧ st ∈ sts).
Proof.
  rewrite !elem_of_holders.
  destruct (decide (id = tok)) as [->|Hne];
    [|rewrite put_version_lookup_ne by done; solve_holders].
  rewrite put_version_lookup. cbv zeta.
  destruct (vs !! tok) as [v|] eqn:Hv; simpl; split.
  - intros (? & [= <-] & Hin). simpl in Hin.
    apply elem_of_app in Hin as [Hin|Hin]; [by eauto|].
    apply list_elem_of_filter in Hin as [_ ?]. by right.
  - intros Hin. eexists. split; [done|]. simpl. apply elem_of_app.
    destruct (decide (st ∈ stages v)); [by left|].
    right. apply list_elem_of_filter. split; [done|].
    by destruct Hin as [(? & [= <-] & ?)|[_ ?]].
  - intros (? & [= <-] & Hin). simpl in Hin.
    apply list_elem_of_filter in Hin as [_ ?]. by right.
  - intros [(? & ? & ?)|[_ Hin]]; [done|]. eexists. split; [done|]. simpl.
    apply list_elem_of_filter. split; [apply not_elem_of_nil|done].
Qed.

Lemma held_elsewhere_holders st id vs id' :
  held_elsewhere st id vs = false → id' ∈ dom (holders st vs) → id' = id.
Proof.
  rewrite held_elsewhere_false, elem_of_holders. intros Hfree (v & Hv & Hst).
  destruct (decide (id' = id)); [done|]. by destruct (Hfree id' v).
Qed.

Lemma put_version_one_holder tok val sts vs :
  one_holder vs →
  Forall (λ st, held_elsewhere st tok vs = false) sts →
  one_holder (put_version tok val sts vs).
Proof.
  rewrite !one_holder_alt, list.Forall_forall.
  intros Hone Hfree st id1 id2.
  rewrite !put_version_holder.
  intros [H1|[-> H1]] [H2|[-> H2]]; [by apply (Hone st)| | |done].
  - apply (held_elsewhere_holders st tok vs); [by apply Hfree|done].
  - symmetry. apply (held_elsewhere_holders st tok vs); [by apply Hfree|done].
Qed.

(** Who holds a label after [remove_stage] and [add_stage]. *)
Lemma remove_stage_holder st st' id' vs id :
  id ∈ dom (holders st (remove_stage st' id' vs)) ↔
  id ∈ dom (holders st vs) ∧ ¬ (id = id' ∧ st = st').
Proof.
  rewrite !elem_of_holders. unfold remove_stage.
  destruct (decide (id = id')) as [->|Hne].
  - rewrite lookup_alter_eq. destruct (vs !! id') as [v|]; simpl; [|solve_holders].
    split.
    + intros (? & [= <-] & Hin). simpl in Hin.
      apply list_elem_of_filter in Hin as [? ?]. solve_holders.
    + intros [(? & [= <-] & Hin) Hne]. eexists. split; [done|]. simpl.
      apply list_elem_of_filter. solve_holders.
  - rewrite lookup_alter_ne by done. solve_holders.
Qed.

Lemma add_stage_holder st st' id' vs id :
  id ∈ dom (holders st (add_stage st' id' vs)) ↔
  id ∈ dom (holders st vs) ∨ (id = id' ∧ st = st' ∧ is_Some (vs !! id')).
Proof.
  rewrite !elem_of_holders. unfold add_stage.
  destruct (decide (id = id')) as [->|Hne].
  - rewrite lookup_alter_eq. destruct (vs !! id') as [v|]; simpl;
      [|split; [|intros [?|(_ & _ & [? ?])]]; solve_holders].
    split.
    + intros (? & [= <-] & Hin). simpl in Hin. case_decide; [by eauto|].
      apply elem_of_cons in Hin as [->|Hin]; eauto.
    + intros Hin. eexists. split; [done|]. simpl. case_decide.
      * destruct Hin as [(? & [= <-] & ?)|(_ & -> & _)]; done.
      * apply elem_of_cons.
        destruct Hin as [(? & [= <-] & ?)|(_ & -> & _)]; eauto.
  - rewrite lookup_alter_ne by done. solve_holders.
Qed.

End store_consistency.

(** * The operations maintain consistency *)

Section store_invariant.
Implicit Types (σ : store) (s : secret) (vs : gmap string version) (st id : string).

Lemma put_version_current tok val sts vs :
  is_Some (holder AWSCURRENT vs) →
  is_Some (holder AWSCURRENT (put_version tok val sts vs)).
Proof.
  rewrite !holder_is_Some. intros [id Hid]. exists id.
  apply put_version_holder. by left.
Qed.

Lemma remove_stage_one_holder st id vs :
  one_holder vs → one_holder (remove_stage st id vs).
Proof.
  rewrite !one_holder_alt. intros Hone st' id1 id2.
  rewrite !remove_stage_holder. intros [H1 _] [H2 _]. eauto.
Qed.

Lemma add_stage_one_holder st id vs :
  one_holder vs → held_elsewhere st id vs = false → one_holder (add_stage st id vs).
Proof.
  rewrite !one_holder_alt. intros Hone Hfree st' id1 id2.
  rewrite !add_stage_holder.
  intros [H1|(? & ? & _)] [H2|(? & ? & _)]; simplify_eq;
    [by apply (Hone st')| | |done].
  - by apply (held_elsewhere_holders st id vs).
  - symmetry. by apply (held_elsewhere_holders st id vs).
Qed.

Lemma remove_stage_lookup st id vs id' :
  is_Some (remove_stage st id vs !! id') ↔ is_Some (vs !! id').
Proof.
  unfold remove_stage. destruct (decide (id = id')) as [->|?].
  - by rewrite lookup_alter_eq, fmap_is_Some.
  - by rewrite lookup_alter_ne.
Qed.

Lemma held_elsewhere_remove_stage st st' id id' vs :
  held_elsewhere st id vs = false →
  held_elsewhere st id (remove_stage st' id' vs) = false.
Proof.
  rewrite !held_elsewhere_false. intros Hfree id1 v1 Hne Hv1 Hst.
  assert (id1 ∈ dom (holders st (remove_stage st' id' vs))) as Hin
    by (apply elem_of_holders; eauto).
  apply remove_stage_holder in Hin as [(v & Hv & Hin)%elem_of_holders _].
  by destruct (Hfree id1 v).
Qed.

(** The two halves of UpdateSecretVersionStage, together. *)
Lemma update_one_holder st from to vs vs1 vs2 :
  one_holder vs → detach st from vs = inl vs1 → attach st to from vs1 = inl vs2 →
  one_holder vs2.
Proof.
  intros Hone Hdet Hatt.
  assert (one_holder vs1) as Hone1.
  { unfold detach in Hdet. repeat case_match; simplify_eq;
      auto using remove_stage_one_holder. }
  unfold attach in Hatt. repeat case_match; simplify_eq;
    auto using add_stage_one_holder.
Qed.

Lemma detach_keeps_holder st st' from vs vs1 id :
  detach st from vs = inl vs1 → st' ≠ st →
  id ∈ dom (holders st' vs) → id ∈ dom (holders st' vs1).
Proof.
  unfold detach. intros Hdet Hne Hid. repeat case_match; simplify_eq; [|done].
  apply remove_stage_holder. split; [done|]. by intros [_ ?].
Qed.

Lemma attach_keeps_holder st st' to from vs vs2 id :
  attach st to from vs = inl vs2 →
  id ∈ dom (holders st' vs) → id ∈ dom (holders st' vs2).
Proof.
  unfold attach. intros Hatt Hid. repeat case_match; simplify_eq; [|done].
  apply add_stage_holder. by left.
Qed.

Lemma update_current st from to vs vs1 vs2 :
  is_Some (holder AWSCURRENT vs) →
  detach st from vs = inl vs1 → attach st to from vs1 = inl vs2 →
  is_Some (holder AWSCURRENT vs2).
Proof.
  rewrite !holder_is_Some. intros [id Hid] Hdet Hatt.
  unfold attach in Hatt. destruct (decide (st = AWSCURRENT)) as [->|Hne].
  - repeat case_match; simplify_eq; [|exfalso; auto].
    eexists. apply add_stage_holder. right. eauto.
  - exists id. repeat case_match; simplify_eq;
      [apply add_stage_holder; left|]; eauto using detach_keeps_holder.
Qed.

Lemma set_versions_consistent arn s vs σ :
  store_consistent σ → one_holder vs → is_Some (holder AWSCURRENT vs) →
  store_consistent (set_versions arn s vs σ).
Proof. intros Hσ Hone Hcur. by apply map_Forall_insert_2. Qed.

Lemma store_PutSecretValue_consistent i σ :
  store_consistent σ → store_consistent (store_PutSecretValue i σ).2.
Proof.
  intros Hσ. destruct (store_PutSecretValue i σ) as [[out|err] σ'] eqn:Hput;
    [|by rewrite (store_PutSecretValue_refused _ _ _ _ Hput)].
  apply store_PutSecretValue_done in Hput
    as (arn & tok & val & sts & s & _ & _ & _ & _ & Hs & _ & Hfree & ->).
  destruct (Hσ arn s Hs) as [Hone Hcur].
  apply set_versions_consistent;
    auto using put_version_one_holder, put_version_current.
Qed.

Lemma store_UpdateSecretVersionStage_consistent i σ :
  store_consistent σ → store_consistent (store_UpdateSecretVersionStage i σ).2.
Proof.
  intros Hσ. destruct (store_UpdateSecretVersionStage i σ) as [[out|err] σ'] eqn:Hupd;
    [|by rewrite (store_UpdateSecretVersionStage_refused _ _ _ _ Hupd)].
  apply store_UpdateSecretVersionStage_done in Hupd
    as (arn & st & s & vs1 & vs2 & _ & _ & Hs & Hdet & Hatt & ->).
  destruct (Hσ arn s Hs) as [Hone Hcur].
  apply set_versions_consistent; eauto using update_one_holder, update_current.
Qed.

#[export] Instance store_consistent_invariant : ServiceInvariant store_consistent.
Proof.
  split; simpl; intros i σ Hσ.
  - by rewrite store_DescribeSecret_state.
  - by rewrite store_GetSecretValue_state.
  - unfold store_consistent. by rewrite store_GetRandomPassword_secrets.
  - by apply store_PutSecretValue_consistent.
  - by apply store_UpdateSecretVersionStage_consistent.
Qed.

End store_invariant.

(** * Reading after writing *)

Section store_reads.
Implicit Types (σ : store) (s : secret) (vs : gmap string version) (st id : string).

Lemma set_versions_lookup arn s vs σ :
  secrets (set_versions arn s vs σ) !! arn = Some (Secret (rotation_enabled s) vs).
Proof. unfold set_versions. simpl. by rewrite lookup_insert_eq. Qed.

Lemma store_GetSecretValue_written arn vid stage s vs σ :
  (store_GetSecretValue (GetSecretValueInput.mk (Some arn) vid stage)
     (set_versions arn s vs σ)).1 =
  match select_version vid stage vs ≫= value with
  | Some val => inl {| GetSecretValueOutput.SecretString := Some val |}
  | None => inr (ResourceNotFound "secret value not found")
  end.
Proof. apply (store_GetSecretValue_found _ _ _ _ _ (set_versions_lookup _ _ _ _)). Qed.

(** The version just written is found under its identifier with each of
    the labels it was written with. *)
Lemma put_version_select tok val sts vs st :
  st ∈ sts →
  select_version (Some tok) (Some st) (put_version tok val sts vs) ≫= value = Some val.
Proof.
  intros Hst. unfold select_version. rewrite put_version_lookup. simpl.
  rewrite decide_True; [done|].
  assert (tok ∈ dom (holders st (put_version tok val sts vs))) as Hin
    by (apply put_version_holder; auto).
  apply elem_of_holders in Hin as (v & Hv & Hin).
  rewrite put_version_lookup in Hv. by simplify_eq.
Qed.

(** A value that is read by a label which the write does not add is still
    readable afterwards. *)
Lemma put_version_select_label st tok val sts vs :
  st ∉ sts →
  is_Some (select_version None (Some st) vs ≫= value) →
  is_Some (select_version None (Some st) (put_version tok val sts vs) ≫= value).
Proof.
  intros Hst. unfold select_version. simpl.
  rewrite (holder_dom st (put_version tok val sts vs) vs)
    by by apply put_version_holders.
  destruct (holder st vs) as [id|]; simpl; [|done].
  destruct (decide (id = tok)) as [->|Hne].
  - by rewrite put_version_lookup.
  - by rewrite put_version_lookup_ne.
Qed.

End store_reads.

(** * Moving a label *)

Section store_moves.
Implicit Types (σ : store) (s : secret) (vs : gmap string version) (st id : string).

(** Once [from], which holds [st], has given it up, no version holds it. *)
Lemma held_elsewhere_after_remove st from to vs :
  one_holder vs → from ∈ dom (holders st vs) →
  held_elsewhere st to (remove_stage st from vs) = false.
Proof.
  intros Hone Hfrom. apply held_elsewhere_false. intros id v _ Hv Hst.
  assert (id ∈ dom (holders st (remove_stage st from vs))) as Hin
    by (apply elem_of_holders; eauto).
  apply remove_stage_holder in Hin as [Hin Hne]. apply Hne. split; [|done].
  by apply (proj1 (one_holder_alt vs) Hone st).
Qed.

(** The store accepts to move [st] from the version that holds it to an
    existing version. *)
Lemma store_move_label arn st from to σ s :
  secrets σ !! arn = Some s → one_holder (versions s) →
  from ∈ dom (holders st (versions s)) → is_Some (versions s !! to) →
  store_UpdateSecretVersionStage
    {| UpdateSecretVersionStageInput.SecretId := Some arn;
       UpdateSecretVersionStageInput.VersionStage := Some st;
       UpdateSecretVersionStageInput.MoveToVersionId := Some to;
       UpdateSecretVersionStageInput.RemoveFromVersionId := Some from |} σ =
  (inl {| UpdateSecretVersionStageOutput.Name := Some arn |},
   set_versions arn s (add_stage st to (remove_stage st from (versions s))) σ).
Proof.
  intros Hs Hone Hfrom Hto. unfold store_UpdateSecretVersionStage. simpl. rewrite Hs.
  unfold detach. rewrite decide_True by by apply elem_of_dom.
  unfold attach. apply (remove_stage_lookup st from) in Hto as [v ->].
  by rewrite held_elsewhere_after_remove.
Qed.

(** The store refuses to take [st] from a version that does not hold it,
    and changes nothing. *)
Lemma store_move_refused arn st from to σ s :
  secrets σ !! arn = Some s → from ∉ dom (holders st (versions s)) →
  store_UpdateSecretVersionStage
    {| UpdateSecretVersionStageInput.SecretId := Some arn;
       UpdateSecretVersionStageInput.VersionStage := Some st;
       UpdateSecretVersionStageInput.MoveToVersionId := to;
       UpdateSecretVersionStageInput.RemoveFromVersionId := Some from |} σ =
  (inr (InvalidParameter "the label is not attached to RemoveFromVersionId"), σ).
Proof.
  intros Hs Hfrom. unfold store_UpdateSecretVersionStage. simpl. rewrite Hs.
  unfold detach. by rewrite decide_False by by rewrite <-elem_of_dom.
Qed.

Lemma moved_label_holder st from to vs :
  one_holder vs → from ∈ dom (holders st vs) → is_Some (vs !! to) →
  holder st (add_stage st to (remove_stage st from vs)) = Some to.
Proof.
  intros Hone Hfrom Hto. apply holder_unique.
  - apply add_stage_one_holder; [by apply remove_stage_one_holder|].
    by apply held_elsewhere_after_remove.
  - apply add_stage_holder. right. by rewrite remove_stage_lookup.
Qed.

End store_moves.

(** * Writing the value of a version that holds the label *)

Section store_writes.
Implicit Types (σ : store) (s : secret) (vs : gmap string version) (st id : string).

Lemma held_elsewhere_holder st id vs :
  one_holder vs → id ∈ dom (holders st vs) → held_elsewhere st id vs = false.
Proof.
  intros Hone Hid. apply held_elsewhere_false. intros id' v Hne Hv Hst.
  apply Hne, (proj1 (one_holder_alt vs) Hone st); [|done].
  apply elem_of_holders. eauto.
Qed.

Lemma store_GetSecretValue_run arn vid stage σ s :
  secrets σ !! arn = Some s →
  store_GetSecretValue (GetSecretValueInput.mk (Some arn) vid stage) σ =
  (match select_version vid stage (versions s) ≫= value with
   | Some val => inl {| GetSecretValueOutput.SecretString := Some val |}
   | None => inr (ResourceNotFound "secret value not found")
   end, σ).
Proof.
  intros Hs. rewrite <-(store_GetSecretValue_found arn vid stage σ s Hs).
  rewrite <-(store_GetSecretValue_state (GetSecretValueInput.mk (Some arn) vid stage) σ)
    at 3.
  apply surjective_pairing.
Qed.

(** The store accepts a value for a version that has none, or has the
    same, with a label that this version is the one to hold. *)
Lemma store_put_labelled arn tok val st σ s :
  secrets σ !! arn = Some s → one_holder (versions s) →
  tok ∈ dom (holders st (versions s)) →
  versions s !! tok ≫= value ∈ [None; Some val] →
  store_PutSecretValue
    {| PutSecretValueInput.SecretId := Some arn;
       PutSecretValueInput.ClientRequestToken := Some tok;
       PutSecretValueInput.SecretString := Some val;
       PutSecretValueInput.VersionStages := Some [Some st] |} σ =
  (inl {| PutSecretValueOutput.VersionId := Some tok |},
   set_versions arn s (put_version tok val [st] (versions s)) σ).
Proof.
  intros Hs Hone Htok Hval. unfold store_PutSecretValue. simpl.
  change (slice_strings (Some [Some st])) with (Some [st]). rewrite Hs.
  rewrite decide_True by done. simpl.
  by rewrite held_elsewhere_holder.
Qed.

(** Writing a label that the version holds already leaves every label
    where it is. *)
Lemma put_version_stages tok val st vs v :
  vs !! tok = Some v → st ∈ stages v →
  put_version tok val [st] vs = <[tok := Version (Some val) (stages v)]> vs.
Proof.
  intros Hv Hst. unfold put_version. rewrite Hv. simpl.
  rewrite filter_cons_False, filter_nil, app_nil_r by (by intros []). done.
Qed.

(** A put takes no label off a version, and an update takes off only the
    label it moves. *)
Lemma store_PutSecretValue_keeps_label i σ arn s st id :
  secrets σ !! arn = Some s → id ∈ dom (holders st (versions s)) →
  ∃ s', secrets (store_PutSecretValue i σ).2 !! arn = Some s' ∧
        id ∈ dom (holders st (versions s')).
Proof.
  intros Hs Hid. destruct (store_PutSecretValue i σ) as [[out|err] σ'] eqn:Hput;
    [|rewrite (store_PutSecretValue_refused _ _ _ _ Hput); eauto].
  apply store_PutSecretValue_done in Hput
    as (arn' & tok & val & sts & s1 & _ & _ & _ & _ & Hs1 & _ & _ & ->).
  destruct (decide (arn = arn')) as [<-|Hne]; simplify_eq; cbn [snd].
  - eexists. split; [apply set_versions_lookup|]. apply put_version_holder. by left.
  - exists s. by rewrite set_versions_other.
Qed.

Lemma store_UpdateSecretVersionStage_keeps_label i σ arn s st id :
  UpdateSecretVersionStageInput.VersionStage i ≠ Some st →
  secrets σ !! arn = Some s → id ∈ dom (holders st (versions s)) →
  ∃ s', secrets (store_UpdateSecretVersionStage i σ).2 !! arn = Some s' ∧
        id ∈ dom (holders st (versions s')).
Proof.
  intros Hst Hs Hid.
  destruct (store_UpdateSecretVersionStage i σ) as [[out|err] σ'] eqn:Hupd;
    [|rewrite (store_UpdateSecretVersionStage_refused _ _ _ _ Hupd); eauto].
  apply store_UpdateSecretVersionStage_done in Hupd
    as (arn' & st' & s1 & vs1 & vs2 & _ & Hst' & Hs1 & Hdet & Hatt & ->).
  destruct (decide (arn = arn')) as [<-|Hne]; simplify_eq; cbn [snd].
  - eexists. split; [apply set_versions_lookup|].
    eapply attach_keeps_holder, detach_keeps_holder; [done..|congruence|done].
  - exists s. by rewrite set_versions_other.
Qed.

End store_writes.

(** * Generated passwords *)

Section passwords.
Implicit Types (cs : list ascii) (c : ascii) (s : N).

Lemma draw_index s cs : cs ≠ [] → is_Some (cs !! N.to_nat (s mod N.of_nat (length cs))%N).
Proof.
  intros Hcs. apply lookup_lt_is_Some.
  assert (length cs ≠ 0) by (by destruct cs).
  pose proof (N.mod_lt s (N.of_nat (length cs))). lia.
Qed.

(** A password has the length asked for. *)
Lemma draw_length n s cs : cs ≠ [] → String.length (draw n s cs) = n.
Proof.
  intros Hcs. revert s. induction n as [|n IH]; intros s; simpl; [done|].
  destruct (draw_index s cs Hcs) as [c ->]. simpl. by rewrite IH.
Qed.

(** Its characters are taken from the pool. *)
Lemma draw_chars n s cs c :
  c ∈ String.list_ascii_of_string (draw n s cs) → c ∈ cs.
Proof.
  revert s. induction n as [|n IH]; intros s; simpl; [by intros ?%elem_of_nil|].
  destruct (cs !! _) as [c'|] eqn:Hc'; simpl; [|by intros ?%elem_of_nil].
  intros [->|Hc]%elem_of_cons; [by eapply list_elem_of_lookup_2|by eapply IH].
Qed.

(** The pool holds none of the excluded characters. *)
Lemma pool_excludes exclude c :
  c ∈ pool exclude → c ∉ String.list_ascii_of_string exclude.
Proof. unfold pool. by intros [? _]%list_elem_of_filter. Qed.

End passwords.
