(* ===== verification/Validator.v ===== *)
(** * The staging validator (src/main.go, lines 15-19 and 29-58)

    The event of an invocation, the loop over the staging labels of the
    version named by the token ([stage_loop]), the validation that
    [HandleRequest] performs before it dispatches ([validate]), the abstract
    classification of a secret description ([classify]) and the proof that
    [validate] computes it. *)

From stdpp Require Import base tactics option list strings gmap.
From S2P Require Import Prelude GoRuntime SecretsManager Store.

(** The event the Lambda runtime decodes and passes to the handler.  The
    three fields are pointers: a key that is absent from the JSON leaves
    the field nil. *)
Record SecretsManagerEvent : Type := {
  Token : option string;
  Arn : option string;
  Step : option string;
}.

#[export] Instance SecretsManagerEvent_eq_dec : EqDecision SecretsManagerEvent.
Proof. solve_decision. Defined.

(** * The errors of the validation *)

(** The error values built on lines 41, 45, 51 and 57, from the source's
    format strings. *)
Definition err_not_enabled (arn : string) : error :=
  Errorf "Secret %s is not enabled for rotation" [arn].

Definition err_no_stage (token arn : string) : error :=
  Errorf "Secret version %s has no stage for rotation of secret %s." [token; arn].

Definition err_already_current (token arn : string) : error :=
  Errorf "Secret version %s already set as AWSCURRENT for secret %s." [token; arn].

Definition err_not_pending (token arn : string) : error :=
  Errorf "Secret version %s not set as AWSPENDING for rotation of secret %s."
    [token; arn].

(** The request of line 30. *)
Definition describe_request (arn : option string) : DescribeSecretInput.t :=
  {| DescribeSecretInput.SecretId := arn |}.

(** * The abstract classification *)

(** What the validator can conclude about a token. *)
Inductive verdict : Type :=
| RotationNotEnabled
| UnknownVersion
| AlreadyCurrent
| NotPending
| Proceed.

#[export] Instance verdict_eq_dec : EqDecision verdict.
Proof. solve_decision. Defined.

(** The verdict for a secret whose rotation flag is [enabled] and whose
    version map holds [entry] for the token ([None]: no entry). *)
Definition classify (enabled : bool) (entry : option (list string)) : verdict :=
  if negb enabled then RotationNotEnabled
  else match entry with
       | None => UnknownVersion
       | Some labels =>
           if decide (AWSCURRENT ∈ labels) then AlreadyCurrent
           else if decide (AWSPENDING ∈ labels) then Proceed
           else NotPending
       end.

(** The error value that stands for each verdict; [None] is nil. *)
Definition verdict_error (v : verdict) (token arn : string) : option error :=
  match v with
  | RotationNotEnabled => Some (err_not_enabled arn)
  | UnknownVersion => Some (err_no_stage token arn)
  | AlreadyCurrent => Some (err_already_current token arn)
  | NotPending => Some (err_not_pending token arn)
  | Proceed => None
  end.

(** * The code *)

Section validator.
Context `{SecretsManagerAPI Σ}.
Implicit Types (w : world Σ api_call) (req : SecretsManagerEvent).

(** Lines 49-55: the loop over the labels of the token's version.  It
    returns [inl err] when the function returns [err] from inside the loop
    and [inr pending] when the loop runs to its end. *)
Fixpoint stage_loop req (stages : list (option string)) (pending : bool)
    : sm Σ (error + bool) :=
  match stages with
  | [] => ret (inr pending)
  | value :: rest =>
      v <- deref value ;;
      if decide (v = "AWSCURRENT") then
        token <- deref (Token req) ;;
        arn <- deref (Arn req) ;;
        ret (inl (err_already_current token arn))
      else if decide (v = "AWSPENDING") then stage_loop req rest true
      else stage_loop req rest pending
  end.

(** Lines 40-58: the checks on the description of the secret.  The result
    is the error that [HandleRequest] returns at once, or [None] when all
    the checks pass. *)
Definition check_staging req (desc : DescribeSecretOutput.t) : sm Σ (option error) :=
  enabled <- deref (DescribeSecretOutput.RotationEnabled desc) ;;
  if negb enabled then
    arn <- deref (Arn req) ;;
    ret (Some (err_not_enabled arn))
  else
    token <- deref (Token req) ;;
    match DescribeSecretOutput.VersionIdsToStages desc !! token with
    | None =>
        arn <- deref (Arn req) ;;
        ret (Some (err_no_stage token arn))
    | Some stages =>
        r <- stage_loop req (range_slice stages) false ;;
        match r with
        | inl err => ret (Some err)
        | inr pending =>
            if pending then ret None
            else
              arn <- deref (Arn req) ;;
              ret (Some (err_not_pending token arn))
        end
    end.

(** Lines 29-58: describe the secret (a service error is returned as it
    is) and check the staging of the token. *)
Definition validate req : sm Σ (option error) :=
  r <- svc_DescribeSecret (describe_request (Arn req)) ;;
  match r with
  | inr err => ret (Some err)
  | inl desc => check_staging req desc
  end.

End validator.

(** * The loop *)

Section stage_loop_facts.
Context `{SecretsManagerAPI Σ}.
Implicit Types (w : world Σ api_call) (req : SecretsManagerEvent).

Lemma stage_loop_pure req l pending :
  preserves (=) (stage_loop (Σ:=Σ) req l pending).
Proof. revert pending. induction l as [|v l IH]; simpl; solve_preserves. Qed.

(** One iteration on a label other than AWSCURRENT. *)
Lemma stage_loop_step req (s : string) rest pending w :
  s ≠ AWSCURRENT →
  stage_loop req (Some s :: rest) pending w =
  stage_loop req rest (pending || bool_decide (s = AWSPENDING)) w.
Proof.
  intros Hs. simpl. unfold bind. simpl. rewrite decide_False by done.
  case_decide as Hp.
  - by rewrite bool_decide_true, orb_true_r.
  - by rewrite bool_decide_false, orb_false_r.
Qed.

(** Labels that are neither AWSCURRENT nor nil are stepped over; the flag
    remembers whether AWSPENDING was among them. *)
Lemma stage_loop_skip req (pre : list string) rest pending w :
  AWSCURRENT ∉ pre →
  stage_loop req ((Some <$> pre) ++ rest) pending w =
  stage_loop req rest (pending || bool_decide (AWSPENDING ∈ pre)) w.
Proof.
  revert pending. induction pre as [|s pre IH]; intros pending Hpre.
  - by rewrite orb_false_r.
  - apply not_elem_of_cons in Hpre as [Hs Hpre].
    rewrite fmap_cons, <-app_comm_cons.
    rewrite stage_loop_step, IH, <-orb_assoc by done. do 2 f_equal.
    apply eq_true_iff_eq. rewrite orb_true_iff, !bool_decide_eq_true, elem_of_cons.
    split; (intros [->|?]; [by left | by right]).
Qed.

(** The loop on a label slice without AWSCURRENT and without nil element. *)
Lemma stage_loop_no_current req (labels : list string) pending w :
  AWSCURRENT ∉ labels →
  stage_loop req (Some <$> labels) pending w =
  (Returned (inr (pending || bool_decide (AWSPENDING ∈ labels))), w).
Proof.
  intros Hl. rewrite <-(app_nil_r (Some <$> labels)). by rewrite stage_loop_skip.
Qed.

(** The loop returns from the function at the first AWSCURRENT, whatever
    follows it in the slice. *)
Lemma stage_loop_at_current req (pre : list string) rest pending token arn w :
  Token req = Some token → Arn req = Some arn → AWSCURRENT ∉ pre →
  stage_loop req ((Some <$> pre) ++ Some AWSCURRENT :: rest) pending w =
  (Returned (inl (err_already_current token arn)), w).
Proof.
  intros Ht Ha Hpre. rewrite stage_loop_skip by done. simpl.
  unfold bind. simpl. by rewrite Ht, Ha.
Qed.

(** A nil element reached before any AWSCURRENT is dereferenced: the
    runtime panics. *)
Lemma stage_loop_nil_element req (pre : list string) rest pending w :
  AWSCURRENT ∉ pre →
  stage_loop req ((Some <$> pre) ++ None :: rest) pending w =
  (Panicked NilDereference, w).
Proof. intros Hpre. by rewrite stage_loop_skip. Qed.

(** The loop on a slice without nil element, in terms of membership. *)
Lemma stage_loop_labels req (labels : list string) pending token arn w :
  Token req = Some token → Arn req = Some arn →
  stage_loop req (Some <$> labels) pending w =
  (Returned (if decide (AWSCURRENT ∈ labels)
             then inl (err_already_current token arn)
             else inr (pending || bool_decide (AWSPENDING ∈ labels))), w).
Proof.
  intros Ht Ha. case_decide as Hc; [|by apply stage_loop_no_current].
  apply elem_of_split_first in Hc as (pre & rest & -> & Hpre).
  rewrite fmap_app. simpl. by eapply stage_loop_at_current.
Qed.

End stage_loop_facts.

#[export] Hint Resolve stage_loop_pure : prog.

(** * The checks on a description *)

Section check_staging_facts.
Context `{SecretsManagerAPI Σ}.
Implicit Types (w : world Σ api_call) (req : SecretsManagerEvent)
  (desc : DescribeSecretOutput.t).

(** The checks read the description and the event only. *)
Lemma check_staging_pure req desc : preserves (=) (check_staging (Σ:=Σ) req desc).
Proof. unfold check_staging. solve_preserves. Qed.

Lemma check_staging_flag_absent req desc w :
  DescribeSecretOutput.RotationEnabled desc = None →
  check_staging req desc w = (Panicked NilDereference, w).
Proof. intros He. unfold check_staging. by rewrite He. Qed.

Lemma check_staging_disabled req desc arn w :
  DescribeSecretOutput.RotationEnabled desc = Some false → Arn req = Some arn →
  check_staging req desc w =
  (Returned (verdict_error RotationNotEnabled "" arn), w).
Proof. intros He Ha. unfold check_staging. by rewrite He, Ha. Qed.

Lemma check_staging_unknown req desc token arn w :
  DescribeSecretOutput.RotationEnabled desc = Some true →
  Token req = Some token → Arn req = Some arn →
  DescribeSecretOutput.VersionIdsToStages desc !! token = None →
  check_staging req desc w =
  (Returned (verdict_error UnknownVersion token arn), w).
Proof.
  intros He Ht Ha Hl. unfold check_staging, bind. rewrite He, Ht. simpl.
  by rewrite Hl, Ha.
Qed.

(** With an entry for the token whose labels are all there, the outcome is
    decided by membership of the two labels. *)
Lemma check_staging_labels req desc token arn s labels w :
  DescribeSecretOutput.RotationEnabled desc = Some true →
  Token req = Some token → Arn req = Some arn →
  DescribeSecretOutput.VersionIdsToStages desc !! token = Some s →
  slice_strings s = Some labels →
  check_staging req desc w =
  (Returned (verdict_error (classify true (Some labels)) token arn), w).
Proof.
  intros He Ht Ha Hl Hs%slice_strings_Some. unfold check_staging, bind.
  rewrite He, Ht. simpl.
  rewrite Hl, Hs, (stage_loop_labels _ _ _ token arn) by done.
  unfold classify. simpl. case_decide; [done|].
  case_decide; [by rewrite bool_decide_true | rewrite bool_decide_false by done].
  simpl. by rewrite Ha.
Qed.

(** The checks compute the abstract classification and return its error,
    provided the rotation flag is there and the label slice of the token
    has no nil element. *)
Lemma check_staging_classified req desc token arn enabled w :
  Token req = Some token → Arn req = Some arn →
  DescribeSecretOutput.RotationEnabled desc = Some enabled →
  (∀ s, DescribeSecretOutput.VersionIdsToStages desc !! token = Some s →
        is_Some (slice_strings s)) →
  check_staging req desc w =
  (Returned (verdict_error
               (classify enabled
                  (DescribeSecretOutput.VersionIdsToStages desc !! token ≫= slice_strings))
               token arn), w).
Proof.
  intros Ht Ha He Hwf. destruct enabled; [|by apply check_staging_disabled].
  destruct (_ !! token) as [s|] eqn:Hl; [|by apply check_staging_unknown].
  destruct (Hwf s eq_refl) as [labels Hs]. simpl. rewrite Hs.
  by eapply check_staging_labels.
Qed.

Lemma check_staging_quiet req desc : preserves quiet (check_staging (Σ:=Σ) req desc).
Proof. apply pure_quiet, check_staging_pure. Qed.

End check_staging_facts.

#[export] Hint Resolve check_staging_pure check_staging_quiet : prog.

(** * The validation as a whole *)

Section validate_facts.
Context `{SecretsManagerAPI Σ}.
Implicit Types (w : world Σ api_call) (req : SecretsManagerEvent)
  (desc : DescribeSecretOutput.t).

(** The world once the describe call of line 30 has returned and left the
    remote state [σ']. *)
Definition after_describe req w (σ' : Σ) : world Σ api_call :=
  called w σ' [DescribeSecretCall (describe_request (Arn req))].

Lemma validate_described req desc σ' w :
  DescribeSecret (describe_request (Arn req)) (remote w) = (inl desc, σ') →
  validate req w = check_staging req desc (after_describe req w σ').
Proof.
  intros Hd. unfold validate, svc_DescribeSecret.
  by erewrite run_bind_returned by (by apply call_run).
Qed.

Lemma validate_describe_failed req err σ' w :
  DescribeSecret (describe_request (Arn req)) (remote w) = (inr err, σ') →
  validate req w = (Returned (Some err), after_describe req w σ').
Proof.
  intros Hd. unfold validate, svc_DescribeSecret.
  by erewrite run_bind_returned by (by apply call_run).
Qed.

(** The validation issues no mutating call. *)
Lemma validate_issues req n P : issues n P (validate (Σ:=Σ) req).
Proof. unfold validate, svc_DescribeSecret. solve_issues. Qed.

(** Whatever the checks conclude, the world is the one the describe call
    left. *)
Lemma validate_world req w :
  (validate req w).2 =
  after_describe req w
    (DescribeSecret (describe_request (Arn req)) (remote w)).2.
Proof.
  destruct (DescribeSecret _ (remote w)) as [[desc|err] σ'] eqn:Hd.
  - rewrite (validate_described _ _ _ _ Hd). by apply preserves_eq_world, check_staging_pure.
  - by rewrite (validate_describe_failed _ _ _ _ Hd).
Qed.

(** C2 (refinement): on a description whose rotation flag is set and whose
    label slices hold no nil element, the validator of [HandleRequest]
    returns exactly the error that the abstract classification [classify]
    prescribes (rotation not enabled, unknown version, already current, not
    pending, or nil to proceed), after the single describe call. *)
Theorem validate_refines_classify req token arn desc enabled σ' w :
  Token req = Some token → Arn req = Some arn →
  DescribeSecret (describe_request (Some arn)) (remote w) = (inl desc, σ') →
  DescribeSecretOutput.RotationEnabled desc = Some enabled →
  (∀ s, DescribeSecretOutput.VersionIdsToStages desc !! token = Some s →
        is_Some (slice_strings s)) →
  validate req w =
  (Returned (verdict_error
               (classify enabled
                  (DescribeSecretOutput.VersionIdsToStages desc !! token ≫= slice_strings))
               token arn),
   after_describe req w σ').
Proof.
  intros Ht Ha Hd He Hwf. rewrite <-Ha in Hd. rewrite (validate_described _ _ _ _ Hd).
  by apply check_staging_classified.
Qed.

(** Whatever the event and the state of the service, and
    whether it returns or panics, the validation issues exactly one call, the
    DescribeSecret for the event's SecretId; it issues no mutating call and
    writes nothing to the log. *)
Theorem validate_single_describe req w :
  new_calls w (validate req w).2 =
    [DescribeSecretCall (describe_request (Arn req))] ∧
  mutations (new_calls w (validate req w).2) = [] ∧
  logs (validate req w).2 = logs w.
Proof.
  rewrite validate_world. unfold after_describe. simpl.
  by erewrite new_calls_app.
Qed.

(** C40 (error): when the description carries no rotation flag (the field
    RotationEnabled is nil), line 40 dereferences a nil pointer: the
    invocation panics instead of reporting that rotation is not enabled. *)
Theorem validate_flag_absent_panics req desc σ' w :
  DescribeSecret (describe_request (Arn req)) (remote w) = (inl desc, σ') →
  DescribeSecretOutput.RotationEnabled desc = None →
  validate req w = (Panicked NilDereference, after_describe req w σ').
Proof.
  intros Hd He. rewrite (validate_described _ _ _ _ Hd).
  by apply check_staging_flag_absent.
Qed.

End validate_facts.

(** * Instances on the reference store *)

(** The event of the scenario: create the secret for version "v2". *)
Definition scenario_event (step : string) : SecretsManagerEvent :=
  {| Token := Some "v2"; Arn := Some "db-pwd"; Step := Some step |}.

Lemma validate_refines_classify_witness :
  validate (scenario_event "createSecret") (boot scenario_store) =
  (Returned None,
   after_describe (scenario_event "createSecret") (boot scenario_store) scenario_store).
Proof.
  apply (validate_refines_classify (scenario_event "createSecret") "v2" "db-pwd"
           {| DescribeSecretOutput.RotationEnabled := Some true;
              DescribeSecretOutput.VersionIdsToStages :=
                describe_versions scenario_versions |} true).
  - reflexivity.
  - reflexivity.
  - reflexivity.
  - reflexivity.
  - intros s Hs. vm_compute in Hs. injection Hs as <-. by eexists.
Defined.

Lemma validate_flag_absent_panics_witness :
  validate (scenario_event "createSecret") (boot scenario_unconfigured) =
  (Panicked NilDereference,
   after_describe (scenario_event "createSecret") (boot scenario_unconfigured)
     scenario_unconfigured).
Proof.
  apply (validate_flag_absent_panics (scenario_event "createSecret")
           {| DescribeSecretOutput.RotationEnabled := None;
              DescribeSecretOutput.VersionIdsToStages :=
                describe_versions scenario_versions |}); reflexivity.
Defined.

(** * Invariants of the service *)

Lemma validate_keeps `{SecretsManagerAPI Σ} (Inv : Σ → Prop) `{!ServiceInvariant Inv} req :
  preserves (keeps Inv) (validate req).
Proof. unfold validate. solve_preserves. Qed.

#[export] Hint Resolve validate_keeps : prog.

(** * The calls of the validation *)

Lemma validate_emits `{SecretsManagerAPI Σ} req :
  emits 1 (about (Arn req)) (validate (Σ:=Σ) req).
Proof. unfold validate, svc_DescribeSecret. solve_emits. Qed.

(** * The errors of the validation *)

(** The errors the checks can return for an event: the four of lines 41,
    45, 51 and 57, formatted with the event's token and secret. *)
Definition validation_error (req : SecretsManagerEvent) (err : error) : Prop :=
  ∃ arn, Arn req = Some arn ∧
    (err = err_not_enabled arn ∨
     ∃ token, Token req = Some token ∧
       err ∈ [err_no_stage token arn; err_already_current token arn;
              err_not_pending token arn]).

Section validation_errors.
Context `{SecretsManagerAPI Σ}.
Implicit Types (w : world Σ api_call) (req : SecretsManagerEvent).

Lemma deref_returned {A} (p : option A) w a w' :
  deref p w = (Returned a, w') → p = Some a ∧ w' = w.
Proof. destruct p; [rewrite deref_Some|rewrite deref_None]; by intros [= <- <-]. Qed.

Lemma stage_loop_error req stages pending w err w' :
  stage_loop req stages pending w = (Returned (inl err), w') →
  ∃ token arn, Token req = Some token ∧ Arn req = Some arn ∧
               err = err_already_current token arn.
Proof.
  revert pending. induction stages as [|[s|] rest IH]; intros pending; [done| |done].
  destruct (decide (s = AWSCURRENT)) as [->|Hs];
    [|rewrite stage_loop_step by done; by apply IH].
  simpl. unfold bind. simpl.
  destruct (deref (Token req) w) as [[token|p] w1] eqn:Htok; [|done].
  apply deref_returned in Htok as [Htok ->].
  destruct (deref (Arn req) w) as [[arn|p] w1] eqn:Harn; [|done].
  apply deref_returned in Harn as [Harn ->].
  intros [= <- <-]. by exists token, arn.
Qed.

Lemma check_staging_error req desc w err w' :
  check_staging req desc w = (Returned (Some err), w') → validation_error req err.
Proof.
  unfold check_staging, bind.
  destruct (deref (DescribeSecretOutput.RotationEnabled desc) w)
    as [[enabled|p] w1] eqn:Hen; [|done].
  apply deref_returned in Hen as [_ ->]. destruct enabled; simpl.
  - destruct (deref (Token req) w) as [[token|p] w1] eqn:Htok; [|done].
    apply deref_returned in Htok as [Htok ->].
    destruct (_ !! token) as [stages|].
    + destruct (stage_loop req (range_slice stages) false w)
        as [[[err'|[]]|p] w1] eqn:Hloop; [|done| |done].
      * apply stage_loop_error in Hloop as (token' & arn & ? & ? & ->).
        intros [= <- <-]. exists arn. split; [done|]. right. exists token'.
        split; [done|]. set_solver.
      * destruct (deref (Arn req) w1) as [[arn|p] w2] eqn:Harn; [|done].
        apply deref_returned in Harn as [Harn ->]. intros [= <- <-].
        exists arn. split; [done|]. right. exists token. split; [done|]. set_solver.
    + destruct (deref (Arn req) w) as [[arn|p] w2] eqn:Harn; [|done].
      apply deref_returned in Harn as [Harn ->]. intros [= <- <-].
      exists arn. split; [done|]. right. exists token. split; [done|]. set_solver.
  - destruct (deref (Arn req) w) as [[arn|p] w2] eqn:Harn; [|done].
    apply deref_returned in Harn as [Harn ->]. intros [= <- <-].
    exists arn. split; [done|]. by left.
Qed.

(** An error of the validation is the error of the describe call or one
    of the four errors of the checks. *)
Lemma validate_error req w err w' :
  validate req w = (Returned (Some err), w') →
  (DescribeSecret (describe_request (Arn req)) (remote w)).1 = inr err ∨
  validation_error req err.
Proof.
  destruct (DescribeSecret (describe_request (Arn req)) (remote w))
    as [[desc|err'] σ1] eqn:Hd.
  - rewrite (validate_described _ _ _ _ Hd). right. by eapply check_staging_error.
  - rewrite (validate_describe_failed _ _ _ _ Hd). intros [= <- <-]. by left.
Qed.

(** * The validation, when it passes *)

(** The loop ends with [pending] set only when it was set before or one
    of the labels is AWSPENDING. *)
Lemma stage_loop_passed req stages pending w w' :
  stage_loop req stages pending w = (Returned (inr true), w') →
  pending = true ∨ Some AWSPENDING ∈ stages.
Proof.
  revert pending. induction stages as [|[s|] rest IH]; intros pending; [| |done].
  { intros [= -> _]. by left. }
  destruct (decide (s = AWSCURRENT)) as [->|Hs].
  - simpl. unfold bind. simpl.
    destruct (deref (Token req) w) as [[token|p] w1]; [|done].
    by destruct (deref (Arn req) w1) as [[arn|p] w2].
  - rewrite stage_loop_step by done. intros [Hp|Hin]%IH; [|right; by right].
    apply orb_true_iff in Hp as [?|Hs']; [by left|].
    apply bool_decide_eq_true in Hs' as ->. right. left.
Qed.

(** The checks pass only for a token whose entry in the description
    carries AWSPENDING. *)
Lemma check_staging_passed req desc w w' :
  check_staging req desc w = (Returned None, w') →
  ∃ token stages, Token req = Some token ∧
    DescribeSecretOutput.VersionIdsToStages desc !! token = Some stages ∧
    Some AWSPENDING ∈ range_slice stages.
Proof.
  unfold check_staging, bind.
  destruct (deref (DescribeSecretOutput.RotationEnabled desc) w)
    as [[enabled|p] w1] eqn:Hen; [|done].
  apply deref_returned in Hen as [_ ->]. destruct enabled; simpl.
  2: { by destruct (deref (Arn req) w) as [[arn|p] w2]. }
  destruct (deref (Token req) w) as [[token|p] w1] eqn:Htok; [|done].
  apply deref_returned in Htok as [Htok ->].
  destruct (_ !! token) as [stages|] eqn:Hst.
  2: { by destruct (deref (Arn req) w) as [[arn|p] w2]. }
  destruct (stage_loop req (range_slice stages) false w)
    as [[[err'|[]]|p] w1] eqn:Hloop; [done| |by destruct (deref (Arn req) w1) as [[]]|done].
  apply stage_loop_passed in Hloop as [?|Hin]; [done|]. intros _. by exists token, stages.
Qed.

Lemma validate_passed req w w' :
  validate req w = (Returned None, w') →
  ∃ desc σ1 token stages,
    DescribeSecret (describe_request (Arn req)) (remote w) = (inl desc, σ1) ∧
    Token req = Some token ∧
    DescribeSecretOutput.VersionIdsToStages desc !! token = Some stages ∧
    Some AWSPENDING ∈ range_slice stages.
Proof.
  destruct (DescribeSecret (describe_request (Arn req)) (remote w))
    as [[desc|err'] σ1] eqn:Hd.
  - rewrite (validate_described _ _ _ _ Hd).
    intros (token & stages & ? & ? & ?)%check_staging_passed. by exists desc, σ1, token, stages.
  - by rewrite (validate_describe_failed _ _ _ _ Hd).
Qed.

End validation_errors.

(** * The messages of the validation errors *)

(** The text of each validation error is the sentence of
    the source with the token and the secret inserted as they are,
    whatever characters they contain: an identifier that contains a
    formatting verb is not interpreted. *)
Theorem validation_messages token arn :
  Error (err_not_enabled arn) = "Secret " +:+ arn +:+ " is not enabled for rotation" ∧
  Error (err_no_stage token arn) =
    "Secret version " +:+ token +:+ " has no stage for rotation of secret " +:+ arn +:+ "." ∧
  Error (err_already_current token arn) =
    "Secret version " +:+ token +:+ " already set as AWSCURRENT for secret " +:+ arn +:+ "." ∧
  Error (err_not_pending token arn) =
    "Secret version " +:+ token +:+ " not set as AWSPENDING for rotation of secret " +:+
    arn +:+ ".".
Proof. by repeat split. Qed.
