(* ===== verification/CreateSecret.v ===== *)
(** * createSecret (src/main.go, lines 76-128)

    The first step of a rotation: make sure that the version named by the
    token has a value, generating one when the store has none.  The
    requests the function sends, the function itself, its outcome on every
    path, the calls it can issue, and its idempotence against any store
    that satisfies the laws [CreateLaws]. *)

From Stdlib Require Import Ascii.
From stdpp Require Import base tactics option list strings gmap.
From S2P Require Import Prelude GoRuntime SecretsManager Store.

(** * The requests *)

(** Line 103: the characters a generated password must not contain: slash,
    at sign, quote, double quote and backslash. *)
Definition excChars : string :=
  "/@'" +:+ String (ascii_of_nat 34) (String (ascii_of_nat 92) EmptyString).

(** Lines 81-84: the value labelled AWSCURRENT. *)
Definition get_current_request (Arn : option string) : GetSecretValueInput.t :=
  {| GetSecretValueInput.SecretId := Arn;
     GetSecretValueInput.VersionId := None;
     GetSecretValueInput.VersionStage := Some AWSCURRENT |}.

(** Lines 91-95: the value of the token's version, labelled AWSPENDING. *)
Definition get_pending_request (Arn Token : option string) : GetSecretValueInput.t :=
  {| GetSecretValueInput.SecretId := Arn;
     GetSecretValueInput.VersionId := Token;
     GetSecretValueInput.VersionStage := Some AWSPENDING |}.

(** Lines 104-106. *)
Definition random_password_request : GetRandomPasswordInput.t :=
  {| GetRandomPasswordInput.ExcludeCharacters := Some excChars |}.

(** Lines 112-117: store [pwd] under the token with the one label
    AWSPENDING. *)
Definition put_pending_request (Arn Token pwd : option string) : PutSecretValueInput.t :=
  {| PutSecretValueInput.SecretId := Arn;
     PutSecretValueInput.ClientRequestToken := Token;
     PutSecretValueInput.SecretString := pwd;
     PutSecretValueInput.VersionStages := Some [Some AWSPENDING] |}.

(** * The function *)

Section createSecret.
Context `{SecretsManagerAPI Σ}.
Implicit Types (w : world Σ api_call) (Arn Token : option string).

(** Lines 102-122: reached when the pending value does not exist yet. *)
Definition generate_and_put Arn Token : sm Σ unit :=
  r <- svc_GetRandomPassword random_password_request ;;
  match r with
  | inr err => panic (PanicError err)
  | inl pwd =>
      r <- svc_PutSecretValue
             (put_pending_request Arn Token (GetRandomPasswordOutput.RandomPassword pwd)) ;;
      match r with
      | inr err => panic (PanicError err)
      | inl _ =>
          arn <- deref Arn ;;
          token <- deref Token ;;
          log_Printf "createSecret: Successfully put secret for ARN %s and version %s."
            [arn; token]
      end
  end.

Definition createSecret Arn Token : sm Σ unit :=
  r <- svc_GetSecretValue (get_current_request Arn) ;;
  match r with
  | inr err => panic (PanicError err)
  | inl _ =>
      r <- svc_GetSecretValue (get_pending_request Arn Token) ;;
      match r with
      | inl _ => ret tt
      | inr err =>
          match as_awserr err with
          | Some code =>
              if decide (code ≠ ErrCodeResourceNotFoundException)
              then panic (PanicError err)
              else generate_and_put Arn Token
          | None => panic (PanicError err)
          end
      end
  end.

End createSecret.

(** * The paths of the function *)

Section createSecret_runs.
Context `{SecretsManagerAPI Σ}.
Implicit Types (w : world Σ api_call) (Arn Token : option string) (err : error).

(** The log line of line 122. *)
Definition created_line (arn token : string) : string :=
  Sprintf "createSecret: Successfully put secret for ARN %s and version %s."
    [arn; token].

Lemma generate_no_password Arn Token w err σ1 :
  GetRandomPassword random_password_request (remote w) = (inr err, σ1) →
  generate_and_put Arn Token w =
  (Panicked (PanicError err), called w σ1 [GetRandomPasswordCall random_password_request]).
Proof. intros. unfold generate_and_put, svc_GetRandomPassword. by run_call. Qed.

Lemma generate_put_refused Arn Token w pwd σ1 err σ2 :
  GetRandomPassword random_password_request (remote w) = (inl pwd, σ1) →
  PutSecretValue
    (put_pending_request Arn Token (GetRandomPasswordOutput.RandomPassword pwd)) σ1 =
    (inr err, σ2) →
  generate_and_put Arn Token w =
  (Panicked (PanicError err),
   called w σ2
     [GetRandomPasswordCall random_password_request;
      PutSecretValueCall
        (put_pending_request Arn Token (GetRandomPasswordOutput.RandomPassword pwd))]).
Proof.
  intros. unfold generate_and_put, svc_GetRandomPassword, svc_PutSecretValue.
  run_call. by run_call.
Qed.

Lemma generate_put_done arn token w pwd σ1 out σ2 :
  GetRandomPassword random_password_request (remote w) = (inl pwd, σ1) →
  PutSecretValue
    (put_pending_request (Some arn) (Some token)
       (GetRandomPasswordOutput.RandomPassword pwd)) σ1 = (inl out, σ2) →
  generate_and_put (Some arn) (Some token) w =
  (Returned tt,
   logged (called w σ2
     [GetRandomPasswordCall random_password_request;
      PutSecretValueCall
        (put_pending_request (Some arn) (Some token)
           (GetRandomPasswordOutput.RandomPassword pwd))])
     (created_line arn token)).
Proof.
  intros. unfold generate_and_put, svc_GetRandomPassword, svc_PutSecretValue.
  run_call. by run_call.
Qed.

Lemma createSecret_run_no_current Arn Token w err σ1 :
  GetSecretValue (get_current_request Arn) (remote w) = (inr err, σ1) →
  createSecret Arn Token w =
  (Panicked (PanicError err), called w σ1 [GetSecretValueCall (get_current_request Arn)]).
Proof. intros. unfold createSecret, svc_GetSecretValue. by run_call. Qed.

Lemma createSecret_run_present Arn Token w cur σ1 pend σ2 :
  GetSecretValue (get_current_request Arn) (remote w) = (inl cur, σ1) →
  GetSecretValue (get_pending_request Arn Token) σ1 = (inl pend, σ2) →
  createSecret Arn Token w =
  (Returned tt,
   called w σ2 [GetSecretValueCall (get_current_request Arn);
                GetSecretValueCall (get_pending_request Arn Token)]).
Proof. intros. unfold createSecret, svc_GetSecretValue. run_call. by run_call. Qed.

(** The second lookup failed with an error that is not the "not found" of
    the service: the function panics with it. *)
Lemma createSecret_run_fatal Arn Token w cur σ1 err σ2 :
  GetSecretValue (get_current_request Arn) (remote w) = (inl cur, σ1) →
  GetSecretValue (get_pending_request Arn Token) σ1 = (inr err, σ2) →
  as_awserr err ≠ Some ErrCodeResourceNotFoundException →
  createSecret Arn Token w =
  (Panicked (PanicError err),
   called w σ2 [GetSecretValueCall (get_current_request Arn);
                GetSecretValueCall (get_pending_request Arn Token)]).
Proof.
  intros ?? Hcode. unfold createSecret, svc_GetSecretValue. run_call. run_call.
  destruct (as_awserr err) as [code|]; [|done].
  rewrite decide_True; [done | congruence].
Qed.

(** The second lookup failed with "not found": the function goes on to
    generate and store a value. *)
Lemma createSecret_run_missing Arn Token w cur σ1 err σ2 :
  GetSecretValue (get_current_request Arn) (remote w) = (inl cur, σ1) →
  GetSecretValue (get_pending_request Arn Token) σ1 = (inr err, σ2) →
  as_awserr err = Some ErrCodeResourceNotFoundException →
  createSecret Arn Token w =
  generate_and_put Arn Token
    (called w σ2 [GetSecretValueCall (get_current_request Arn);
                  GetSecretValueCall (get_pending_request Arn Token)]).
Proof.
  intros ?? Hcode. unfold createSecret, svc_GetSecretValue. run_call. run_call.
  rewrite Hcode. by rewrite decide_False by (by intros []).
Qed.

End createSecret_runs.

(** * What the function can do to the store *)

Section createSecret_effects.
Context `{SecretsManagerAPI Σ}.
Implicit Types (w : world Σ api_call) (Arn Token : option string) (err : error).

(** The mutating calls [createSecret] may issue for a token: a
    PutSecretValue for that secret and token with the one label
    AWSPENDING, whatever the value. *)
Definition put_of (Arn Token : option string) (c : api_call) : Prop :=
  ∃ pwd, c = PutSecretValueCall (put_pending_request Arn Token pwd).

Lemma generate_and_put_issues Arn Token :
  issues 1 (put_of Arn Token) (generate_and_put (Σ:=Σ) Arn Token).
Proof.
  unfold generate_and_put. apply issues_bind_read; [solve_issues|].
  intros [pwd|err]; [|solve_issues].
  apply (issues_bind 1 0); [apply issues_write; by eexists | solve_issues].
Qed.

Lemma createSecret_issues Arn Token :
  issues 1 (put_of Arn Token) (createSecret (Σ:=Σ) Arn Token).
Proof.
  unfold createSecret. pose proof (generate_and_put_issues Arn Token). solve_issues.
Qed.

(** Whatever the service answers, and whether the function
    returns or panics, [createSecret] issues at most one mutating call, and
    that call is a PutSecretValue for the given secret and token carrying
    the single label AWSPENDING: it never moves or removes AWSCURRENT. *)
Theorem createSecret_mutations Arn Token w :
  length (mutations (new_calls w (createSecret Arn Token w).2)) ≤ 1 ∧
  Forall (put_of Arn Token) (mutations (new_calls w (createSecret Arn Token w).2)).
Proof. apply issues_new_calls, createSecret_issues. Qed.

(** Without a value labelled AWSCURRENT the rotation has no
    baseline: when the first lookup fails, [createSecret] panics with the
    service's error after that single call, and nothing is written. *)
Theorem createSecret_needs_current Arn Token w err σ1 :
  GetSecretValue (get_current_request Arn) (remote w) = (inr err, σ1) →
  createSecret Arn Token w =
    (Panicked (PanicError err),
     called w σ1 [GetSecretValueCall (get_current_request Arn)]) ∧
  mutations (new_calls w (createSecret Arn Token w).2) = [].
Proof.
  intros Hcur. rewrite (createSecret_run_no_current _ _ _ _ _ Hcur).
  split; [done|]. simpl. by rewrite new_calls_called.
Qed.

(** When the token's version already has a value labelled
    AWSPENDING, [createSecret] returns after its two lookups: no password is
    generated, nothing is stored and nothing is logged. *)
Theorem createSecret_present_is_noop Arn Token w cur σ1 pend σ2 :
  GetSecretValue (get_current_request Arn) (remote w) = (inl cur, σ1) →
  GetSecretValue (get_pending_request Arn Token) σ1 = (inl pend, σ2) →
  createSecret Arn Token w =
    (Returned tt,
     called w σ2 [GetSecretValueCall (get_current_request Arn);
                  GetSecretValueCall (get_pending_request Arn Token)]) ∧
  mutations (new_calls w (createSecret Arn Token w).2) = [] ∧
  logs (createSecret Arn Token w).2 = logs w.
Proof.
  intros Hcur Hpend. rewrite (createSecret_run_present _ _ _ _ _ _ _ Hcur Hpend).
  simpl. by rewrite new_calls_called.
Qed.

(** An error of the second lookup that is not the service's
    "resource not found" (another code, or an error that is no
    [awserr.Error] at all) is fatal: [createSecret] panics with it, without
    generating or storing anything. *)
Theorem createSecret_other_error_is_fatal Arn Token w cur σ1 err σ2 :
  GetSecretValue (get_current_request Arn) (remote w) = (inl cur, σ1) →
  GetSecretValue (get_pending_request Arn Token) σ1 = (inr err, σ2) →
  as_awserr err ≠ Some ErrCodeResourceNotFoundException →
  (createSecret Arn Token w).1 = Panicked (PanicError err) ∧
  new_calls w (createSecret Arn Token w).2 =
    [GetSecretValueCall (get_current_request Arn);
     GetSecretValueCall (get_pending_request Arn Token)].
Proof.
  intros Hcur Hpend Hcode.
  rewrite (createSecret_run_fatal _ _ _ _ _ _ _ Hcur Hpend Hcode).
  simpl. by rewrite new_calls_called.
Qed.

(** C10 (functional): when the token's version has no value yet (the second
    lookup fails with "resource not found"), [createSecret] asks for a
    random password that excludes the characters of [excChars], stores
    exactly that password under the token with the label AWSPENDING, and
    logs one line. *)
Theorem createSecret_creates arn token w cur σ1 err σ2 pwd σ3 out σ4 :
  GetSecretValue (get_current_request (Some arn)) (remote w) = (inl cur, σ1) →
  GetSecretValue (get_pending_request (Some arn) (Some token)) σ1 = (inr err, σ2) →
  as_awserr err = Some ErrCodeResourceNotFoundException →
  GetRandomPassword random_password_request σ2 = (inl pwd, σ3) →
  PutSecretValue
    (put_pending_request (Some arn) (Some token)
       (GetRandomPasswordOutput.RandomPassword pwd)) σ3 = (inl out, σ4) →
  createSecret (Some arn) (Some token) w =
  (Returned tt,
   logged (called w σ4
     [GetSecretValueCall (get_current_request (Some arn));
      GetSecretValueCall (get_pending_request (Some arn) (Some token));
      GetRandomPasswordCall random_password_request;
      PutSecretValueCall
        (put_pending_request (Some arn) (Some token)
           (GetRandomPasswordOutput.RandomPassword pwd))])
     (created_line arn token)).
Proof.
  intros Hcur Hpend Hcode Hrand Hput.
  rewrite (createSecret_run_missing _ _ _ _ _ _ _ Hcur Hpend Hcode).
  erewrite generate_put_done by (rewrite ?remote_called; eassumption).
  by rewrite called_called.
Qed.

End createSecret_effects.

(** * Successful runs and idempotence *)

(** What [createSecret] relies on for being safe to repeat: looking a value
    up changes nothing; generating a password disturbs no value; storing
    the pending value makes it readable under the token and leaves a
    readable current value readable. *)
Class CreateLaws (Σ : Type) `{SecretsManagerAPI Σ} : Prop := {
  get_readonly i σ : (GetSecretValue i σ).2 = σ;
  random_keeps_values i j σ :
    (GetSecretValue j (GetRandomPassword i σ).2).1 = (GetSecretValue j σ).1;
  put_then_get Arn Token pwd σ out σ' :
    PutSecretValue (put_pending_request Arn Token pwd) σ = (inl out, σ') →
    ∃ pend, (GetSecretValue (get_pending_request Arn Token) σ').1 = inl pend;
  put_keeps_current Arn Token pwd σ out σ' cur :
    PutSecretValue (put_pending_request Arn Token pwd) σ = (inl out, σ') →
    (GetSecretValue (get_current_request Arn) σ).1 = inl cur →
    ∃ cur', (GetSecretValue (get_current_request Arn) σ').1 = inl cur';
}.

Section createSecret_idempotence.
Context `{SecretsManagerAPI Σ}.
Implicit Types (w : world Σ api_call) (Arn Token : option string) (err : error).

(** A normal return of [generate_and_put]: both calls succeeded and the
    two arguments were not nil. *)
Lemma generate_and_put_returned Arn Token w w1 :
  generate_and_put Arn Token w = (Returned tt, w1) →
  ∃ pwd σ1 out σ2,
    GetRandomPassword random_password_request (remote w) = (inl pwd, σ1) ∧
    PutSecretValue
      (put_pending_request Arn Token (GetRandomPasswordOutput.RandomPassword pwd)) σ1 =
      (inl out, σ2) ∧
    remote w1 = σ2.
Proof.
  destruct (GetRandomPassword random_password_request (remote w))
    as [[pwd|err] σ1] eqn:Hrand;
    [|by rewrite (generate_no_password _ _ _ _ _ Hrand)].
  destruct (PutSecretValue
              (put_pending_request Arn Token (GetRandomPasswordOutput.RandomPassword pwd)) σ1)
    as [[out|err] σ2] eqn:Hput;
    [|by rewrite (generate_put_refused _ _ _ _ _ _ _ Hrand Hput)].
  intros Hrun. exists pwd, σ1, out, σ2. do 2 (split; [done|]).
  revert Hrun. unfold generate_and_put, svc_GetRandomPassword, svc_PutSecretValue.
  run_call. run_call. unfold bind.
  destruct Arn, Token; simpl; intros [= <-]; done.
Qed.

(** A normal return of [createSecret]: the current value was readable, and
    either the pending value was there (nothing was written), or it was
    missing and [generate_and_put] returned. *)
Lemma createSecret_returned Arn Token w w1 :
  createSecret Arn Token w = (Returned tt, w1) →
  ∃ cur σ1, GetSecretValue (get_current_request Arn) (remote w) = (inl cur, σ1) ∧
    ((∃ pend, GetSecretValue (get_pending_request Arn Token) σ1 = (inl pend, remote w1)) ∨
     (∃ err σ2 w2, GetSecretValue (get_pending_request Arn Token) σ1 = (inr err, σ2) ∧
                   remote w2 = σ2 ∧ generate_and_put Arn Token w2 = (Returned tt, w1))).
Proof.
  destruct (GetSecretValue (get_current_request Arn) (remote w))
    as [[cur|err] σ1] eqn:Hcur;
    [|by rewrite (createSecret_run_no_current _ _ _ _ _ Hcur)].
  intros Hrun. exists cur, σ1. split; [done|].
  destruct (GetSecretValue (get_pending_request Arn Token) σ1)
    as [[pend|err] σ2] eqn:Hpend.
  - left. exists pend. rewrite (createSecret_run_present _ _ _ _ _ _ _ Hcur Hpend) in Hrun.
    by injection Hrun as <-.
  - right. exists err, σ2.
    destruct (decide (as_awserr err = Some ErrCodeResourceNotFoundException)) as [Hc|Hc].
    + rewrite (createSecret_run_missing _ _ _ _ _ _ _ Hcur Hpend Hc) in Hrun.
      eexists. split; [done|]. split; [|exact Hrun]. done.
    + by rewrite (createSecret_run_fatal _ _ _ _ _ _ _ Hcur Hpend Hc) in Hrun.
Qed.

Context `{!CreateLaws Σ}.

(** After a normal return, both lookups succeed and change nothing. *)
Lemma createSecret_lookups_after Arn Token w w1 :
  createSecret Arn Token w = (Returned tt, w1) →
  ∃ cur pend,
    GetSecretValue (get_current_request Arn) (remote w1) = (inl cur, remote w1) ∧
    GetSecretValue (get_pending_request Arn Token) (remote w1) = (inl pend, remote w1).
Proof.
  assert (∀ i σ r, (GetSecretValue i σ).1 = r → GetSecretValue i σ = (r, σ)) as Hget.
  { intros i σ r <-. rewrite <-(get_readonly i σ) at 3. by destruct (GetSecretValue i σ). }
  intros (cur & σ1 & Hcur & Hrest)%createSecret_returned.
  pose proof (get_readonly (get_current_request Arn) (remote w)) as Hσ1.
  rewrite Hcur in Hσ1. simpl in Hσ1. subst σ1.
  destruct Hrest as [[pend Hpend]|(err & σ2 & w2 & Hpend & Hw2 & Hgen)].
  - pose proof (get_readonly (get_pending_request Arn Token) (remote w)) as Hσ2.
    rewrite Hpend in Hσ2. simpl in Hσ2. rewrite Hσ2 in *. eauto.
  - pose proof (get_readonly (get_pending_request Arn Token) (remote w)) as Hσ2.
    rewrite Hpend in Hσ2. simpl in Hσ2. rewrite Hσ2 in Hw2.
    apply generate_and_put_returned in Hgen as (pwd & σ3 & out & σ4 & Hrand & Hput & Hw1).
    rewrite Hw2 in Hrand. rewrite Hw1.
    assert ((GetSecretValue (get_current_request Arn) σ3).1 = inl cur) as Hcur3.
    { replace σ3 with (GetRandomPassword random_password_request (remote w)).2
        by (by rewrite Hrand).
      by rewrite random_keeps_values, Hcur. }
    destruct (put_keeps_current _ _ _ _ _ _ _ Hput Hcur3) as [cur' Hcur'].
    destruct (put_then_get _ _ _ _ _ _ Hput) as [pend Hpend'].
    exists cur', pend. split; by apply Hget.
Qed.

(** C5 (roundtrip): against a store that satisfies [CreateLaws], a second
    [createSecret] for the same secret and token, run after a first one has
    returned, is a no-op: it returns after the two lookups, leaves the
    remote state as it is, stores nothing and logs nothing. *)
Theorem createSecret_idempotent Arn Token w w1 :
  createSecret Arn Token w = (Returned tt, w1) →
  createSecret Arn Token w1 =
  (Returned tt,
   called w1 (remote w1)
     [GetSecretValueCall (get_current_request Arn);
      GetSecretValueCall (get_pending_request Arn Token)]).
Proof.
  intros (cur & pend & Hcur & Hpend)%createSecret_lookups_after.
  by apply (createSecret_run_present _ _ _ cur (remote w1) pend).
Qed.

End createSecret_idempotence.

Lemma put_pending_stages Arn Token pwd :
  slice_strings (PutSecretValueInput.VersionStages (put_pending_request Arn Token pwd)) =
  Some [AWSPENDING].
Proof. apply (slice_strings_fmap [AWSPENDING]). Qed.

(** The reference store satisfies the laws. *)
#[export] Instance store_create_laws : CreateLaws store.
Proof.
  split; simpl.
  - apply store_GetSecretValue_state.
  - intros i j σ. apply store_GetSecretValue_secrets, store_GetRandomPassword_secrets.
  - intros Arn Token pwd σ out σ' Hput.
    apply store_PutSecretValue_done in Hput
      as (arn & tok & val & sts & s & ? & ? & ? & Hsts & _ & _ & _ & ->).
    rewrite put_pending_stages in Hsts. simplify_eq/=. eexists.
    unfold get_pending_request. rewrite store_GetSecretValue_written.
    rewrite put_version_select; [done|]. by apply list_elem_of_singleton.
  - intros Arn Token pwd σ out σ' cur Hput Hcur.
    apply store_PutSecretValue_done in Hput
      as (arn & tok & val & sts & s & ? & ? & ? & Hsts & Hs & _ & _ & ->).
    rewrite put_pending_stages in Hsts. simplify_eq/=. revert Hcur.
    unfold get_current_request.
    rewrite (store_GetSecretValue_found _ _ _ _ _ Hs), store_GetSecretValue_written.
    intros Hcur.
    destruct (put_version_select_label AWSCURRENT tok val [AWSPENDING] (versions s))
      as [val' Hval']; [compute_done| |].
    + by destruct (select_version None (Some AWSCURRENT) (versions s) ≫= value); eauto.
    + rewrite Hval'. eauto.
Qed.

(** * Instances *)

(** The answers of the reference store along the scenario. *)
Definition scenario_current : GetSecretValueOutput.t :=
  {| GetSecretValueOutput.SecretString := Some "old123" |}.

Definition scenario_generated : GetRandomPasswordOutput.t :=
  {| GetRandomPasswordOutput.RandomPassword := Some scenario_password |}.

Lemma createSecret_needs_current_witness :
  createSecret (Some "no-such-secret") (Some "v2") (boot scenario_store) =
    (Panicked (PanicError (ResourceNotFound "secret not found")),
     called (boot scenario_store) scenario_store
       [GetSecretValueCall (get_current_request (Some "no-such-secret"))]) ∧
  mutations (new_calls (boot scenario_store)
               (createSecret (Some "no-such-secret") (Some "v2") (boot scenario_store)).2) = [].
Proof.
  apply (createSecret_needs_current (Some "no-such-secret") (Some "v2")
           (boot scenario_store)).
  reflexivity.
Defined.

Lemma createSecret_present_is_noop_witness :
  createSecret (Some "db-pwd") (Some "v2") (boot scenario_created) =
    (Returned tt,
     called (boot scenario_created) scenario_created
       [GetSecretValueCall (get_current_request (Some "db-pwd"));
        GetSecretValueCall (get_pending_request (Some "db-pwd") (Some "v2"))]) ∧
  mutations (new_calls (boot scenario_created)
               (createSecret (Some "db-pwd") (Some "v2") (boot scenario_created)).2) = [] ∧
  logs (createSecret (Some "db-pwd") (Some "v2") (boot scenario_created)).2 =
    logs (boot (C:=api_call) scenario_created).
Proof.
  apply (createSecret_present_is_noop (Some "db-pwd") (Some "v2") (boot scenario_created)
           scenario_current scenario_created
           {| GetSecretValueOutput.SecretString := Some scenario_password |}).
  - vm_compute. reflexivity.
  - vm_compute. reflexivity.
Defined.

Lemma createSecret_other_error_is_fatal_witness :
  (createSecret (Some "db-pwd") (Some "v2") (boot flaky)).1 =
    Panicked (PanicError timeout) ∧
  new_calls (boot flaky) (createSecret (Some "db-pwd") (Some "v2") (boot flaky)).2 =
    [GetSecretValueCall (get_current_request (Some "db-pwd"));
     GetSecretValueCall (get_pending_request (Some "db-pwd") (Some "v2"))].
Proof.
  apply (createSecret_other_error_is_fatal (Some "db-pwd") (Some "v2") (boot flaky)
           scenario_current flaky timeout flaky).
  - reflexivity.
  - reflexivity.
  - discriminate.
Defined.

Lemma createSecret_creates_witness :
  createSecret (Some "db-pwd") (Some "v2") (boot scenario_store) =
  (Returned tt,
   logged (called (boot scenario_store) scenario_created
     [GetSecretValueCall (get_current_request (Some "db-pwd"));
      GetSecretValueCall (get_pending_request (Some "db-pwd") (Some "v2"));
      GetRandomPasswordCall random_password_request;
      PutSecretValueCall
        (put_pending_request (Some "db-pwd") (Some "v2") (Some scenario_password))])
     (created_line "db-pwd" "v2")).
Proof.
  apply (createSecret_creates "db-pwd" "v2" (boot scenario_store)
           scenario_current scenario_store
           (ResourceNotFound "secret value not found") scenario_store
           scenario_generated (Store (secrets scenario_store) scenario_seed)
           {| PutSecretValueOutput.VersionId := Some "v2" |} scenario_created).
  - vm_compute. reflexivity.
  - vm_compute. reflexivity.
  - reflexivity.
  - vm_compute. reflexivity.
  - vm_compute. reflexivity.
Defined.

Lemma createSecret_idempotent_witness :
  createSecret (Some "db-pwd") (Some "v2")
    (logged (called (boot scenario_store) scenario_created
       [GetSecretValueCall (get_current_request (Some "db-pwd"));
        GetSecretValueCall (get_pending_request (Some "db-pwd") (Some "v2"));
        GetRandomPasswordCall random_password_request;
        PutSecretValueCall
          (put_pending_request (Some "db-pwd") (Some "v2") (Some scenario_password))])
       (created_line "db-pwd" "v2")) =
  (Returned tt,
   called
     (logged (called (boot scenario_store) scenario_created
        [GetSecretValueCall (get_current_request (Some "db-pwd"));
         GetSecretValueCall (get_pending_request (Some "db-pwd") (Some "v2"));
         GetRandomPasswordCall random_password_request;
         PutSecretValueCall
           (put_pending_request (Some "db-pwd") (Some "v2") (Some scenario_password))])
        (created_line "db-pwd" "v2"))
     scenario_created
     [GetSecretValueCall (get_current_request (Some "db-pwd"));
      GetSecretValueCall (get_pending_request (Some "db-pwd") (Some "v2"))]).
Proof.
  apply (createSecret_idempotent (Some "db-pwd") (Some "v2") (boot scenario_store)).
  vm_compute. reflexivity.
Defined.

(** * Invariants of the service *)

Lemma createSecret_keeps `{SecretsManagerAPI Σ} (Inv : Σ → Prop) `{!ServiceInvariant Inv}
    Arn Token :
  preserves (keeps Inv) (createSecret Arn Token).
Proof. unfold createSecret, generate_and_put. solve_preserves. Qed.

#[export] Hint Resolve createSecret_keeps : prog.

(** * The calls of the function *)

Lemma createSecret_emits `{SecretsManagerAPI Σ} Arn Token :
  emits 4 (about Arn) (createSecret (Σ:=Σ) Arn Token).
Proof.
  unfold createSecret, generate_and_put, svc_GetSecretValue, svc_GetRandomPassword,
    svc_PutSecretValue.
  solve_emits.
Qed.

(** The put is the last call of the function: what precedes it reads. *)
Lemma createSecret_writes_last `{SecretsManagerAPI Σ} Arn Token :
  writes_last (createSecret (Σ:=Σ) Arn Token).
Proof.
  unfold createSecret, generate_and_put, svc_GetSecretValue, svc_GetRandomPassword,
    svc_PutSecretValue.
  solve_writes_last.
Qed.
