(* ===== verification/FinishSecret.v ===== *)
(** * finishSecret (src/main.go, lines 143-176)

    The last step of a rotation: move the label AWSCURRENT to the version
    named by the token.  The function describes the secret, scans the
    version map for "the current version" and asks the store to move the
    label from that version to the token's.

    Go visits the keys of a map in an unspecified order, which may differ
    from one loop to the next.  The order is an explicit argument here: a
    function that rearranges the list of keys.  The theorems hold for every
    such function, or say for which ones they hold and exhibit one. *)

From stdpp Require Import base tactics option list strings gmap.
From S2P Require Import Prelude GoRuntime SecretsManager Store Validator.

(** * The requests and the log lines *)

(** Lines 165-170: move AWSCURRENT to the token's version and remove it
    from [currentVersion].  The last field is the address of a local
    variable: it is never nil. *)
Definition promote_request (Arn Token : option string) (currentVersion : string)
    : UpdateSecretVersionStageInput.t :=
  {| UpdateSecretVersionStageInput.SecretId := Arn;
     UpdateSecretVersionStageInput.VersionStage := Some AWSCURRENT;
     UpdateSecretVersionStageInput.MoveToVersionId := Token;
     UpdateSecretVersionStageInput.RemoveFromVersionId := Some currentVersion |}.

(** Line 156. *)
Definition already_line (key arn : string) : string :=
  Sprintf "finishSecret: Version %s already marked as AWSCURRENT for %s" [key; arn].

(** Line 175. *)
Definition finished_line (token arn : string) : string :=
  Sprintf "finishSecret: Successfully set AWSCURRENT stage to version %s for secret %s."
    [token; arn].

(** * Iterating over a map *)

(** The keys of a map, in the order in which a [range] loop visits them:
    [order] rearranges the canonical list of keys. *)
Definition range_keys {V} (order : list string → list string) (m : gmap string V)
    : list string :=
  order (map_to_list m).*1.

(** An order is admissible for a map when it visits every key once. *)
Definition visits_all {V} (order : list string → list string) (m : gmap string V) : Prop :=
  order (map_to_list m).*1 ≡ₚ (map_to_list m).*1.

(** The order that visits [k] first and leaves the other keys in place. *)
Definition first_visit (k : string) (l : list string) : list string :=
  if decide (k ∈ l) then k :: filter (λ k', k' ≠ k) l else l.

(** Line 154: the test [nil != sec.VersionIdsToStages[key]]. *)
Definition has_stages (m : gmap string (option (list (option string)))) (key : string)
    : bool :=
  match m !! key with
  | Some (Some _) => true
  | _ => false
  end.

(** * The function *)

Section finishSecret.
Context `{SecretsManagerAPI Σ}.
Implicit Types (w : world Σ api_call) (Arn Token : option string)
  (m : gmap string (option (list (option string)))).

(** Lines 155-160: the body of the loop at a key that passed the test of
    line 154.  [None]: the function returns (line 157); [Some key]: the
    loop is left with [currentVersion = key]. *)
Definition found_version Arn Token (key : string) : sm Σ (option string) :=
  token <- deref Token ;;
  if decide (key = token) then
    arn <- deref Arn ;;
    log_Printf "finishSecret: Version %s already marked as AWSCURRENT for %s"
      [key; arn] ;;;
    ret None
  else ret (Some key).

(** Lines 152-162: the loop over the version map.  [None]: the function
    returned from inside the loop; [Some v]: the loop ended with
    [currentVersion = v], the empty string when no key passed the test. *)
Fixpoint scan_versions Arn Token m (keys : list string) : sm Σ (option string) :=
  match keys with
  | [] => ret (Some EmptyString)
  | key :: rest =>
      if has_stages m key then found_version Arn Token key
      else scan_versions Arn Token m rest
  end.

(** Lines 164-175: ask the store to move the label, panic if it refuses,
    log the success. *)
Definition promote Arn Token (currentVersion : string) : sm Σ unit :=
  r <- svc_UpdateSecretVersionStage (promote_request Arn Token currentVersion) ;;
  match r with
  | inr err => panic (PanicError err)
  | inl _ =>
      token <- deref Token ;;
      arn <- deref Arn ;;
      log_Printf
        "finishSecret: Successfully set AWSCURRENT stage to version %s for secret %s."
        [token; arn]
  end.

Definition finishSecret (order : list string → list string) Arn Token : sm Σ unit :=
  r <- svc_DescribeSecret (describe_request Arn) ;;
  match r with
  | inr err => panic (PanicError err)
  | inl sec =>
      let m := DescribeSecretOutput.VersionIdsToStages sec in
      r <- scan_versions Arn Token m (range_keys order m) ;;
      match r with
      | None => ret tt
      | Some currentVersion => promote Arn Token currentVersion
      end
  end.

(** The key at which the scan of [m] stops when the keys are visited in
    the order [order]. *)
Definition first_version (order : list string → list string) m : option string :=
  first_such (has_stages m) (range_keys order m).

End finishSecret.

(** * The scan *)

Section scan_facts.
Context `{SecretsManagerAPI Σ}.
Implicit Types (w : world Σ api_call) (Arn Token : option string)
  (m : gmap string (option (list (option string)))).

Lemma found_version_quiet Arn Token key :
  preserves quiet (found_version (Σ:=Σ) Arn Token key).
Proof. unfold found_version. solve_preserves. Qed.

Lemma scan_versions_quiet Arn Token m keys :
  preserves quiet (scan_versions (Σ:=Σ) Arn Token m keys).
Proof.
  pose proof (found_version_quiet Arn Token).
  induction keys as [|key rest IH]; simpl; solve_preserves.
Qed.

(** The loop stops at the first key, in iteration order, whose label slice
    is not nil; the labels themselves are never looked at. *)
Lemma scan_versions_first Arn Token m keys w :
  scan_versions Arn Token m keys w =
  match first_such (has_stages m) keys with
  | Some key => found_version Arn Token key w
  | None => (Returned (Some EmptyString), w)
  end.
Proof.
  induction keys as [|key rest IH]; simpl; [done|]. by destruct (has_stages m key).
Qed.

Lemma found_version_token arn token w :
  found_version (Some arn) (Some token) token w =
  (Returned None, logged w (already_line token arn)).
Proof. unfold found_version, bind. simpl. by rewrite decide_True. Qed.

Lemma found_version_other Arn token key w :
  key ≠ token →
  found_version Arn (Some token) key w = (Returned (Some key), w).
Proof. intros Hk. unfold found_version, bind. simpl. by rewrite decide_False. Qed.

Lemma found_version_nil_token Arn key w :
  found_version Arn None key w = (Panicked NilDereference, w).
Proof. done. Qed.

(** The version the loop is left with is not the token's, unless no key
    passed the test: then it is the zero value of a string. *)
Lemma scan_versions_result Arn Token m keys w cv w' :
  scan_versions Arn Token m keys w = (Returned (Some cv), w') →
  cv = EmptyString ∨ Token ≠ Some cv.
Proof.
  induction keys as [|key rest IH]; simpl; [intros [= <- _]; by left|].
  destruct (has_stages m key); [|done]. destruct Token as [token|]; [|done].
  destruct (decide (key = token)) as [->|Hne].
  - destruct Arn as [arn|]; [by rewrite found_version_token|].
    unfold found_version, bind. simpl. by rewrite decide_True.
  - rewrite found_version_other by done. intros [= <- _]. right. congruence.
Qed.

End scan_facts.

#[export] Hint Resolve found_version_quiet scan_versions_quiet : prog.

(** * The paths of the function *)

Section finishSecret_runs.
Context `{SecretsManagerAPI Σ}.
Implicit Types (w : world Σ api_call) (Arn Token : option string)
  (m : gmap string (option (list (option string))))
  (order : list string → list string) (sec : DescribeSecretOutput.t).

Lemma promote_run_done arn token cv w out σ1 :
  UpdateSecretVersionStage (promote_request (Some arn) (Some token) cv) (remote w) =
    (inl out, σ1) →
  promote (Some arn) (Some token) cv w =
  (Returned tt,
   logged (called w σ1
             [UpdateSecretVersionStageCall (promote_request (Some arn) (Some token) cv)])
     (finished_line token arn)).
Proof. intros. unfold promote, svc_UpdateSecretVersionStage. by run_call. Qed.

Lemma promote_run_refused Arn Token cv w err σ1 :
  UpdateSecretVersionStage (promote_request Arn Token cv) (remote w) = (inr err, σ1) →
  promote Arn Token cv w =
  (Panicked (PanicError err),
   called w σ1 [UpdateSecretVersionStageCall (promote_request Arn Token cv)]).
Proof. intros. unfold promote, svc_UpdateSecretVersionStage. by run_call. Qed.

(** Accepted or refused, the update is the one call [promote] issues. *)
Lemma promote_calls Arn Token cv w :
  calls (promote Arn Token cv w).2 =
  calls w ++ [UpdateSecretVersionStageCall (promote_request Arn Token cv)].
Proof. unfold promote. apply calls_bind_call_quiet. solve_preserves. Qed.

Lemma finishSecret_run_describe_failed order Arn Token w err σ1 :
  DescribeSecret (describe_request Arn) (remote w) = (inr err, σ1) →
  finishSecret order Arn Token w =
  (Panicked (PanicError err), called w σ1 [DescribeSecretCall (describe_request Arn)]).
Proof. intros. unfold finishSecret, svc_DescribeSecret. by run_call. Qed.

(** The scan stops at the token: the function returns without asking
    the store for anything. *)
Lemma finishSecret_run_token order arn token w sec σ1 :
  DescribeSecret (describe_request (Some arn)) (remote w) = (inl sec, σ1) →
  first_version order (DescribeSecretOutput.VersionIdsToStages sec) = Some token →
  finishSecret order (Some arn) (Some token) w =
  (Returned tt,
   logged (called w σ1 [DescribeSecretCall (describe_request (Some arn))])
     (already_line token arn)).
Proof.
  intros Hd Hfirst. unfold finishSecret, svc_DescribeSecret. run_call.
  unfold bind at 1. unfold first_version in Hfirst.
  by rewrite scan_versions_first, Hfirst, found_version_token.
Qed.

(** The scan stops at another key: that key is what the store is asked to
    take AWSCURRENT from. *)
Lemma finishSecret_run_other order Arn token key w sec σ1 :
  DescribeSecret (describe_request Arn) (remote w) = (inl sec, σ1) →
  first_version order (DescribeSecretOutput.VersionIdsToStages sec) = Some key →
  key ≠ token →
  finishSecret order Arn (Some token) w =
  promote Arn (Some token) key (called w σ1 [DescribeSecretCall (describe_request Arn)]).
Proof.
  intros Hd Hfirst Hk. unfold finishSecret, svc_DescribeSecret. run_call.
  unfold bind at 1. unfold first_version in Hfirst.
  by rewrite scan_versions_first, Hfirst, found_version_other.
Qed.

(** No key has labels: the store is asked to take AWSCURRENT from the
    version named by the empty string. *)
Lemma finishSecret_run_none order Arn Token w sec σ1 :
  DescribeSecret (describe_request Arn) (remote w) = (inl sec, σ1) →
  first_version order (DescribeSecretOutput.VersionIdsToStages sec) = None →
  finishSecret order Arn Token w =
  promote Arn Token EmptyString
    (called w σ1 [DescribeSecretCall (describe_request Arn)]).
Proof.
  intros Hd Hfirst. unfold finishSecret, svc_DescribeSecret. run_call.
  unfold bind at 1. unfold first_version in Hfirst.
  by rewrite scan_versions_first, Hfirst.
Qed.

End finishSecret_runs.

(** * Iteration orders *)

Section orders.
Context {V : Type}.
Implicit Types (m : gmap string V) (k : string).

Lemma first_visit_perm k (l : list string) : NoDup l → first_visit k l ≡ₚ l.
Proof.
  intros Hnd. unfold first_visit. case_decide; [|done]. by apply cons_filter_ne_perm.
Qed.

(** Visiting a given key first is an admissible order for every map. *)
Lemma first_visit_visits_all k m : visits_all (first_visit k) m.
Proof. apply first_visit_perm, NoDup_fst_map_to_list. Qed.

Lemma visits_all_id m : visits_all id m.
Proof. unfold visits_all. reflexivity. Qed.

Lemma visits_all_reverse m : visits_all reverse m.
Proof. unfold visits_all. by rewrite reverse_Permutation. Qed.

Lemma range_keys_first_visit k m :
  is_Some (m !! k) → ∃ rest, range_keys (first_visit k) m = k :: rest.
Proof.
  intros [v Hv]. unfold range_keys, first_visit. rewrite decide_True; [by eexists|].
  apply list_elem_of_fmap. exists (k, v). split; [done|]. by apply elem_of_map_to_list.
Qed.

End orders.

(** A key with labels that is visited first is where the scan stops. *)
Lemma first_version_first_visit m k :
  has_stages m k = true → first_version (first_visit k) m = Some k.
Proof.
  intros Hk. unfold first_version.
  destruct (range_keys_first_visit k m) as [rest ->]; [|by simpl; rewrite Hk].
  unfold has_stages in Hk. by destruct (m !! k).
Qed.

(** With a single labelled version, every admissible order stops there. *)
Lemma first_version_sole order m k :
  visits_all order m → has_stages m k = true →
  (∀ k', has_stages m k' = true → k' = k) →
  first_version order m = Some k.
Proof.
  intros Hvis Hk Hsole. apply first_such_unique; [|done|by auto].
  unfold range_keys. rewrite Hvis. apply list_elem_of_fmap.
  unfold has_stages in Hk. destruct (m !! k) as [v|] eqn:Hv; [|done].
  exists (k, v). split; [done|]. by apply elem_of_map_to_list.
Qed.

(** * What the function can do to the store *)

Section finishSecret_effects.
Context `{SecretsManagerAPI Σ}.
Implicit Types (w : world Σ api_call) (Arn Token : option string)
  (order : list string → list string) (sec : DescribeSecretOutput.t).

(** The mutating calls [finishSecret] may issue: an update that moves
    AWSCURRENT to the token's version, from whatever version the scan
    recorded; that version is not the token's, unless it is the zero
    value of a string. *)
Definition promotion_of (Arn Token : option string) (c : api_call) : Prop :=
  ∃ cv, (cv = EmptyString ∨ Token ≠ Some cv) ∧
        c = UpdateSecretVersionStageCall (promote_request Arn Token cv).

Lemma promote_issues Arn Token cv :
  cv = EmptyString ∨ Token ≠ Some cv →
  issues 1 (promotion_of Arn Token) (promote (Σ:=Σ) Arn Token cv).
Proof.
  intros Hcv. unfold promote. apply (issues_bind 1 0); [apply issues_write; by eexists|].
  solve_issues.
Qed.

Lemma finishSecret_issues order Arn Token :
  issues 1 (promotion_of Arn Token) (finishSecret (Σ:=Σ) order Arn Token).
Proof.
  unfold finishSecret. apply issues_bind_read; [solve_issues|].
  intros [sec|err]; [|solve_issues]. cbv zeta.
  apply (issues_bind_result 1 _
           (λ r, ∀ cv, r = Some cv → cv = EmptyString ∨ Token ≠ Some cv));
    [apply scan_versions_quiet|intros w r w' Hscan cv ->; by eapply scan_versions_result|].
  intros [cv|] Hcv; [by apply promote_issues, Hcv|solve_issues].
Qed.

(** Whatever the service answers and in whatever order the
    map is visited, [finishSecret] issues at most one mutating call, and
    that call moves AWSCURRENT to the version named by the token. *)
Theorem finishSecret_mutations order Arn Token w :
  length (mutations (new_calls w (finishSecret order Arn Token w).2)) ≤ 1 ∧
  Forall (promotion_of Arn Token)
    (mutations (new_calls w (finishSecret order Arn Token w).2)).
Proof. apply issues_new_calls, finishSecret_issues. Qed.

(** C9 (functional): when the first version with labels that the loop
    visits is not the token's, [finishSecret] asks the store to move
    AWSCURRENT from that version to the token's, whatever labels that
    version carries, and logs the success once the store accepts. *)
Theorem finishSecret_promotes order arn token key w sec σ1 out σ2 :
  DescribeSecret (describe_request (Some arn)) (remote w) = (inl sec, σ1) →
  first_version order (DescribeSecretOutput.VersionIdsToStages sec) = Some key →
  key ≠ token →
  UpdateSecretVersionStage (promote_request (Some arn) (Some token) key) σ1 =
    (inl out, σ2) →
  finishSecret order (Some arn) (Some token) w =
  (Returned tt,
   logged (called w σ2
             [DescribeSecretCall (describe_request (Some arn));
              UpdateSecretVersionStageCall (promote_request (Some arn) (Some token) key)])
     (finished_line token arn)).
Proof.
  intros Hd Hfirst Hk Hup. rewrite (finishSecret_run_other _ _ _ _ _ _ _ Hd Hfirst Hk).
  erewrite promote_run_done by (rewrite ?remote_called; eassumption).
  by rewrite called_called.
Qed.

(** When the first version with labels that the loop
    visits is the token's, [finishSecret] returns at once: it logs that
    the version is already marked AWSCURRENT and issues no mutating call.
    Nothing in the hypotheses says that the token carries AWSCURRENT: the
    loop never looks at the labels. *)
Theorem finishSecret_returns_at_token order arn token w sec σ1 :
  DescribeSecret (describe_request (Some arn)) (remote w) = (inl sec, σ1) →
  first_version order (DescribeSecretOutput.VersionIdsToStages sec) = Some token →
  finishSecret order (Some arn) (Some token) w =
    (Returned tt,
     logged (called w σ1 [DescribeSecretCall (describe_request (Some arn))])
       (already_line token arn)) ∧
  mutations (new_calls w (finishSecret order (Some arn) (Some token) w).2) = [].
Proof.
  intros Hd Hfirst. rewrite (finishSecret_run_token _ _ _ _ _ _ Hd Hfirst).
  split; [done|]. simpl. by autorewrite with trace.
Qed.

(** A refusal of the store is fatal: when the update fails,
    [finishSecret] panics with the store's error, after the describe and
    the update calls. *)
Theorem finishSecret_refusal_is_fatal order Arn token key w sec σ1 err σ2 :
  DescribeSecret (describe_request Arn) (remote w) = (inl sec, σ1) →
  first_version order (DescribeSecretOutput.VersionIdsToStages sec) = Some key →
  key ≠ token →
  UpdateSecretVersionStage (promote_request Arn (Some token) key) σ1 = (inr err, σ2) →
  finishSecret order Arn (Some token) w =
  (Panicked (PanicError err),
   called w σ2
     [DescribeSecretCall (describe_request Arn);
      UpdateSecretVersionStageCall (promote_request Arn (Some token) key)]).
Proof.
  intros Hd Hfirst Hk Hup. rewrite (finishSecret_run_other _ _ _ _ _ _ _ Hd Hfirst Hk).
  erewrite promote_run_refused by (rewrite ?remote_called; eassumption).
  by rewrite called_called.
Qed.

(** C3 (safety): the outcome of [finishSecret] depends on the iteration
    order of the map.  As soon as the description lists the token's version
    and another one, both with labels (the state of every rotation that
    reaches this step), there are two admissible orders of which one makes
    the function return without promoting and the other makes it ask for
    the promotion. *)
Theorem finishSecret_depends_on_order arn token key w sec σ1 :
  DescribeSecret (describe_request (Some arn)) (remote w) = (inl sec, σ1) →
  has_stages (DescribeSecretOutput.VersionIdsToStages sec) token = true →
  has_stages (DescribeSecretOutput.VersionIdsToStages sec) key = true →
  key ≠ token →
  visits_all (first_visit token) (DescribeSecretOutput.VersionIdsToStages sec) ∧
  visits_all (first_visit key) (DescribeSecretOutput.VersionIdsToStages sec) ∧
  mutations (new_calls w
    (finishSecret (first_visit token) (Some arn) (Some token) w).2) = [] ∧
  mutations (new_calls w
    (finishSecret (first_visit key) (Some arn) (Some token) w).2) =
    [UpdateSecretVersionStageCall (promote_request (Some arn) (Some token) key)].
Proof.
  intros Hd Ht Hk Hne. do 2 (split; [apply first_visit_visits_all|]). split.
  - rewrite (finishSecret_run_token _ _ _ _ _ _ Hd (first_version_first_visit _ _ Ht)).
    simpl. by autorewrite with trace.
  - rewrite (finishSecret_run_other _ _ _ _ _ _ _ Hd (first_version_first_visit _ _ Hk) Hne).
    destruct (UpdateSecretVersionStage (promote_request (Some arn) (Some token) key) σ1)
      as [[out|err] σ2] eqn:Hup.
    + erewrite promote_run_done by (rewrite ?remote_called; eassumption).
      simpl. by autorewrite with trace.
    + erewrite promote_run_refused by (rewrite ?remote_called; eassumption).
      simpl. by autorewrite with trace.
Qed.

(** When no version of the description has labels, the
    variable [currentVersion] keeps its zero value and the store is asked
    to take AWSCURRENT from the version named by the empty string. *)
Theorem finishSecret_without_labels order Arn Token w sec σ1 :
  DescribeSecret (describe_request Arn) (remote w) = (inl sec, σ1) →
  first_version order (DescribeSecretOutput.VersionIdsToStages sec) = None →
  new_calls w (finishSecret order Arn Token w).2 =
    [DescribeSecretCall (describe_request Arn);
     UpdateSecretVersionStageCall (promote_request Arn Token EmptyString)].
Proof.
  intros Hd Hfirst. rewrite (finishSecret_run_none _ _ _ _ _ _ Hd Hfirst).
  apply new_calls_app. rewrite promote_calls. unfold called. simpl.
  by rewrite <-app_assoc.
Qed.

End finishSecret_effects.

(** * Instances *)

(** The description of the scenario's secret once "v2" has a value. *)
Definition scenario_description : DescribeSecretOutput.t :=
  {| DescribeSecretOutput.RotationEnabled := Some true;
     DescribeSecretOutput.VersionIdsToStages :=
       {[ "v1" := Some [Some AWSCURRENT]; "v2" := Some [Some AWSPENDING] ]} |}.

Lemma finishSecret_promotes_witness :
  finishSecret id (Some "db-pwd") (Some "v2") (boot scenario_created) =
  (Returned tt,
   logged (called (boot scenario_created) scenario_finished
             [DescribeSecretCall (describe_request (Some "db-pwd"));
              UpdateSecretVersionStageCall
                (promote_request (Some "db-pwd") (Some "v2") "v1")])
     (finished_line "v2" "db-pwd")).
Proof.
  apply (finishSecret_promotes id "db-pwd" "v2" "v1" (boot scenario_created)
           scenario_description scenario_created
           {| UpdateSecretVersionStageOutput.Name := Some "db-pwd" |} scenario_finished).
  - vm_compute. reflexivity.
  - vm_compute. reflexivity.
  - discriminate.
  - vm_compute. reflexivity.
Defined.

Lemma finishSecret_returns_at_token_witness :
  finishSecret reverse (Some "db-pwd") (Some "v2") (boot scenario_created) =
    (Returned tt,
     logged (called (boot scenario_created) scenario_created
               [DescribeSecretCall (describe_request (Some "db-pwd"))])
       (already_line "v2" "db-pwd")) ∧
  mutations (new_calls (boot scenario_created)
    (finishSecret reverse (Some "db-pwd") (Some "v2") (boot scenario_created)).2) = [].
Proof.
  apply (finishSecret_returns_at_token reverse "db-pwd" "v2" (boot scenario_created)
           scenario_description scenario_created).
  - vm_compute. reflexivity.
  - vm_compute. reflexivity.
Defined.

Lemma finishSecret_refusal_is_fatal_witness :
  finishSecret (first_visit "v0") (Some "db-pwd") (Some "v2")
    (boot scenario_with_previous) =
  (Panicked (PanicError
     (InvalidParameter "the label is not attached to RemoveFromVersionId")),
   called (boot scenario_with_previous) scenario_with_previous
     [DescribeSecretCall (describe_request (Some "db-pwd"));
      UpdateSecretVersionStageCall (promote_request (Some "db-pwd") (Some "v2") "v0")]).
Proof.
  apply (finishSecret_refusal_is_fatal (first_visit "v0") (Some "db-pwd") "v2" "v0"
           (boot scenario_with_previous)
           {| DescribeSecretOutput.RotationEnabled := Some true;
              DescribeSecretOutput.VersionIdsToStages :=
                {[ "v0" := Some [Some "AWSPREVIOUS"]; "v1" := Some [Some AWSCURRENT];
                   "v2" := Some [Some AWSPENDING] ]} |} scenario_with_previous).
  - vm_compute. reflexivity.
  - vm_compute. reflexivity.
  - discriminate.
  - vm_compute. reflexivity.
Defined.

Lemma finishSecret_depends_on_order_witness :
  visits_all (first_visit "v2") (DescribeSecretOutput.VersionIdsToStages scenario_description) ∧
  visits_all (first_visit "v1") (DescribeSecretOutput.VersionIdsToStages scenario_description) ∧
  mutations (new_calls (boot scenario_created)
    (finishSecret (first_visit "v2") (Some "db-pwd") (Some "v2") (boot scenario_created)).2) = [] ∧
  mutations (new_calls (boot scenario_created)
    (finishSecret (first_visit "v1") (Some "db-pwd") (Some "v2") (boot scenario_created)).2) =
    [UpdateSecretVersionStageCall (promote_request (Some "db-pwd") (Some "v2") "v1")].
Proof.
  apply (finishSecret_depends_on_order "db-pwd" "v2" "v1" (boot scenario_created)
           scenario_description scenario_created).
  - vm_compute. reflexivity.
  - reflexivity.
  - reflexivity.
  - discriminate.
Defined.

Lemma finishSecret_without_labels_witness :
  new_calls (boot scenario_empty)
    (finishSecret id (Some "db-pwd") (Some "v2") (boot scenario_empty)).2 =
    [DescribeSecretCall (describe_request (Some "db-pwd"));
     UpdateSecretVersionStageCall
       (promote_request (Some "db-pwd") (Some "v2") EmptyString)].
Proof.
  apply (finishSecret_without_labels id (Some "db-pwd") (Some "v2") (boot scenario_empty)
           {| DescribeSecretOutput.RotationEnabled := Some true;
              DescribeSecretOutput.VersionIdsToStages := ∅ |} scenario_empty).
  - vm_compute. reflexivity.
  - reflexivity.
Defined.

(** * Invariants of the service *)

Lemma finishSecret_keeps `{SecretsManagerAPI Σ} (Inv : Σ → Prop) `{!ServiceInvariant Inv}
    order Arn Token :
  preserves (keeps Inv) (finishSecret order Arn Token).
Proof. unfold finishSecret, promote. solve_preserves. Qed.

#[export] Hint Resolve finishSecret_keeps : prog.

(** * The calls of the function *)

Lemma finishSecret_emits `{SecretsManagerAPI Σ} order Arn Token :
  emits 2 (about Arn) (finishSecret (Σ:=Σ) order Arn Token).
Proof.
  unfold finishSecret, promote, svc_DescribeSecret, svc_UpdateSecretVersionStage.
  pose proof (scan_versions_quiet (Σ:=Σ) Arn Token).
  solve_emits.
Qed.

(** The update is the last call of the function. *)
Lemma finishSecret_writes_last `{SecretsManagerAPI Σ} order Arn Token :
  writes_last (finishSecret (Σ:=Σ) order Arn Token).
Proof.
  unfold finishSecret, promote, svc_DescribeSecret, svc_UpdateSecretVersionStage.
  pose proof (scan_versions_quiet (Σ:=Σ) Arn Token).
  solve_writes_last.
Qed.

(** * After the promotion *)

(** Called for a token whose version is the only one with
    labels (the state the reference store is in once the token has been
    promoted), [finishSecret] is a no-op under every admissible iteration
    order: it logs that the version is already AWSCURRENT, returns, and
    issues no mutating call. *)
Theorem finishSecret_after_promotion `{SecretsManagerAPI Σ} order arn token
    (w : world Σ api_call) sec σ1 :
  DescribeSecret (describe_request (Some arn)) (remote w) = (inl sec, σ1) →
  visits_all order (DescribeSecretOutput.VersionIdsToStages sec) →
  has_stages (DescribeSecretOutput.VersionIdsToStages sec) token = true →
  (∀ key, has_stages (DescribeSecretOutput.VersionIdsToStages sec) key = true →
          key = token) →
  finishSecret order (Some arn) (Some token) w =
    (Returned tt,
     logged (called w σ1 [DescribeSecretCall (describe_request (Some arn))])
       (already_line token arn)) ∧
  mutations (new_calls w (finishSecret order (Some arn) (Some token) w).2) = [].
Proof.
  intros Hd Hvis Htok Hsole.
  rewrite (finishSecret_run_token _ _ _ _ _ _ Hd (first_version_sole _ _ _ Hvis Htok Hsole)).
  split; [done|]. simpl. by autorewrite with trace.
Qed.

Lemma finishSecret_after_promotion_witness :
  finishSecret reverse (Some "db-pwd") (Some "v2") (boot scenario_finished) =
    (Returned tt,
     logged (called (boot scenario_finished) scenario_finished
               [DescribeSecretCall (describe_request (Some "db-pwd"))])
       (already_line "v2" "db-pwd")) ∧
  mutations (new_calls (boot scenario_finished)
    (finishSecret reverse (Some "db-pwd") (Some "v2") (boot scenario_finished)).2) = [].
Proof.
  apply (finishSecret_after_promotion reverse "db-pwd" "v2" (boot scenario_finished)
           {| DescribeSecretOutput.RotationEnabled := Some true;
              DescribeSecretOutput.VersionIdsToStages :=
                {[ "v2" := Some [Some AWSCURRENT; Some AWSPENDING] ]} |}
           scenario_finished).
  - by vm_compute.
  - apply visits_all_reverse.
  - by vm_compute.
  - intros key. unfold has_stages. simpl.
    destruct (decide (key = "v2")) as [->|Hne]; [done|].
    by rewrite lookup_singleton_ne.
Defined.
