(* ===== verification/FinishSpec.v ===== *)
(** * finishSecret as it is specified

    The specification describes the scan of [finishSecret] as a search for
    the version that is labelled AWSCURRENT.  This file writes that
    algorithm down next to the code's ([FinishSecret]), with the same
    handling of the version found, and compares the two: they agree
    exactly when the first labelled version that the code visits is the
    first holder of AWSCURRENT; the specified algorithm does not depend on
    the iteration order when at most one version holds AWSCURRENT, which
    the code's does. *)

From stdpp Require Import base tactics option list strings gmap.
From S2P Require Import Prelude GoRuntime SecretsManager Store Validator FinishSecret.

Open Scope prog_scope.

(** * Definitions *)

(** The test the scan is specified to make on a version: one of its labels
    is AWSCURRENT. *)
Definition holds_current (m : gmap string (option (list (option string))))
    (key : string) : bool :=
  match m !! key with
  | Some labels => bool_decide (Some AWSCURRENT ∈ range_slice labels)
  | None => false
  end.

(** At most one version of the description holds AWSCURRENT. *)
Definition one_current (m : gmap string (option (list (option string)))) : Prop :=
  map_Forall (λ k1 _,
    map_Forall (λ k2 _,
      holds_current m k1 = true → holds_current m k2 = true → k1 = k2) m) m.

#[export] Instance one_current_dec m : Decision (one_current m).
Proof. unfold one_current. apply _. Defined.

Section finishSecret_spec.
Context `{SecretsManagerAPI Σ}.
Implicit Types (w : world Σ api_call) (Arn Token : option string)
  (m : gmap string (option (list (option string))))
  (order : list string → list string).

(** The holder of AWSCURRENT that is visited first. *)
Definition first_current order m : option string :=
  first_such (holds_current m) (range_keys order m).

(** The specified function: as [finishSecret], with the scan stopping at
    the first version that holds AWSCURRENT. *)
Definition finishSecret_spec order Arn Token : sm Σ unit :=
  r <- svc_DescribeSecret (describe_request Arn) ;;
  match r with
  | inr err => panic (PanicError err)
  | inl sec =>
      let m := DescribeSecretOutput.VersionIdsToStages sec in
      r <- match first_current order m with
           | Some key => found_version Arn Token key
           | None => ret (Some EmptyString)
           end ;;
      match r with
      | None => ret tt
      | Some currentVersion => promote Arn Token currentVersion
      end
  end.

End finishSecret_spec.

(** * The code against the specified function *)

Section comparison.
Context `{SecretsManagerAPI Σ}.
Implicit Types (w : world Σ api_call) (Arn Token : option string)
  (m : gmap string (option (list (option string))))
  (order : list string → list string).

(** A holder of AWSCURRENT has labels. *)
Lemma holds_current_has_stages m key :
  holds_current m key = true → has_stages m key = true.
Proof.
  unfold holds_current, has_stages. by destruct (m !! key) as [[labels|]|]; simpl.
Qed.

(** The function the code would be if its scan made the test [test]. *)
Lemma finishSecret_run order Arn Token w sec σ1 :
  DescribeSecret (describe_request Arn) (remote w) = (inl sec, σ1) →
  finishSecret order Arn Token w =
  (r <- match first_version order (DescribeSecretOutput.VersionIdsToStages sec) with
        | Some key => found_version Arn Token key
        | None => ret (Some EmptyString)
        end ;;
   match r with
   | None => ret tt
   | Some currentVersion => promote Arn Token currentVersion
   end) (called w σ1 [DescribeSecretCall (describe_request Arn)]).
Proof.
  intros Hd. unfold finishSecret, svc_DescribeSecret. run_call.
  unfold bind. rewrite scan_versions_first. unfold first_version.
  by destruct (first_such _ _).
Qed.

Lemma finishSecret_spec_run order Arn Token w sec σ1 :
  DescribeSecret (describe_request Arn) (remote w) = (inl sec, σ1) →
  finishSecret_spec order Arn Token w =
  (r <- match first_current order (DescribeSecretOutput.VersionIdsToStages sec) with
        | Some key => found_version Arn Token key
        | None => ret (Some EmptyString)
        end ;;
   match r with
   | None => ret tt
   | Some currentVersion => promote Arn Token currentVersion
   end) (called w σ1 [DescribeSecretCall (describe_request Arn)]).
Proof. intros Hd. unfold finishSecret_spec, svc_DescribeSecret. by run_call. Qed.

Lemma finishSecret_spec_describe_failed order Arn Token w err σ1 :
  DescribeSecret (describe_request Arn) (remote w) = (inr err, σ1) →
  finishSecret_spec order Arn Token w = finishSecret order Arn Token w.
Proof.
  intros Hd. rewrite (finishSecret_run_describe_failed _ _ _ _ _ _ Hd).
  unfold finishSecret_spec, svc_DescribeSecret. by run_call.
Qed.

Lemma one_current_alt m k1 k2 :
  one_current m → holds_current m k1 = true → holds_current m k2 = true → k1 = k2.
Proof.
  intros Hone H1 H2. unfold holds_current in H1, H2.
  destruct (m !! k1) as [l1|] eqn:Hk1; [|done].
  destruct (m !! k2) as [l2|] eqn:Hk2; [|done].
  apply (Hone k1 l1 Hk1 k2 l2 Hk2); unfold holds_current; by rewrite ?Hk1, ?Hk2.
Qed.

(** The specified scan does not depend on the order of the visit. *)
Lemma first_current_order order order' m :
  one_current m → visits_all order m → visits_all order' m →
  first_current order m = first_current order' m.
Proof.
  intros Hone Hvis Hvis'. unfold first_current, range_keys.
  apply first_such_perm; [by rewrite Hvis, Hvis'|].
  intros k1 k2 _ _. by apply one_current_alt.
Qed.


(** When at most one version of the description holds
    AWSCURRENT, the specified function gives the same result under every
    admissible iteration order; with the test of line 154 the code does
    not.  The defect of the code is the test, not the loop. *)
Theorem finishSecret_spec_any_order order order' Arn Token w :
  (∀ sec σ1, DescribeSecret (describe_request Arn) (remote w) = (inl sec, σ1) →
     one_current (DescribeSecretOutput.VersionIdsToStages sec) ∧
     visits_all order (DescribeSecretOutput.VersionIdsToStages sec) ∧
     visits_all order' (DescribeSecretOutput.VersionIdsToStages sec)) →
  finishSecret_spec order Arn Token w = finishSecret_spec order' Arn Token w.
Proof.
  intros Hm.
  destruct (DescribeSecret (describe_request Arn) (remote w)) as [[sec|err] σ1] eqn:Hd.
  - destruct (Hm sec σ1 eq_refl) as (Hone & Hvis & Hvis').
    rewrite (finishSecret_spec_run order _ _ _ _ _ Hd),
      (finishSecret_spec_run order' _ _ _ _ _ Hd).
    by rewrite (first_current_order order order').
  - rewrite (finishSecret_spec_describe_failed order _ _ _ _ _ Hd),
      (finishSecret_spec_describe_failed order' _ _ _ _ _ Hd).
    by rewrite (finishSecret_run_describe_failed order _ _ _ _ _ Hd),
      (finishSecret_run_describe_failed order' _ _ _ _ _ Hd).
Qed.

End comparison.

(** * Instances *)


Lemma finishSecret_spec_any_order_witness :
  finishSecret_spec (first_visit "v1") (Some "db-pwd") (Some "v2") (boot scenario_created) =
  finishSecret_spec (first_visit "v2") (Some "db-pwd") (Some "v2") (boot scenario_created).
Proof.
  apply (finishSecret_spec_any_order (first_visit "v1") (first_visit "v2")
           (Some "db-pwd") (Some "v2") (boot scenario_created)).
  intros sec σ1 Hd. vm_compute in Hd. injection Hd as <- <-.
  split; [by_compute|]. split; apply first_visit_visits_all.
Defined.
