(* ===== verification/Handler.v ===== *)
(** * The rotation step dispatcher and the handler (src/main.go, lines 21-74
    and 130-141)

    [setSecret] and [testSecret] (placeholders that panic), the [switch] on
    the step name ([dispatch]), the handler [HandleRequest] (validation,
    then dispatch) and [main], one invocation as the Lambda runtime sees
    it. *)

From stdpp Require Import base tactics option list strings gmap.
From S2P Require Import Prelude GoRuntime SecretsManager Store Validator.
From S2P Require Import CreateSecret FinishSecret.

(** Line 70. *)
Definition err_invalid_step : error := errors_New "Invalid step parameter".

(** What the scheduler learns from an invocation: success, or a failure
    with a message.  A panic of the handler reaches it as a failure. *)
Inductive response : Type :=
| Succeeded
| Failed (errorMessage : string).

#[export] Instance response_eq_dec : EqDecision response.
Proof. solve_decision. Defined.

(** The message of a panic, as the runtime reports it. *)
Definition panic_message (p : panic_value) : string :=
  match p with
  | PanicError e => Error e
  | PanicString s => s
  | NilDereference => "runtime error: invalid memory address or nil pointer dereference"
  end.

Section handler.
Context `{SecretsManagerAPI Σ}.
Implicit Types (w : world Σ api_call) (req : SecretsManagerEvent)
  (Arn Token : option string) (order : list string → list string).

(** Lines 132-134. *)
Definition setSecret Arn Token : sm Σ unit :=
  panic (PanicString "setSecret not implemented").

(** Lines 139-141. *)
Definition testSecret Arn Token : sm Σ unit :=
  panic (PanicString "testSecret not implemented").

(** Lines 60-73: the switch on the step name, and the [return nil] that
    follows a handler that returned. *)
Definition dispatch order req : sm Σ (option error) :=
  step <- deref (Step req) ;;
  if decide (step = "createSecret") then
    createSecret (Arn req) (Token req) ;;; ret None
  else if decide (step = "setSecret") then
    setSecret (Arn req) (Token req) ;;; ret None
  else if decide (step = "testSecret") then
    testSecret (Arn req) (Token req) ;;; ret None
  else if decide (step = "finishSecret") then
    finishSecret order (Arn req) (Token req) ;;; ret None
  else ret (Some err_invalid_step).

(** Lines 25-74.  [order] is the order in which the map of the description
    is visited, should this invocation reach the loop of [finishSecret]. *)
Definition HandleRequest order req : sm Σ (option error) :=
  e <- validate req ;;
  match e with
  | Some err => ret (Some err)
  | None => dispatch order req
  end.

(** Lines 21-23: one invocation, from a fresh process, as the runtime
    answers it. *)
Definition main order req (σ : Σ) : response * Σ :=
  match HandleRequest order req (boot σ) with
  | (Returned None, w) => (Succeeded, remote w)
  | (Returned (Some err), w) => (Failed (Error err), remote w)
  | (Panicked p, w) => (Failed (panic_message p), remote w)
  end.

End handler.

(** * The paths of the handler *)

Section handler_runs.
Context `{SecretsManagerAPI Σ}.
Implicit Types (w : world Σ api_call) (req : SecretsManagerEvent)
  (order : list string → list string).

Lemma HandleRequest_run_rejected order req w err w1 :
  validate req w = (Returned (Some err), w1) →
  HandleRequest order req w = (Returned (Some err), w1).
Proof. intros Hv. unfold HandleRequest. by rewrite (run_bind_returned _ _ _ _ _ Hv). Qed.

Lemma HandleRequest_run_panicked order req w p w1 :
  validate req w = (Panicked p, w1) →
  HandleRequest order req w = (Panicked p, w1).
Proof. intros Hv. unfold HandleRequest. by rewrite (run_bind_panicked _ _ _ _ _ Hv). Qed.

Lemma HandleRequest_run_validated order req w w1 :
  validate req w = (Returned None, w1) →
  HandleRequest order req w = dispatch order req w1.
Proof. intros Hv. unfold HandleRequest. by rewrite (run_bind_returned _ _ _ _ _ Hv). Qed.

(** The four cases of the switch and its default. *)
Lemma dispatch_create order req w :
  Step req = Some "createSecret" →
  dispatch order req w = (createSecret (Arn req) (Token req) ;;; ret None) w.
Proof. intros Hs. unfold dispatch. by rewrite Hs. Qed.

Lemma dispatch_set order req w :
  Step req = Some "setSecret" →
  dispatch order req w = (Panicked (PanicString "setSecret not implemented"), w).
Proof. intros Hs. unfold dispatch. by rewrite Hs. Qed.

Lemma dispatch_test order req w :
  Step req = Some "testSecret" →
  dispatch order req w = (Panicked (PanicString "testSecret not implemented"), w).
Proof. intros Hs. unfold dispatch. by rewrite Hs. Qed.

Lemma dispatch_finish order req w :
  Step req = Some "finishSecret" →
  dispatch order req w = (finishSecret order (Arn req) (Token req) ;;; ret None) w.
Proof. intros Hs. unfold dispatch. by rewrite Hs. Qed.

(** The names the switch knows. *)
Definition known_step (step : string) : Prop :=
  step ∈ ["createSecret"; "setSecret"; "testSecret"; "finishSecret"].

Lemma dispatch_default order req step w :
  Step req = Some step → ¬ known_step step →
  dispatch order req w = (Returned (Some err_invalid_step), w).
Proof.
  intros Hs Hk. unfold dispatch, bind. rewrite Hs. simpl.
  unfold known_step in Hk. rewrite !not_elem_of_cons in Hk. destruct Hk as (?&?&?&?&_).
  by rewrite !decide_False by done.
Qed.

(** The mutating calls an invocation may issue for an event. *)
Definition step_mutation req (c : api_call) : Prop :=
  put_of (Arn req) (Token req) c ∨ promotion_of (Arn req) (Token req) c.

Lemma dispatch_issues order req :
  issues 1 (step_mutation req) (dispatch (Σ:=Σ) order req).
Proof.
  assert (issues 1 (step_mutation req) (createSecret (Σ:=Σ) (Arn req) (Token req))) as Hc.
  { intros w. destruct (createSecret_issues (Arn req) (Token req) w) as (tr & ? & ? & HP).
    exists tr. repeat split; [done..|]. eapply Forall_impl; [done|]. by left. }
  assert (issues 1 (step_mutation req) (finishSecret (Σ:=Σ) order (Arn req) (Token req)))
    as Hf.
  { intros w. destruct (finishSecret_issues order (Arn req) (Token req) w)
      as (tr & ? & ? & HP).
    exists tr. repeat split; [done..|]. eapply Forall_impl; [done|]. by right. }
  unfold dispatch, setSecret, testSecret. apply issues_bind_read; [solve_issues|].
  intros step. repeat case_decide;
    first [ apply (issues_bind 1 0); [done | solve_issues] | solve_issues ].
Qed.

Lemma HandleRequest_issues order req :
  issues 1 (step_mutation req) (HandleRequest (Σ:=Σ) order req).
Proof.
  unfold HandleRequest. pose proof (dispatch_issues order req).
  apply issues_bind_read; [apply validate_issues | solve_issues].
Qed.

End handler_runs.

(** * What an invocation does *)

Section handler_facts.
Context `{SecretsManagerAPI Σ}.
Implicit Types (w : world Σ api_call) (req : SecretsManagerEvent)
  (order : list string → list string) (desc : DescribeSecretOutput.t).

(** C1 (safety): an invocation of [HandleRequest], whatever the event, the
    answers of the service and the iteration order, and whether it returns
    or panics, issues at most one mutating call; that call is either the
    PutSecretValue of [createSecret] for the event's secret and token with
    the label AWSPENDING, or the update of [finishSecret] that moves
    AWSCURRENT to the event's token. *)
Theorem HandleRequest_at_most_one_mutation order req w :
  length (mutations (new_calls w (HandleRequest order req w).2)) ≤ 1 ∧
  Forall (step_mutation req) (mutations (new_calls w (HandleRequest order req w).2)).
Proof. apply issues_new_calls, HandleRequest_issues. Qed.

(** For a secret whose rotation is not enabled, every
    invocation, whatever its step and token, returns the not-enabled error
    after the single describe call: no step handler runs and nothing is
    written to the store. *)
Theorem HandleRequest_rotation_disabled order req arn desc σ1 w :
  Arn req = Some arn →
  DescribeSecret (describe_request (Some arn)) (remote w) = (inl desc, σ1) →
  DescribeSecretOutput.RotationEnabled desc = Some false →
  HandleRequest order req w =
  (Returned (Some (err_not_enabled arn)), after_describe req w σ1).
Proof.
  intros Ha Hd He. rewrite <-Ha in Hd. apply HandleRequest_run_rejected.
  rewrite (validate_described _ _ _ _ Hd). by apply check_staging_disabled.
Qed.

(** C36 (error): whenever the classification of the description is not
    [Proceed] (unknown version, already current, not pending, rotation not
    enabled), [HandleRequest] returns the corresponding error whatever the
    step, after the single describe call and without running a handler. *)
Theorem HandleRequest_rejects order req token arn desc enabled σ1 w :
  Token req = Some token → Arn req = Some arn →
  DescribeSecret (describe_request (Some arn)) (remote w) = (inl desc, σ1) →
  DescribeSecretOutput.RotationEnabled desc = Some enabled →
  (∀ s, DescribeSecretOutput.VersionIdsToStages desc !! token = Some s →
        is_Some (slice_strings s)) →
  classify enabled
    (DescribeSecretOutput.VersionIdsToStages desc !! token ≫= slice_strings) ≠ Proceed →
  HandleRequest order req w =
  (Returned (verdict_error
               (classify enabled
                  (DescribeSecretOutput.VersionIdsToStages desc !! token ≫= slice_strings))
               token arn),
   after_describe req w σ1).
Proof.
  intros Ht Ha Hd He Hwf Hv. rewrite <-Ha in Hd.
  pose proof (check_staging_classified req desc token arn enabled
                (after_describe req w σ1) Ht Ha He Hwf) as Hc.
  destruct (classify _ _) eqn:Hcl; [..|done];
    by apply HandleRequest_run_rejected; rewrite (validate_described _ _ _ _ Hd).
Qed.

(** A step name that the switch does not know is refused with
    "Invalid step parameter" once the validation has passed; the describe
    call of the validation is the only call of the invocation. *)
Theorem HandleRequest_invalid_step order req step w w1 :
  validate req w = (Returned None, w1) →
  Step req = Some step → ¬ known_step step →
  HandleRequest order req w = (Returned (Some err_invalid_step), w1) ∧
  new_calls w w1 = [DescribeSecretCall (describe_request (Arn req))].
Proof.
  intros Hv Hs Hk. rewrite (HandleRequest_run_validated _ _ _ _ Hv).
  split; [by eapply dispatch_default|].
  pose proof (validate_world req w) as Hw. rewrite Hv in Hw. simpl in Hw. subst w1.
  apply new_calls_called.
Qed.

(** The steps setSecret and testSecret are placeholders:
    once the validation has passed, an invocation for either of them
    panics with its "not implemented" message, having issued the describe
    call only.  A rotation therefore cannot get past createSecret with
    this program as it is. *)
Theorem HandleRequest_placeholders_panic order req step w w1 :
  validate req w = (Returned None, w1) →
  Step req = Some step → step = "setSecret" ∨ step = "testSecret" →
  HandleRequest order req w = (Panicked (PanicString (step +:+ " not implemented")), w1) ∧
  new_calls w w1 = [DescribeSecretCall (describe_request (Arn req))].
Proof.
  intros Hv Hs Hstep. rewrite (HandleRequest_run_validated _ _ _ _ Hv). split.
  - destruct Hstep as [-> | ->]; [by apply dispatch_set | by apply dispatch_test].
  - pose proof (validate_world req w) as Hw. rewrite Hv in Hw. simpl in Hw. subst w1.
    apply new_calls_called.
Qed.

(** [HandleRequest] returns nil only for the steps
    createSecret and finishSecret, after the validation has passed and the
    step's function has returned. *)
Theorem HandleRequest_success order req w w' :
  HandleRequest order req w = (Returned None, w') →
  ∃ w1, validate req w = (Returned None, w1) ∧
    ((Step req = Some "createSecret" ∧
      createSecret (Arn req) (Token req) w1 = (Returned tt, w')) ∨
     (Step req = Some "finishSecret" ∧
      finishSecret order (Arn req) (Token req) w1 = (Returned tt, w'))).
Proof.
  unfold HandleRequest. intros [(e & w1 & Hv & Hd)|(p & _ & [=])]%bind_inv.
  destruct e as [err|]; [by injection Hd|]. exists w1. split; [done|].
  unfold dispatch in Hd.
  apply bind_inv in Hd as [(step & w2 & Hstep & Hd)|(p & _ & [=])].
  apply deref_inv in Hstep as [-> Hstep]. destruct (Step req) as [s|]; [|done].
  injection Hstep as <-. repeat case_decide; subst; [ left | done | done | right | done ].
  all: split; [done|].
  all: apply bind_inv in Hd as [([] & w3 & Hrun & [= <-])|(p & _ & [=])]; done.
Qed.

(** A version whose labels include one has a slice that is not nil. *)
Lemma has_stages_labelled desc token s labels st :
  DescribeSecretOutput.VersionIdsToStages desc !! token = Some s →
  slice_strings s = Some labels → st ∈ labels →
  has_stages (DescribeSecretOutput.VersionIdsToStages desc) token = true.
Proof.
  intros Hl Hs Hst. unfold has_stages. rewrite Hl. destruct s; [done|].
  rewrite slice_strings_nil in Hs. injection Hs as <-. by apply elem_of_nil in Hst.
Qed.

(** The validation passes on a token that is pending and not current. *)
Lemma validate_run_pending req token arn desc s labels σ1 w :
  Token req = Some token → Arn req = Some arn →
  DescribeSecret (describe_request (Some arn)) (remote w) = (inl desc, σ1) →
  DescribeSecretOutput.RotationEnabled desc = Some true →
  DescribeSecretOutput.VersionIdsToStages desc !! token = Some s →
  slice_strings s = Some labels →
  AWSPENDING ∈ labels → AWSCURRENT ∉ labels →
  validate req w = (Returned None, after_describe req w σ1).
Proof.
  intros Ht Ha Hd He Hl Hs Hp Hc. rewrite <-Ha in Hd.
  rewrite (validate_described _ _ _ _ Hd).
  rewrite (check_staging_labels req desc token arn s labels) by done.
  unfold classify. simpl. by rewrite decide_False, decide_True.
Qed.

(** C4 (safety): a finishSecret invocation can report success without
    promoting.  For every event that passes the validation (its token is
    pending and is not current) against a store whose description is
    stable, visiting the token's version first is an admissible iteration
    order under which [HandleRequest] returns nil, logs that the version
    is "already marked as AWSCURRENT" and issues no mutating call: the
    label stays where it was. *)
Theorem HandleRequest_finish_skips_promotion req token arn desc s labels w :
  Token req = Some token → Arn req = Some arn → Step req = Some "finishSecret" →
  DescribeSecret (describe_request (Some arn)) (remote w) = (inl desc, remote w) →
  DescribeSecretOutput.RotationEnabled desc = Some true →
  DescribeSecretOutput.VersionIdsToStages desc !! token = Some s →
  slice_strings s = Some labels →
  AWSPENDING ∈ labels → AWSCURRENT ∉ labels →
  visits_all (first_visit token) (DescribeSecretOutput.VersionIdsToStages desc) ∧
  HandleRequest (first_visit token) req w =
  (Returned None,
   logged (called w (remote w)
             [DescribeSecretCall (describe_request (Some arn));
              DescribeSecretCall (describe_request (Some arn))])
     (already_line token arn)).
Proof.
  intros Ht Ha Hstep Hd He Hl Hs Hp Hc. split; [apply first_visit_visits_all|].
  rewrite (HandleRequest_run_validated _ _ _ _
             (validate_run_pending _ _ _ _ _ _ _ _ Ht Ha Hd He Hl Hs Hp Hc)).
  rewrite dispatch_finish by done. rewrite Ht, Ha. unfold after_describe. rewrite Ha.
  erewrite run_bind_returned; [done|].
  erewrite finishSecret_run_token; [by rewrite called_called | done |].
  eapply first_version_first_visit, has_stages_labelled; eauto.
Qed.

End handler_facts.

(** * Instances *)

Lemma HandleRequest_rotation_disabled_witness :
  HandleRequest id (scenario_event "finishSecret") (boot scenario_disabled) =
  (Returned (Some (err_not_enabled "db-pwd")),
   after_describe (scenario_event "finishSecret") (boot scenario_disabled)
     scenario_disabled).
Proof.
  apply (HandleRequest_rotation_disabled id (scenario_event "finishSecret") "db-pwd"
           {| DescribeSecretOutput.RotationEnabled := Some false;
              DescribeSecretOutput.VersionIdsToStages :=
                describe_versions scenario_versions |}); reflexivity.
Defined.

(** The description of the scenario's secret once "v2" has been promoted. *)
Definition finished_description : DescribeSecretOutput.t :=
  {| DescribeSecretOutput.RotationEnabled := Some true;
     DescribeSecretOutput.VersionIdsToStages :=
       {[ "v2" := Some [Some AWSCURRENT; Some AWSPENDING] ]} |}.

Lemma HandleRequest_rejects_witness :
  HandleRequest id (scenario_event "createSecret") (boot scenario_finished) =
  (Returned (verdict_error
               (classify true
                  (DescribeSecretOutput.VersionIdsToStages finished_description !! "v2"
                     ≫= slice_strings))
               "v2" "db-pwd"),
   after_describe (scenario_event "createSecret") (boot scenario_finished)
     scenario_finished).
Proof.
  apply (HandleRequest_rejects id (scenario_event "createSecret") "v2" "db-pwd"
           finished_description true).
  - reflexivity.
  - reflexivity.
  - vm_compute. reflexivity.
  - reflexivity.
  - intros s Hs. vm_compute in Hs. injection Hs as <-. by eexists.
  - vm_compute. discriminate.
Defined.

Lemma HandleRequest_invalid_step_witness :
  HandleRequest id (scenario_event "rollbackSecret") (boot scenario_created) =
    (Returned (Some err_invalid_step),
     after_describe (scenario_event "rollbackSecret") (boot scenario_created)
       scenario_created) ∧
  new_calls (boot scenario_created)
    (after_describe (scenario_event "rollbackSecret") (boot scenario_created)
       scenario_created) =
    [DescribeSecretCall (describe_request (Some "db-pwd"))].
Proof.
  apply (HandleRequest_invalid_step id (scenario_event "rollbackSecret") "rollbackSecret").
  - vm_compute. reflexivity.
  - reflexivity.
  - vm_compute. intros Hk. by repeat (apply elem_of_cons in Hk as [?|Hk]; [done|]);
      apply elem_of_nil in Hk.
Defined.

Lemma HandleRequest_placeholders_panic_witness :
  HandleRequest id (scenario_event "setSecret") (boot scenario_created) =
    (Panicked (PanicString ("setSecret" +:+ " not implemented")),
     after_describe (scenario_event "setSecret") (boot scenario_created)
       scenario_created) ∧
  new_calls (boot scenario_created)
    (after_describe (scenario_event "setSecret") (boot scenario_created)
       scenario_created) =
    [DescribeSecretCall (describe_request (Some "db-pwd"))].
Proof.
  apply (HandleRequest_placeholders_panic id (scenario_event "setSecret") "setSecret").
  - vm_compute. reflexivity.
  - reflexivity.
  - by left.
Defined.

Lemma HandleRequest_success_witness :
  ∃ w1, validate (scenario_event "finishSecret") (boot scenario_created) =
          (Returned None, w1) ∧
    ((Step (scenario_event "finishSecret") = Some "createSecret" ∧
      createSecret (Arn (scenario_event "finishSecret"))
        (Token (scenario_event "finishSecret")) w1 =
        (Returned tt,
         logged (called (boot scenario_created) scenario_finished
                   [DescribeSecretCall (describe_request (Some "db-pwd"));
                    DescribeSecretCall (describe_request (Some "db-pwd"));
                    UpdateSecretVersionStageCall
                      (promote_request (Some "db-pwd") (Some "v2") "v1")])
           (finished_line "v2" "db-pwd"))) ∨
     (Step (scenario_event "finishSecret") = Some "finishSecret" ∧
      finishSecret id (Arn (scenario_event "finishSecret"))
        (Token (scenario_event "finishSecret")) w1 =
        (Returned tt,
         logged (called (boot scenario_created) scenario_finished
                   [DescribeSecretCall (describe_request (Some "db-pwd"));
                    DescribeSecretCall (describe_request (Some "db-pwd"));
                    UpdateSecretVersionStageCall
                      (promote_request (Some "db-pwd") (Some "v2") "v1")])
           (finished_line "v2" "db-pwd")))).
Proof.
  apply (HandleRequest_success id (scenario_event "finishSecret") (boot scenario_created)).
  vm_compute. reflexivity.
Defined.

Lemma HandleRequest_finish_skips_promotion_witness :
  visits_all (first_visit "v2")
    (DescribeSecretOutput.VersionIdsToStages scenario_description) ∧
  HandleRequest (first_visit "v2") (scenario_event "finishSecret") (boot scenario_created) =
  (Returned None,
   logged (called (boot scenario_created) (remote (boot (C:=api_call) scenario_created))
             [DescribeSecretCall (describe_request (Some "db-pwd"));
              DescribeSecretCall (describe_request (Some "db-pwd"))])
     (already_line "v2" "db-pwd")).
Proof.
  apply (HandleRequest_finish_skips_promotion (scenario_event "finishSecret")
           "v2" "db-pwd" scenario_description (Some [Some AWSPENDING]) [AWSPENDING]).
  - reflexivity.
  - reflexivity.
  - reflexivity.
  - vm_compute. reflexivity.
  - reflexivity.
  - reflexivity.
  - reflexivity.
  - by left.
  - vm_compute. by intros [?|?%elem_of_nil]%elem_of_cons.
Defined.

(** * Invariants of the service *)

(** An invocation maintains every invariant of the service: it acts on the
    remote state through the five operations only. *)
Lemma HandleRequest_keeps `{SecretsManagerAPI Σ} (Inv : Σ → Prop) `{!ServiceInvariant Inv}
    order req :
  preserves (keeps Inv) (HandleRequest order req).
Proof. unfold HandleRequest, dispatch, setSecret, testSecret. solve_preserves. Qed.

Lemma main_keeps `{SecretsManagerAPI Σ} (Inv : Σ → Prop) `{!ServiceInvariant Inv}
    order req σ :
  Inv σ → Inv (main order req σ).2.
Proof.
  intros Hσ. pose proof (HandleRequest_keeps Inv order req (boot σ) Hσ) as Hkeeps.
  unfold main. by destruct (HandleRequest order req (boot σ)) as [[[err|]|p] w].
Qed.

(** * The calls of an invocation *)

Section handler_calls.
Context `{SecretsManagerAPI Σ}.
Implicit Types (w : world Σ api_call) (req : SecretsManagerEvent)
  (order : list string → list string).

Lemma HandleRequest_emits order req :
  emits 5 (about (Arn req)) (HandleRequest (Σ:=Σ) order req).
Proof.
  pose proof (createSecret_emits (Σ:=Σ) (Arn req) (Token req)).
  pose proof (finishSecret_emits (Σ:=Σ) order (Arn req) (Token req)).
  unfold HandleRequest. apply (emits_bind 1 4); [apply validate_emits|].
  intros [err|]; [solve_emits|].
  unfold dispatch, setSecret, testSecret. solve_emits.
Qed.

(** C39 (bounds): an invocation issues at most five calls to the service,
    whatever the event, the answers and the iteration order, and whether
    it returns or panics: the describe call of the validation and at most
    four calls of the step (two lookups, the generation and the put of
    createSecret).  Every one of them that names a secret names the
    secret of the event: the program reads and writes no other secret. *)
Theorem HandleRequest_call_bound order req w :
  length (new_calls w (HandleRequest order req w).2) ≤ 5 ∧
  Forall (about (Arn req)) (new_calls w (HandleRequest order req w).2).
Proof. apply (emits_new_calls 5 (about (Arn req))), HandleRequest_emits. Qed.

(** The one mutating call of an invocation is its last call: every call
    before it reads. *)
Lemma HandleRequest_writes_last order req :
  writes_last (HandleRequest (Σ:=Σ) order req).
Proof.
  pose proof (validate_issues (Σ:=Σ) req 0 (λ _, True)).
  pose proof (createSecret_writes_last (Σ:=Σ) (Arn req) (Token req)).
  pose proof (finishSecret_writes_last (Σ:=Σ) order (Arn req) (Token req)).
  unfold HandleRequest, dispatch, setSecret, testSecret. solve_writes_last.
Qed.

End handler_calls.

(** * The errors an invocation returns *)

Section handler_errors.
Context `{SecretsManagerAPI Σ}.
Implicit Types (w : world Σ api_call) (req : SecretsManagerEvent)
  (order : list string → list string).

(** The switch returns no error but that of its default case. *)
Lemma dispatch_error order req w err w' :
  dispatch order req w = (Returned (Some err), w') → err = err_invalid_step.
Proof.
  unfold dispatch, bind, setSecret, testSecret.
  destruct (deref (Step req) w) as [[step|p] w1]; [|done].
  repeat case_decide; [| | | |by intros [= <- <-]].
  - by destruct (createSecret _ _ _) as [[[]|p] w2].
  - done.
  - done.
  - by destruct (finishSecret _ _ _ _) as [[[]|p] w2].
Qed.

(** C38 (type): the errors that [HandleRequest] returns are of three kinds
    and no other: the error of the describe call, returned as it is; one
    of the four validation errors, formatted with the event's token and
    secret; the invalid-step error.  Every other failure of an invocation
    is a panic. *)
Theorem HandleRequest_error_taxonomy order req w err w' :
  HandleRequest order req w = (Returned (Some err), w') →
  (DescribeSecret (describe_request (Arn req)) (remote w)).1 = inr err ∨
  validation_error req err ∨
  err = err_invalid_step.
Proof.
  destruct (validate req w) as [[[err'|]|p] w1] eqn:Hv.
  - rewrite (HandleRequest_run_rejected _ _ _ _ _ Hv). intros [= <- <-].
    destruct (validate_error _ _ _ _ Hv); auto.
  - rewrite (HandleRequest_run_validated _ _ _ _ Hv).
    intros ->%dispatch_error. auto.
  - by rewrite (HandleRequest_run_panicked _ _ _ _ _ Hv).
Qed.

End handler_errors.

Lemma HandleRequest_error_taxonomy_witness :
  (DescribeSecret (describe_request (Arn (scenario_event "finishSecret")))
     (remote (boot (C:=api_call) scenario_finished))).1 =
    inr (err_already_current "v2" "db-pwd") ∨
  validation_error (scenario_event "finishSecret") (err_already_current "v2" "db-pwd") ∨
  err_already_current "v2" "db-pwd" = err_invalid_step.
Proof.
  apply (HandleRequest_error_taxonomy id (scenario_event "finishSecret")
           (boot scenario_finished) (err_already_current "v2" "db-pwd")
           (after_describe (scenario_event "finishSecret") (boot scenario_finished)
              scenario_finished)).
  by vm_compute.
Defined.
