(* ===== verification/Rotation.v ===== *)
(** * Rotations against the reference store

    The handlers are verified against the interface of the service; this
    file runs the program of [Handler] against the reference store of
    [Store] and states what a scheduler that invokes it, once or many
    times, can rely on: what the validation answers for a state of the
    store, that consistency of the store and its history survive any
    sequence of invocations, what a redelivered invocation does, and the
    scenario of the specification from the first step to the last. *)

From stdpp Require Import base tactics option list strings gmap relations.
From S2P Require Import Prelude GoRuntime SecretsManager Store Validator.
From S2P Require Import CreateSecret FinishSecret FinishSpec Handler.

Open Scope prog_scope.

(** * Definitions *)

(** The labels of version [tok] as DescribeSecret reports them: none for a
    version that does not exist or carries no label. *)
Definition labels_of (s : secret) (tok : string) : option (list string) :=
  v ← versions s !! tok;
  if decide (stages v = []) then None else Some (stages v).

(** One invocation of the program by the scheduler: any event, and any
    order in which the runtime happens to iterate over maps. *)
Inductive invocation : store → response → store → Prop :=
| invoke order req σ : invocation σ (main order req σ).1 (main order req σ).2.

(** The states a scheduler can drive the store to, whatever it sends and
    however often it redelivers. *)
Definition reachable : relation store := rtc (λ σ σ', ∃ r, invocation σ r σ').

(** The history of [σ] is kept in [σ']: every secret is still there with
    its rotation flag, every version is still there, and a version that
    had a value has the same value. *)
Definition keeps_version (v v' : version) : Prop :=
  ∀ val, value v = Some val → value v' = Some val.

Definition keeps_secret (s s' : secret) : Prop :=
  rotation_enabled s' = rotation_enabled s ∧
  ∀ id v, versions s !! id = Some v →
          ∃ v', versions s' !! id = Some v' ∧ keeps_version v v'.

Definition extends (σ σ' : store) : Prop :=
  ∀ arn s, secrets σ !! arn = Some s →
           ∃ s', secrets σ' !! arn = Some s' ∧ keeps_secret s s'.

(** The state in which the steps of a rotation for [tok] are accepted:
    rotation is enabled and version [tok] is labelled AWSPENDING and not
    AWSCURRENT. *)
Definition pending_for (s : secret) (tok : string) : Prop :=
  rotation_enabled s = Some true ∧
  ∃ v, versions s !! tok = Some v ∧ AWSPENDING ∈ stages v ∧ AWSCURRENT ∉ stages v.

(** The value labelled AWSCURRENT can be read. *)
Definition current_readable (s : secret) : Prop :=
  is_Some (select_version None (Some AWSCURRENT) (versions s) ≫= value).

(** The password the store generates for [createSecret] in state [σ], the
    state of its generator afterwards, and the store once that password
    has been stored as the pending value of version [tok]. *)
Definition fresh_password (σ : store) : string :=
  draw password_length (seed σ) (pool excChars).

Definition reseeded (σ : store) : store :=
  Store (secrets σ) (N.iter (N.of_nat password_length) next_seed (seed σ)).

Definition created_secret (tok : string) (s : secret) (σ : store) : secret :=
  Secret (rotation_enabled s)
    (put_version tok (fresh_password σ) [AWSPENDING] (versions s)).

Definition created (arn tok : string) (s : secret) (σ : store) : store :=
  set_versions arn s (versions (created_secret tok s σ)) (reseeded σ).

(** The versions of a secret once AWSCURRENT has moved from [cur] to
    [tok]. *)
Definition promoted (tok cur : string) (vs : gmap string version)
    : gmap string version :=
  add_stage AWSCURRENT tok (remove_stage AWSCURRENT cur vs).

Arguments fresh_password : simpl never.
Arguments reseeded : simpl never.

Lemma pending_for_intro s tok v :
  rotation_enabled s = Some true → versions s !! tok = Some v →
  bool_decide (AWSPENDING ∈ stages v) = true →
  bool_decide (AWSCURRENT ∉ stages v) = true →
  pending_for s tok.
Proof.
  intros Hen Hv Hpend%bool_decide_eq_true Hcur%bool_decide_eq_true.
  split; [done|]. by exists v.
Qed.

(** * What the validation answers for a state of the store *)

Section validation.
Implicit Types (σ : store) (s : secret) (w : world store api_call)
  (req : SecretsManagerEvent).

Lemma describe_versions_lookup vs tok :
  describe_versions vs !! tok =
  v ← vs !! tok;
  if decide (stages v = []) then None else Some (Some (Some <$> stages v)).
Proof.
  unfold describe_versions. rewrite lookup_fmap, map_lookup_filter.
  destruct (vs !! tok) as [v|]; simpl; [|done].
  by case_decide; case_guard.
Qed.

Lemma describe_versions_labels s tok :
  describe_versions (versions s) !! tok ≫= slice_strings = labels_of s tok.
Proof.
  rewrite describe_versions_lookup. unfold labels_of.
  destruct (versions s !! tok) as [v|]; simpl; [|done].
  case_decide; [done|]. apply slice_strings_fmap.
Qed.

Lemma describe_versions_slices vs tok sl :
  describe_versions vs !! tok = Some sl → is_Some (slice_strings sl).
Proof.
  rewrite describe_versions_lookup. destruct (vs !! tok) as [v|]; simpl; [|done].
  case_decide; [done|]. intros [= <-]. rewrite slice_strings_fmap. eauto.
Qed.

Lemma store_describe arn σ s :
  secrets σ !! arn = Some s →
  DescribeSecret (describe_request (Some arn)) σ =
  (inl {| DescribeSecretOutput.RotationEnabled := rotation_enabled s;
          DescribeSecretOutput.VersionIdsToStages := describe_versions (versions s) |},
   σ).
Proof. simpl. unfold store_DescribeSecret. simpl. by intros ->. Qed.

(** The validation computes the classification of the token's labels. *)
Lemma validate_on_store req tok arn s enabled w :
  Token req = Some tok → Arn req = Some arn →
  secrets (remote w) !! arn = Some s → rotation_enabled s = Some enabled →
  validate req w =
  (Returned (verdict_error (classify enabled (labels_of s tok)) tok arn),
   after_describe req w (remote w)).
Proof.
  intros Htok Harn Hs Hen.
  erewrite validate_described by (rewrite Harn; by apply store_describe).
  erewrite check_staging_classified; [|done..|]; simpl.
  - by rewrite describe_versions_labels.
  - apply describe_versions_slices.
Qed.

End validation.

(** * The history of the store *)

Section history.
Implicit Types (σ : store) (s : secret) (vs : gmap string version) (v : version).

#[export] Instance keeps_version_preorder : PreOrder keeps_version.
Proof. split; unfold keeps_version; [by intros v | intros v1 v2 v3; eauto]. Qed.

#[export] Instance keeps_secret_preorder : PreOrder keeps_secret.
Proof.
  split.
  - intros s. split; [done|]. intros id v Hv. by exists v.
  - intros s1 s2 s3 [He1 H1] [He2 H2]. split; [congruence|]. intros id v Hv.
    destruct (H1 id v Hv) as (v2 & Hv2 & Hk2).
    destruct (H2 id v2 Hv2) as (v3 & Hv3 & Hk3).
    exists v3. split; [done|]. by etrans.
Qed.

#[export] Instance extends_preorder : PreOrder extends.
Proof.
  split.
  - intros σ arn s Hs. by exists s.
  - intros σ1 σ2 σ3 H1 H2 arn s Hs.
    destruct (H1 arn s Hs) as (s2 & Hs2 & Hk2).
    destruct (H2 arn s2 Hs2) as (s3 & Hs3 & Hk3).
    exists s3. split; [done|]. by etrans.
Qed.

(** Replacing the versions of one secret by versions that keep them. *)
Lemma set_versions_extends arn s vs σ :
  secrets σ !! arn = Some s →
  (∀ id v, versions s !! id = Some v → ∃ v', vs !! id = Some v' ∧ keeps_version v v') →
  extends σ (set_versions arn s vs σ).
Proof.
  intros Hs Hvs arn' s' Hs'. unfold set_versions. simpl.
  destruct (decide (arn' = arn)) as [->|Hne].
  - rewrite lookup_insert_eq. eexists. split; [done|]. by simplify_eq.
  - rewrite lookup_insert_ne by done. by exists s'.
Qed.

Lemma put_version_keeps tok val sts vs id v :
  vs !! tok ≫= value ∈ [None; Some val] →
  vs !! id = Some v →
  ∃ v', put_version tok val sts vs !! id = Some v' ∧ keeps_version v v'.
Proof.
  intros Hval Hv. destruct (decide (id = tok)) as [->|Hne].
  - rewrite put_version_lookup. eexists. split; [reflexivity|]. intros val' Hval'.
    rewrite Hv in Hval. simpl in Hval. rewrite Hval' in Hval.
    apply elem_of_cons in Hval as [?|Hval%list_elem_of_singleton]; by simplify_eq.
  - rewrite put_version_lookup_ne by done. by exists v.
Qed.

(** Moving a label changes no value. *)
Lemma alter_keeps (g : version → version) tok vs id v :
  (∀ v, value (g v) = value v) → vs !! id = Some v →
  ∃ v', alter g tok vs !! id = Some v' ∧ keeps_version v v'.
Proof.
  intros Hg Hv. destruct (decide (tok = id)) as [->|Hne].
  - rewrite lookup_alter_eq, Hv. simpl. eexists. split; [reflexivity|].
    intros val. by rewrite Hg.
  - rewrite lookup_alter_ne by done. by exists v.
Qed.

Lemma detach_keeps st from vs vs1 id v :
  detach st from vs = inl vs1 → vs !! id = Some v →
  ∃ v', vs1 !! id = Some v' ∧ keeps_version v v'.
Proof.
  unfold detach, remove_stage. intros Hdet Hv.
  repeat case_match; simplify_eq; [|by exists v]. by apply alter_keeps.
Qed.

Lemma attach_keeps st to from vs vs2 id v :
  attach st to from vs = inl vs2 → vs !! id = Some v →
  ∃ v', vs2 !! id = Some v' ∧ keeps_version v v'.
Proof.
  unfold attach, add_stage. intros Hatt Hv.
  repeat case_match; simplify_eq; [|by exists v]. by apply alter_keeps.
Qed.

Lemma store_PutSecretValue_extends i σ : extends σ (store_PutSecretValue i σ).2.
Proof.
  destruct (store_PutSecretValue i σ) as [[out|err] σ'] eqn:Hput;
    [|by rewrite (store_PutSecretValue_refused _ _ _ _ Hput)].
  apply store_PutSecretValue_done in Hput
    as (arn & tok & val & sts & s & _ & _ & _ & _ & Hs & Hval & _ & ->).
  apply set_versions_extends; [done|]. intros id v. by apply put_version_keeps.
Qed.

Lemma store_UpdateSecretVersionStage_extends i σ :
  extends σ (store_UpdateSecretVersionStage i σ).2.
Proof.
  destruct (store_UpdateSecretVersionStage i σ) as [[out|err] σ'] eqn:Hupd;
    [|by rewrite (store_UpdateSecretVersionStage_refused _ _ _ _ Hupd)].
  apply store_UpdateSecretVersionStage_done in Hupd
    as (arn & st & s & vs1 & vs2 & _ & _ & Hs & Hdet & Hatt & ->).
  apply set_versions_extends; [done|]. intros id v Hv.
  destruct (detach_keeps _ _ _ _ _ _ Hdet Hv) as (v1 & Hv1 & Hk1).
  destruct (attach_keeps _ _ _ _ _ _ _ Hatt Hv1) as (v2 & Hv2 & Hk2).
  exists v2. split; [done|]. by etrans.
Qed.

(** Extending a given state is an invariant of the service. *)
#[export] Instance extends_invariant σ0 : ServiceInvariant (extends σ0).
Proof.
  split; simpl; intros i σ Hσ; (etrans; [exact Hσ|]).
  - by rewrite store_DescribeSecret_state.
  - by rewrite store_GetSecretValue_state.
  - intros arn s. rewrite store_GetRandomPassword_secrets. by exists s.
  - apply store_PutSecretValue_extends.
  - apply store_UpdateSecretVersionStage_extends.
Qed.

End history.

(** * Invocations *)

Section invocations.
Implicit Types (σ : store) (s : secret) (req : SecretsManagerEvent)
  (order : list string → list string).

(** What the scheduler sees when the validation rejects the event. *)
Lemma main_rejected order req σ err w1 :
  validate req (boot σ) = (Returned (Some err), w1) →
  main order req σ = (Failed (Error err), remote w1).
Proof.
  intros Hv. unfold main. by rewrite (HandleRequest_run_rejected _ _ _ _ _ Hv).
Qed.

Lemma main_dispatched order req σ w1 :
  validate req (boot σ) = (Returned None, w1) →
  main order req σ =
  match dispatch order req w1 with
  | (Returned None, w) => (Succeeded, remote w)
  | (Returned (Some err), w) => (Failed (Error err), remote w)
  | (Panicked p, w) => (Failed (panic_message p), remote w)
  end.
Proof.
  intros Hv. unfold main. by rewrite (HandleRequest_run_validated _ _ _ _ Hv).
Qed.

(** The three ways an invocation against the store can go: the validation
    rejects the event, it lets the event through to the switch, or it
    panics.  The validation leaves the store as it is. *)
Lemma main_cases order req σ :
  let w := after_describe req (boot σ) σ in
  (∃ err, validate req (boot σ) = (Returned (Some err), w) ∧
          main order req σ = (Failed (Error err), σ)) ∨
  (validate req (boot σ) = (Returned None, w) ∧
   main order req σ =
   match dispatch order req w with
   | (Returned None, w') => (Succeeded, remote w')
   | (Returned (Some err), w') => (Failed (Error err), remote w')
   | (Panicked p, w') => (Failed (panic_message p), remote w')
   end) ∨
  (∃ p, validate req (boot σ) = (Panicked p, w) ∧
        main order req σ = (Failed (panic_message p), σ)).
Proof.
  intros w. pose proof (validate_world req (boot σ)) as Hw. simpl in Hw.
  rewrite store_DescribeSecret_state in Hw. fold w in Hw.
  destruct (validate req (boot σ)) as [[[err|]|p] w1] eqn:Hv; simpl in Hw; subst w1.
  - left. exists err. split; [done|]. by rewrite (main_rejected _ _ _ _ _ Hv).
  - right; left. split; [done|]. by rewrite (main_dispatched _ _ _ _ Hv).
  - right; right. exists p. split; [done|]. unfold main.
    by rewrite (HandleRequest_run_panicked _ _ _ _ _ Hv).
Qed.

Lemma labels_of_Some s tok v :
  versions s !! tok = Some v → stages v ≠ [] → labels_of s tok = Some (stages v).
Proof. unfold labels_of. intros -> Hne. simpl. by rewrite decide_False. Qed.

Lemma labels_of_inv s tok labels :
  labels_of s tok = Some labels →
  ∃ v, versions s !! tok = Some v ∧ stages v = labels.
Proof.
  unfold labels_of. destruct (versions s !! tok) as [v|]; [simpl|done].
  case_decide; naive_solver.
Qed.

Lemma invocation_keeps (Inv : store → Prop) `{!ServiceInvariant Inv} σ r σ' :
  invocation σ r σ' → Inv σ → Inv σ'.
Proof. intros [order req σ0]. apply main_keeps, _. Qed.

Lemma reachable_keeps (Inv : store → Prop) `{!ServiceInvariant Inv} σ σ' :
  reachable σ σ' → Inv σ → Inv σ'.
Proof.
  induction 1 as [σ|σ1 σ2 σ3 [r Hstep] _ IH]; [done|].
  intros Hσ. by apply IH, (invocation_keeps Inv σ1 r).
Qed.


(** No sequence of invocations loses history: every secret
    keeps its rotation flag, every version that existed still exists, and
    a version that had a value still has that value.  In particular an
    invocation never overwrites the value a consumer may be using. *)
Theorem rotation_keeps_history σ σ' : reachable σ σ' → extends σ σ'.
Proof. intros Hreach. by apply (reachable_keeps (extends σ) σ). Qed.

(** The token's version carries AWSCURRENT: the validation rejects the
    event, whatever its step. *)
Lemma main_already_current order req tok arn σ s v :
  Token req = Some tok → Arn req = Some arn →
  secrets σ !! arn = Some s → rotation_enabled s = Some true →
  versions s !! tok = Some v → AWSCURRENT ∈ stages v →
  main order req σ = (Failed (Error (err_already_current tok arn)), σ).
Proof.
  intros Htok Harn Hs Hen Hv Hcur.
  apply (main_rejected order req σ (err_already_current tok arn)
           (after_describe req (boot σ) σ)).
  rewrite (validate_on_store req tok arn s true) by done.
  rewrite (labels_of_Some s tok v) by (done || by intros Hnil; rewrite Hnil in Hcur;
                                        apply elem_of_nil in Hcur).
  unfold classify. simpl. by rewrite decide_True.
Qed.

(** C35 (error): once the token's version carries AWSCURRENT, every further
    invocation for that token, whatever its step, fails with the
    already-current error and leaves the store exactly as it is: a
    redelivered event of a finished rotation changes nothing. *)
Theorem redelivery_after_promotion order req tok arn σ s labels :
  Token req = Some tok → Arn req = Some arn →
  secrets σ !! arn = Some s → rotation_enabled s = Some true →
  labels_of s tok = Some labels → AWSCURRENT ∈ labels →
  main order req σ = (Failed (Error (err_already_current tok arn)), σ).
Proof.
  intros ? ? ? ? (v & ? & <-)%labels_of_inv ?. by eapply main_already_current.
Qed.

End invocations.

(** * The steps against the store *)

Section steps.
Implicit Types (σ : store) (s : secret) (req : SecretsManagerEvent)
  (order : list string → list string).

Lemma pending_labels s tok :
  pending_for s tok → classify true (labels_of s tok) = Proceed.
Proof.
  intros (_ & v & Hv & Hpend & Hcur).
  rewrite (labels_of_Some s tok v) by (done || by intros Hnil; rewrite Hnil in Hpend;
                                        apply elem_of_nil in Hpend).
  unfold classify. simpl. by rewrite decide_False, decide_True.
Qed.

(** An event for a pending token passes the validation, which leaves the
    store as it is. *)
Lemma validate_pending req tok arn s w :
  Token req = Some tok → Arn req = Some arn →
  secrets (remote w) !! arn = Some s → pending_for s tok →
  validate req w = (Returned None, after_describe req w (remote w)).
Proof.
  intros Htok Harn Hs Hpend.
  rewrite (validate_on_store req tok arn s true) by (done || apply Hpend).
  by rewrite pending_labels.
Qed.

(** A finishSecret invocation for a pending token: the answer to the
    scheduler is the outcome of [finishSecret]. *)
Lemma main_finish req tok arn s order σ :
  Token req = Some tok → Arn req = Some arn → Step req = Some "finishSecret" →
  secrets σ !! arn = Some s → pending_for s tok →
  main order req σ =
  match finishSecret order (Some arn) (Some tok) (after_describe req (boot σ) σ) with
  | (Returned _, w) => (Succeeded, remote w)
  | (Panicked p, w) => (Failed (panic_message p), remote w)
  end.
Proof.
  intros Htok Harn Hstep Hs Hpend.
  rewrite (main_dispatched order req σ (after_describe req (boot σ) σ))
    by by apply (validate_pending req tok arn s).
  rewrite dispatch_finish, Harn, Htok by done. unfold bind.
  by destruct (finishSecret _ _ _ _) as [[[]|p] w].
Qed.

(** The first labelled version visited holds AWSCURRENT: the label moves
    to the token's version. *)
Lemma main_finish_promotes order req tok arn σ s cur :
  Token req = Some tok → Arn req = Some arn → Step req = Some "finishSecret" →
  secrets σ !! arn = Some s → one_holder (versions s) → pending_for s tok →
  cur ∈ dom (holders AWSCURRENT (versions s)) →
  first_version order (describe_versions (versions s)) = Some cur →
  main order req σ = (Succeeded, set_versions arn s (promoted tok cur (versions s)) σ).
Proof.
  intros Htok Harn Hstep Hs Hone Hpend Hcur Hfirst.
  destruct (Hpend) as (_ & v & Hv & _ & Hnot).
  assert (cur ≠ tok) as Hne.
  { intros ->. apply elem_of_holders in Hcur as (v' & ? & ?). by simplify_eq. }
  rewrite (main_finish req tok arn s) by done.
  erewrite finishSecret_run_other; [|exact (store_describe arn σ s Hs)|done..].
  erewrite promote_run_done; [done|]. by apply store_move_label.
Qed.

(** C6 (functional): against the reference store, a finishSecret
    invocation for a pending token promotes it, provided the iteration
    order of the version map is one under which the first labelled version
    visited is the one that holds AWSCURRENT: the invocation succeeds, the
    label has moved from that version to the token's, and the token's
    version is the one holder of AWSCURRENT. *)
Theorem finish_promotes_on_store order req tok arn σ s cur :
  Token req = Some tok → Arn req = Some arn → Step req = Some "finishSecret" →
  secrets σ !! arn = Some s → one_holder (versions s) → pending_for s tok →
  cur ∈ dom (holders AWSCURRENT (versions s)) →
  first_version order (describe_versions (versions s)) = Some cur →
  main order req σ = (Succeeded, set_versions arn s (promoted tok cur (versions s)) σ) ∧
  holder AWSCURRENT (promoted tok cur (versions s)) = Some tok.
Proof.
  intros Htok Harn Hstep Hs Hone Hpend Hcur Hfirst.
  split; [by apply main_finish_promotes|].
  destruct Hpend as (_ & v & Hv & _). by apply moved_label_holder.
Qed.

(** C37 (error): against the reference store, when the first labelled
    version that the loop visits is neither the token's nor the holder of
    AWSCURRENT (a version labelled AWSPREVIOUS, say), the invocation asks
    the store to take AWSCURRENT from a version that does not hold it: the
    store refuses, the invocation fails with the store's error and the
    store is unchanged. *)
Theorem finish_wrong_version_on_store order req tok arn σ s key :
  Token req = Some tok → Arn req = Some arn → Step req = Some "finishSecret" →
  secrets σ !! arn = Some s → pending_for s tok →
  first_version order (describe_versions (versions s)) = Some key →
  key ≠ tok → key ∉ dom (holders AWSCURRENT (versions s)) →
  main order req σ =
  (Failed (Error (InvalidParameter "the label is not attached to RemoveFromVersionId")),
   σ).
Proof.
  intros Htok Harn Hstep Hs Hpend Hfirst Hne Hkey.
  rewrite (main_finish req tok arn s) by done.
  erewrite finishSecret_run_other; [|exact (store_describe arn σ s Hs)|done..].
  erewrite promote_run_refused; [done|].
  by apply (store_move_refused arn AWSCURRENT key (Some tok) σ s).
Qed.

End steps.

(** * createSecret against the store *)

Section create.
Implicit Types (σ : store) (s : secret) (req : SecretsManagerEvent)
  (order : list string → list string).

(** A createSecret invocation for a pending token: the answer to the
    scheduler is the outcome of [createSecret]. *)
Lemma main_create req tok arn s order σ :
  Token req = Some tok → Arn req = Some arn → Step req = Some "createSecret" →
  secrets σ !! arn = Some s → pending_for s tok →
  main order req σ =
  match createSecret (Some arn) (Some tok) (after_describe req (boot σ) σ) with
  | (Returned _, w) => (Succeeded, remote w)
  | (Panicked p, w) => (Failed (panic_message p), remote w)
  end.
Proof.
  intros Htok Harn Hstep Hs Hpend.
  rewrite (main_dispatched order req σ (after_describe req (boot σ) σ))
    by by apply (validate_pending req tok arn s).
  rewrite dispatch_create, Harn, Htok by done. unfold bind.
  by destruct (createSecret _ _ _) as [[[]|p] w].
Qed.

Lemma store_random σ :
  GetRandomPassword random_password_request σ =
  (inl {| GetRandomPasswordOutput.RandomPassword := Some (fresh_password σ) |},
   reseeded σ).
Proof.
  assert (pool excChars ≠ []) as Hpool by (vm_compute; discriminate).
  change (store_GetRandomPassword random_password_request σ =
          (inl {| GetRandomPasswordOutput.RandomPassword := Some (fresh_password σ) |},
           reseeded σ)).
  unfold store_GetRandomPassword, fresh_password, reseeded, random_password_request.
  change (default EmptyString _) with excChars. cbv zeta.
  by destruct (pool excChars).
Qed.

Lemma readable_current arn σ s :
  secrets σ !! arn = Some s → current_readable s →
  ∃ cur, GetSecretValue (get_current_request (Some arn)) σ = (inl cur, σ).
Proof.
  intros Hs [val Hval]. eexists. unfold get_current_request. simpl.
  by rewrite (store_GetSecretValue_run _ _ _ _ s Hs), Hval.
Qed.

Lemma pending_value arn tok σ s :
  secrets σ !! arn = Some s → pending_for s tok →
  GetSecretValue (get_pending_request (Some arn) (Some tok)) σ =
  (match versions s !! tok ≫= value with
   | Some val => inl {| GetSecretValueOutput.SecretString := Some val |}
   | None => inr (ResourceNotFound "secret value not found")
   end, σ).
Proof.
  intros Hs (_ & v & Hv & Hpend & _). unfold get_pending_request. simpl.
  rewrite (store_GetSecretValue_run _ _ _ _ s Hs). unfold select_version.
  rewrite Hv. simpl. by rewrite decide_True.
Qed.

(** The token's version has a value: nothing to do. *)
Lemma main_create_present req tok arn s order σ :
  Token req = Some tok → Arn req = Some arn → Step req = Some "createSecret" →
  secrets σ !! arn = Some s → pending_for s tok → current_readable s →
  is_Some (versions s !! tok ≫= value) →
  main order req σ = (Succeeded, σ).
Proof.
  intros Htok Harn Hstep Hs Hpend Hcur [val Hval].
  rewrite (main_create req tok arn s) by done.
  destruct (readable_current arn σ s Hs Hcur) as [cur Hget].
  erewrite createSecret_run_present; [done|exact Hget|].
  by rewrite (pending_value arn tok σ s), Hval.
Qed.

(** The token's version has no value: one is generated and stored. *)
Lemma main_create_fresh req tok arn s order σ :
  Token req = Some tok → Arn req = Some arn → Step req = Some "createSecret" →
  secrets σ !! arn = Some s → one_holder (versions s) → pending_for s tok →
  current_readable s → versions s !! tok ≫= value = None →
  main order req σ = (Succeeded, created arn tok s σ).
Proof.
  intros Htok Harn Hstep Hs Hone Hpend Hcur Hval.
  rewrite (main_create req tok arn s) by done.
  destruct (readable_current arn σ s Hs Hcur) as [cur Hget].
  erewrite createSecret_run_missing;
    [|exact Hget|by rewrite (pending_value arn tok σ s), Hval|done].
  erewrite generate_put_done; [done|apply store_random|].
  destruct Hpend as (_ & v & Hv & Hpend & _).
  apply store_put_labelled; [done..| |rewrite Hval; left].
  apply elem_of_holders. eauto.
Qed.

(** The state after the value has been stored is again one in which the
    steps for the token are accepted, and the token's version has the
    generated value. *)
Lemma created_lookup arn tok s σ :
  secrets (created arn tok s σ) !! arn = Some (created_secret tok s σ).
Proof. apply set_versions_lookup. Qed.

Lemma created_pending tok s σ :
  pending_for s tok → pending_for (created_secret tok s σ) tok.
Proof.
  intros (Hen & v & Hv & Hpend & Hnot). split; [done|]. simpl.
  rewrite (put_version_stages tok _ AWSPENDING _ v) by done.
  exists (Version (Some (fresh_password σ)) (stages v)). by rewrite lookup_insert_eq.
Qed.

Lemma created_readable tok s σ :
  current_readable s → current_readable (created_secret tok s σ).
Proof. apply put_version_select_label. compute_done. Qed.

Lemma created_value tok s σ :
  versions (created_secret tok s σ) !! tok ≫= value = Some (fresh_password σ).
Proof. simpl. by rewrite put_version_lookup. Qed.

Lemma created_one_holder tok s σ :
  one_holder (versions s) → pending_for s tok →
  one_holder (versions (created_secret tok s σ)).
Proof.
  intros Hone (_ & v & Hv & Hpend & _). apply put_version_one_holder; [done|].
  repeat constructor. apply held_elsewhere_holder; [done|].
  apply elem_of_holders. eauto.
Qed.

Lemma created_holder st tok s σ id :
  id ∈ dom (holders st (versions s)) →
  id ∈ dom (holders st (versions (created_secret tok s σ))).
Proof. intros Hid. apply put_version_holder. by left. Qed.

(** The password that [createSecret] obtains from the
    reference store with the request of lines 104-106 has the length the
    store generates (32) and contains none of the characters of
    [excChars]: slash, at sign, quote, double quote, backslash. *)
Theorem fresh_password_shape σ :
  String.length (fresh_password σ) = 32 ∧
  ∀ c, c ∈ String.list_ascii_of_string (fresh_password σ) →
       c ∉ String.list_ascii_of_string excChars.
Proof.
  unfold fresh_password. split.
  - apply draw_length. by vm_compute.
  - intros c Hc. by eapply pool_excludes, draw_chars.
Qed.

(** C7 (roundtrip): against the reference store, a createSecret invocation
    for a pending token whose version has no value succeeds and stores a
    generated password under the token, with the labels as they were; the
    same invocation delivered a second time succeeds and changes nothing:
    one pending version with one value. *)
Theorem create_twice_on_store order order' req tok arn σ s :
  Token req = Some tok → Arn req = Some arn → Step req = Some "createSecret" →
  secrets σ !! arn = Some s → one_holder (versions s) → pending_for s tok →
  current_readable s → versions s !! tok ≫= value = None →
  main order req σ = (Succeeded, created arn tok s σ) ∧
  main order' req (created arn tok s σ) = (Succeeded, created arn tok s σ).
Proof.
  intros Htok Harn Hstep Hs Hone Hpend Hcur Hval.
  split; [by apply main_create_fresh|].
  apply (main_create_present req tok arn (created_secret tok s σ));
    auto using created_lookup, created_pending, created_readable.
  by rewrite created_value.
Qed.

End create.

(** * createSecret and the current value *)

Section current_value.
Implicit Types (σ : store) (s : secret) (w : world store api_call)
  (req : SecretsManagerEvent) (order : list string → list string).

(** A consumer of the secret [arn] reads the value [cur]. *)
Definition reads_current (arn : string) (cur : GetSecretValueOutput.t) (σ : store) : Prop :=
  (GetSecretValue (get_current_request (Some arn)) σ).1 = inl cur.

(** Storing a pending value leaves the current value of every secret as a
    consumer reads it. *)
Lemma put_pending_reads_current arn cur Arn Token pwd σ :
  reads_current arn cur σ →
  reads_current arn cur (PutSecretValue (put_pending_request Arn Token pwd) σ).2.
Proof.
  destruct (PutSecretValue (put_pending_request Arn Token pwd) σ) as [[out|err] σ'] eqn:Hput;
    [|by rewrite (store_PutSecretValue_refused _ _ _ _ Hput)].
  apply store_PutSecretValue_done in Hput
    as (arn' & tok & val & sts & s & ? & ? & ? & Hsts & Hs & Hval & _ & ->).
  rewrite put_pending_stages in Hsts. simplify_eq/=.
  unfold reads_current, get_current_request, set_versions. simpl.
  destruct (decide (arn = arn')) as [->|Hne];
    [|unfold store_GetSecretValue; simpl; rewrite lookup_insert_ne by done;
      by repeat case_match].
  rewrite (store_GetSecretValue_found _ _ _ _ _ Hs).
  rewrite (store_GetSecretValue_found arn' _ _ _ (Secret (rotation_enabled s)
             (put_version tok val [AWSPENDING] (versions s))))
    by (by simpl; rewrite lookup_insert_eq).
  simpl. unfold select_version. simpl.
  rewrite (holder_dom AWSCURRENT (put_version tok val [AWSPENDING] (versions s))
             (versions s)) by (apply put_version_holders; compute_done).
  destruct (holder AWSCURRENT (versions s)) as [id|]; simpl; [|done].
  destruct (decide (id = tok)) as [->|Hid]; [|by rewrite put_version_lookup_ne].
  rewrite put_version_lookup. simpl.
  destruct (versions s !! tok ≫= value) as [val'|]; [|done].
  apply elem_of_cons in Hval as [?|Hval%list_elem_of_singleton]; by simplify_eq.
Qed.

Lemma reads_current_secrets arn cur σ σ' :
  secrets σ' = secrets σ → reads_current arn cur σ → reads_current arn cur σ'.
Proof.
  intros Heq. unfold reads_current. simpl.
  by rewrite (store_GetSecretValue_secrets _ σ' σ).
Qed.

(** [createSecret] maintains what a consumer reads: each of its four
    calls does. *)
Lemma createSecret_reads_current arn cur Arn Token :
  preserves (keeps (reads_current arn cur)) (createSecret Arn Token).
Proof.
  assert (∀ {I O} (op : I → store → (O + error) * store) event input,
            (∀ σ, secrets (op input σ).2 = secrets σ) →
            preserves (keeps (reads_current arn cur)) (call op event input)) as Hread.
  { intros I O op event input Hop. apply call_keeps. intros σ.
    by apply reads_current_secrets. }
  unfold createSecret, generate_and_put, svc_GetSecretValue, svc_GetRandomPassword,
    svc_PutSecretValue.
  apply preserves_bind; [apply _| |].
  { apply Hread. intros σ. simpl. by rewrite store_GetSecretValue_state. }
  intros [_|err]; [|solve_preserves].
  apply preserves_bind; [apply _| |].
  { apply Hread. intros σ. simpl. by rewrite store_GetSecretValue_state. }
  intros [_|err]; [solve_preserves|].
  destruct (as_awserr err) as [code|]; [|solve_preserves].
  case_decide; [solve_preserves|].
  apply preserves_bind; [apply _| |].
  { apply Hread. intros σ. apply store_GetRandomPassword_secrets. }
  intros [pwd|err']; [|solve_preserves].
  apply preserves_bind; [apply _| |].
  { apply call_keeps. intros σ. apply put_pending_reads_current. }
  intros [_|err']; solve_preserves.
Qed.

(** C28 (safety): a createSecret invocation never changes what a consumer
    of a secret reads: if the value labelled AWSCURRENT of a secret, the
    event's or any other, is readable before the invocation, the same
    value is read after it, whether the invocation succeeds, fails or
    panics. *)
Theorem create_keeps_current order req arn cur σ :
  Step req = Some "createSecret" →
  reads_current arn cur σ → reads_current arn cur (main order req σ).2.
Proof.
  intros Hstep Hcur.
  destruct (main_cases order req σ) as [(err & _ & ->)|[[_ ->]|(p & _ & ->)]]; [done| |done].
  rewrite dispatch_create by done.
  pose proof (createSecret_reads_current arn cur (Arn req) (Token req)
                (after_describe req (boot σ) σ) Hcur) as Hc.
  unfold bind. by destruct (createSecret _ _ _) as [[[]|p] w2].
Qed.

End current_value.

(** * A rotation from its first step to its last *)

Section completion.
Implicit Types (σ : store) (s : secret) (vs : gmap string version).

(** The event of a step for a secret and a token. *)
Definition step_event (arn tok step : string) : SecretsManagerEvent :=
  {| Token := Some tok; Arn := Some arn; Step := Some step |}.

(** A version that holds a label is listed by DescribeSecret. *)
Lemma has_stages_holder st vs id :
  id ∈ dom (holders st vs) → has_stages (describe_versions vs) id = true.
Proof.
  intros (v & Hv & Hst)%elem_of_holders. unfold has_stages.
  rewrite describe_versions_lookup, Hv. simpl.
  rewrite decide_False; [done|]. intros Hnil. rewrite Hnil in Hst.
  by apply elem_of_nil in Hst.
Qed.

(** Moving a label keeps the value of every version. *)
Lemma promoted_value tok cur vs id val :
  vs !! id ≫= value = Some val → promoted tok cur vs !! id ≫= value = Some val.
Proof.
  destruct (vs !! id) as [v|] eqn:Hv; [simpl|done]. intros Hval.
  destruct (alter_keeps (λ v, Version (value v) (filter (λ st, st ≠ AWSCURRENT) (stages v)))
              cur vs id v) as (v1 & Hv1 & Hk1); [done..|].
  destruct (alter_keeps
              (λ v, Version (value v)
                      (if decide (AWSCURRENT ∈ stages v) then stages v
                       else AWSCURRENT :: stages v))
              tok (remove_stage AWSCURRENT cur vs) id v1) as (v2 & Hv2 & Hk2); [done..|].
  unfold promoted, add_stage. rewrite Hv2. simpl. auto.
Qed.

(** A rotation can be completed.  From a consistent secret
    with a readable current value and a pending token without value, the
    scheduler can reach, by a createSecret and a finishSecret invocation,
    a state in which the token's version holds AWSCURRENT and the value
    generated for it.  The finishSecret invocation must find an iteration
    order that visits the holder of AWSCURRENT first; the steps setSecret
    and testSecret, which this program cannot run, are left out. *)
Theorem rotation_can_complete arn tok σ s cur :
  secrets σ !! arn = Some s → one_holder (versions s) → pending_for s tok →
  current_readable s → versions s !! tok ≫= value = None →
  cur ∈ dom (holders AWSCURRENT (versions s)) →
  ∃ σ' s', reachable σ σ' ∧ secrets σ' !! arn = Some s' ∧
           holder AWSCURRENT (versions s') = Some tok ∧
           versions s' !! tok ≫= value = Some (fresh_password σ).
Proof.
  intros Hs Hone Hpend Hread Hval Hcur.
  pose (s1 := created_secret tok s σ).
  exists (set_versions arn s1 (promoted tok cur (versions s1)) (created arn tok s σ)),
    (Secret (rotation_enabled s1) (promoted tok cur (versions s1))).
  split; [|split; [apply set_versions_lookup|split]].
  - assert (main (first_visit cur) (step_event arn tok "finishSecret")
              (created arn tok s σ) =
            (Succeeded,
             set_versions arn s1 (promoted tok cur (versions s1)) (created arn tok s σ)))
      as Hfin.
    { apply (main_finish_promotes _ _ tok arn _ s1 cur); [done..| | | | |].
      - apply created_lookup.
      - by apply created_one_holder.
      - by apply created_pending.
      - by apply created_holder.
      - apply first_version_first_visit, (has_stages_holder AWSCURRENT).
        by apply created_holder. }
    eapply rtc_l; [eexists; apply (invoke id (step_event arn tok "createSecret") σ)|].
    rewrite (main_create_fresh _ tok arn s) by done.
    apply rtc_once. eexists.
    pose proof (invoke (first_visit cur) (step_event arn tok "finishSecret")
                  (created arn tok s σ)) as Hstep.
    rewrite Hfin in Hstep. exact Hstep.
  - apply moved_label_holder;
      [by apply created_one_holder|by apply created_holder|].
    simpl. rewrite put_version_lookup. eauto.
  - apply promoted_value, created_value.
Qed.

End completion.

(** * Failed invocations *)

Section failures.
Implicit Types (σ : store) (w : world store api_call) (Arn Token : option string)
  (req : SecretsManagerEvent) (order : list string → list string).

(** The reading operations, through the interface. *)
Lemma store_describe_state i σ r σ' : DescribeSecret i σ = (r, σ') → σ' = σ.
Proof.
  intros Heq. change (store_DescribeSecret i σ = (r, σ')) in Heq.
  rewrite <-(store_DescribeSecret_state i σ). by rewrite Heq.
Qed.

Lemma store_get_state i σ r σ' : GetSecretValue i σ = (r, σ') → σ' = σ.
Proof.
  intros Heq. change (store_GetSecretValue i σ = (r, σ')) in Heq.
  rewrite <-(store_GetSecretValue_state i σ). by rewrite Heq.
Qed.

Lemma store_random_secrets i σ r σ' :
  GetRandomPassword i σ = (r, σ') → secrets σ' = secrets σ.
Proof.
  intros Heq. change (store_GetRandomPassword i σ = (r, σ')) in Heq.
  rewrite <-(store_GetRandomPassword_secrets i σ). by rewrite Heq.
Qed.

(** The store accepts no update of AWSCURRENT that names no secret or no
    target version. *)
Lemma store_promote_accepted Arn Token cv σ out σ' :
  UpdateSecretVersionStage (promote_request Arn Token cv) σ = (inl out, σ') →
  is_Some Arn ∧ is_Some Token.
Proof.
  intros (arn & st & s & vs1 & vs2 & Harn & Hst & _ & _ & Hatt & _)
    %store_UpdateSecretVersionStage_done.
  simpl in *. simplify_eq. split; [done|].
  unfold attach in Hatt. destruct Token; [done|].
  rewrite decide_True in Hatt by auto. done.
Qed.

Lemma store_put_accepted Arn Token pwd σ out σ' :
  PutSecretValue (put_pending_request Arn Token pwd) σ = (inl out, σ') →
  is_Some Arn ∧ is_Some Token.
Proof.
  intros (arn & tok & val & sts & s & Harn & Htok & _)%store_PutSecretValue_done.
  simpl in *. by simplify_eq.
Qed.

Lemma promote_panic_clean Arn Token cv w p w' :
  promote Arn Token cv w = (Panicked p, w') → remote w' = remote w.
Proof.
  destruct (UpdateSecretVersionStage (promote_request Arn Token cv) (remote w))
    as [[out|err] σ2] eqn:Hupd.
  - destruct (store_promote_accepted _ _ _ _ _ _ Hupd) as [[arn ->] [tok ->]].
    by rewrite (promote_run_done _ _ _ _ _ _ Hupd).
  - rewrite (promote_run_refused _ _ _ _ _ _ Hupd). intros [= _ <-].
    by apply store_UpdateSecretVersionStage_refused in Hupd.
Qed.

Lemma generate_and_put_panic_clean Arn Token w p w' :
  generate_and_put Arn Token w = (Panicked p, w') →
  secrets (remote w') = secrets (remote w).
Proof.
  destruct (GetRandomPassword random_password_request (remote w))
    as [[pwd|err] σ1] eqn:Hrand; pose proof (store_random_secrets _ _ _ _ Hrand) as Hσ1;
    [|rewrite (generate_no_password _ _ _ _ _ Hrand); by intros [= _ <-]].
  destruct (PutSecretValue
              (put_pending_request Arn Token (GetRandomPasswordOutput.RandomPassword pwd)) σ1)
    as [[out|err] σ2] eqn:Hput.
  - destruct (store_put_accepted _ _ _ _ _ _ Hput) as [[arn ->] [tok ->]].
    by rewrite (generate_put_done _ _ _ _ _ _ _ Hrand Hput).
  - rewrite (generate_put_refused _ _ _ _ _ _ _ Hrand Hput). intros [= _ <-].
    apply store_PutSecretValue_refused in Hput. by subst.
Qed.

Lemma createSecret_panic_clean Arn Token w p w' :
  createSecret Arn Token w = (Panicked p, w') →
  secrets (remote w') = secrets (remote w).
Proof.
  destruct (GetSecretValue (get_current_request Arn) (remote w))
    as [[cur|err] σ1] eqn:Hcur; pose proof (store_get_state _ _ _ _ Hcur) as ->;
    [|rewrite (createSecret_run_no_current _ _ _ _ _ Hcur); by intros [= _ <-]].
  destruct (GetSecretValue (get_pending_request Arn Token) (remote w))
    as [[pend|err] σ2] eqn:Hpend; pose proof (store_get_state _ _ _ _ Hpend) as ->;
    [by rewrite (createSecret_run_present _ _ _ _ _ _ _ Hcur Hpend)|].
  destruct (decide (as_awserr err = Some ErrCodeResourceNotFoundException)) as [Hcode|Hcode].
  - rewrite (createSecret_run_missing _ _ _ _ _ _ _ Hcur Hpend Hcode).
    by intros ->%generate_and_put_panic_clean.
  - rewrite (createSecret_run_fatal _ _ _ _ _ _ _ Hcur Hpend Hcode). by intros [= _ <-].
Qed.

Lemma finishSecret_panic_clean order Arn Token w p w' :
  finishSecret order Arn Token w = (Panicked p, w') → remote w' = remote w.
Proof.
  destruct (DescribeSecret (describe_request Arn) (remote w)) as [[sec|err] σ1] eqn:Hd;
    pose proof (store_describe_state _ _ _ _ Hd) as ->;
    [|rewrite (finishSecret_run_describe_failed _ _ _ _ _ _ Hd); by intros [= _ <-]].
  rewrite (finishSecret_run _ _ _ _ _ _ Hd). unfold bind.
  destruct (first_version _ _) as [key|].
  - destruct Token as [token|];
      [|rewrite found_version_nil_token; by intros [= _ <-]].
    destruct (decide (key = token)) as [->|Hne].
    + destruct Arn as [arn|]; [by rewrite found_version_token|].
      unfold found_version, bind. rewrite deref_Some, decide_True, deref_None by done.
      by intros [= _ <-].
    + rewrite found_version_other by done. by intros ->%promote_panic_clean.
  - by intros ->%promote_panic_clean.
Qed.

(** A failed invocation has changed no secret. *)
Lemma main_failed_clean order req σ msg σ' :
  main order req σ = (Failed msg, σ') → secrets σ' = secrets σ.
Proof.
  destruct (main_cases order req σ) as [(err & _ & ->)|[[_ ->]|(p & _ & ->)]];
    [by intros [= _ <-]| |by intros [= _ <-]].
  unfold dispatch, bind, setSecret, testSecret.
  destruct (deref (Step req) _) as [[step|p] w2] eqn:Hstep;
    apply deref_inv in Hstep as [-> _]; [|by intros [= _ <-]].
  repeat case_decide; try by intros [= _ <-].
  - destruct (createSecret _ _ _) as [[[]|p] w3] eqn:Hc; [done|].
    intros [= _ <-]. by rewrite (createSecret_panic_clean _ _ _ _ _ Hc).
  - destruct (finishSecret _ _ _ _) as [[[]|p] w3] eqn:Hf; [done|].
    intros [= _ <-]. by rewrite (finishSecret_panic_clean _ _ _ _ _ _ Hf).
Qed.

(** C15 (safety): against the reference store, an invocation that fails,
    by an error or by a panic, has changed no secret: no value was
    stored and no label was moved.  A failed step can be delivered again
    from the state it started in. *)
Theorem failed_invocation_is_clean σ msg σ' :
  invocation σ (Failed msg) σ' → secrets σ' = secrets σ.
Proof.
  intros Hinv. inversion Hinv as [order req σ0 Hr]. subst.
  apply (main_failed_clean order req σ msg).
  destruct (main order req σ); simpl in *. by subst.
Qed.

End failures.

(** * Instances *)

Lemma scenario_reachable : reachable scenario_store scenario_finished.
Proof.
  eapply rtc_l.
  { eexists. apply (invoke id (scenario_event "createSecret") scenario_store). }
  eapply rtc_l.
  { eexists. apply (invoke (first_visit "v1") (scenario_event "finishSecret")). }
  assert ((main (first_visit "v1") (scenario_event "finishSecret")
             (main id (scenario_event "createSecret") scenario_store).2).2 =
          scenario_finished) as -> by (vm_compute; reflexivity).
  apply rtc_refl.
Qed.


Lemma rotation_keeps_history_witness : extends scenario_store scenario_finished.
Proof. apply (rotation_keeps_history _ _ scenario_reachable). Defined.

Lemma redelivery_after_promotion_witness :
  main id (scenario_event "finishSecret") scenario_finished =
  (Failed "Secret version v2 already set as AWSCURRENT for secret db-pwd.",
   scenario_finished).
Proof.
  apply (redelivery_after_promotion id (scenario_event "finishSecret") "v2" "db-pwd"
           scenario_finished
           (Secret (Some true)
              {[ "v1" := Version (Some "old123") [];
                 "v2" := Version (Some scenario_password) [AWSCURRENT; AWSPENDING] ]})
           [AWSCURRENT; AWSPENDING]);
    try reflexivity.
  apply (bool_decide_unpack _). vm_compute. reflexivity.
Defined.

(** The secret of the scenario once the pending value is stored. *)
Definition scenario_secret : secret :=
  Secret (Some true)
    {[ "v1" := Version (Some "old123") [AWSCURRENT];
       "v2" := Version (Some scenario_password) [AWSPENDING] ]}.

Lemma scenario_secret_pending : pending_for scenario_secret "v2".
Proof. by apply (pending_for_intro _ _ (Version (Some scenario_password) [AWSPENDING])). Qed.

Lemma finish_promotes_on_store_witness :
  main (first_visit "v1") (scenario_event "finishSecret") scenario_created =
    (Succeeded, scenario_finished) ∧
  holder AWSCURRENT
    (add_stage AWSCURRENT "v2" (remove_stage AWSCURRENT "v1" (versions scenario_secret))) =
    Some "v2".
Proof.
  apply (finish_promotes_on_store (first_visit "v1") (scenario_event "finishSecret")
           "v2" "db-pwd" scenario_created scenario_secret "v1");
    first [by vm_compute | apply scenario_secret_pending | by_compute].
Defined.

Lemma finish_wrong_version_on_store_witness :
  main (first_visit "v0") (scenario_event "finishSecret") scenario_with_previous =
  (Failed (Error (InvalidParameter "the label is not attached to RemoveFromVersionId")),
   scenario_with_previous).
Proof.
  apply (finish_wrong_version_on_store (first_visit "v0") (scenario_event "finishSecret")
           "v2" "db-pwd" scenario_with_previous
           (Secret (Some true)
              {[ "v0" := Version (Some "older") ["AWSPREVIOUS"];
                 "v1" := Version (Some "old123") [AWSCURRENT];
                 "v2" := Version (Some scenario_password) [AWSPENDING] ]}) "v0");
    first [by vm_compute | discriminate | by_compute
          | by apply (pending_for_intro _ _ (Version (Some scenario_password) [AWSPENDING]))].
Defined.

Lemma create_twice_on_store_witness :
  main id (scenario_event "createSecret") scenario_store =
    (Succeeded, created "db-pwd" "v2" (Secret (Some true) scenario_versions) scenario_store) ∧
  main reverse (scenario_event "createSecret")
    (created "db-pwd" "v2" (Secret (Some true) scenario_versions) scenario_store) =
    (Succeeded, created "db-pwd" "v2" (Secret (Some true) scenario_versions) scenario_store).
Proof.
  apply (create_twice_on_store id reverse (scenario_event "createSecret") "v2" "db-pwd"
           scenario_store (Secret (Some true) scenario_versions));
    first [by vm_compute | by_compute
          | by apply (pending_for_intro _ _ (Version None [AWSPENDING]))].
Defined.

Lemma rotation_can_complete_witness :
  ∃ σ' s', reachable scenario_store σ' ∧ secrets σ' !! "db-pwd" = Some s' ∧
           holder AWSCURRENT (versions s') = Some "v2" ∧
           versions s' !! "v2" ≫= value = Some (fresh_password scenario_store).
Proof.
  apply (rotation_can_complete "db-pwd" "v2" scenario_store
           (Secret (Some true) scenario_versions) "v1");
    first [by vm_compute | by_compute
          | by apply (pending_for_intro _ _ (Version None [AWSPENDING]))].
Defined.

Lemma failed_invocation_is_clean_witness :
  secrets scenario_with_previous = secrets scenario_with_previous.
Proof.
  apply (failed_invocation_is_clean scenario_with_previous
           (Error (InvalidParameter "the label is not attached to RemoveFromVersionId"))
           scenario_with_previous).
  pose proof (invoke (first_visit "v0") (scenario_event "finishSecret")
                scenario_with_previous) as Hinv.
  assert (main (first_visit "v0") (scenario_event "finishSecret") scenario_with_previous =
          (Failed (Error (InvalidParameter
                     "the label is not attached to RemoveFromVersionId")),
           scenario_with_previous)) as Hmain by (by vm_compute).
  by rewrite Hmain in Hinv.
Defined.

Lemma create_keeps_current_witness :
  reads_current "db-pwd" scenario_current
    (main id (scenario_event "createSecret") scenario_store).2.
Proof.
  apply (create_keeps_current id (scenario_event "createSecret") "db-pwd" scenario_current
           scenario_store); by vm_compute.
Defined.

(** The scenario of the specification, run.  For the
    secret "db-pwd" with the value "old123" on the current version "v1"
    and the pending version "v2": the createSecret invocation stores a
    generated password on "v2" with the label AWSPENDING; delivered again
    it changes nothing; the finishSecret invocation, when "v1" is visited
    first, moves AWSCURRENT from "v1" to "v2"; delivered again it is
    refused as already current; and when "v2" is visited first it reports
    success and leaves AWSCURRENT on "v1".  The finished state is one the
    scheduler can reach from the initial one. *)
Theorem scenario_end_to_end :
  reachable scenario_store scenario_finished ∧
  main id (scenario_event "createSecret") scenario_store = (Succeeded, scenario_created) ∧
  main id (scenario_event "createSecret") scenario_created = (Succeeded, scenario_created) ∧
  main (first_visit "v1") (scenario_event "finishSecret") scenario_created =
    (Succeeded, scenario_finished) ∧
  main (first_visit "v1") (scenario_event "finishSecret") scenario_finished =
    (Failed "Secret version v2 already set as AWSCURRENT for secret db-pwd.",
     scenario_finished) ∧
  main (first_visit "v2") (scenario_event "finishSecret") scenario_created =
    (Succeeded, scenario_created).
Proof. split; [apply scenario_reachable|repeat split; by vm_compute]. Qed.
