(* ===== verification/Progress.v ===== *)
(** * Progress of a rotation: what an invocation can change, and how often

    An invocation of the program either leaves every secret as it is or
    makes one of two moves on the secret of its event: it stores the first
    value of the pending version (createSecret) or it moves AWSCURRENT to
    the pending version (finishSecret).  This file states the two moves as
    an abstract machine ([advance]), proves that the program refines it,
    and measures the work that is left for the pending version of each
    secret ([remaining]): every move lowers the measure, so a scheduler,
    whatever it sends and however often it redelivers, changes a consistent
    store finitely often. *)

From stdpp Require Import base tactics option list strings gmap relations.
From S2P Require Import Prelude GoRuntime SecretsManager Store Validator.
From S2P Require Import CreateSecret FinishSecret FinishSpec Handler Rotation.

Open Scope prog_scope.

(** * Definitions *)

(** The work left on a version that a rotation is to promote: one unit
    while it has no value, one while it does not hold AWSCURRENT. *)
Definition unsettled (v : version) : nat :=
  (match value v with Some _ => 0 | None => 1 end) +
  (if decide (AWSCURRENT ∈ stages v) then 0 else 1).

(** The work left on a secret: that of the version labelled AWSPENDING,
    nothing when no version is. *)
Definition remaining_secret (s : secret) : nat :=
  from_option unsettled 0 (select_version None (Some AWSPENDING) (versions s)).

(** The work left on the store. *)
Definition remaining (σ : store) : nat :=
  map_sum remaining_secret (secrets σ).

(** The two moves of a rotation on the secret [arn] for the pending
    version [tok]. *)
Inductive advance : relation store :=
| advance_create arn tok s σ :
    secrets σ !! arn = Some s → pending_for s tok → current_readable s →
    versions s !! tok ≫= value = None →
    advance σ (created arn tok s σ)
| advance_promote arn tok key s σ :
    secrets σ !! arn = Some s → pending_for s tok →
    key ∈ dom (holders AWSCURRENT (versions s)) →
    advance σ (set_versions arn s (promoted tok key (versions s)) σ).

(** An invocation that changed a secret, and one that did so from a
    consistent store. *)
Definition alters (σ σ' : store) : Prop :=
  ∃ order req r, main order req σ = (r, σ') ∧ secrets σ' ≠ secrets σ.

Definition changes (σ σ' : store) : Prop := store_consistent σ ∧ alters σ σ'.

(** A store that is not consistent: two versions carry AWSPENDING. *)
Definition twice_pending : store :=
  {| secrets :=
       {[ "db-pwd" :=
            {| rotation_enabled := Some true;
               versions :=
                 {[ "v1" := {| value := Some "old123";
                               stages := [AWSCURRENT; AWSPENDING] |};
                    "v2" := {| value := Some "new456";
                               stages := [AWSPENDING] |} ]} |} ]};
     seed := 7 |}.

(** * The validation, read backwards *)

Section validated.
Implicit Types (σ : store) (s : secret) (req : SecretsManagerEvent)
  (w : world store api_call).

Lemma classify_proceed enabled entry :
  classify enabled entry = Proceed →
  enabled = true ∧ ∃ labels, entry = Some labels ∧
                             AWSPENDING ∈ labels ∧ AWSCURRENT ∉ labels.
Proof.
  unfold classify. destruct enabled; [simpl|done].
  destruct entry as [labels|]; [|done]. repeat case_decide; naive_solver.
Qed.

(** An event passes the validation only when it names a secret of the
    store and a version of it that is pending. *)
Lemma validated_pending req σ w1 :
  validate req (boot σ) = (Returned None, w1) →
  ∃ arn tok s, Arn req = Some arn ∧ Token req = Some tok ∧
               secrets σ !! arn = Some s ∧ pending_for s tok.
Proof.
  destruct (Arn req) as [arn|] eqn:Harn;
    [|by erewrite validate_describe_failed by by rewrite Harn].
  destruct (secrets σ !! arn) as [s|] eqn:Hs.
  2: { erewrite validate_describe_failed; [done|]. rewrite Harn. simpl.
       unfold store_DescribeSecret. simpl. by rewrite Hs. }
  erewrite validate_described by (rewrite Harn; exact (store_describe arn σ s Hs)).
  destruct (rotation_enabled s) as [enabled|] eqn:Hen;
    [|by rewrite check_staging_flag_absent].
  destruct enabled; [|by erewrite check_staging_disabled].
  destruct (Token req) as [tok|] eqn:Htok.
  2: { unfold check_staging, bind. simpl. by rewrite Htok. }
  erewrite check_staging_classified; [|done..|apply describe_versions_slices].
  simpl. rewrite describe_versions_labels.
  destruct (classify true (labels_of s tok)) eqn:Hc; try done. intros _.
  apply classify_proceed in Hc as (_ & labels & (v & Hv & <-)%labels_of_inv & ? & ?).
  exists arn, tok, s. repeat split; [done..|]. by exists v.
Qed.

End validated.

(** * The moves of an invocation *)

Section moves.
Implicit Types (σ : store) (s : secret) (req : SecretsManagerEvent)
  (order : list string → list string).

(** A put of the pending value that the store accepts is the move
    [created]. *)
Lemma store_put_created arn tok s σ out σ' :
  secrets σ !! arn = Some s →
  PutSecretValue (put_pending_request (Some arn) (Some tok) (Some (fresh_password σ)))
    (reseeded σ) = (inl out, σ') →
  σ' = created arn tok s σ.
Proof.
  intros Hs (arn' & tok' & val & sts & s' & ? & ? & ? & Hsts & Hs' & _ & _ & ->)
    %store_PutSecretValue_done.
  rewrite put_pending_stages in Hsts. by simplify_eq/=.
Qed.

(** The current value was read: it is readable. *)
Lemma current_read arn s σ cur σ1 :
  secrets σ !! arn = Some s →
  GetSecretValue (get_current_request (Some arn)) σ = (inl cur, σ1) →
  current_readable s.
Proof.
  intros Hs. unfold get_current_request. simpl.
  rewrite (store_GetSecretValue_run _ _ _ _ s Hs). unfold current_readable.
  by destruct (_ ≫= value); [eauto|].
Qed.

(** A createSecret invocation for a pending token changes no secret, or
    the token had no value and has the generated one now. *)
Lemma main_create_effect order req tok arn s σ :
  Token req = Some tok → Arn req = Some arn → Step req = Some "createSecret" →
  secrets σ !! arn = Some s → pending_for s tok →
  secrets (main order req σ).2 = secrets σ ∨
  current_readable s ∧ versions s !! tok ≫= value = None ∧
  main order req σ = (Succeeded, created arn tok s σ).
Proof.
  intros Htok Harn Hstep Hs Hpend. rewrite (main_create req tok arn s) by done.
  destruct (GetSecretValue (get_current_request (Some arn)) σ) as [[cur|err] σ1] eqn:Hcur;
    pose proof (store_get_state _ _ _ _ Hcur) as ->;
    [|left; by erewrite createSecret_run_no_current by exact Hcur].
  pose proof (pending_value arn tok σ s Hs Hpend) as Hget.
  destruct (versions s !! tok ≫= value) as [val|] eqn:Hval;
    [left; by erewrite createSecret_run_present by (exact Hcur || exact Hget)|].
  erewrite createSecret_run_missing; [|exact Hcur|exact Hget|done].
  destruct (PutSecretValue
              (put_pending_request (Some arn) (Some tok) (Some (fresh_password σ)))
              (reseeded σ)) as [[out|err] σ2] eqn:Hput.
  - right. split; [by eapply current_read|split; [done|]].
    erewrite generate_put_done; [|apply store_random|exact Hput].
    by rewrite (store_put_created arn tok s σ out σ2).
  - left. erewrite generate_put_refused; [|apply store_random|exact Hput].
    by apply store_PutSecretValue_refused in Hput as ->.
Qed.

(** An update of AWSCURRENT from [key] to [tok] that the store accepts is
    the move [promoted], and [key] held the label. *)
Lemma store_promote_promoted arn tok key s σ out σ' :
  secrets σ !! arn = Some s →
  UpdateSecretVersionStage (promote_request (Some arn) (Some tok) key) σ = (inl out, σ') →
  key ∈ dom (holders AWSCURRENT (versions s)) ∧
  σ' = set_versions arn s (promoted tok key (versions s)) σ.
Proof.
  intros Hs (arn' & st & s' & vs1 & vs2 & ? & ? & Hs' & Hdet & Hatt & ->)
    %store_UpdateSecretVersionStage_done.
  simplify_eq/=.
  unfold detach in Hdet. case_decide as Hkey; simplify_eq.
  unfold attach in Hatt. repeat case_match; simplify_eq.
  split; [by apply elem_of_dom|done].
Qed.

(** What [promote] leaves behind: the store as it was, or the move. *)
Lemma promote_effect arn tok key s w :
  secrets (remote w) !! arn = Some s →
  ∃ o w', promote (Some arn) (Some tok) key w = (o, w') ∧
          (remote w' = remote w ∨
           o = Returned tt ∧ key ∈ dom (holders AWSCURRENT (versions s)) ∧
           remote w' = set_versions arn s (promoted tok key (versions s)) (remote w)).
Proof.
  intros Hs.
  destruct (UpdateSecretVersionStage (promote_request (Some arn) (Some tok) key) (remote w))
    as [[out|err] σ2] eqn:Hupd; do 2 eexists.
  - split; [by eapply promote_run_done|right].
    by destruct (store_promote_promoted arn tok key s _ out σ2 Hs Hupd) as [? ->].
  - split; [by eapply promote_run_refused|left].
    by apply store_UpdateSecretVersionStage_refused in Hupd as ->.
Qed.

(** A finishSecret invocation for a pending token changes nothing, or
    AWSCURRENT has moved to the token from the version the loop stopped
    at. *)
Lemma main_finish_effect order req tok arn s σ :
  Token req = Some tok → Arn req = Some arn → Step req = Some "finishSecret" →
  secrets σ !! arn = Some s → pending_for s tok →
  (main order req σ).2 = σ ∨
  ∃ key, key ∈ dom (holders AWSCURRENT (versions s)) ∧
         main order req σ =
         (Succeeded, set_versions arn s (promoted tok key (versions s)) σ).
Proof.
  intros Htok Harn Hstep Hs Hpend. rewrite (main_finish req tok arn s) by done.
  erewrite finishSecret_run by exact (store_describe arn σ s Hs). unfold bind.
  cbn [DescribeSecretOutput.VersionIdsToStages]. set (w := called _ _ _).
  assert (∃ key, match first_version order (describe_versions (versions s)) with
                 | Some key => found_version (Some arn) (Some tok) key
                 | None => ret (Some EmptyString)
                 end w = (Returned (Some key), w) ∨
                 match first_version order (describe_versions (versions s)) with
                 | Some key => found_version (Some arn) (Some tok) key
                 | None => ret (Some EmptyString)
                 end w = (Returned None, logged w (already_line tok arn)))
    as [key [-> | ->]]; [| |by left].
  { destruct (first_version _ _) as [key|]; [|exists EmptyString; by left].
    exists key. destruct (decide (key = tok)) as [->|Hne];
      [right; apply found_version_token|left; by apply found_version_other]. }
  destruct (promote_effect arn tok key s w Hs) as (o & w' & -> & [Heq|(-> & Hkey & Heq)]).
  - left. by destruct o.
  - right. exists key. by rewrite Heq.
Qed.

(** An invocation that is not for a pending token, or whose step is
    neither createSecret nor finishSecret, changes nothing but, possibly,
    the generator of the store. *)
Lemma main_effect order req σ :
  secrets (main order req σ).2 = secrets σ ∨
  ∃ arn tok s, Arn req = Some arn ∧ Token req = Some tok ∧
               secrets σ !! arn = Some s ∧ pending_for s tok ∧
               (Step req = Some "createSecret" ∨ Step req = Some "finishSecret").
Proof.
  destruct (main_cases order req σ) as [(err & _ & ->)|[[Hv ->]|(p & _ & ->)]];
    [by left| |by left].
  destruct (validated_pending _ _ _ Hv) as (arn & tok & s & ? & ? & ? & ?).
  destruct (decide (Step req = Some "createSecret")); [right; by eauto 10|].
  destruct (decide (Step req = Some "finishSecret")); [right; by eauto 10|].
  left. unfold dispatch, bind, setSecret, testSecret.
  destruct (Step req) as [step|]; [simpl|done].
  by repeat case_decide; simplify_eq.
Qed.

End moves.

(** * The measure *)

Section measure.
Implicit Types (σ : store) (s : secret) (v : version) (vs : gmap string version).

Lemma unsettled_bound v : unsettled v ≤ 2.
Proof. unfold unsettled. repeat case_match; lia. Qed.

Lemma remaining_secret_bound s : remaining_secret s ≤ 2.
Proof.
  unfold remaining_secret. destruct (select_version _ _ _); simpl;
    [apply unsettled_bound|lia].
Qed.

(** The work left on a consistent secret is that of its pending version. *)
Lemma remaining_secret_pending enabled vs tok v :
  one_holder vs → vs !! tok = Some v → AWSPENDING ∈ stages v →
  remaining_secret (Secret enabled vs) = unsettled v.
Proof.
  intros Hone Hv Hpend. unfold remaining_secret, select_version. simpl.
  rewrite (holder_unique AWSPENDING vs tok) by (done || apply elem_of_holders; eauto).
  simpl. by rewrite Hv.
Qed.

(** A move on one secret moves the measure of the store by the difference
    on that secret. *)
Lemma remaining_set_versions arn s vs σ :
  secrets σ !! arn = Some s →
  remaining (set_versions arn s vs σ) + remaining_secret s =
  remaining σ + remaining_secret (Secret (rotation_enabled s) vs).
Proof. intros Hs. by apply map_sum_update. Qed.

(** Storing a value on the version labelled AWSPENDING settles one unit,
    wherever AWSCURRENT is. *)
Lemma put_remaining enabled vs tok v val :
  one_holder vs → vs !! tok = Some v → AWSPENDING ∈ stages v → value v = None →
  remaining_secret (Secret enabled (put_version tok val [AWSPENDING] vs)) + 1 =
  remaining_secret (Secret enabled vs).
Proof.
  intros Hone Hv Hpend Hval.
  rewrite (remaining_secret_pending enabled vs tok v) by done.
  rewrite (remaining_secret_pending enabled _ tok (Version (Some val) (stages v))).
  - unfold unsettled. rewrite Hval. simpl. lia.
  - apply put_version_one_holder; [done|]. repeat constructor.
    apply held_elsewhere_holder; [done|]. apply elem_of_holders. eauto.
  - rewrite (put_version_stages tok _ AWSPENDING vs v) by done. apply lookup_insert_eq.
  - done.
Qed.

Lemma created_remaining tok s σ :
  one_holder (versions s) → pending_for s tok → versions s !! tok ≫= value = None →
  remaining_secret s = 2 ∧ remaining_secret (created_secret tok s σ) = 1.
Proof.
  intros Hone (_ & v & Hv & Hpend & Hcur) Hval. rewrite Hv in Hval. simpl in Hval.
  destruct s as [enabled vs]. simpl in *.
  pose proof (put_remaining enabled vs tok v (fresh_password σ) Hone Hv Hpend Hval).
  assert (remaining_secret (Secret enabled vs) = 2); [|unfold created_secret; simpl; lia].
  rewrite (remaining_secret_pending enabled vs tok v) by done.
  unfold unsettled. by rewrite Hval, decide_False.
Qed.

(** The token's version after AWSCURRENT has moved to it. *)
Lemma promoted_lookup tok key vs v :
  vs !! tok = Some v → AWSCURRENT ∉ stages v →
  promoted tok key vs !! tok = Some (Version (value v) (AWSCURRENT :: stages v)).
Proof.
  intros Hv Hcur. unfold promoted, add_stage, remove_stage.
  rewrite lookup_alter_eq. destruct (decide (key = tok)) as [->|Hne].
  - rewrite lookup_alter_eq, Hv. simpl.
    rewrite decide_False by (by intros (? & _)%list_elem_of_filter).
    do 3 f_equal. by apply filter_ne_id.
  - rewrite lookup_alter_ne, Hv by done. simpl. by rewrite decide_False.
Qed.

Lemma promoted_one_holder tok key vs :
  one_holder vs → key ∈ dom (holders AWSCURRENT vs) → one_holder (promoted tok key vs).
Proof.
  intros Hone Hkey. apply add_stage_one_holder; [by apply remove_stage_one_holder|].
  by apply held_elsewhere_after_remove.
Qed.

(** Moving AWSCURRENT to the version labelled AWSPENDING settles one
    unit. *)
Lemma promoted_remaining_label enabled vs tok key v :
  one_holder vs → vs !! tok = Some v → AWSPENDING ∈ stages v → AWSCURRENT ∉ stages v →
  key ∈ dom (holders AWSCURRENT vs) →
  remaining_secret (Secret enabled (promoted tok key vs)) + 1 =
  remaining_secret (Secret enabled vs).
Proof.
  intros Hone Hv Hpend Hcur Hkey.
  rewrite (remaining_secret_pending enabled vs tok v) by done.
  erewrite remaining_secret_pending;
    [|by apply promoted_one_holder|by apply promoted_lookup|by right].
  unfold unsettled. simpl. repeat case_decide; first [lia | exfalso; set_solver].
Qed.

Lemma promoted_remaining tok key s :
  one_holder (versions s) → pending_for s tok →
  key ∈ dom (holders AWSCURRENT (versions s)) →
  remaining_secret (Secret (rotation_enabled s) (promoted tok key (versions s))) + 1 =
  remaining_secret s.
Proof.
  intros Hone (_ & v & Hv & Hpend & Hcur) Hkey. destruct s as [enabled vs].
  by eapply promoted_remaining_label.
Qed.

(** Every move lowers the measure of a consistent store. *)
Lemma advance_decreases σ σ' :
  store_consistent σ → advance σ σ' → remaining σ' < remaining σ.
Proof.
  intros Hσ Hadv.
  destruct Hadv as [arn tok s σ0 Hs Hpend _ Hval|arn tok key s σ0 Hs Hpend Hkey];
    destruct (Hσ arn s Hs) as [Hone _].
  - destruct (created_remaining tok s σ0 Hone Hpend Hval) as [Hold Hnew].
    pose proof (remaining_set_versions arn s (versions (created_secret tok s σ0))
                  (reseeded σ0) Hs) as Hsum.
    unfold created. change (remaining (reseeded σ0)) with (remaining σ0) in Hsum.
    change (Secret _ _) with (created_secret tok s σ0) in Hsum. lia.
  - pose proof (promoted_remaining tok key s Hone Hpend Hkey).
    pose proof (remaining_set_versions arn s (promoted tok key (versions s)) σ0 Hs). lia.
Qed.

End measure.

(** * The program and the abstract machine *)

Section refinement.
Implicit Types (σ : store) (s : secret) (req : SecretsManagerEvent)
  (order : list string → list string).

(** An invocation changes no secret or makes one move, and then it
    succeeds. *)
Lemma main_advances order req σ :
  secrets (main order req σ).2 = secrets σ ∨
  (main order req σ).1 = Succeeded ∧ advance σ (main order req σ).2.
Proof.
  destruct (main_effect order req σ)
    as [?|(arn & tok & s & Harn & Htok & Hs & Hpend & [Hstep|Hstep])]; [by left|..].
  - destruct (main_create_effect order req tok arn s σ) as [?|(? & ? & ->)];
      [done..|by left|right].
    split; [done|by eapply advance_create].
  - destruct (main_finish_effect order req tok arn s σ) as [->|(key & ? & ->)];
      [done..|by left|right].
    split; [done|by eapply advance_promote].
Qed.

(** Every move of the abstract machine from a consistent store is made by
    an invocation. *)
Lemma advance_invocation σ σ' :
  store_consistent σ → advance σ σ' → ∃ order req, main order req σ = (Succeeded, σ').
Proof.
  intros Hσ Hadv.
  destruct Hadv as [arn tok s σ0 Hs Hpend Hread Hval|arn tok key s σ0 Hs Hpend Hkey];
    destruct (Hσ arn s Hs) as [Hone _].
  - exists id, (step_event arn tok "createSecret"). by apply (main_create_fresh _ tok arn s).
  - exists (first_visit key), (step_event arn tok "finishSecret").
    apply (main_finish_promotes _ _ tok arn _ s key); [done..|].
    by apply first_version_first_visit, (has_stages_holder AWSCURRENT).
Qed.

(** A move changes the secret it is made on. *)
Lemma advance_alters σ σ' :
  store_consistent σ → advance σ σ' → secrets σ' ≠ secrets σ.
Proof.
  intros Hσ Hadv Heq. apply advance_decreases in Hadv; [|done].
  unfold remaining in Hadv. rewrite Heq in Hadv. lia.
Qed.

Lemma changes_advance σ σ' : changes σ σ' ↔ store_consistent σ ∧ advance σ σ'.
Proof.
  split.
  - intros (Hσ & order & req & r & Hmain & Hne). split; [done|].
    destruct (main_advances order req σ) as [Heq|[_ Hadv]]; by rewrite Hmain in *.
  - intros [Hσ Hadv]. split; [done|].
    destruct (advance_invocation σ σ' Hσ Hadv) as (order & req & Hmain).
    exists order, req, Succeeded. split; [done|by apply advance_alters].
Qed.

Lemma changes_decreases σ σ' : changes σ σ' → remaining σ' < remaining σ.
Proof. intros [Hσ Hadv]%changes_advance. by apply advance_decreases. Qed.

Lemma changes_sn σ : sn changes σ.
Proof.
  apply (wf_projected lt remaining); [|apply lt_wf].
  intros σ2 σ1. apply changes_decreases.
Qed.

Lemma changes_nsteps n σ σ' : nsteps changes n σ σ' → n + remaining σ' ≤ remaining σ.
Proof.
  induction 1 as [|n σ1 σ2 σ3 Hstep%changes_decreases _ IH]; simpl; lia.
Qed.

Lemma remaining_bound σ : remaining σ ≤ 2 * size (secrets σ).
Proof. apply map_sum_bound, remaining_secret_bound. Qed.

(** A relation with a cycle of two is not strongly normalising. *)
Lemma cycle_not_sn {A} (R : relation A) x y : R x y → R y x → ¬ sn R x.
Proof.
  intros Hxy Hyx Hacc. revert y Hxy Hyx.
  induction Hacc as [x _ IH]. intros y Hxy Hyx. by apply (IH y Hxy x).
Qed.

(** The store [twice_pending] after a finishSecret invocation for "v2". *)
Lemma twice_pending_cycle :
  ∃ σ1, alters twice_pending σ1 ∧ alters σ1 twice_pending.
Proof.
  exists (main (first_visit "v1") (step_event "db-pwd" "v2" "finishSecret") twice_pending).2.
  split.
  - exists (first_visit "v1"), (step_event "db-pwd" "v2" "finishSecret"), Succeeded.
    split; by_compute.
  - exists (first_visit "v2"), (step_event "db-pwd" "v1" "finishSecret"), Succeeded.
    split; by_compute.
Qed.

End refinement.

(** * A promotion before the value is there *)

Section ordering.
Implicit Types (σ : store) (s : secret) (req : SecretsManagerEvent)
  (order : list string → list string).

(** No value can be read under AWSCURRENT once the label sits on a version
    without value. *)
Lemma promoted_unreadable arn tok cur s σ v :
  one_holder (versions s) → versions s !! tok = Some v → value v = None →
  AWSCURRENT ∉ stages v → cur ∈ dom (holders AWSCURRENT (versions s)) →
  (GetSecretValue (get_current_request (Some arn))
     (set_versions arn s (promoted tok cur (versions s)) σ)).1 =
  inr (ResourceNotFound "secret value not found").
Proof.
  intros Hone Hv Hval Hcur Hkey. unfold get_current_request. simpl.
  rewrite store_GetSecretValue_written. unfold select_version. simpl.
  unfold promoted. rewrite (moved_label_holder AWSCURRENT cur tok) by eauto. simpl.
  fold (promoted tok cur (versions s)).
  by rewrite (promoted_lookup tok cur (versions s) v), Hval.
Qed.

End ordering.

(** * Theorems *)

(** C16 (refinement): the program refines the abstract machine of a
    rotation.  An invocation, whatever its event, the iteration order and
    its outcome, either leaves every secret of the store as it was, or it
    succeeds and has made one move of [advance]: the first value of a
    pending version that had none, with a readable current value, or
    AWSCURRENT moved to a pending version from a version that held it. *)
Theorem invocation_refines_advance σ r σ' :
  invocation σ r σ' → secrets σ' = secrets σ ∨ r = Succeeded ∧ advance σ σ'.
Proof. intros [order req σ0]. apply main_advances. Qed.

(** C32 (equivalence): on a consistent store the state changes that
    invocations can make are exactly the moves of the abstract machine:
    every change is a move, and every move is made by some invocation (a
    createSecret event, or a finishSecret event under an iteration order
    that visits the holder of AWSCURRENT first) and changes the secret. *)
Theorem changes_are_moves σ σ' : changes σ σ' ↔ store_consistent σ ∧ advance σ σ'.
Proof. apply changes_advance. Qed.

(** C17 (termination): redelivery stabilises.  From any store there is no
    infinite sequence of invocations, each from a consistent store, that
    all change a secret: whatever the scheduler sends and however often,
    after finitely many invocations every further one leaves the secrets
    as they are.  The measure is the work left on the pending versions:
    [n] state-changing invocations lower it by at least [n], and it is at
    most two units for each secret, so a store of [k] secrets is changed
    at most [2 * k] times until the service starts another rotation. *)
Theorem rotation_terminates σ :
  sn changes σ ∧
  remaining σ ≤ 2 * size (secrets σ) ∧
  ∀ n σ', nsteps changes n σ σ' → n + remaining σ' ≤ remaining σ.
Proof.
  split; [apply changes_sn|]. split; [apply remaining_bound|].
  intros n σ'. apply changes_nsteps.
Qed.

(** Consistency of the store is needed for termination.  On the store
    [twice_pending], where two versions carry AWSPENDING, finishSecret
    invocations for the two tokens move AWSCURRENT back and forth for
    ever: the invocations that change a secret are not strongly
    normalising there. *)
Theorem termination_needs_consistency : ¬ sn alters twice_pending.
Proof. destruct twice_pending_cycle as (σ1 & ? & ?). by apply (cycle_not_sn alters _ σ1). Qed.

(** C29 (error): the program does not check that the version it promotes has
    a value.  A finishSecret invocation that is delivered for a pending
    token before createSecret has stored its value succeeds, under an
    iteration order that visits the holder of AWSCURRENT first, and moves
    the label, which is a move of the abstract machine; from then on no
    value can be read under AWSCURRENT, and
    every later invocation for the token, createSecret included, is
    rejected as already current, so the program cannot repair the secret.
    The order of the steps is left to the scheduler. *)
Theorem finish_before_create_strands order req tok arn σ s cur :
  Token req = Some tok → Arn req = Some arn → Step req = Some "finishSecret" →
  secrets σ !! arn = Some s → one_holder (versions s) → pending_for s tok →
  versions s !! tok ≫= value = None →
  cur ∈ dom (holders AWSCURRENT (versions s)) →
  first_version order (describe_versions (versions s)) = Some cur →
  ∃ σ', main order req σ = (Succeeded, σ') ∧ advance σ σ' ∧
        (∀ val, ¬ reads_current arn val σ') ∧
        ∀ order' step,
          main order' (step_event arn tok step) σ' =
          (Failed (Error (err_already_current tok arn)), σ').
Proof.
  intros Htok Harn Hstep Hs Hone Hpend Hval Hcur Hfirst.
  exists (set_versions arn s (promoted tok cur (versions s)) σ).
  split; [by apply (main_finish_promotes order req tok arn σ s cur)|].
  split; [by apply advance_promote|].
  destruct Hpend as (Hen & v & Hv & _ & Hnot). rewrite Hv in Hval. simpl in Hval.
  split.
  - intros val. unfold reads_current.
    by rewrite (promoted_unreadable arn tok cur s σ v).
  - intros order' step.
    eapply (main_already_current order' _ tok arn);
      [done..|apply set_versions_lookup|done|by apply promoted_lookup|by left].
Qed.

(** * Instances *)

Lemma scenario_changes :
  changes scenario_store scenario_created ∧ changes scenario_created scenario_finished.
Proof.
  split; (split; [by_compute|]).
  - exists id, (scenario_event "createSecret"), Succeeded. split; by_compute.
  - exists (first_visit "v1"), (scenario_event "finishSecret"), Succeeded. split; by_compute.
Qed.

Lemma invocation_refines_advance_witness :
  secrets (main id (scenario_event "createSecret") scenario_store).2 =
    secrets scenario_store ∨
  (main id (scenario_event "createSecret") scenario_store).1 = Succeeded ∧
  advance scenario_store (main id (scenario_event "createSecret") scenario_store).2.
Proof.
  exact (invocation_refines_advance _ _ _
           (invoke id (scenario_event "createSecret") scenario_store)).
Defined.

(** The two invocations of the scenario settle the two units of work. *)
Lemma scenario_settled :
  2 + remaining scenario_finished ≤ remaining scenario_store.
Proof.
  apply (changes_nsteps 2 scenario_store scenario_finished).
  destruct scenario_changes as [Hcreate Hfinish].
  eapply nsteps_l; [exact Hcreate|]. by apply nsteps_once.
Qed.

Lemma finish_before_create_strands_witness :
  ∃ σ', main (first_visit "v1") (scenario_event "finishSecret") scenario_store =
          (Succeeded, σ') ∧
        advance scenario_store σ' ∧
        (∀ val, ¬ reads_current "db-pwd" val σ') ∧
        ∀ order' step,
          main order' (step_event "db-pwd" "v2" step) σ' =
          (Failed (Error (err_already_current "v2" "db-pwd")), σ').
Proof.
  apply (finish_before_create_strands _ _ "v2" "db-pwd" scenario_store
           (Secret (Some true) scenario_versions) "v1");
    first [done | by_compute | by apply (pending_for_intro _ _ (Version None [AWSPENDING]))].
Defined.
