(* ===== verification/Replay.v ===== *)
(** * An invocation as a sequence of calls

    The handlers are functions of the state of the service: they run from
    their first call to their last in one piece.  To let invocations take
    turns at the service, call by call, an invocation is run here against
    the answers it has received so far ([replay_api], a client that reads
    its answers from a script): the run either ends, or it stops at a call
    the script has no answer for, and that call is what the invocation
    does next.

    That this is the same program is a theorem, not a second model: the
    handlers are the definitions of the other files, instantiated at the
    replaying client, and [coupled] relates a run against a service with
    the run against a script of that service's answers.  [HandleRequest]
    is coupled with itself, so an invocation fed the answers of the
    service call by call does what the invocation did in one piece.  It
    is also [steady]: the calls of a replayed run do not depend on the
    answers it has not read, so running it again with one answer more
    continues the same run. *)

From stdpp Require Import base tactics option list strings gmap.
From S2P Require Import Prelude GoRuntime SecretsManager Store Validator.
From S2P Require Import CreateSecret FinishSecret Handler.

Open Scope prog_scope.

(** * Definitions *)

(** What the service answers to a call: the result of the operation. *)
Inductive answer : Type :=
| DescribeSecretAnswer (r : DescribeSecretOutput.t + error)
| GetSecretValueAnswer (r : GetSecretValueOutput.t + error)
| GetRandomPasswordAnswer (r : GetRandomPasswordOutput.t + error)
| PutSecretValueAnswer (r : PutSecretValueOutput.t + error)
| UpdateSecretVersionStageAnswer (r : UpdateSecretVersionStageOutput.t + error).

#[export] Instance answer_eq_dec : EqDecision answer.
Proof. solve_decision. Defined.

Definition read_describe (a : answer) : option (DescribeSecretOutput.t + error) :=
  match a with DescribeSecretAnswer r => Some r | _ => None end.
Definition read_get (a : answer) : option (GetSecretValueOutput.t + error) :=
  match a with GetSecretValueAnswer r => Some r | _ => None end.
Definition read_random (a : answer) : option (GetRandomPasswordOutput.t + error) :=
  match a with GetRandomPasswordAnswer r => Some r | _ => None end.
Definition read_put (a : answer) : option (PutSecretValueOutput.t + error) :=
  match a with PutSecretValueAnswer r => Some r | _ => None end.
Definition read_update (a : answer)
    : option (UpdateSecretVersionStageOutput.t + error) :=
  match a with UpdateSecretVersionStageAnswer r => Some r | _ => None end.

Section service.
Context `{SecretsManagerAPI Σ}.

(** The service performs a recorded call. *)
Definition respond (c : api_call) (σ : Σ) : answer * Σ :=
  match c with
  | DescribeSecretCall i => prod_map DescribeSecretAnswer id (DescribeSecret i σ)
  | GetSecretValueCall i => prod_map GetSecretValueAnswer id (GetSecretValue i σ)
  | GetRandomPasswordCall i =>
      prod_map GetRandomPasswordAnswer id (GetRandomPassword i σ)
  | PutSecretValueCall i => prod_map PutSecretValueAnswer id (PutSecretValue i σ)
  | UpdateSecretVersionStageCall i =>
      prod_map UpdateSecretVersionStageAnswer id (UpdateSecretVersionStage i σ)
  end.

(** The state of the service after a sequence of calls, and its answers. *)
Fixpoint exec (σ : Σ) (cs : list api_call) : Σ :=
  match cs with
  | [] => σ
  | c :: cs' => exec (respond c σ).2 cs'
  end.

Fixpoint answers (σ : Σ) (cs : list api_call) : list answer :=
  match cs with
  | [] => []
  | c :: cs' => (respond c σ).1 :: answers (respond c σ).2 cs'
  end.

(** The calls of an invocation, in order. *)
Definition calls_of (order : list string → list string) (req : SecretsManagerEvent)
    (σ : Σ) : list api_call :=
  calls (HandleRequest order req (boot σ)).2.

End service.

(** The replaying client: the answers that are still to be read, and the
    call that found none, once there is one. *)
Record replay : Type := Replay {
  script : list answer;
  blocked : option api_call;
}.

#[export] Instance replay_eq_dec : EqDecision replay.
Proof. solve_decision. Defined.

(** What a call returns when it has no answer to read. *)
Definition starved : error := foreignError "no answer yet".

(** An operation of the replaying client.  It reads the next answer of the
    script; the first call that finds the script empty is recorded, and
    from then on the client is stuck: the rest of the run is of no
    account.  An answer to another operation reads as an error. *)
Definition replay_op {I O} (event : I → api_call) (read : answer → option (O + error))
    (i : I) (ρ : replay) : (O + error) * replay :=
  match blocked ρ, script ρ with
  | Some _, _ => (inr starved, ρ)
  | None, [] => (inr starved, Replay [] (Some (event i)))
  | None, a :: rest => (default (inr starved) (read a), Replay rest None)
  end.

#[export] Instance replay_api : SecretsManagerAPI replay := {|
  DescribeSecret := replay_op DescribeSecretCall read_describe;
  GetSecretValue := replay_op GetSecretValueCall read_get;
  GetRandomPassword := replay_op GetRandomPasswordCall read_random;
  PutSecretValue := replay_op PutSecretValueCall read_put;
  UpdateSecretVersionStage := replay_op UpdateSecretVersionStageCall read_update;
|}.

(** The replaying client after the calls [cs], of which it had answers
    [rs] to read: stuck at the first call without answer, or left with the
    answers that were not read. *)
Definition expected (cs : list api_call) (rs : list answer) : replay :=
  match cs !! length rs with
  | Some c => Replay [] (Some c)
  | None => Replay (drop (length cs) rs) None
  end.

(** What the calls [cs] cost a replaying client that went from [ρ] to
    [ρ']: nothing when it was stuck already, one answer each otherwise,
    and when it got stuck, the call it is stuck at is the first of [cs]
    without answer. *)
Definition spent (ρ : replay) (cs : list api_call) (ρ' : replay) : Prop :=
  match blocked ρ, blocked ρ' with
  | Some _, _ => ρ' = ρ
  | None, None => length (script ρ') + length cs = length (script ρ)
  | None, Some c => cs !! length (script ρ) = Some c
  end.

(** One of two lists is a prefix of the other. *)
Definition comparable {A} (l1 l2 : list A) : Prop :=
  l1 `prefix_of` l2 ∨ l2 `prefix_of` l1.

Section coupled.
Context `{SecretsManagerAPI Σ}.

(** The replaying run accounts for its answers. *)
Definition metered {A} (h : sm replay A) : Prop :=
  ∀ w, ∃ cs, calls (h w).2 = calls w ++ cs ∧ spent (remote w) cs (remote (h w).2).

(** [coupled h1 h2]: [h2] is [h1] replayed.  Whatever calls [h1] makes to
    the service, [h2], run against a script that agrees with the answers
    of the service as far as it goes, ends where [expected] says, and
    returns what [h1] returned when the script answered every call. *)
Definition coupled {A} (h1 : sm Σ A) (h2 : sm replay A) : Prop :=
  metered h2 ∧
  ∀ w1, ∃ cs,
    calls (h1 w1).2 = calls w1 ++ cs ∧ remote (h1 w1).2 = exec (remote w1) cs ∧
    ∀ w2 rs, remote w2 = Replay rs None → comparable (answers (remote w1) cs) rs →
             remote (h2 w2).2 = expected cs rs ∧
             (length cs ≤ length rs → (h2 w2).1 = (h1 w1).1).

End coupled.

(** [steady h]: a replayed run does not depend on the answers it has not
    read.  Given more answers to read, a run that ended ends in the same
    way and leaves those answers unread, and a run that got stuck makes
    the same calls up to the call it was stuck at. *)
Definition steady {A} (h : sm replay A) : Prop :=
  metered h ∧
  ∀ w w' extra,
    blocked (remote w) = None →
    remote w' = Replay (script (remote w) ++ extra) None → calls w' = calls w →
    match blocked (remote (h w).2) with
    | None =>
        (h w').1 = (h w).1 ∧ calls (h w').2 = calls (h w).2 ∧
        remote (h w').2 = Replay (script (remote (h w).2) ++ extra) None
    | Some _ =>
        take (S (length (calls w) + length (script (remote w)))) (calls (h w').2) =
        take (S (length (calls w) + length (script (remote w)))) (calls (h w).2)
    end.

(** * Lists of calls and answers *)

Section lists.
Context {A : Type}.
Implicit Types (l k rs : list A).

Lemma comparable_nil l : comparable [] l.
Proof. left. apply prefix_nil. Qed.

Lemma comparable_app_l l k rs : comparable (l ++ k) rs → comparable l rs.
Proof.
  intros [[k' ->]|[k' Hk]].
  - left. rewrite <-app_assoc. by apply prefix_app_r.
  - apply app_eq_inv in Hk as [(k1 & -> & _)|(k1 & -> & _)].
    + right. by apply prefix_app_r.
    + left. by apply prefix_app_r.
Qed.

Lemma comparable_app_drop l k rs :
  comparable (l ++ k) rs → length l ≤ length rs → comparable k (drop (length l) rs).
Proof.
  intros [[k' ->]|[k' Hk]] Hlen.
  - left. rewrite <-app_assoc, drop_app_length. by apply prefix_app_r.
  - apply app_eq_inv in Hk as [(k1 & -> & ->)|(k1 & -> & ->)].
    + rewrite length_app in Hlen. assert (k1 = []) as -> by (apply length_zero_iff_nil; lia).
      rewrite app_nil_r, drop_all. right. apply prefix_nil.
    + right. rewrite drop_app_length. by apply prefix_app_r.
Qed.

End lists.

Section service_facts.
Context `{SecretsManagerAPI Σ}.
Implicit Types (σ : Σ) (cs : list api_call).

Lemma exec_app σ cs1 cs2 : exec σ (cs1 ++ cs2) = exec (exec σ cs1) cs2.
Proof. revert σ. induction cs1 as [|c cs1 IH]; intros σ; simpl; [done|apply IH]. Qed.

Lemma answers_app σ cs1 cs2 :
  answers σ (cs1 ++ cs2) = answers σ cs1 ++ answers (exec σ cs1) cs2.
Proof.
  revert σ. induction cs1 as [|c cs1 IH]; intros σ; simpl; [done|by rewrite IH].
Qed.

Lemma length_answers σ cs : length (answers σ cs) = length cs.
Proof. revert σ. induction cs as [|c cs IH]; intros σ; simpl; [done|by rewrite IH]. Qed.

Lemma answers_take σ cs n : take n (answers σ cs) = answers σ (take n cs).
Proof.
  revert σ n. induction cs as [|c cs IH]; intros σ [|n]; simpl; [done..|by rewrite IH].
Qed.

End service_facts.

(** * The replaying client *)

Section replaying.
Implicit Types (ρ : replay) (cs : list api_call) (rs : list answer).

Lemma expected_nil rs : expected [] rs = Replay rs None.
Proof. done. Qed.

(** The calls [cs1] were all answered: what follows them decides. *)
Lemma expected_app_answered cs1 cs2 rs :
  length cs1 ≤ length rs →
  expected (cs1 ++ cs2) rs = expected cs2 (drop (length cs1) rs).
Proof.
  intros Hlen. unfold expected.
  by rewrite lookup_app_r, length_drop, length_app, drop_drop by done.
Qed.

(** One of the calls [cs1] was not answered: what follows is of no
    account. *)
Lemma expected_app_stuck cs1 cs2 rs :
  length rs < length cs1 → expected (cs1 ++ cs2) rs = expected cs1 rs.
Proof.
  intros Hlen. unfold expected. rewrite lookup_app_l by done.
  by destruct (lookup_lt_is_Some_2 cs1 (length rs) Hlen) as [c ->].
Qed.

Lemma expected_stuck cs rs :
  length rs < length cs → is_Some (blocked (expected cs rs)).
Proof.
  intros Hlen. unfold expected.
  destruct (lookup_lt_is_Some_2 cs (length rs) Hlen) as [c ->]. by eexists.
Qed.

Lemma spent_nil ρ : spent ρ [] ρ.
Proof. unfold spent. destruct (blocked ρ); simpl; [done|lia]. Qed.

Lemma spent_app ρ cs1 ρ1 cs2 ρ2 :
  spent ρ cs1 ρ1 → spent ρ1 cs2 ρ2 → spent ρ (cs1 ++ cs2) ρ2.
Proof.
  unfold spent. rewrite length_app.
  destruct (blocked ρ) eqn:Hρ; [intros ->; rewrite Hρ; by intros ->|].
  destruct (blocked ρ1) eqn:Hρ1.
  { intros Hc ->. rewrite Hρ1. by apply lookup_app_l_Some. }
  destruct (blocked ρ2); [|lia]. intros Hlen Hc.
  rewrite lookup_app_r by lia. by replace (length (script ρ) - length cs1)
    with (length (script ρ1)) by lia.
Qed.

Lemma replay_op_spent {I O} (event : I → api_call) read (i : I) ρ :
  spent ρ [event i] (replay_op (O:=O) event read i ρ).2.
Proof.
  unfold spent, replay_op. destruct (blocked ρ) eqn:Hρ; [done|].
  destruct ρ as [[|a rest] b]; simpl in *; [done|lia].
Qed.

End replaying.

(** * The rules of the coupling *)

Section rules.
Context `{SecretsManagerAPI Σ}.

Lemma metered_quiet {A} (h : sm replay A) : preserves quiet h → metered h.
Proof.
  intros Hq w. exists []. destruct (Hq w) as [-> ->].
  split; [by rewrite app_nil_r|apply spent_nil].
Qed.

Lemma metered_bind {A B} (c : sm replay A) (k : A → sm replay B) :
  metered c → (∀ a, metered (k a)) → metered (bind c k).
Proof.
  intros Hc Hk w. destruct (Hc w) as (cs1 & Hcs1 & Hs1). unfold bind.
  destruct (c w) as [[a|p] w']; simpl in *; [|by exists cs1].
  destruct (Hk a w') as (cs2 & Hcs2 & Hs2). exists (cs1 ++ cs2).
  split; [by rewrite Hcs2, Hcs1, app_assoc|by eapply spent_app].
Qed.

(** A step that calls nothing: both runs return the same. *)
Lemma coupled_quiet {A} (h1 : sm Σ A) (h2 : sm replay A) :
  preserves quiet h1 → preserves quiet h2 →
  (∀ (w1 : world Σ api_call) (w2 : world replay api_call), (h2 w2).1 = (h1 w1).1) →
  coupled h1 h2.
Proof.
  intros H1 H2 Hr. split; [by apply metered_quiet|].
  intros w1. exists []. destruct (H1 w1) as [-> ->].
  split; [by rewrite app_nil_r|split; [done|]].
  intros w2 rs Hw2 _. destruct (H2 w2) as [-> _]. by rewrite Hw2.
Qed.

Lemma coupled_ret {A} (a : A) : coupled (ret a) (ret a).
Proof. by apply coupled_quiet. Qed.

Lemma coupled_panic {A} p : coupled (panic (A:=A) p) (panic p).
Proof. by apply coupled_quiet. Qed.

Lemma coupled_deref {A} (p : option A) : coupled (deref p) (deref p).
Proof. destruct p; [apply coupled_ret|apply coupled_panic]. Qed.

Lemma coupled_log format args : coupled (log_Printf format args) (log_Printf format args).
Proof. apply coupled_quiet; [apply log_Printf_quiet..|done]. Qed.

(** The rule of sequence. *)
Lemma coupled_bind {A B} (c1 : sm Σ A) (c2 : sm replay A)
    (k1 : A → sm Σ B) (k2 : A → sm replay B) :
  coupled c1 c2 → (∀ a, coupled (k1 a) (k2 a)) → coupled (bind c1 k1) (bind c2 k2).
Proof.
  intros [Hm Hc] Hk. split; [apply metered_bind; [done|apply Hk]|].
  intros w1. destruct (Hc w1) as (cs1 & Hcs1 & Hσ1 & Hrun1). unfold bind.
  destruct (c1 w1) as [[a|p] w1'] eqn:Hc1; simpl in *.
  - destruct (Hk a) as [_ Hka]. destruct (Hka w1') as (cs2 & Hcs2 & Hσ2 & Hrun2).
    exists (cs1 ++ cs2). rewrite Hcs2, Hcs1, Hσ2, Hσ1, app_assoc, exec_app.
    split; [done|split; [done|]]. intros w2 rs Hw2 Hcmp. rewrite answers_app in Hcmp.
    destruct (Hrun1 w2 rs Hw2 (comparable_app_l _ _ _ Hcmp)) as [Hρ Hres].
    destruct (decide (length cs1 ≤ length rs)) as [Hlen|Hlen].
    + rewrite expected_app_answered, length_app by done.
      specialize (Hres Hlen). destruct (c2 w2) as [r w2']. simpl in *. subst r.
      destruct (Hrun2 w2' (drop (length cs1) rs)) as [Hρ2 Hres2].
      * rewrite Hρ. unfold expected. by rewrite lookup_ge_None_2.
      * rewrite Hσ1, <-(length_answers (remote w1) cs1).
        apply comparable_app_drop; [done|by rewrite length_answers].
      * split; [done|]. intros ?. apply Hres2. rewrite length_drop. lia.
    + rewrite expected_app_stuck, length_app by lia. split; [|lia].
      destruct (expected_stuck cs1 rs) as [c Hc2]; [lia|].
      destruct (c2 w2) as [[a2|p2] w2']; simpl in *; [|done].
      destruct (Hk a2) as [Hm2 _]. destruct (Hm2 w2') as (cs & _ & Hs).
      unfold spent in Hs. rewrite Hρ, Hc2 in Hs. by rewrite Hs.
  - exists cs1. split; [done|split; [done|]]. intros w2 rs Hw2 Hcmp.
    destruct (Hrun1 w2 rs Hw2 Hcmp) as [Hρ Hres].
    destruct (c2 w2) as [[a2|p2] w2'] eqn:Hc2; simpl in *; [|split; [done|by intros [= ->]%Hres]].
    split; [|by intros ?%Hres].
    destruct (decide (length cs1 ≤ length rs)) as [Hlen|Hlen]; [by specialize (Hres Hlen)|].
    destruct (expected_stuck cs1 rs) as [c Hb]; [lia|].
    destruct (Hk a2) as [Hm2 _]. destruct (Hm2 w2') as (cs & _ & Hs).
    unfold spent in Hs. rewrite Hρ, Hb in Hs. by rewrite Hs.
Qed.

(** A call: the service performs it, the replaying client reads its
    answer. *)
Lemma coupled_call {I O} (op : I → Σ → (O + error) * Σ) (event : I → api_call)
    (read : answer → option (O + error)) (wrap : O + error → answer) (i : I) :
  (∀ σ, respond (event i) σ = prod_map wrap id (op i σ)) →
  (∀ r, read (wrap r) = Some r) →
  coupled (call op event i) (call (replay_op event read) event i).
Proof.
  intros Hop Hread. split.
  { intros w. exists [event i]. split; [done|apply replay_op_spent]. }
  intros w1. exists [event i]. simpl. rewrite Hop. split; [done|split; [done|]].
  intros w2 rs -> Hcmp. unfold replay_op, expected. simpl.
  destruct rs as [|a rs]; simpl; [split; [done|lia]|].
  rewrite drop_0. split; [done|intros _].
  assert (a = wrap (op i (remote w1)).1) as ->; [|by rewrite Hread].
  destruct Hcmp as [Hcmp|Hcmp]; apply prefix_cons_inv_1 in Hcmp;
    by destruct (op i (remote w1)).
Qed.

Lemma coupled_DescribeSecret i : coupled (svc_DescribeSecret i) (svc_DescribeSecret i).
Proof. by apply (coupled_call _ _ _ DescribeSecretAnswer). Qed.
Lemma coupled_GetSecretValue i : coupled (svc_GetSecretValue i) (svc_GetSecretValue i).
Proof. by apply (coupled_call _ _ _ GetSecretValueAnswer). Qed.
Lemma coupled_GetRandomPassword i :
  coupled (svc_GetRandomPassword i) (svc_GetRandomPassword i).
Proof. by apply (coupled_call _ _ _ GetRandomPasswordAnswer). Qed.
Lemma coupled_PutSecretValue i : coupled (svc_PutSecretValue i) (svc_PutSecretValue i).
Proof. by apply (coupled_call _ _ _ PutSecretValueAnswer). Qed.
Lemma coupled_UpdateSecretVersionStage i :
  coupled (svc_UpdateSecretVersionStage i) (svc_UpdateSecretVersionStage i).
Proof. by apply (coupled_call _ _ _ UpdateSecretVersionStageAnswer). Qed.

End rules.

(** The database [coupled] holds the coupling of each primitive and, below,
    of each handler with itself. *)
Create HintDb coupled discriminated.
#[export] Hint Resolve coupled_ret coupled_panic coupled_deref coupled_log
  coupled_DescribeSecret coupled_GetSecretValue coupled_GetRandomPassword
  coupled_PutSecretValue coupled_UpdateSecretVersionStage : coupled.

(** Prove that a program built from binds, matches and conditionals is
    coupled with itself. *)
Ltac solve_coupled :=
  repeat first
    [ progress intros
    | progress cbv zeta
    | solve [eauto with coupled]
    | apply coupled_bind
    | match goal with
      | |- coupled (match ?x with _ => _ end) _ => destruct x
      | |- coupled (if ?b then _ else _) _ => destruct b
      end ].

(** * The rules of steadiness *)

Section steady_rules.
Implicit Types (w : world replay api_call).

(** A step that calls nothing and returns the same in every world. *)
Lemma steady_pure {A} (h : sm replay A) :
  preserves quiet h → (∀ w w', (h w').1 = (h w).1) → steady h.
Proof.
  intros Hq Hr. split; [by apply metered_quiet|]. intros w w' extra Hb Hw' Hcalls.
  destruct (Hq w) as [Hrem Hc]. destruct (Hq w') as [Hrem' Hc'].
  by rewrite Hrem, Hb, Hc, Hc', Hrem'.
Qed.

Lemma steady_ret {A} (a : A) : steady (ret a).
Proof. by apply steady_pure. Qed.

Lemma steady_panic {A} p : steady (panic (A:=A) p).
Proof. by apply steady_pure. Qed.

Lemma steady_deref {A} (p : option A) : steady (deref p).
Proof. destruct p; [apply steady_ret|apply steady_panic]. Qed.

Lemma steady_log format args : steady (log_Printf format args).
Proof. apply steady_pure; [apply log_Printf_quiet|done]. Qed.

(** A call reads the next answer, which is the same, or finds none. *)
Lemma steady_call {I O} (event : I → api_call) (read : answer → option (O + error)) i :
  steady (call (replay_op event read) event i).
Proof.
  split. { intros w. exists [event i]. split; [done|apply replay_op_spent]. }
  intros w w' extra Hb Hw' Hcalls. simpl. unfold replay_op. rewrite Hw', Hb, Hcalls. simpl.
  destruct (script (remote w)) as [|a rest]; simpl; [by destruct extra|done].
Qed.

(** What follows a step appends to the trace, and leaves a stuck client
    as it is. *)
Lemma metered_continue {A B} (k : A → sm replay B) (r : outcome panic_value A) w :
  (∀ a, metered (k a)) →
  (∃ more, calls (match r with
                  | Returned a => k a w
                  | Panicked p => (Panicked p, w)
                  end).2 = calls w ++ more) ∧
  (is_Some (blocked (remote w)) →
   remote (match r with
           | Returned a => k a w
           | Panicked p => (Panicked p, w)
           end).2 = remote w).
Proof.
  intros Hk. destruct r as [a|p]; simpl; [|split; [exists []; by rewrite app_nil_r|done]].
  destruct (Hk a w) as (cs & Hcs & Hs). split; [by exists cs|].
  intros [b Hb]. unfold spent in Hs. by rewrite Hb in Hs.
Qed.

(** The rule of sequence. *)
Lemma steady_bind {A B} (c : sm replay A) (k : A → sm replay B) :
  steady c → (∀ a, steady (k a)) → steady (bind c k).
Proof.
  intros [Hm Hc] Hk. split; [apply metered_bind; [done|apply Hk]|].
  intros w w' extra Hb Hw' Hcalls. specialize (Hc w w' extra Hb Hw' Hcalls).
  destruct (Hm w) as (cs & Hcs & Hs). unfold spent in Hs. rewrite Hb in Hs. unfold bind.
  destruct (c w) as [r w1], (c w') as [r' w1']. simpl in *.
  destruct (blocked (remote w1)) as [b|] eqn:Hb1.
  - apply lookup_lt_Some in Hs.
    destruct (metered_continue k r w1) as [[more Hmore] Hrem]; [apply Hk|].
    destruct (metered_continue k r' w1') as [[more' Hmore'] _]; [apply Hk|].
    rewrite Hrem, Hb1, Hmore, Hmore' by eauto.
    apply (f_equal length) in Hc as Hlen. rewrite !length_take, Hcs, length_app in Hlen.
    rewrite !take_app_le; [done|rewrite Hcs, length_app; lia|lia].
  - destruct Hc as (-> & Hc1 & Hr1). destruct r as [a|p]; simpl; [|by rewrite Hb1].
    destruct (Hk a) as [_ Hka]. specialize (Hka w1 w1' extra Hb1 Hr1 Hc1).
    replace (length (calls w1) + length (script (remote w1)))
      with (length (calls w) + length (script (remote w))) in Hka; [done|].
    rewrite Hcs, length_app. lia.
Qed.

Lemma steady_DescribeSecret i : steady (svc_DescribeSecret i).
Proof. apply steady_call. Qed.
Lemma steady_GetSecretValue i : steady (svc_GetSecretValue i).
Proof. apply steady_call. Qed.
Lemma steady_GetRandomPassword i : steady (svc_GetRandomPassword i).
Proof. apply steady_call. Qed.
Lemma steady_PutSecretValue i : steady (svc_PutSecretValue i).
Proof. apply steady_call. Qed.
Lemma steady_UpdateSecretVersionStage i : steady (svc_UpdateSecretVersionStage i).
Proof. apply steady_call. Qed.

End steady_rules.

Create HintDb steady discriminated.
#[export] Hint Resolve steady_ret steady_panic steady_deref steady_log
  steady_DescribeSecret steady_GetSecretValue steady_GetRandomPassword
  steady_PutSecretValue steady_UpdateSecretVersionStage : steady.

(** Prove that a program built from binds, matches and conditionals is
    steady. *)
Ltac solve_steady :=
  repeat first
    [ progress intros
    | progress cbv zeta
    | solve [eauto with steady]
    | apply steady_bind
    | match goal with
      | |- steady (match ?x with _ => _ end) => destruct x
      | |- steady (if ?b then _ else _) => destruct b
      end ].

(** * The handlers, replayed *)

Section handlers.
Context `{SecretsManagerAPI Σ}.
Implicit Types (req : SecretsManagerEvent) (Arn Token : option string)
  (order : list string → list string).

Lemma stage_loop_coupled req stages pending :
  coupled (stage_loop (Σ:=Σ) req stages pending) (stage_loop req stages pending).
Proof. revert pending. induction stages as [|v rest IH]; simpl; solve_coupled. Qed.

Lemma check_staging_coupled req desc :
  coupled (check_staging (Σ:=Σ) req desc) (check_staging req desc).
Proof. pose proof (stage_loop_coupled req). unfold check_staging. solve_coupled. Qed.

Lemma validate_coupled req : coupled (validate (Σ:=Σ) req) (validate req).
Proof. pose proof (check_staging_coupled req). unfold validate. solve_coupled. Qed.

Lemma generate_and_put_coupled Arn Token :
  coupled (generate_and_put (Σ:=Σ) Arn Token) (generate_and_put Arn Token).
Proof. unfold generate_and_put. solve_coupled. Qed.

Lemma createSecret_coupled Arn Token :
  coupled (createSecret (Σ:=Σ) Arn Token) (createSecret Arn Token).
Proof.
  pose proof (generate_and_put_coupled Arn Token). unfold createSecret. solve_coupled.
Qed.

Lemma found_version_coupled Arn Token key :
  coupled (found_version (Σ:=Σ) Arn Token key) (found_version Arn Token key).
Proof. unfold found_version. solve_coupled. Qed.

Lemma scan_versions_coupled Arn Token m keys :
  coupled (scan_versions (Σ:=Σ) Arn Token m keys) (scan_versions Arn Token m keys).
Proof.
  pose proof (found_version_coupled Arn Token).
  induction keys as [|key rest IH]; simpl; solve_coupled.
Qed.

Lemma promote_coupled Arn Token cv :
  coupled (promote (Σ:=Σ) Arn Token cv) (promote Arn Token cv).
Proof. unfold promote. solve_coupled. Qed.

Lemma finishSecret_coupled order Arn Token :
  coupled (finishSecret (Σ:=Σ) order Arn Token) (finishSecret order Arn Token).
Proof.
  pose proof (scan_versions_coupled Arn Token). pose proof (promote_coupled Arn Token).
  unfold finishSecret. solve_coupled.
Qed.

Lemma HandleRequest_coupled order req :
  coupled (HandleRequest (Σ:=Σ) order req) (HandleRequest order req).
Proof.
  pose proof (validate_coupled req).
  pose proof (createSecret_coupled (Arn req) (Token req)).
  pose proof (finishSecret_coupled order (Arn req) (Token req)).
  unfold HandleRequest, dispatch, setSecret, testSecret. solve_coupled.
Qed.

End handlers.

#[export] Hint Resolve HandleRequest_coupled : coupled.

(** * The handlers are steady *)

Section steady_handlers.
Implicit Types (req : SecretsManagerEvent) (Arn Token : option string)
  (order : list string → list string).

Lemma stage_loop_steady req stages pending : steady (stage_loop req stages pending).
Proof. revert pending. induction stages as [|v rest IH]; simpl; solve_steady. Qed.

Lemma check_staging_steady req desc : steady (check_staging req desc).
Proof. pose proof (stage_loop_steady req). unfold check_staging. solve_steady. Qed.

Lemma validate_steady req : steady (validate req).
Proof. pose proof (check_staging_steady req). unfold validate. solve_steady. Qed.

Lemma generate_and_put_steady Arn Token : steady (generate_and_put Arn Token).
Proof. unfold generate_and_put. solve_steady. Qed.

Lemma createSecret_steady Arn Token : steady (createSecret Arn Token).
Proof.
  pose proof (generate_and_put_steady Arn Token). unfold createSecret. solve_steady.
Qed.

Lemma found_version_steady Arn Token key : steady (found_version Arn Token key).
Proof. unfold found_version. solve_steady. Qed.

Lemma scan_versions_steady Arn Token m keys : steady (scan_versions Arn Token m keys).
Proof.
  pose proof (found_version_steady Arn Token).
  induction keys as [|key rest IH]; simpl; solve_steady.
Qed.

Lemma promote_steady Arn Token cv : steady (promote Arn Token cv).
Proof. unfold promote. solve_steady. Qed.

Lemma finishSecret_steady order Arn Token : steady (finishSecret order Arn Token).
Proof.
  pose proof (scan_versions_steady Arn Token). pose proof (promote_steady Arn Token).
  unfold finishSecret. solve_steady.
Qed.

Lemma HandleRequest_steady order req : steady (HandleRequest order req).
Proof.
  pose proof (validate_steady req).
  pose proof (createSecret_steady (Arn req) (Token req)).
  pose proof (finishSecret_steady order (Arn req) (Token req)).
  unfold HandleRequest, dispatch, setSecret, testSecret. solve_steady.
Qed.

End steady_handlers.

(** * An invocation and its replay *)

Section invocation.
Context `{SecretsManagerAPI Σ}.
Implicit Types (σ : Σ) (req : SecretsManagerEvent) (order : list string → list string)
  (rs : list answer).

(** What the runtime answers for an outcome of the handler. *)
Lemma main_run `{SecretsManagerAPI Σ'} order req (σ : Σ') :
  main order req σ =
  (match (HandleRequest order req (boot σ)).1 with
   | Returned None => Succeeded
   | Returned (Some err) => Failed (Error err)
   | Panicked p => Failed (panic_message p)
   end, remote (HandleRequest order req (boot σ)).2).
Proof. unfold main. by destruct (HandleRequest order req (boot σ)) as [[[err|]|p] w]. Qed.

(** The service after an invocation is the service after its calls. *)
Lemma main_exec order req σ : (main order req σ).2 = exec σ (calls_of order req σ).
Proof.
  rewrite main_run. destruct (HandleRequest_coupled order req) as [_ Hc].
  destruct (Hc (boot σ)) as (cs & Hcs & Hσ & _). unfold calls_of. by rewrite Hcs.
Qed.

(** The invocation run against a script that agrees with the answers of
    the service: it is stuck at the first call the script does not answer,
    and answers the runtime as the invocation did when there is none. *)
Lemma main_replay order req σ rs :
  comparable (answers σ (calls_of order req σ)) rs →
  (main order req (Replay rs None)).2 = expected (calls_of order req σ) rs ∧
  (length (calls_of order req σ) ≤ length rs →
   (main order req (Replay rs None)).1 = (main order req σ).1).
Proof.
  intros Hcmp. rewrite !main_run. destruct (HandleRequest_coupled order req) as [_ Hc].
  destruct (Hc (boot σ)) as (cs & Hcs & _ & Hrun). unfold calls_of in *.
  rewrite Hcs in *. simpl in *.
  destruct (Hrun (boot (Replay rs None)) rs eq_refl Hcmp) as [-> Hres].
  split; [done|]. by intros ->%Hres.
Qed.

Lemma HandleRequest_call_bound_replay order req rs :
  length (calls (HandleRequest order req (boot (Replay rs None))).2) ≤ 5.
Proof.
  destruct (emits_new_calls 5 (about (Arn req)) (HandleRequest order req)
              (boot (Replay rs None)) (HandleRequest_emits order req)) as [Hlen _].
  by rewrite new_calls_boot in Hlen.
Qed.

(** The call an invocation is stuck at is the call of its run that
    follows the answers it has read. *)
Lemma main_stuck_call order req rs c :
  blocked (main order req (Replay rs None)).2 = Some c →
  calls (HandleRequest order req (boot (Replay rs None))).2 !! length rs = Some c.
Proof.
  rewrite main_run. simpl. intros Hb.
  destruct (HandleRequest_coupled (Σ:=Σ) order req) as [Hm _].
  destruct (Hm (boot (Replay rs None))) as (cs & Hcs & Hs).
  unfold spent in Hs. rewrite Hb in Hs. simpl in *. by rewrite Hcs.
Qed.

(** With more answers to read, an invocation that was stuck makes the
    same calls up to the call it was stuck at. *)
Lemma main_stuck_steady order req rs extra c :
  blocked (main order req (Replay rs None)).2 = Some c →
  take (S (length rs))
    (calls (HandleRequest order req (boot (Replay (rs ++ extra) None))).2) =
  take (S (length rs)) (calls (HandleRequest order req (boot (Replay rs None))).2).
Proof.
  rewrite main_run. simpl. intros Hb.
  destruct (HandleRequest_steady order req) as [_ Hst].
  specialize (Hst (boot (Replay rs None)) (boot (Replay (rs ++ extra) None)) extra).
  simpl in Hst. rewrite Hb in Hst. by apply Hst.
Qed.

(** An invocation that is stuck has read fewer than five answers. *)
Lemma main_stuck order req rs c :
  blocked (main order req (Replay rs None)).2 = Some c → length rs < 5.
Proof.
  intros Hc%main_stuck_call%lookup_lt_Some.
  pose proof (HandleRequest_call_bound_replay order req rs). lia.
Qed.

End invocation.
