(* ===== verification/Concurrent.v ===== *)
(** * Invocations that overlap

    The specification leaves it to the scheduler never to run two steps
    for one secret at the same time, and relies on the store for the
    atomicity of each call, not of an invocation.  This file models what
    the program does when invocations do overlap: a pool of invocations
    takes turns at the service, one call per turn, in any order.  An
    invocation in the pool is the program of [Handler], run against the
    answers it has received so far ([Replay]); alone in the pool it does
    what [main] does in one piece, and in any pool its turns are those
    of one run of the program.  Every invariant of the service holds
    under every interleaving, every interleaving ends, no secret but
    those the events name is changed, an invocation that is stopped has
    changed nothing or done all its work, and the races of two
    deliveries of one step against the reference store are decided by
    enumerating the interleavings. *)

From stdpp Require Import base tactics option list strings gmap relations.
From S2P Require Import Prelude GoRuntime SecretsManager Store Validator.
From S2P Require Import CreateSecret FinishSecret Handler Rotation Replay.

Open Scope prog_scope.

(** * Definitions *)

(** An invocation in progress: its event, the order in which it would
    visit a map, and the answers it has received. *)
Record thread : Type := Thread {
  delivered : SecretsManagerEvent;
  visiting : list string → list string;
  heard : list answer;
}.

(** A fresh invocation, and an invocation that receives an answer. *)
Definition spawn (order : list string → list string) (req : SecretsManagerEvent)
    : thread :=
  Thread req order [].

Definition hear (a : answer) (t : thread) : thread :=
  Thread (delivered t) (visiting t) (heard t ++ [a]).

(** What an invocation does next: a call, or its answer to the runtime. *)
Inductive status : Type :=
| Waiting (c : api_call)
| Finished (r : response).

#[export] Instance status_eq_dec : EqDecision status.
Proof. solve_decision. Defined.

Definition poll (t : thread) : status :=
  let (r, ρ) := main (visiting t) (delivered t) (Replay (heard t) None) in
  match blocked ρ with
  | Some c => Waiting c
  | None => Finished r
  end.

(** The calls an invocation may still make: it makes five at most. *)
Definition budget (t : thread) : nat := 5 - length (heard t).

(** The calls of the run of an invocation against the answers it has
    received: those that were answered, the call that waits for its
    answer, and what a run without answers goes on to call. *)
Definition run_calls (t : thread) : list api_call :=
  calls (HandleRequest (visiting t) (delivered t) (boot (Replay (heard t) None))).2.

(** One for an invocation that has a call to make, none for one that has
    finished. *)
Definition unfinished (t : thread) : nat :=
  match poll t with Waiting _ => 1 | Finished _ => 0 end.

Section pool.
Context `{SecretsManagerAPI Σ}.

(** The invocations in progress and the state of the service. *)
Definition config : Type := list thread * Σ.

(** One turn: an invocation of the pool makes its next call, the service
    performs it, the invocation receives the answer. *)
Inductive step : relation config :=
| step_turn pool σ i t c :
    pool !! i = Some t → poll t = Waiting c →
    step (pool, σ) (<[i := hear (respond c σ).1 t]> pool, (respond c σ).2).

(** The turn of the invocation [i], when it has a call to make. *)
Definition turn (i : nat) (cfg : config) : option config :=
  t ← cfg.1 !! i;
  match poll t with
  | Waiting c => Some (<[i := hear (respond c cfg.2).1 t]> cfg.1, (respond c cfg.2).2)
  | Finished _ => None
  end.

(** The configurations one turn away, and the configurations in which
    every invocation has finished that are reached within [fuel] turns. *)
Definition successors (cfg : config) : list config :=
  omap (λ i, turn i cfg) (seq 0 (length cfg.1)).

Fixpoint explore (fuel : nat) (cfg : config) : list config :=
  match fuel with
  | 0 => [cfg]
  | S fuel' =>
      let next := successors cfg in
      match next with
      | [] => [cfg]
      | _ :: _ => next ≫= explore fuel'
      end
  end.

(** The calls the pool may still make. *)
Definition pool_budget (cfg : config) : nat := sum_list_with budget cfg.1.

(** The invocations of the pool that have not finished. *)
Definition pool_unfinished (cfg : config) : nat := sum_list_with unfinished cfg.1.

(** The turns of the invocations named by a schedule, in its order. *)
Fixpoint schedule (turns : list nat) (cfg : config) : option config :=
  match turns with
  | [] => Some cfg
  | i :: rest => turn i cfg ≫= schedule rest
  end.

(** A delivery: an event and the iteration order of its invocation. *)
Definition delivery : Type := (list string → list string) * SecretsManagerEvent.

(** The service after the deliveries have been handled one after the
    other, and the invocations at their end. *)
Fixpoint deliver (ds : list delivery) (σ : Σ) : Σ :=
  match ds with
  | [] => σ
  | d :: rest => deliver rest (main d.1 d.2 σ).2
  end.

Fixpoint served (ds : list delivery) (σ : Σ) : list thread :=
  match ds with
  | [] => []
  | d :: rest =>
      Thread d.2 d.1 (answers σ (calls_of d.1 d.2 σ)) :: served rest (main d.1 d.2 σ).2
  end.

(** The answers of the runtime, in the order of the deliveries. *)
Fixpoint answered (ds : list delivery) (σ : Σ) : list status :=
  match ds with
  | [] => []
  | d :: rest => Finished (main d.1 d.2 σ).1 :: answered rest (main d.1 d.2 σ).2
  end.

(** The invocation after [k] of its calls. *)
Definition after_calls order req (σ : Σ) (k : nat) : config :=
  ([Thread req order (answers σ (take k (calls_of order req σ)))],
   exec σ (take k (calls_of order req σ))).

(** The invocation after all its calls: nothing is left to do. *)
Definition solo_end order req (σ : Σ) : config :=
  after_calls order req σ (length (calls_of order req σ)).

End pool.

(** What the runtime has answered for each invocation of a pool. *)
Definition outcomes `{SecretsManagerAPI Σ} (cfg : config (Σ:=Σ)) : list status :=
  poll <$> cfg.1.

(** ** The scenario, with deliveries that overlap *)

(** The version [id] of the secret [arn]. *)
Definition version_at (σ : store) (arn id : string) : option version :=
  s ← secrets σ !! arn; versions s !! id.

(** Two deliveries of the createSecret event of the scenario at once, two
    of its finishSecret event once the value is there, and the two steps of
    the rotation at once. *)
Definition two_creates : config (Σ:=store) :=
  ([spawn id (scenario_event "createSecret"); spawn id (scenario_event "createSecret")],
   scenario_store).

Definition two_finishes : config (Σ:=store) :=
  ([spawn (first_visit "v1") (scenario_event "finishSecret");
    spawn (first_visit "v1") (scenario_event "finishSecret")],
   scenario_created).

Definition create_and_finish : config (Σ:=store) :=
  ([spawn id (scenario_event "createSecret");
    spawn (first_visit "v1") (scenario_event "finishSecret")],
   scenario_store).

(** The ends of two overlapping createSecret invocations: one of them
    succeeded, the other succeeded or was refused by the store because the
    version had a value; the version "v2" has one value and the label
    AWSPENDING, the version "v1" is as it was. *)
Definition created_once (cfg : config (Σ:=store)) : Prop :=
  Finished Succeeded ∈ outcomes cfg ∧
  Forall (λ st, st = Finished Succeeded ∨
                st = Finished (Failed (Error (ResourceExists "the version has another value"))))
    (outcomes cfg) ∧
  store_consistent cfg.2 ∧
  version_at cfg.2 "db-pwd" "v1" = Some (Version (Some "old123") [AWSCURRENT]) ∧
  stages <$> version_at cfg.2 "db-pwd" "v2" = Some [AWSPENDING] ∧
  is_Some (version_at cfg.2 "db-pwd" "v2" ≫= value).

(** The ends of two overlapping finishSecret invocations: one of them
    succeeded, the other succeeded, was refused by the store because the
    label had moved, or was rejected by the validation because the token
    was current; the secrets are those of the finished rotation. *)
Definition promoted_once (cfg : config (Σ:=store)) : Prop :=
  Finished Succeeded ∈ outcomes cfg ∧
  Forall (λ st, st = Finished Succeeded ∨
                st = Finished (Failed (Error (InvalidParameter
                       "the label is not attached to RemoveFromVersionId"))) ∨
                st = Finished (Failed (Error (err_already_current "v2" "db-pwd"))))
    (outcomes cfg) ∧
  secrets cfg.2 = secrets scenario_finished.

(** The ends of a createSecret and a finishSecret invocation that overlap:
    the rotation is finished, or the label was moved before the value was
    stored, createSecret failed, and the version that holds AWSCURRENT has
    no value. *)
Definition finished_or_stranded (cfg : config (Σ:=store)) : Prop :=
  secrets cfg.2 = secrets scenario_finished ∧
    outcomes cfg = [Finished Succeeded; Finished Succeeded] ∨
  version_at cfg.2 "db-pwd" "v2" = Some (Version None [AWSCURRENT; AWSPENDING]) ∧
    outcomes cfg !! 0 ≠ Some (Finished Succeeded) ∧
    outcomes cfg !! 1 = Some (Finished Succeeded).

#[export] Instance created_once_dec cfg : Decision (created_once cfg).
Proof. unfold created_once. apply _. Defined.
#[export] Instance promoted_once_dec cfg : Decision (promoted_once cfg).
Proof. unfold promoted_once. apply _. Defined.
#[export] Instance finished_or_stranded_dec cfg : Decision (finished_or_stranded cfg).
Proof. unfold finished_or_stranded. apply _. Defined.

(** The store of the scenario with a second secret, which no event names. *)
Definition two_secrets : store :=
  Store (<["api-key" := Secret (Some true) scenario_versions]> (secrets scenario_store))
    (seed scenario_store).

(** The createSecret invocation of the scenario after four turns: it has
    received the description, the two lookups and the password. *)
Definition scenario_writer : thread :=
  Thread (scenario_event "createSecret") id
    (answers scenario_store
       (take 4 (calls_of id (scenario_event "createSecret") scenario_store))).

(** The pool after the turns of a schedule. *)
Definition scheduled (turns : list nat) (cfg : config (Σ:=store)) : config (Σ:=store) :=
  default cfg (schedule turns cfg).


(** * One invocation, alone *)

Section solo.
Context `{SecretsManagerAPI Σ}.
Implicit Types (σ : Σ) (req : SecretsManagerEvent) (order : list string → list string).

Lemma take_answers_comparable σ cs k :
  comparable (answers σ cs) (answers σ (take k cs)).
Proof. right. rewrite <-answers_take. apply prefix_take. Qed.

(** Before its last call, the invocation is waiting to make the next. *)
Lemma poll_waiting order req σ k c :
  calls_of order req σ !! k = Some c →
  poll (Thread req order (answers σ (take k (calls_of order req σ)))) = Waiting c.
Proof.
  intros Hc. unfold poll. simpl.
  destruct (main_replay order req σ (answers σ (take k (calls_of order req σ))))
    as [Hρ _]; [apply take_answers_comparable|].
  destruct (main order req (Replay _ None)) as [r ρ]. simpl in Hρ. subst ρ.
  unfold expected. rewrite length_answers, length_take_le by (apply lookup_lt_Some in Hc; lia).
  by rewrite Hc.
Qed.

(** After its last call, it answers the runtime as [main] does. *)
Lemma poll_finished order req σ :
  poll (Thread req order (answers σ (calls_of order req σ))) =
  Finished (main order req σ).1.
Proof.
  unfold poll. simpl.
  destruct (main_replay order req σ (answers σ (calls_of order req σ)))
    as [Hρ Hr]; [by left|]. rewrite length_answers in Hr. specialize (Hr (reflexivity _)).
  destruct (main order req (Replay _ None)) as [r ρ]. simpl in *. subst r ρ.
  unfold expected. by rewrite lookup_ge_None_2 by (by rewrite length_answers).
Qed.

Lemma after_calls_step order req σ k :
  k < length (calls_of order req σ) →
  step (after_calls order req σ k) (after_calls order req σ (S k)).
Proof.
  intros [c Hc]%lookup_lt_is_Some_2. unfold after_calls.
  rewrite (take_S_r _ _ _ Hc), answers_app, exec_app. simpl.
  exact (step_turn [Thread req order _] _ 0 _ c eq_refl (poll_waiting order req σ k c Hc)).
Qed.

Lemma after_calls_nsteps order req σ k :
  k ≤ length (calls_of order req σ) →
  nsteps step k (after_calls order req σ 0) (after_calls order req σ k).
Proof.
  induction k as [|k IH]; intros Hk; [constructor|].
  eapply nsteps_r; [apply IH; lia|]. by apply after_calls_step.
Qed.

End solo.

(** * Turns *)

Section turns.
Context `{SecretsManagerAPI Σ}.
Implicit Types (cfg : config (Σ:=Σ)) (t : thread).

(** An invocation that has a call to make has made fewer than five. *)
Lemma poll_waiting_budget t c : poll t = Waiting c → length (heard t) < 5.
Proof.
  unfold poll. destruct (main _ _ _) as [r ρ] eqn:Hmain.
  destruct (blocked ρ) as [c'|] eqn:Hb; [intros _|done].
  apply (main_stuck (Σ:=Σ) (visiting t) (delivered t) (heard t) c'). by rewrite Hmain.
Qed.

Lemma turn_step i cfg cfg' : turn i cfg = Some cfg' → step cfg cfg'.
Proof.
  destruct cfg as [pool σ]. unfold turn. simpl.
  destruct (pool !! i) as [t|] eqn:Ht; [simpl|done].
  destruct (poll t) as [c|r] eqn:Hp; [|done]. intros [= <-]. by constructor.
Qed.

Lemma step_turn_inv cfg cfg' :
  step cfg cfg' → ∃ i, i < length cfg.1 ∧ turn i cfg = Some cfg'.
Proof.
  intros [pool σ i t c Ht Hp]. exists i. split; [by eapply lookup_lt_Some|].
  unfold turn. simpl. by rewrite Ht; simpl; rewrite Hp.
Qed.

Lemma elem_of_successors cfg cfg' : cfg' ∈ successors cfg ↔ step cfg cfg'.
Proof.
  unfold successors. rewrite list_elem_of_omap. split.
  - intros (i & _ & Hturn). by eapply turn_step.
  - intros (i & Hi & Hturn)%step_turn_inv. exists i. split; [|done].
    apply elem_of_seq. lia.
Qed.

(** Every turn uses up one call of the budget of the pool. *)
Lemma step_budget cfg cfg' : step cfg cfg' → S (pool_budget cfg') = pool_budget cfg.
Proof.
  intros [pool σ i t c Ht Hp]. unfold pool_budget. simpl.
  pose proof (sum_list_with_insert budget pool i t (hear (respond c σ).1 t) Ht) as Hsum.
  apply poll_waiting_budget in Hp. unfold budget in *. simpl in *.
  rewrite length_app in Hsum. simpl in *. lia.
Qed.

Lemma nsteps_budget n cfg cfg' :
  nsteps step n cfg cfg' → n + pool_budget cfg' = pool_budget cfg.
Proof. induction 1 as [|n c1 c2 c3 Hstep%step_budget _ IH]; simpl; lia. Qed.

Lemma pool_budget_bound cfg : pool_budget cfg ≤ 5 * length cfg.1.
Proof. apply sum_list_with_bound. intros t. unfold budget. lia. Qed.

Lemma step_sn cfg : sn step cfg.
Proof.
  apply (wf_projected lt pool_budget); [|apply lt_wf].
  intros c2 c1 Hstep%step_budget. lia.
Qed.

Lemma budget_nf cfg : pool_budget cfg = 0 → nf step cfg.
Proof. intros Hb [cfg' Hstep%step_budget]. lia. Qed.

Lemma successors_nf cfg : successors cfg = [] → nf step cfg.
Proof.
  intros Hnil [cfg' Hstep%elem_of_successors]. rewrite Hnil in Hstep.
  by apply elem_of_nil in Hstep.
Qed.

(** When no turn is left, every invocation has finished. *)
Lemma nf_finished cfg : nf step cfg → Forall (λ st, ∃ r, st = Finished r) (outcomes cfg).
Proof.
  intros Hnf. apply Forall_fmap, Forall_lookup. intros i t Ht. simpl.
  destruct (poll t) as [c|r] eqn:Hc; [|by eexists].
  destruct Hnf. destruct cfg as [pool σ]. eexists. by eapply step_turn.
Qed.

(** With fuel for the budget of the pool, [explore] lists the ends of the
    interleavings, all of them and nothing else. *)
Lemma explore_spec fuel cfg cfg' :
  pool_budget cfg ≤ fuel →
  cfg' ∈ explore fuel cfg ↔ rtc step cfg cfg' ∧ nf step cfg'.
Proof.
  assert (∀ cfg cfg', nf step cfg → cfg' ∈ [cfg] ↔ rtc step cfg cfg' ∧ nf step cfg')
    as Hend.
  { intros c c' Hnf. rewrite list_elem_of_singleton. split; [by intros ->|].
    intros [Hrtc _]. symmetry. by eapply rtc_nf. }
  revert cfg. induction fuel as [|fuel IH]; intros cfg Hfuel.
  { apply Hend, budget_nf. lia. }
  change (explore (S fuel) cfg) with
    (match successors cfg with
     | [] => [cfg]
     | _ :: _ => successors cfg ≫= explore fuel
     end).
  destruct (successors cfg) as [|c0 next] eqn:Hsucc; [by apply Hend, successors_nf|].
  rewrite <-Hsucc, list_elem_of_bind. setoid_rewrite elem_of_successors. split.
  - intros (c1 & Hin & Hstep). pose proof (step_budget _ _ Hstep).
    apply IH in Hin as [Hrtc Hnf]; [|lia]. split; [by eapply rtc_l|done].
  - intros [Hrtc Hnf]. apply rtc_inv in Hrtc as [->|(c1 & Hstep & Hrtc)].
    + destruct Hnf. exists c0. apply elem_of_successors. rewrite Hsucc. left.
    + exists c1. pose proof (step_budget _ _ Hstep). split; [|done]. apply IH; [lia|done].
Qed.

End turns.

(** * One run, turn after turn *)

Section life.
Implicit Types (t : thread) (c : api_call) (a : answer).

(** The call of a turn is the call the run makes after the answers
    received. *)
Lemma poll_run_call t c : poll t = Waiting c → run_calls t !! length (heard t) = Some c.
Proof.
  unfold poll. destruct (main _ _ _) as [r ρ] eqn:Hmain.
  destruct (blocked ρ) as [c'|] eqn:Hb; [intros [= ->]|done].
  apply (main_stuck_call (Σ:=replay)). by rewrite Hmain.
Qed.

(** An answer more leaves the calls made so far as they were. *)
Lemma hear_run_calls t c a :
  poll t = Waiting c →
  take (S (length (heard t))) (run_calls (hear a t)) =
  take (S (length (heard t))) (run_calls t).
Proof.
  unfold poll. destruct (main _ _ _) as [r ρ] eqn:Hmain.
  destruct (blocked ρ) as [c'|] eqn:Hb; [intros _|done].
  apply (main_stuck_steady (visiting t) (delivered t) (heard t) [a] c').
  by rewrite Hmain.
Qed.

(** The answer to a write ends the invocation: a write is its last
    call. *)
Lemma poll_after_write t c a :
  poll t = Waiting c → mutating c = true → ∃ r, poll (hear a t) = Finished r.
Proof.
  intros Hc Hm. destruct (poll (hear a t)) as [c'|r] eqn:Hc'; [exfalso|by eexists].
  apply poll_run_call, lookup_lt_Some in Hc'. simpl in Hc'. rewrite length_app in Hc'.
  assert (run_calls (hear a t) !! length (heard t) = Some c) as Hrun.
  { rewrite <-(lookup_take_lt _ (S (length (heard t)))) by lia.
    rewrite (hear_run_calls t c a Hc), lookup_take_lt by lia. by apply poll_run_call. }
  pose proof (writes_last_new_calls
                (HandleRequest (visiting t) (delivered t))
                (boot (Replay (heard t ++ [a]) None)) (length (heard t)) c
                (HandleRequest_writes_last _ _)) as Hlast.
  rewrite new_calls_boot in Hlast. rewrite Hlast in Hm; [done|exact Hrun|].
  simpl in Hc'. unfold run_calls in Hc'. simpl in Hc'. lia.
Qed.

Lemma unfinished_bound t : unfinished t ≤ 1.
Proof. unfold unfinished. destruct (poll t); lia. Qed.

End life.

Section unfinished.
Context `{SecretsManagerAPI Σ}.
Implicit Types (cfg : config (Σ:=Σ)).

Lemma pool_unfinished_bound cfg : pool_unfinished cfg ≤ length cfg.1.
Proof.
  unfold pool_unfinished.
  pose proof (sum_list_with_bound unfinished cfg.1 1 unfinished_bound). lia.
Qed.

(** No invocation comes back from its end. *)
Lemma step_unfinished cfg cfg' : step cfg cfg' → pool_unfinished cfg' ≤ pool_unfinished cfg.
Proof.
  intros [pool σ i t c Ht Hp]. unfold pool_unfinished. simpl.
  pose proof (sum_list_with_insert unfinished pool i t (hear (respond c σ).1 t) Ht).
  pose proof (unfinished_bound (hear (respond c σ).1 t)).
  unfold unfinished in *. rewrite Hp in *. lia.
Qed.

Lemma steps_unfinished cfg cfg' :
  rtc step cfg cfg' → pool_unfinished cfg' ≤ pool_unfinished cfg.
Proof.
  induction 1 as [|c1 c2 c3 Hstep%step_unfinished _ IH]; [done|lia].
Qed.

End unfinished.

(** * Invariants of the service under interleaving *)

Section interleaving.
Context `{SecretsManagerAPI Σ} (Inv : Σ → Prop) `{!ServiceInvariant Inv}.
Implicit Types (cfg : config (Σ:=Σ)).

Lemma respond_keeps c σ : Inv σ → Inv (respond c σ).2.
Proof.
  intros Hσ. destruct c as [i|i|i|i|i]; simpl.
  - pose proof (describe_keeps i σ Hσ). by destruct (DescribeSecret i σ).
  - pose proof (get_keeps i σ Hσ). by destruct (GetSecretValue i σ).
  - pose proof (random_keeps i σ Hσ). by destruct (GetRandomPassword i σ).
  - pose proof (put_keeps i σ Hσ). by destruct (PutSecretValue i σ).
  - pose proof (update_keeps i σ Hσ). by destruct (UpdateSecretVersionStage i σ).
Qed.

Lemma step_keeps cfg cfg' : step cfg cfg' → Inv cfg.2 → Inv cfg'.2.
Proof. intros [pool σ i t c _ _]. apply respond_keeps. Qed.

Lemma steps_keep cfg cfg' : rtc step cfg cfg' → Inv cfg.2 → Inv cfg'.2.
Proof. induction 1 as [|c1 c2 c3 Hstep _ IH]; [done|]. intros ?. by eapply IH, step_keeps. Qed.

End interleaving.

(** * One invocation alone, to its end *)

Section solo_end.
Context `{SecretsManagerAPI Σ}.
Implicit Types (σ : Σ) (req : SecretsManagerEvent) (order : list string → list string)
  (cfg : config (Σ:=Σ)).

(** A pool of one invocation has one thing to do. *)
Lemma solo_step_deterministic t σ cfg1 cfg2 :
  step ([t], σ) cfg1 → step ([t], σ) cfg2 → cfg1 = cfg2.
Proof.
  inversion 1 as [? ? i1 t1 c1 Ht1 Hp1]; inversion 1 as [? ? i2 t2 c2 Ht2 Hp2].
  apply list_lookup_singleton_Some in Ht1 as [-> ->].
  apply list_lookup_singleton_Some in Ht2 as [-> ->]. congruence.
Qed.

Lemma solo_end_nf order req σ : nf step (solo_end order req σ).
Proof.
  intros [cfg' Hstep]. unfold solo_end, after_calls in Hstep. rewrite firstn_all in Hstep.
  inversion Hstep as [? ? i t c Ht Hp].
  apply list_lookup_singleton_Some in Ht as [-> <-].
  by rewrite poll_finished in Hp.
Qed.

(** Alone, the invocation is always at one of its calls. *)
Lemma solo_reach order req σ cfg :
  rtc step ([spawn order req], σ) cfg →
  ∃ k, k ≤ length (calls_of order req σ) ∧ cfg = after_calls order req σ k.
Proof.
  revert cfg. apply rtc_ind_r; [exists 0; split; [lia|done]|].
  intros c1 c2 _ Hstep (k & Hk & ->).
  destruct (decide (k = length (calls_of order req σ))) as [->|Hne].
  { destruct (solo_end_nf order req σ). by eexists. }
  exists (S k). split; [lia|].
  apply (solo_step_deterministic _ _ _ _ Hstep), after_calls_step. lia.
Qed.

Lemma solo_end_unique order req σ cfg :
  rtc step ([spawn order req], σ) cfg → nf step cfg → cfg = solo_end order req σ.
Proof.
  intros (k & Hk & ->)%solo_reach Hnf.
  destruct (decide (k = length (calls_of order req σ))) as [->|Hne]; [done|].
  destruct Hnf. eexists. apply after_calls_step. lia.
Qed.

Lemma solo_end_main order req σ :
  (solo_end order req σ).2 = (main order req σ).2 ∧
  outcomes (solo_end order req σ) = [Finished (main order req σ).1].
Proof.
  unfold solo_end, after_calls, outcomes. rewrite firstn_all. simpl.
  by rewrite poll_finished, main_exec.
Qed.

End solo_end.

(** * Schedules *)

Section schedules.
Context `{SecretsManagerAPI Σ}.
Implicit Types (cfg : config (Σ:=Σ)).

Lemma schedule_steps turns cfg cfg' : schedule turns cfg = Some cfg' → rtc step cfg cfg'.
Proof.
  revert cfg. induction turns as [|i rest IH]; intros cfg; simpl; [by intros [= ->]|].
  destruct (turn i cfg) as [c1|] eqn:Hturn; [simpl|done].
  intros Hrest. eapply rtc_l; [by eapply turn_step|by apply IH].
Qed.

(** Turns of a part of the pool are turns of the pool. *)
Lemma step_frame before after pool σ pool' σ' :
  step (pool, σ) (pool', σ') →
  step (before ++ pool ++ after, σ) (before ++ pool' ++ after, σ').
Proof.
  inversion 1 as [? ? i t c Ht Hp]; subst.
  pose proof (lookup_lt_Some _ _ _ Ht) as Hi.
  rewrite <-(insert_app_l _ after), <-insert_app_r by done.
  constructor; [|done]. rewrite lookup_app_r by lia.
  replace (length before + i - length before) with i by lia. by rewrite lookup_app_l.
Qed.

Lemma steps_frame before after pool σ pool' σ' :
  rtc step (pool, σ) (pool', σ') →
  rtc step (before ++ pool ++ after, σ) (before ++ pool' ++ after, σ').
Proof.
  intros Hrtc. remember (pool, σ) as c1 eqn:H1. remember (pool', σ') as c2 eqn:H2.
  revert pool σ H1. induction Hrtc as [|c1 [pool1 σ1] c3 Hstep _ IH]; intros pool σ ->.
  - by simplify_eq.
  - eapply rtc_l; [by apply step_frame|]. by apply IH.
Qed.

End schedules.

(** * Invocations one after the other *)

Section sequential.
Context `{SecretsManagerAPI Σ}.
Implicit Types (σ : Σ).

Lemma solo_steps order req σ :
  rtc step ([spawn order req], σ) (solo_end order req σ).
Proof. eapply rtc_nsteps_2, (after_calls_nsteps order req σ). done. Qed.

Lemma sequential_steps before ds σ :
  rtc step (before ++ ((λ d, spawn d.1 d.2) <$> ds), σ)
    (before ++ served ds σ, deliver ds σ).
Proof.
  revert before σ. induction ds as [|[order req] ds IH]; intros before σ; [done|].
  simpl. etrans.
  - apply (steps_frame before ((λ d, spawn d.1 d.2) <$> ds) [spawn order req]).
    pose proof (solo_steps order req σ) as Hsolo. unfold solo_end, after_calls in Hsolo.
    rewrite firstn_all in Hsolo. exact Hsolo.
  - rewrite <-main_exec. simpl. rewrite !(cons_middle _ before), !app_assoc. apply IH.
Qed.

Lemma served_outcomes ds σ : poll <$> served ds σ = answered ds σ.
Proof.
  revert σ. induction ds as [|[order req] ds IH]; intros σ; simpl; [done|].
  by rewrite poll_finished, IH.
Qed.

Lemma served_nf ds σ σ' : nf step (served ds σ, σ').
Proof.
  intros [cfg' Hstep]. inversion Hstep as [? ? i t c Ht Hp]; subst.
  assert ((poll <$> served ds σ) !! i = Some (Waiting c)) as Hi
    by (by rewrite list_lookup_fmap, Ht; simpl; rewrite Hp).
  rewrite served_outcomes in Hi. clear Ht Hp Hstep.
  revert σ i Hi. induction ds as [|d ds IH]; intros σ [|i] Hi; simplify_eq/=. eauto.
Qed.

End sequential.

(** * Overlapping deliveries against the reference store *)

Section races.
Implicit Types (cfg : config (Σ:=store)).

(** A property of the ends of the interleavings of a pool, decided by
    enumerating them. *)
Lemma explored (P : config (Σ:=store) → Prop) fuel cfg cfg' :
  pool_budget cfg ≤ fuel → Forall P (explore fuel cfg) →
  rtc step cfg cfg' → nf step cfg' → P cfg'.
Proof.
  intros Hfuel HP Hrtc Hnf. rewrite Forall_forall in HP. apply HP.
  by apply explore_spec.
Qed.

Lemma two_creates_explored : Forall created_once (explore 10 two_creates).
Proof. by_compute. Qed.

Lemma two_finishes_explored : Forall promoted_once (explore 10 two_finishes).
Proof. by_compute. Qed.

Lemma create_and_finish_explored :
  Forall finished_or_stranded (explore 10 create_and_finish).
Proof. by_compute. Qed.

End races.

(** * An invocation that is stopped *)

Section stopped.
Implicit Types (σ : store) (req : SecretsManagerEvent) (order : list string → list string).

(** The store changes no secret when it answers a read. *)
Lemma respond_read_secrets c σ : mutating c = false → secrets (respond c σ).2 = secrets σ.
Proof.
  destruct c as [i|i|i|i|i]; simpl; try done; intros _.
  - pose proof (store_DescribeSecret_state i σ). by destruct (store_DescribeSecret i σ); subst.
  - pose proof (store_GetSecretValue_state i σ). by destruct (store_GetSecretValue i σ); subst.
  - pose proof (store_GetRandomPassword_secrets i σ).
    by destruct (store_GetRandomPassword i σ).
Qed.

Lemma exec_reads σ cs :
  Forall (λ c, mutating c = false) cs → secrets (exec σ cs) = secrets σ.
Proof.
  revert σ. induction cs as [|c cs IH]; intros σ; [done|].
  intros [Hc Hcs]%Forall_cons. simpl. by rewrite IH, respond_read_secrets.
Qed.

(** Before its last call, an invocation has changed no secret. *)
Lemma after_calls_secrets order req σ k :
  k < length (calls_of order req σ) →
  secrets (after_calls order req σ k).2 = secrets σ.
Proof.
  intros Hk. apply exec_reads, Forall_forall. intros c [i Hi]%list_elem_of_lookup.
  apply lookup_take_Some in Hi as [Hi Hik].
  apply (writes_last_new_calls (HandleRequest order req) (boot σ) i c);
    [apply HandleRequest_writes_last|by rewrite new_calls_boot|].
  rewrite new_calls_boot. unfold calls_of in Hk. lia.
Qed.

End stopped.

(** * The secrets an interleaving can change *)

Section named.
Implicit Types (σ : store) (cfg : config (Σ:=store)) (t : thread).

(** The call an invocation makes at its turn is about the secret of its
    event. *)
Lemma poll_about t c : poll t = Waiting c → about (Arn (delivered t)) c.
Proof.
  intros Hc%poll_run_call.
  destruct (emits_new_calls 5 (about (Arn (delivered t)))
              (HandleRequest (visiting t) (delivered t))
              (boot (Replay (heard t) None)) (HandleRequest_emits _ _)) as [_ Hall].
  rewrite new_calls_boot in Hall. by eapply Forall_lookup_1.
Qed.

(** The store changes no secret but the one a call names. *)
Lemma respond_other_secret c σ Arn arn :
  about Arn c → Arn ≠ Some arn →
  secrets (respond c σ).2 !! arn = secrets σ !! arn.
Proof.
  intros Hc HArn. destruct (mutating c) eqn:Hm; [|by rewrite respond_read_secrets].
  assert (call_secret c ≠ Some (Some arn)) as Hne.
  { intros Hid. by rewrite (Hc _ Hid) in HArn. }
  destruct c as [i|i|i|i|i]; simplify_eq/=.
  - apply store_PutSecretValue_other. congruence.
  - apply store_UpdateSecretVersionStage_other. congruence.
Qed.

(** A turn changes no secret but those the events of the pool name, and
    the events of the pool stay what they are. *)
Lemma step_other_secret cfg cfg' arn :
  Forall (λ t, Arn (delivered t) ≠ Some arn) cfg.1 → step cfg cfg' →
  Forall (λ t, Arn (delivered t) ≠ Some arn) cfg'.1 ∧
  secrets cfg'.2 !! arn = secrets cfg.2 !! arn.
Proof.
  intros Hpool Hstep. destruct Hstep as [pool σ i t c Ht Hc]. simpl in *.
  pose proof (Forall_lookup_1 _ _ _ _ Hpool Ht) as Hne. split.
  - by apply Forall_insert.
  - eapply respond_other_secret; [by apply poll_about|done].
Qed.

Lemma steps_other_secret cfg cfg' arn :
  Forall (λ t, Arn (delivered t) ≠ Some arn) cfg.1 → rtc step cfg cfg' →
  secrets cfg'.2 !! arn = secrets cfg.2 !! arn.
Proof.
  intros Hpool Hsteps. induction Hsteps as [cfg|cfg cfg1 cfg2 Hstep _ IH]; [done|].
  destruct (step_other_secret _ _ arn Hpool Hstep) as [Hpool1 <-]. by apply IH.
Qed.

End named.


(** * Theorems *)

Section theorems.
Context `{SecretsManagerAPI Σ}.
Implicit Types (σ : Σ) (cfg : config (Σ:=Σ)).


(** C23 (equivalence): the turns of an invocation are one run of the
    program.  [poll] runs the handler afresh at every turn, against the
    answers received so far; the calls it finds turn after turn are
    nevertheless those of a single run: the call of a turn is the call
    that the run makes once it has read the answers received; the answer
    to it leaves all the calls made so far, that one included, as they
    were; and when the call is a write its answer ends the invocation,
    whatever it is: an invocation writes at its last turn. *)
Theorem invocation_is_one_run t c a :
  poll t = Waiting c →
  run_calls t !! length (heard t) = Some c ∧
  take (S (length (heard t))) (run_calls (hear a t)) =
    take (S (length (heard t))) (run_calls t) ∧
  (mutating c = true → ∃ r, poll (hear a t) = Finished r).
Proof.
  intros Hc. split; [by apply poll_run_call|]. split; [by eapply hear_run_calls|].
  intros Hm. by eapply poll_after_write.
Qed.

(** Invocations handled one after the other are one of
    the interleavings.  For every list of deliveries, the pool of their
    fresh invocations can reach, by turns, the state of the service that
    handling them in order with [main] leaves, with every invocation at
    its end and the answers of the runtime those of [main]. *)
Theorem sequential_is_interleaving (ds : list delivery) σ :
  rtc step ((λ d, spawn d.1 d.2) <$> ds, σ) (served ds σ, deliver ds σ) ∧
  nf step (served ds σ, deliver ds σ) ∧
  outcomes (served ds σ, deliver ds σ) = answered ds σ.
Proof.
  split; [apply (sequential_steps [])|]. split; [apply served_nf|apply served_outcomes].
Qed.

(** C34 (termination): every interleaving ends, and it ends with every
    invocation finished.  Whatever the pool and the service, the turns are
    strongly normalising; a pool of [k] invocations makes at most [5 * k]
    turns, since each invocation makes at most five calls whatever answers
    it receives; and when no turn is left every invocation has given its
    answer to the runtime: none waits for another. *)
Theorem overlap_terminates cfg :
  sn step cfg ∧
  (∀ n cfg', nsteps step n cfg cfg' → n ≤ 5 * length cfg.1) ∧
  (nf step cfg → Forall (λ st, ∃ r, st = Finished r) (outcomes cfg)).
Proof.
  split; [apply step_sn|]. split; [|apply nf_finished].
  intros n cfg' Hsteps%nsteps_budget. pose proof (pool_budget_bound cfg). lia.
Qed.

End theorems.

(** The invariants of the store do not need the scheduler
    to serialise invocations.  From a consistent store, under every
    interleaving of every pool of invocations, at every turn, each label
    is on at most one version and some version holds AWSCURRENT, every
    version that existed still exists, and a version that had a value
    still has it: atomicity of the single calls is enough. *)
Theorem overlap_keeps_invariants (cfg cfg' : config (Σ:=store)) :
  store_consistent cfg.2 → rtc step cfg cfg' →
  store_consistent cfg'.2 ∧ extends cfg.2 cfg'.2.
Proof.
  intros Hσ Hrtc. split; [by apply (steps_keep store_consistent cfg)|].
  by apply (steps_keep (extends cfg.2) cfg).
Qed.

(** C33 (safety): a createSecret event delivered twice at once, on the
    scenario of the specification.  In every interleaving of the two
    invocations one succeeds and the other succeeds or is refused by the
    store, which does not give a version a second value; at the end "v2"
    has one value and the label AWSPENDING, "v1" is untouched and the
    store is consistent. *)
Theorem overlapping_creates cfg' :
  rtc step two_creates cfg' → nf step cfg' → created_once cfg'.
Proof. apply (explored created_once 10); [by_compute|apply two_creates_explored]. Qed.

(** A finishSecret event delivered twice at once, on the
    scenario once the value is stored.  In every interleaving the label
    moves exactly once: the secrets at the end are those of the finished
    rotation, one invocation succeeds, and the other succeeds, is refused
    by the store or is rejected by the validation. *)
Theorem overlapping_finishes cfg' :
  rtc step two_finishes cfg' → nf step cfg' → promoted_once cfg'.
Proof. apply (explored promoted_once 10); [by_compute|apply two_finishes_explored]. Qed.

(** C30 (safety): createSecret and finishSecret for one token at once, on
    the scenario.  Every interleaving ends with the rotation finished and
    both invocations successful, or with finishSecret successful,
    createSecret failed and AWSCURRENT on a version without value: the
    program needs the scheduler to deliver the steps in order. *)
Theorem overlapping_steps cfg' :
  rtc step create_and_finish cfg' → nf step cfg' → finished_or_stranded cfg'.
Proof.
  apply (explored finished_or_stranded 10); [by_compute|apply create_and_finish_explored].
Qed.

(** C26 (safety): an invocation is atomic for the secrets, although it is
    a sequence of calls.  Against the reference store, an invocation that
    runs alone and is stopped after any number of its calls (a timeout, a
    crash of the process) has left the secrets as they were, or has left
    the store as the whole invocation leaves it: the one mutating call of
    an invocation is its last call. *)
Theorem stopped_invocation_is_atomic order req (σ : store) cfg :
  rtc step ([spawn order req], σ) cfg →
  secrets cfg.2 = secrets σ ∨ cfg.2 = (main order req σ).2.
Proof.
  intros (k & Hk & ->)%solo_reach.
  destruct (decide (k = length (calls_of order req σ))) as [->|Hne].
  - right. apply solo_end_main.
  - left. apply after_calls_secrets. lia.
Qed.

(** C27 (safety): overlapping invocations change no secret but those
    their events name.  Against the reference store, under every
    interleaving of every pool, a secret that no event of the pool names
    is at every turn what it was at the start, whatever the other secrets
    go through. *)
Theorem overlap_only_named_secrets (cfg cfg' : config (Σ:=store)) arn :
  Forall (λ t, Arn (delivered t) ≠ Some arn) cfg.1 → rtc step cfg cfg' →
  secrets cfg'.2 !! arn = secrets cfg.2 !! arn.
Proof. apply steps_other_secret. Qed.

(** * Instances *)

(** The states of the store that invocations handled in order reach are
    those of [reachable]. *)
Lemma reachable_deliver (σ σ' : store) : reachable σ σ' ↔ ∃ ds, σ' = deliver ds σ.
Proof.
  split.
  - induction 1 as [σ|σ1 σ2 σ3 [r Hinv] _ [ds ->]]; [by exists []|].
    destruct Hinv as [order req σ1]. by exists ((order, req) :: ds).
  - intros [ds ->]. revert σ. induction ds as [|[order req] ds IH]; intros σ; [done|].
    eapply rtc_l; [eexists; apply (invoke order req σ)|apply IH].
Qed.

(** The end of a schedule at which no invocation has a call to make. *)
Lemma schedule_end `{SecretsManagerAPI Σ} turns (cfg cfg' : config (Σ:=Σ)) :
  schedule turns cfg = Some cfg' → successors cfg' = [] →
  rtc step cfg cfg' ∧ nf step cfg'.
Proof. intros Hs Hnf. split; [by eapply schedule_steps|by apply successors_nf]. Qed.

Lemma overlap_keeps_invariants_witness :
  store_consistent (scheduled [0; 0; 0; 0; 0; 1; 1; 1] two_creates).2 ∧
  extends two_creates.2 (scheduled [0; 0; 0; 0; 0; 1; 1; 1] two_creates).2.
Proof.
  apply overlap_keeps_invariants; [by_compute|].
  apply (schedule_steps [0; 0; 0; 0; 0; 1; 1; 1]). by vm_compute.
Defined.

Lemma overlapping_creates_witness :
  created_once (scheduled [0; 0; 0; 0; 0; 1; 1; 1] two_creates).
Proof.
  destruct (schedule_end [0; 0; 0; 0; 0; 1; 1; 1] two_creates
              (scheduled [0; 0; 0; 0; 0; 1; 1; 1] two_creates)) as [Hrtc Hnf];
    [by vm_compute..|].
  by apply overlapping_creates.
Defined.

Lemma overlapping_finishes_witness : promoted_once (scheduled [0; 0; 0; 1] two_finishes).
Proof.
  destruct (schedule_end [0; 0; 0; 1] two_finishes (scheduled [0; 0; 0; 1] two_finishes))
    as [Hrtc Hnf]; [by vm_compute..|].
  by apply overlapping_finishes.
Defined.

(** The finishSecret invocation runs first: the stranded end. *)
Lemma overlapping_steps_witness :
  finished_or_stranded (scheduled [1; 1; 1; 0] create_and_finish).
Proof.
  destruct (schedule_end [1; 1; 1; 0] create_and_finish
              (scheduled [1; 1; 1; 0] create_and_finish)) as [Hrtc Hnf];
    [by vm_compute..|].
  by apply overlapping_steps.
Defined.

(** The refusal does occur: both invocations find the version without
    value, both generate a password, the second put is refused. *)
Lemma overlapping_creates_refusal :
  outcomes (scheduled [0; 0; 0; 1; 1; 1; 0; 0; 1; 1] two_creates) =
  [Finished Succeeded;
   Finished (Failed (Error (ResourceExists "the version has another value")))].
Proof. by vm_compute. Qed.

(** The stranded end does occur: finishSecret runs before createSecret. *)
Lemma overlapping_steps_stranded :
  version_at (scheduled [1; 1; 1; 0] create_and_finish).2 "db-pwd" "v2" =
  Some (Version None [AWSCURRENT; AWSPENDING]).
Proof. by vm_compute. Qed.

(** The createSecret invocation of the scenario, stopped after its fourth
    call: the password has been generated and not been stored. *)
Lemma stopped_invocation_is_atomic_witness :
  secrets (scheduled [0; 0; 0; 0] ([spawn id (scenario_event "createSecret")], scenario_store)).2 =
    secrets scenario_store ∨
  (scheduled [0; 0; 0; 0] ([spawn id (scenario_event "createSecret")], scenario_store)).2 =
    (main id (scenario_event "createSecret") scenario_store).2.
Proof.
  apply stopped_invocation_is_atomic, (schedule_steps [0; 0; 0; 0]). by vm_compute.
Defined.

(** The two steps of the scenario at once, finishSecret first, beside a
    secret that neither names. *)
Lemma overlap_only_named_secrets_witness :
  secrets (scheduled [1; 1; 1; 0] (create_and_finish.1, two_secrets)).2 !! "api-key" =
  secrets (create_and_finish.1, two_secrets).2 !! "api-key".
Proof.
  apply overlap_only_named_secrets; [by repeat constructor|].
  apply (schedule_steps [1; 1; 1; 0]). by vm_compute.
Defined.

(** The createSecret invocation of the scenario at its fifth turn, about
    to store the password, and the store refusing. *)
Lemma invocation_is_one_run_witness :
  run_calls scenario_writer !! length (heard scenario_writer) =
    Some (PutSecretValueCall
            (put_pending_request (Some "db-pwd") (Some "v2") (Some scenario_password))) ∧
  take (S (length (heard scenario_writer)))
    (run_calls
       (hear (PutSecretValueAnswer (inr (ResourceExists "the version has another value")))
          scenario_writer)) =
    take (S (length (heard scenario_writer))) (run_calls scenario_writer) ∧
  (mutating (PutSecretValueCall
               (put_pending_request (Some "db-pwd") (Some "v2") (Some scenario_password))) =
     true →
   ∃ r, poll (hear (PutSecretValueAnswer (inr (ResourceExists "the version has another value")))
                scenario_writer) = Finished r).
Proof. apply invocation_is_one_run. by vm_compute. Defined.
