(* ===== verification/Converge.v ===== *)
(** * Convergence of overlapping invocations

    However many invocations overlap and however often events are
    delivered again, a consistent store is changed finitely often: every
    turn that changes a secret settles one unit of the work left on the
    version labelled AWSPENDING ([remaining]), so a store of [k] secrets
    is changed at most [2 * k] times, whatever the size of the pool.  An
    invocation writes long after it has validated its event, on a store
    that other invocations have changed since; what keeps its check valid
    is that no call of the program takes the label AWSPENDING off a
    version.  An invocation also writes once at most, at its last turn,
    so the changes are no more than the invocations. *)

From stdpp Require Import base tactics option list strings gmap relations.
From S2P Require Import Prelude GoRuntime SecretsManager Store Validator.
From S2P Require Import CreateSecret FinishSecret Handler Rotation Progress.
From S2P Require Import Replay Concurrent.

Open Scope prog_scope.

(** * Definitions *)

(** The version [tok] of the secret [arn] carries AWSPENDING. *)
Definition tagged (σ : store) (arn tok : string) : Prop :=
  ∃ s, secrets σ !! arn = Some s ∧ tok ∈ dom (holders AWSPENDING (versions s)).

(** What an invocation has learnt from the first answer it received, the
    description of its secret: the versions that carry AWSPENDING. *)
Definition learnt (t : thread) (tok : string) : Prop :=
  ∃ desc stages,
    head (heard t) = Some (DescribeSecretAnswer (inl desc)) ∧
    DescribeSecretOutput.VersionIdsToStages desc !! tok = Some stages ∧
    Some AWSPENDING ∈ range_slice stages.

(** What the invocation has learnt is still true of the store. *)
Definition informed (σ : store) (t : thread) : Prop :=
  ∀ tok, learnt t tok → ∃ arn, Arn (delivered t) = Some arn ∧ tagged σ arn tok.

(** The pools whose invocations know nothing that is false, on a
    consistent store. *)
Definition sound (cfg : config (Σ:=store)) : Prop :=
  store_consistent cfg.2 ∧ Forall (informed cfg.2) cfg.1.

(** The pools none of whose events has the empty string as its token:
    the empty string is what [finishSecret] takes for the current version
    when it finds none. *)
Definition named (cfg : config (Σ:=store)) : Prop :=
  Forall (λ t, Token (delivered t) ≠ Some EmptyString) cfg.1.

(** A turn that changes a secret, after any number of turns. *)
Definition write_turn : relation (config (Σ:=store)) :=
  λ cfg cfg', ∃ mid, rtc step cfg mid ∧ step mid cfg' ∧ secrets cfg'.2 ≠ secrets mid.2.

(** * What the next call of an invocation tells *)

Section next_call.
Implicit Types (t : thread) (c : api_call) (req : SecretsManagerEvent).

(** The first call of an invocation describes the secret of its event. *)
Lemma poll_fresh t c :
  heard t = [] → poll t = Waiting c →
  c = DescribeSecretCall (describe_request (Arn (delivered t))).
Proof.
  intros Hrs. unfold poll. rewrite Hrs, main_run.
  erewrite HandleRequest_run_rejected by (by apply validate_describe_failed).
  simpl. by intros [= <-].
Qed.

(** The replaying client answers a describe call with a description only
    when that is the answer it has to read. *)
Lemma replay_described i rs desc ρ :
  DescribeSecret i (Replay rs None) = (inl desc, ρ) →
  head rs = Some (DescribeSecretAnswer (inl desc)).
Proof. destruct rs as [|[[]| | | |] rs]; simpl; by intros [= <- _]. Qed.

(** An invocation that is about to write has passed the validation: the
    description it received shows its token with AWSPENDING; and its call
    is the put of [createSecret] or the update of [finishSecret]. *)
Lemma poll_write t c :
  poll t = Waiting c → mutating c = true →
  step_mutation (delivered t) c ∧
  ∃ tok, Token (delivered t) = Some tok ∧ learnt t tok.
Proof.
  destruct t as [req order rs]. intros Hb%poll_run_call Hmut.
  unfold run_calls in Hb. simpl in Hb. split.
  - destruct (HandleRequest_issues order req (boot (Replay rs None))) as (tr & Htr & _ & HP).
    rewrite Htr in Hb. simpl in Hb.
    eapply Forall_forall; [exact HP|]. apply list_elem_of_filter.
    split; [done|by eapply list_elem_of_lookup_2].
  - destruct (validate req (boot (Replay rs None))) as [[[err|]|p] w1] eqn:Hv.
    2: { apply validate_passed in Hv as (desc & ρ1 & tok & stages & Hd & ? & ? & ?).
         apply replay_described in Hd. exists tok. split; [done|]. by exists desc, stages. }
    all: exfalso; destruct (validate_single_describe req (boot (Replay rs None))) as [Hcalls _];
      rewrite Hv, new_calls_boot in Hcalls; simpl in Hcalls.
    + rewrite (HandleRequest_run_rejected _ _ _ _ _ Hv) in Hb. simpl in Hb.
      rewrite Hcalls in Hb. by apply list_lookup_singleton_Some in Hb as [_ <-].
    + rewrite (HandleRequest_run_panicked _ _ _ _ _ Hv) in Hb. simpl in Hb.
      rewrite Hcalls in Hb. by apply list_lookup_singleton_Some in Hb as [_ <-].
Qed.

End next_call.

(** * What the store keeps *)

Section store_facts.
Implicit Types (σ : store) (c : api_call) (req : SecretsManagerEvent).

Lemma tagged_secrets σ σ' arn tok :
  secrets σ' = secrets σ → tagged σ arn tok → tagged σ' arn tok.
Proof. unfold tagged. by intros ->. Qed.

(** No call of the program takes AWSPENDING off a version. *)
Lemma respond_keeps_tagged req c σ arn tok :
  mutating c = false ∨ step_mutation req c →
  tagged σ arn tok → tagged (respond c σ).2 arn tok.
Proof.
  intros Hc (s & Hs & Htok). destruct Hc as [Hread|[[pwd ->]|(cv & _ & ->)]].
  - eapply tagged_secrets; [by apply respond_read_secrets|by exists s].
  - by apply store_PutSecretValue_keeps_label with s.
  - by apply store_UpdateSecretVersionStage_keeps_label with s.
Qed.

(** A version that a description shows with AWSPENDING carries it. *)
Lemma describe_tagged Arn σ desc tok stages :
  (store_DescribeSecret (describe_request Arn) σ).1 = inl desc →
  DescribeSecretOutput.VersionIdsToStages desc !! tok = Some stages →
  Some AWSPENDING ∈ range_slice stages →
  ∃ arn, Arn = Some arn ∧ tagged σ arn tok.
Proof.
  unfold store_DescribeSecret. simpl. destruct Arn as [arn|]; [|done].
  destruct (secrets σ !! arn) as [s|] eqn:Hs; [|done]. simpl. intros [= <-]. simpl.
  rewrite describe_versions_lookup. destruct (versions s !! tok) as [v|] eqn:Hv; [|done].
  simpl. case_decide; [done|]. intros [= <-]. simpl.
  intros (st & [= <-] & Hst)%list_elem_of_fmap.
  exists arn. split; [done|]. exists s. split; [done|]. apply elem_of_holders. eauto.
Qed.

End store_facts.

(** * The work a write settles *)

Section settle.
Implicit Types (σ : store) (c : api_call) (t : thread).

(** The put of [createSecret] on a version that carries AWSPENDING
    changes nothing or settles one unit. *)
Lemma put_settles σ arn tok pwd :
  store_consistent σ → tagged σ arn tok →
  secrets (store_PutSecretValue (put_pending_request (Some arn) (Some tok) pwd) σ).2 =
    secrets σ ∨
  remaining (store_PutSecretValue (put_pending_request (Some arn) (Some tok) pwd) σ).2 <
    remaining σ.
Proof.
  intros Hσ (s & Hs & (v & Hv & Hpend)%elem_of_holders).
  destruct (store_PutSecretValue _ σ) as [[out|err] σ'] eqn:Hput; simpl;
    [|left; by apply store_PutSecretValue_refused in Hput as ->].
  destruct (Hσ arn s Hs) as [Hone _].
  apply store_PutSecretValue_done in Hput
    as (arn' & tok' & val & sts & s' & [= <-] & [= <-] & _ & Hsts & Hs' & Hval & _ & ->).
  rewrite put_pending_stages in Hsts. simplify_eq. rewrite Hv in Hval. simpl in Hval.
  destruct (value v) as [val'|] eqn:Hvalue.
  - left. apply elem_of_cons in Hval as [[=]|[= ->]%list_elem_of_singleton].
    rewrite (put_version_stages tok val AWSPENDING (versions s) v) by done.
    destruct s as [en vs], v as [val' sts]; simplify_eq/=.
    by rewrite (insert_id vs), insert_id.
  - right.
    pose proof (put_remaining (rotation_enabled s) (versions s) tok v val
                  Hone Hv Hpend Hvalue).
    pose proof (remaining_set_versions arn s
                  (put_version tok val [AWSPENDING] (versions s)) σ Hs).
    destruct s; simpl in *; lia.
Qed.

(** The update of [finishSecret] towards a version that carries
    AWSPENDING, from another version, is refused or settles one unit. *)
Lemma promote_settles σ arn tok cv :
  store_consistent σ → tagged σ arn tok → cv ≠ tok →
  secrets (store_UpdateSecretVersionStage (promote_request (Some arn) (Some tok) cv) σ).2 =
    secrets σ ∨
  remaining (store_UpdateSecretVersionStage (promote_request (Some arn) (Some tok) cv) σ).2 <
    remaining σ.
Proof.
  intros Hσ (s & Hs & Htok) Hne. pose proof Htok as (v & Hv & Hpend)%elem_of_holders.
  destruct (store_UpdateSecretVersionStage _ σ) as [[out|err] σ'] eqn:Hupd; simpl;
    [|left; by apply store_UpdateSecretVersionStage_refused in Hupd as ->].
  apply (store_promote_promoted arn tok cv s) in Hupd as [Hkey ->]; [|done].
  right. destruct (Hσ arn s Hs) as [Hone _].
  assert (AWSCURRENT ∉ stages v) as Hcur.
  { intros Hcur. apply Hne.
    pose proof (holder_unique AWSCURRENT _ cv Hone Hkey) as Hcv.
    rewrite (holder_unique AWSCURRENT _ tok Hone) in Hcv; [congruence|].
    apply elem_of_holders. eauto. }
  pose proof (promoted_remaining_label (rotation_enabled s) (versions s) tok cv v
                Hone Hv Hpend Hcur Hkey).
  pose proof (remaining_set_versions arn s (promoted tok cv (versions s)) σ Hs).
  destruct s; simpl in *; lia.
Qed.

End settle.

(** * Turns *)

Section turns.
Implicit Types (σ : store) (cfg : config (Σ:=store)) (t : thread) (c : api_call).

(** The call of a turn is a read or one of the two writes of the program. *)
Lemma poll_call t c :
  poll t = Waiting c → mutating c = false ∨ step_mutation (delivered t) c.
Proof. intros Hc. destruct (mutating c) eqn:Hm; [right; by apply poll_write|by left]. Qed.

(** What an invocation has learnt does not change with later answers. *)
Lemma learnt_hear a t tok : heard t ≠ [] → learnt (hear a t) tok → learnt t tok.
Proof. unfold learnt, hear. simpl. by destruct (heard t). Qed.

(** The store after the call of a turn: what the invocations knew is
    still true of it. *)
Lemma informed_respond σ t t' c :
  poll t = Waiting c → informed σ t' → informed (respond c σ).2 t'.
Proof.
  intros Hc Ht' tok (arn & ? & ?)%Ht'. exists arn. split; [done|].
  eapply respond_keeps_tagged; [by apply poll_call|done].
Qed.

(** The invocation that receives the answer: what it knows is true. *)
Lemma hear_informed σ t c :
  poll t = Waiting c → informed σ t →
  informed (respond c σ).2 (hear (respond c σ).1 t).
Proof.
  intros Hc Ht. destruct (decide (heard t = [])) as [Hrs|Hrs].
  - rewrite (poll_fresh t c Hrs Hc). intros tok (desc & stages & Hhd & Hst & Hin).
    unfold hear in Hhd. simpl in Hhd. rewrite Hrs in Hhd. injection Hhd as Ha.
    destruct (describe_tagged _ σ desc tok stages Ha Hst Hin) as (arn & ? & ?).
    exists arn. split; [done|]. eapply tagged_secrets; [|done].
    by apply respond_read_secrets.
  - intros tok Htok%learnt_hear; [|done]. by apply (informed_respond σ t t c Hc Ht).
Qed.

Lemma step_sound cfg cfg' : sound cfg → step cfg cfg' → sound cfg'.
Proof.
  intros [Hσ Hpool] Hstep. destruct Hstep as [pool σ i t c Ht Hc]. simpl in *.
  split; simpl; [by apply (respond_keeps store_consistent)|].
  pose proof (Forall_lookup_1 _ _ _ _ Hpool Ht). apply Forall_insert.
  - eapply Forall_impl; [done|]. intros t' ?. by eapply informed_respond.
  - by apply hear_informed.
Qed.

Lemma step_named cfg cfg' : named cfg → step cfg cfg' → named cfg'.
Proof.
  intros Hpool Hstep. destruct Hstep as [pool σ i t c Ht Hc].
  pose proof (Forall_lookup_1 _ _ _ _ Hpool Ht). by apply Forall_insert.
Qed.

Lemma steps_named cfg cfg' : named cfg → rtc step cfg cfg' → named cfg'.
Proof. intros Hs Hsteps. induction Hsteps; eauto using step_named. Qed.

Lemma steps_sound cfg cfg' : sound cfg → rtc step cfg cfg' → sound cfg'.
Proof. intros Hs Hsteps. induction Hsteps; eauto using step_sound. Qed.

(** A turn changes no secret or settles one unit of the work left. *)
Lemma step_settles cfg cfg' :
  sound cfg → named cfg → step cfg cfg' →
  secrets cfg'.2 = secrets cfg.2 ∨ remaining cfg'.2 < remaining cfg.2.
Proof.
  intros [Hσ Hpool] Hnamed Hstep. destruct Hstep as [pool σ i t c Ht Hc]. simpl in *.
  pose proof (Forall_lookup_1 _ _ _ _ Hpool Ht) as Hinf.
  pose proof (Forall_lookup_1 _ _ _ _ Hnamed Ht) as Hne. simpl in Hne.
  destruct (mutating c) eqn:Hm; [|left; by apply respond_read_secrets].
  destruct (poll_write t c Hc Hm) as [Hshape (tok & Htok & (arn & Harn & Htag)%Hinf)].
  rewrite Htok in Hne.
  destruct Hshape as [[pwd ->]|(cv & Hcv & ->)]; rewrite Harn, Htok; simpl.
  - by apply put_settles.
  - apply promote_settles; [done..|]. destruct Hcv as [->|Hcv]; congruence.
Qed.

(** A turn that changes a secret is the last turn of its invocation. *)
Lemma write_step_unfinished cfg cfg' :
  step cfg cfg' → secrets cfg'.2 ≠ secrets cfg.2 →
  S (pool_unfinished cfg') = pool_unfinished cfg.
Proof.
  intros Hstep Hne. destruct Hstep as [pool σ i t c Ht Hc]. simpl in *.
  destruct (mutating c) eqn:Hm; [|by rewrite respond_read_secrets in Hne].
  destruct (poll_after_write t c (respond c σ).1 Hc Hm) as [r Hr].
  pose proof (sum_list_with_insert unfinished pool i t (hear (respond c σ).1 t) Ht) as Hsum.
  unfold pool_unfinished, unfinished in *. simpl. rewrite Hc, Hr in Hsum. lia.
Qed.

Lemma write_turn_unfinished cfg cfg' :
  write_turn cfg cfg' → S (pool_unfinished cfg') ≤ pool_unfinished cfg.
Proof.
  intros (mid & Hsteps%steps_unfinished & Hstep & Hne).
  pose proof (write_step_unfinished _ _ Hstep Hne). lia.
Qed.

(** An invocation writes once at most: the writes are no more than the
    invocations that had not finished. *)
Lemma write_turns_unfinished n cfg cfg' :
  nsteps write_turn n cfg cfg' → n + pool_unfinished cfg' ≤ pool_unfinished cfg.
Proof.
  induction 1 as [|n c1 c2 c3 Hturn%write_turn_unfinished _ IH]; simpl; lia.
Qed.

(** The work left never grows. *)
Lemma steps_remaining cfg cfg' :
  sound cfg → named cfg → rtc step cfg cfg' → remaining cfg'.2 ≤ remaining cfg.2.
Proof.
  intros Hs Hn Hsteps. induction Hsteps as [cfg|cfg cfg1 cfg2 Hstep _ IH]; [done|].
  pose proof (IH (step_sound _ _ Hs Hstep) (step_named _ _ Hn Hstep)).
  destruct (step_settles _ _ Hs Hn Hstep) as [Heq|?]; [|lia].
  unfold remaining in *. rewrite Heq in *. lia.
Qed.

(** A turn that changes a secret settles one unit, whatever turns came
    before it. *)
Lemma write_turn_settles cfg cfg' :
  sound cfg → named cfg → write_turn cfg cfg' →
  sound cfg' ∧ named cfg' ∧ remaining cfg'.2 < remaining cfg.2.
Proof.
  intros Hs Hn (mid & Hsteps & Hstep & Hne).
  pose proof (steps_sound _ _ Hs Hsteps) as Hmid.
  pose proof (steps_named _ _ Hn Hsteps) as Hnmid.
  pose proof (steps_remaining _ _ Hs Hn Hsteps).
  split; [by eapply step_sound|]. split; [by eapply step_named|].
  destruct (step_settles _ _ Hmid Hnmid Hstep); [done|lia].
Qed.

Lemma write_turns_settle n cfg cfg' :
  sound cfg → named cfg → nsteps write_turn n cfg cfg' →
  n + remaining cfg'.2 ≤ remaining cfg.2.
Proof.
  intros Hs Hn Hsteps. induction Hsteps as [cfg|n cfg cfg1 cfg2 Hturn _ IH]; [done|].
  destruct (write_turn_settles _ _ Hs Hn Hturn) as (Hs1 & Hn1 & ?).
  specialize (IH Hs1 Hn1). lia.
Qed.

(** A pool of fresh invocations knows nothing yet. *)
Lemma fresh_sound cfg :
  store_consistent cfg.2 → Forall (λ t, heard t = []) cfg.1 → sound cfg.
Proof.
  intros Hσ Hpool. split; [done|]. eapply Forall_impl; [done|].
  intros t Hrs tok (desc & stages & Hhd & _). by rewrite Hrs in Hhd.
Qed.

End turns.

(** Turns that change a secret cannot go on for ever. *)
Lemma write_turn_sn (cfg : config (Σ:=store)) :
  sound cfg → named cfg → sn write_turn cfg.
Proof.
  intros Hs Hn. remember (remaining cfg.2) as k eqn:Hk. revert cfg Hs Hn Hk.
  induction (lt_wf k) as [k _ IH]. intros cfg Hs Hn ->. constructor. intros cfg' Hturn.
  destruct (write_turn_settles _ _ Hs Hn Hturn) as (Hs' & Hn' & Hlt). by eapply IH.
Qed.

(** * Theorems *)

(** Overlapping invocations change a consistent store
    finitely often, however many they are.  From a consistent store and a
    pool of fresh invocations, none with the empty string as token, under
    every interleaving: the turns that change a secret are strongly
    normalising; [n] of them lower the work left on the pending versions
    by at least [n]; and that work is at most two units for each secret,
    a bound that does not depend on the size of the pool.  They are also
    no more than the invocations, since an invocation writes once at
    most. *)
Theorem overlap_converges (cfg : config (Σ:=store)) :
  store_consistent cfg.2 → Forall (λ t, heard t = []) cfg.1 → named cfg →
  sn write_turn cfg ∧
  remaining cfg.2 ≤ 2 * size (secrets cfg.2) ∧
  ∀ n cfg', nsteps write_turn n cfg cfg' →
            n + remaining cfg'.2 ≤ remaining cfg.2 ∧ n ≤ length cfg.1.
Proof.
  intros Hσ Hpool Hn. pose proof (fresh_sound cfg Hσ Hpool) as Hs.
  split; [by apply write_turn_sn|]. split; [apply remaining_bound|].
  intros n cfg' Hturns. split; [by apply write_turns_settle|].
  pose proof (write_turns_unfinished _ _ _ Hturns).
  pose proof (pool_unfinished_bound cfg). lia.
Qed.

(** C25 (invariant): what an invocation checked is still true when it
    writes.  From a consistent store and a pool of fresh invocations,
    under every interleaving, an invocation whose next call is a write
    names a secret and a token, the token's version carries AWSPENDING in
    the store as it is at that turn, whatever the other invocations
    have done since the validation, and the write is the put of
    [createSecret] or the update of [finishSecret] for that token. *)
Theorem overlap_write_is_checked (cfg cfg' : config (Σ:=store)) i t c :
  store_consistent cfg.2 → Forall (λ t, heard t = []) cfg.1 →
  rtc step cfg cfg' → cfg'.1 !! i = Some t → poll t = Waiting c → mutating c = true →
  step_mutation (delivered t) c ∧
  ∃ arn tok, Arn (delivered t) = Some arn ∧ Token (delivered t) = Some tok ∧
             tagged cfg'.2 arn tok.
Proof.
  intros Hσ Hpool Hsteps Ht Hc Hm.
  destruct (steps_sound _ _ (fresh_sound cfg Hσ Hpool) Hsteps) as [_ Hpool'].
  pose proof (Forall_lookup_1 _ _ _ _ Hpool' Ht) as Hinf.
  destruct (poll_write t c Hc Hm) as [Hshape (tok & Htok & (arn & Harn & Htag)%Hinf)].
  split; [done|]. by exists arn, tok.
Qed.

(** * Instances *)

Lemma overlap_converges_witness :
  sn write_turn create_and_finish ∧
  remaining create_and_finish.2 ≤ 2 * size (secrets create_and_finish.2) ∧
  ∀ n cfg', nsteps write_turn n create_and_finish cfg' →
            n + remaining cfg'.2 ≤ remaining create_and_finish.2 ∧
            n ≤ length create_and_finish.1.
Proof. apply overlap_converges; [by_compute|by repeat constructor..]. Defined.

(** The createSecret invocation of the scenario about to store the
    password, after finishSecret has moved AWSCURRENT to its version. *)
Lemma overlap_write_is_checked_witness :
  step_mutation (scenario_event "createSecret")
    (PutSecretValueCall
       (put_pending_request (Some "db-pwd") (Some "v2") (Some scenario_password))) ∧
  ∃ arn tok, Arn (scenario_event "createSecret") = Some arn ∧
             Token (scenario_event "createSecret") = Some tok ∧
             tagged (scheduled [0; 0; 0; 0; 1; 1; 1] create_and_finish).2 arn tok.
Proof.
  apply (overlap_write_is_checked create_and_finish
           (scheduled [0; 0; 0; 0; 1; 1; 1] create_and_finish) 0
           (Thread (scenario_event "createSecret") id
              (default [] (heard <$> (scheduled [0; 0; 0; 0] create_and_finish).1 !! 0))));
    [by_compute|by repeat constructor| |by vm_compute..].
  apply (schedule_steps [0; 0; 0; 0; 1; 1; 1]). by vm_compute.
Defined.

(** The turns of a schedule, then a turn that changes a secret. *)
Lemma schedule_write_turn turns i (cfg mid cfg' : config (Σ:=store)) :
  schedule turns cfg = Some mid → turn i mid = Some cfg' →
  secrets cfg'.2 ≠ secrets mid.2 → write_turn cfg cfg'.
Proof. exists mid. eauto using schedule_steps, turn_step. Qed.

(** The bound is reached: the two steps of the scenario at once settle
    the two units of work that are left, in two writes. *)
Lemma overlap_bound_reached :
  remaining create_and_finish.2 = 2 ∧
  nsteps write_turn 2 create_and_finish
    (scheduled [0; 0; 0; 0; 0; 1; 1; 1] create_and_finish).
Proof.
  split; [by vm_compute|].
  apply nsteps_l with (scheduled [0; 0; 0; 0; 0] create_and_finish).
  { apply (schedule_write_turn [0; 0; 0; 0] 0 _
             (scheduled [0; 0; 0; 0] create_and_finish)); [by vm_compute..|by_compute]. }
  apply nsteps_once.
  apply (schedule_write_turn [1; 1] 1 _
           (scheduled [0; 0; 0; 0; 0; 1; 1] create_and_finish)); [by vm_compute..|by_compute].
Qed.
