(* ===== verification/Scheduler.v ===== *)
(** * The scheduler of a rotation, and the steps a deployment plugs in

    The specification asks of the scheduler that it deliver the steps of
    a rotation in order, createSecret, setSecret, testSecret,
    finishSecret, and the next one only after the previous one has
    succeeded; it may deliver a step any number of times.  This file
    states that scheduler as a step relation over the phase of a rotation
    and the store ([ordered]) and composes it with the program.

    The steps setSecret and testSecret talk to the system the secret
    protects; the source leaves them as placeholders that panic, and the
    specification asks that they be pluggable.  The handler is therefore
    taken here with the two steps as parameters ([HandleRequest_with]);
    with the placeholders of the source it is the handler of [Handler].

    Under the ordered scheduler, with any downstream steps that leave the
    secrets alone, a consumer of the secret always reads a value: the old
    one, or the new one once finishSecret has moved the label.  With the
    placeholders of the source the rotation never gets past setSecret.
    And the scheduler can be told that a rotation has finished although
    the label has not moved. *)

From stdpp Require Import base tactics option list strings gmap relations.
From S2P Require Import Prelude GoRuntime SecretsManager Store Validator.
From S2P Require Import CreateSecret FinishSecret Handler Rotation Progress.

Open Scope prog_scope.

(** * Definitions *)

(** A step of the rotation that runs against the protected system. *)
Definition downstream (Σ : Type) : Type := option string → option string → sm Σ unit.

Section pluggable.
Context `{SecretsManagerAPI Σ} (set test : downstream Σ).

(** The switch of lines 60-73 with the two steps as parameters. *)
Definition dispatch_with order req : sm Σ (option error) :=
  step <- deref (Step req) ;;
  if decide (step = "createSecret") then
    createSecret (Arn req) (Token req) ;;; ret None
  else if decide (step = "setSecret") then
    set (Arn req) (Token req) ;;; ret None
  else if decide (step = "testSecret") then
    test (Arn req) (Token req) ;;; ret None
  else if decide (step = "finishSecret") then
    finishSecret order (Arn req) (Token req) ;;; ret None
  else ret (Some err_invalid_step).

Definition HandleRequest_with order req : sm Σ (option error) :=
  e <- validate req ;;
  match e with
  | Some err => ret (Some err)
  | None => dispatch_with order req
  end.

Definition main_with order req (σ : Σ) : response * Σ :=
  match HandleRequest_with order req (boot σ) with
  | (Returned None, w) => (Succeeded, remote w)
  | (Returned (Some err), w) => (Failed (Error err), remote w)
  | (Panicked p, w) => (Failed (panic_message p), remote w)
  end.

End pluggable.

(** A downstream step that does nothing, and one that checks that the
    pending value can be read. *)
Definition skip `{SecretsManagerAPI Σ} : downstream Σ := λ _ _, ret tt.

Definition check_pending `{SecretsManagerAPI Σ} : downstream Σ := λ Arn Token,
  r <- svc_GetSecretValue (get_pending_request Arn Token) ;;
  match r with
  | inr err => panic (PanicError err)
  | inl _ => ret tt
  end.

(** What is asked of a downstream step: it leaves the secrets of the
    store as they are. *)
Class Downstream (h : downstream store) : Prop :=
  downstream_secrets Arn Token w : secrets (remote (h Arn Token w).2) = secrets (remote w).

(** What makes a downstream step a working one: it returns whenever the
    pending value of the token can be read. *)
Class Accepts (h : downstream store) : Prop :=
  accepts arn tok s w :
    secrets (remote w) !! arn = Some s → pending_for s tok →
    is_Some (versions s !! tok ≫= value) →
    ∃ w', h (Some arn) (Some tok) w = (Returned tt, w').

(** The phases of a rotation: the step the scheduler delivers next, or
    none once the rotation has finished for it. *)
Inductive phase : Type :=
| AtCreate
| AtSet
| AtTest
| AtFinish
| Rotated.

#[export] Instance phase_eq_dec : EqDecision phase.
Proof. solve_decision. Defined.

Definition step_of (p : phase) : option string :=
  match p with
  | AtCreate => Some "createSecret"
  | AtSet => Some "setSecret"
  | AtTest => Some "testSecret"
  | AtFinish => Some "finishSecret"
  | Rotated => None
  end.

Definition after (p : phase) : phase :=
  match p with
  | AtCreate => AtSet
  | AtSet => AtTest
  | AtTest => AtFinish
  | AtFinish | Rotated => Rotated
  end.

(** The value a consumer of the secret reads. *)
Definition serves (s : secret) (val : string) : Prop :=
  select_version None (Some AWSCURRENT) (versions s) ≫= value = Some val.

Section ordered.
Context (set test : downstream store) (arn tok : string).

(** The scheduler of a rotation of [arn] for the token [tok].  It
    delivers the event of the phase, under any iteration order, any
    number of times; it moves to the next phase with a delivery that
    succeeded. *)
Inductive ordered : relation (phase * store) :=
| ordered_again p name order σ :
    step_of p = Some name →
    ordered (p, σ) (p, (main_with set test order (step_event arn tok name) σ).2)
| ordered_next p name order σ σ' :
    step_of p = Some name →
    main_with set test order (step_event arn tok name) σ = (Succeeded, σ') →
    ordered (p, σ) (after p, σ').

(** A scheduler that delivers each step until it succeeds, and no more:
    one delivery for each iteration order of the list. *)
Definition deliver_next (order : list string → list string) (st : phase * store)
    : phase * store :=
  match step_of st.1 with
  | None => st
  | Some name =>
      let out := main_with set test order (step_event arn tok name) st.2 in
      (if decide (out.1 = Succeeded) then after st.1 else st.1, out.2)
  end.

Definition attempt (orders : list (list string → list string)) (st : phase * store)
    : phase * store :=
  foldl (λ st order, deliver_next order st) st orders.

(** The rotation is on course: the store is consistent, rotation is
    enabled, the token's version carries AWSPENDING and, past
    createSecret, has a value; the secret serves its old value [old]
    from a version other than the token's, or, from finishSecret on, the
    token's version holds AWSCURRENT. *)
Definition on_course (old : string) (p : phase) (σ : store) : Prop :=
  store_consistent σ ∧
  ∃ s v, secrets σ !! arn = Some s ∧ rotation_enabled s = Some true ∧
         versions s !! tok = Some v ∧ AWSPENDING ∈ stages v ∧
         (p ≠ AtCreate → is_Some (value v)) ∧
         (serves s old ∧ AWSCURRENT ∉ stages v ∨
          (p = AtFinish ∨ p = Rotated) ∧ AWSCURRENT ∈ stages v).

End ordered.

(** The secret of the scenario as the scheduler finds it. *)
Definition scenario_start : secret := Secret (Some true) scenario_versions.

(** * The handler with pluggable steps *)

Section pluggable_facts.
Context `{SecretsManagerAPI Σ} (set test : downstream Σ).
Implicit Types (w : world Σ api_call) (req : SecretsManagerEvent)
  (order : list string → list string).

(** With the placeholders of the source, the handler of the source. *)
Lemma main_with_source order req (σ : Σ) :
  main_with setSecret testSecret order req σ = main order req σ.
Proof. done. Qed.

(** The steps that are not plugged in are those of the source. *)
Lemma dispatch_with_other order req w :
  Step req ≠ Some "setSecret" → Step req ≠ Some "testSecret" →
  dispatch_with set test order req w = dispatch order req w.
Proof.
  intros Hset Htest. unfold dispatch_with, dispatch, bind.
  destruct (Step req) as [step|]; [simpl|done].
  by repeat case_decide; simplify_eq.
Qed.

Lemma main_with_other order req (σ : Σ) :
  Step req ≠ Some "setSecret" → Step req ≠ Some "testSecret" →
  main_with set test order req σ = main order req σ.
Proof.
  intros Hset Htest. unfold main_with, main, HandleRequest_with, HandleRequest, bind.
  destruct (validate req (boot σ)) as [[[err|]|p] w]; [done| |done].
  by rewrite dispatch_with_other.
Qed.

End pluggable_facts.

(** * Against the store *)

Section on_store.
Context (set test : downstream store).
Implicit Types (σ : store) (s : secret) (req : SecretsManagerEvent)
  (order : list string → list string) (p : phase).

(** An invocation goes through the switch, or it fails and leaves the
    store as it is. *)
Lemma main_with_cases order req σ :
  let w := after_describe req (boot σ) σ in
  main_with set test order req σ =
  match dispatch_with set test order req w with
  | (Returned None, w') => (Succeeded, remote w')
  | (Returned (Some err), w') => (Failed (Error err), remote w')
  | (Panicked p, w') => (Failed (panic_message p), remote w')
  end ∨
  ∃ msg, main_with set test order req σ = (Failed msg, σ).
Proof.
  intros w. unfold main_with, HandleRequest_with, bind.
  destruct (main_cases order req σ) as [(err & -> & _)|[[-> _]|(p & -> & _)]];
    [right|left|right]; by eauto.
Qed.

(** What an invocation for a plugged-in step leaves of the store. *)
Lemma dispatch_with_set order req w :
  Step req = Some "setSecret" →
  dispatch_with set test order req w = (set (Arn req) (Token req) ;;; ret None) w.
Proof. intros Hs. unfold dispatch_with. by rewrite Hs. Qed.

Lemma dispatch_with_test order req w :
  Step req = Some "testSecret" →
  dispatch_with set test order req w = (test (Arn req) (Token req) ;;; ret None) w.
Proof. intros Hs. unfold dispatch_with. by rewrite Hs. Qed.

Lemma main_with_downstream `{!Downstream set, !Downstream test} order req σ :
  Step req = Some "setSecret" ∨ Step req = Some "testSecret" →
  secrets (main_with set test order req σ).2 = secrets σ.
Proof.
  intros Hstep. destruct (main_with_cases order req σ) as [->|[msg ->]]; [|done].
  destruct Hstep as [Hstep|Hstep];
    [rewrite dispatch_with_set by done; pose proof (downstream_secrets (h:=set)) as Hh
    |rewrite dispatch_with_test by done; pose proof (downstream_secrets (h:=test)) as Hh];
    unfold bind;
    specialize (Hh (Arn req) (Token req) (after_describe req (boot σ) σ));
    by destruct (_ (Arn req) (Token req) _) as [[[]|?] ?].
Qed.

End on_store.

(** The steps of the source and the two steps above leave the secrets
    alone. *)
#[export] Instance setSecret_downstream : Downstream setSecret.
Proof. by intros Arn Token w. Qed.

#[export] Instance testSecret_downstream : Downstream testSecret.
Proof. by intros Arn Token w. Qed.

#[export] Instance skip_downstream : Downstream skip.
Proof. by intros Arn Token w. Qed.

#[export] Instance check_pending_downstream : Downstream check_pending.
Proof.
  intros Arn Token w. unfold check_pending, bind, svc_GetSecretValue, call. simpl.
  pose proof (store_GetSecretValue_state (get_pending_request Arn Token) (remote w)) as Hσ.
  destruct (store_GetSecretValue _ _) as [[out|err] σ']; simpl in *; by subst.
Qed.

(** * The invariant of the ordered scheduler *)

Section course.
Context (arn tok old : string).
Implicit Types (σ : store) (s : secret) (order : list string → list string) (p : phase).

Lemma on_course_secrets p σ σ' :
  secrets σ' = secrets σ → on_course arn tok old p σ → on_course arn tok old p σ'.
Proof. unfold on_course, store_consistent. by intros ->. Qed.

(** The invariant of a phase is that of the phases before it, and one
    that holds past createSecret is that of the phases after. *)
Lemma on_course_after p σ :
  p ≠ AtCreate → on_course arn tok old p σ → on_course arn tok old (after p) σ.
Proof.
  intros Hp (Hσ & s & v & Hs & Hen & Hv & Hpend & Hval & Hcur).
  split; [done|]. exists s, v. repeat split; [done..|by auto|].
  destruct Hcur as [?|[Hfin ?]]; [by left|right]. split; [|done].
  destruct p, Hfin; by auto.
Qed.

Lemma on_course_create σ : on_course arn tok old AtSet σ → on_course arn tok old AtCreate σ.
Proof.
  intros (Hσ & s & v & Hs & Hen & Hv & Hpend & Hval & [Hcur|[[?|?] _]]); [|done..].
  split; [done|]. exists s, v. repeat split; by auto.
Qed.

(** The old value is served when the value of another version is
    written. *)
Lemma created_serves s v σ :
  versions s !! tok = Some v → AWSCURRENT ∉ stages v →
  serves s old → serves (created_secret tok s σ) old.
Proof.
  intros Hv Hnot. unfold serves, select_version. simpl.
  rewrite (holder_dom AWSCURRENT (put_version tok (fresh_password σ) [AWSPENDING] (versions s))
             (versions s)) by (apply put_version_holders; compute_done).
  destruct (holder AWSCURRENT (versions s)) as [id|] eqn:Hid; [simpl|done].
  apply holder_Some in Hid as (v' & Hv' & Hcur).
  rewrite put_version_lookup_ne; [done|]. intros ->. by simplify_eq.
Qed.

(** createSecret succeeds, and the token's version has a value
    afterwards. *)
Lemma create_on_course order σ :
  on_course arn tok old AtCreate σ →
  ∃ σ', main order (step_event arn tok "createSecret") σ = (Succeeded, σ') ∧
        on_course arn tok old AtSet σ'.
Proof.
  intros (Hσ & s & v & Hs & Hen & Hv & Hpend & _ & [[Hold Hnot]|[[?|?] _]]); [|done..].
  destruct (Hσ arn s Hs) as [Hone _].
  assert (pending_for s tok) as Hpending by (split; eauto).
  assert (current_readable s) as Hread by (unfold current_readable; by rewrite Hold).
  destruct (value v) as [val|] eqn:Hval.
  - exists σ. split.
    + apply (main_create_present _ tok arn s); [done..|]. rewrite Hv. simpl. by eauto.
    + split; [done|]. exists s, v. rewrite Hval. repeat split; by eauto.
  - exists (created arn tok s σ).
    assert (main order (step_event arn tok "createSecret") σ =
            (Succeeded, created arn tok s σ)) as Hmain
      by (apply (main_create_fresh _ tok arn s); [done..|]; by rewrite Hv).
    split; [done|split].
    + pose proof (main_keeps store_consistent order
                    (step_event arn tok "createSecret") σ Hσ) as Hkeep.
      by rewrite Hmain in Hkeep.
    + exists (created_secret tok s σ), (Version (Some (fresh_password σ)) (stages v)).
      split; [apply created_lookup|]. split; [done|]. split.
      { simpl. rewrite (put_version_stages tok _ AWSPENDING _ v) by done.
        by rewrite lookup_insert_eq. }
      repeat split; [done|by eauto|]. left. split; [|done]. by eapply created_serves.
Qed.

(** finishSecret keeps the invariant: it leaves the store as it is, or
    it moves AWSCURRENT to the token's version, which has a value. *)
Lemma finish_on_course order σ :
  on_course arn tok old AtFinish σ →
  on_course arn tok old AtFinish (main order (step_event arn tok "finishSecret") σ).2.
Proof.
  intros (Hσ & s & v & Hs & Hen & Hv & Hpend & Hval & Hcur).
  pose proof (main_keeps store_consistent order
                (step_event arn tok "finishSecret") σ Hσ) as Hkeep.
  assert (on_course arn tok old AtFinish σ) as Hinv by (split; eauto 10).
  destruct Hcur as [[Hold Hnot]|[_ Hcur]];
    [|by rewrite (main_already_current _ _ tok arn σ s v)].
  destruct (main_finish_effect order (step_event arn tok "finishSecret") tok arn s σ)
    as [->|(key & Hkey & Hmain)]; [done..|split; eauto|done|].
  rewrite Hmain in Hkeep |- *. split; [done|].
  exists (Secret (rotation_enabled s) (promoted tok key (versions s))),
    (Version (value v) (AWSCURRENT :: stages v)).
  split; [apply set_versions_lookup|]. split; [done|].
  split; [by apply promoted_lookup|]. repeat split; [set_solver|done|].
  right. split; [by left|set_solver].
Qed.

(** What a consumer reads in a state that is on course. *)
Lemma on_course_serves p σ :
  on_course arn tok old p σ →
  ∃ s val, secrets σ !! arn = Some s ∧ serves s val ∧
           (p ≠ AtCreate → is_Some (versions s !! tok ≫= value)) ∧
           (val = old ∧ tok ∉ dom (holders AWSCURRENT (versions s)) ∨
            (p = AtFinish ∨ p = Rotated) ∧ holder AWSCURRENT (versions s) = Some tok ∧
            versions s !! tok ≫= value = Some val).
Proof.
  intros (Hσ & s & v & Hs & Hen & Hv & Hpend & Hval & Hcur).
  destruct (Hσ arn s Hs) as [Hone _].
  destruct Hcur as [[Hold Hnot]|[Hp Hcur]].
  - exists s, old. rewrite Hv. repeat split; [done..|left]. split; [done|].
    intros (v' & ? & ?)%elem_of_holders. by simplify_eq.
  - assert (is_Some (value v)) as [val Hvalue] by (apply Hval; by destruct Hp as [-> | ->]).
    assert (holder AWSCURRENT (versions s) = Some tok) as Hholder
      by (apply holder_unique; [done|]; apply elem_of_holders; eauto).
    exists s, val. unfold serves, select_version. simpl. rewrite Hholder. simpl.
    rewrite Hv. simpl. repeat split; by eauto.
Qed.

(** The state in which the scheduler starts a rotation is on course. *)
Lemma start_on_course σ s :
  store_consistent σ → secrets σ !! arn = Some s → pending_for s tok → serves s old →
  on_course arn tok old AtCreate σ.
Proof.
  intros Hσ Hs (Hen & v & Hv & Hpend & Hnot) Hold. split; [done|].
  exists s, v. repeat split; [done..|]. by left.
Qed.

(** Between createSecret and finishSecret the token is pending and has a
    value. *)
Lemma on_course_pending p σ :
  p = AtSet ∨ p = AtTest → on_course arn tok old p σ →
  ∃ s, secrets σ !! arn = Some s ∧ consistent s ∧ pending_for s tok ∧
       is_Some (versions s !! tok ≫= value).
Proof.
  intros Hp (Hσ & s & v & Hs & Hen & Hv & Hpend & Hval & [[_ Hnot]|[[?|?] _]]);
    [|destruct Hp; by subst..].
  exists s. rewrite Hv. split; [done|]. split; [by apply (Hσ arn)|].
  split; [split; by eauto|]. apply Hval. by destruct Hp as [-> | ->].
Qed.

(** Past createSecret, a state on course in which the token's version
    does not hold AWSCURRENT is one that waits for finishSecret. *)
Lemma on_course_unpromoted p σ :
  p ≠ AtCreate → on_course arn tok old p σ →
  (∀ s, secrets σ !! arn = Some s → tok ∉ dom (holders AWSCURRENT (versions s))) →
  on_course arn tok old AtTest σ.
Proof.
  intros Hp (Hσ & s & v & Hs & Hen & Hv & Hpend & Hval & Hcur) Hnot.
  split; [done|]. exists s, v. repeat split; [done..|by auto|left].
  destruct Hcur as [?|[_ Hcur]]; [done|].
  destruct (Hnot s Hs). apply elem_of_holders. eauto.
Qed.

(** finishSecret under an iteration order that visits the holder of
    AWSCURRENT first moves the label; under one that visits the token
    first it reports success and does nothing. *)
Lemma finish_promotes_on_course σ :
  on_course arn tok old AtTest σ →
  ∃ cur σ', main (first_visit cur) (step_event arn tok "finishSecret") σ = (Succeeded, σ') ∧
            on_course arn tok old Rotated σ' ∧
            tok ∈ dom (holders AWSCURRENT (versions (default (Secret None ∅) (secrets σ' !! arn)))).
Proof.
  intros Hinv.
  destruct (on_course_pending AtTest σ (or_intror eq_refl) Hinv)
    as (s & Hs & [Hone [cur Hcur]] & Hpend & Hval).
  apply holder_Some, elem_of_holders in Hcur.
  assert (main (first_visit cur) (step_event arn tok "finishSecret") σ =
          (Succeeded, set_versions arn s (promoted tok cur (versions s)) σ)) as Hmain.
  { apply (main_finish_promotes _ _ tok arn σ s cur); [done..|].
    by apply first_version_first_visit, (has_stages_holder AWSCURRENT). }
  exists cur, (set_versions arn s (promoted tok cur (versions s)) σ). split; [done|].
  pose proof (finish_on_course (first_visit cur) σ
                (on_course_after AtTest σ ltac:(done) Hinv)) as Hfin.
  rewrite Hmain in Hfin. split; [by apply (on_course_after AtFinish)|].
  rewrite set_versions_lookup. simpl. destruct Hpend as (_ & v & Hv & _ & Hnot).
  apply elem_of_holders. eexists. split; [by apply promoted_lookup|set_solver].
Qed.

Lemma finish_skips_on_course σ :
  on_course arn tok old AtTest σ →
  main (first_visit tok) (step_event arn tok "finishSecret") σ = (Succeeded, σ).
Proof.
  intros Hinv.
  destruct (on_course_pending AtTest σ (or_intror eq_refl) Hinv)
    as (s & Hs & _ & Hpend & _).
  rewrite (main_finish _ tok arn s) by done.
  erewrite finishSecret_run_token; [done|exact (store_describe arn σ s Hs)|].
  apply first_version_first_visit, (has_stages_holder AWSPENDING), elem_of_holders.
  destruct Hpend as (_ & v & ? & ? & _). eauto.
Qed.

End course.

(** * Deliveries *)

Section deliveries.
Context (set test : downstream store) `{!Downstream set, !Downstream test}.
Context (arn tok old : string).
Implicit Types (σ : store) (s : secret) (order : list string → list string) (p : phase).

(** A delivery of the step of a phase keeps the invariant of the phase,
    and one that succeeded establishes that of the next. *)
Lemma deliver_on_course p name order σ :
  step_of p = Some name → on_course arn tok old p σ →
  let out := main_with set test order (step_event arn tok name) σ in
  on_course arn tok old p out.2 ∧
  (out.1 = Succeeded → on_course arn tok old (after p) out.2).
Proof.
  intros Hname Hinv. destruct p; simplify_eq/=.
  - rewrite main_with_other by done.
    destruct (create_on_course arn tok old order σ Hinv) as (σ' & -> & Hset).
    split; [by apply on_course_create|done].
  - assert (on_course arn tok old AtSet
              (main_with set test order (step_event arn tok "setSecret") σ).2)
      by (eapply on_course_secrets; [exact (main_with_downstream set test order (step_event arn tok "setSecret") σ
                 (or_introl eq_refl))|done]).
    split; [done|]. intros _. by apply (on_course_after arn tok old AtSet).
  - assert (on_course arn tok old AtTest
              (main_with set test order (step_event arn tok "testSecret") σ).2)
      by (eapply on_course_secrets; [exact (main_with_downstream set test order (step_event arn tok "testSecret") σ
                 (or_intror eq_refl))|done]).
    split; [done|]. intros _. by apply (on_course_after arn tok old AtTest).
  - rewrite main_with_other by done.
    pose proof (finish_on_course arn tok old order σ Hinv). split; [done|].
    intros _. by apply (on_course_after arn tok old AtFinish).
Qed.

Lemma ordered_on_course st st' :
  ordered set test arn tok st st' →
  on_course arn tok old st.1 st.2 → on_course arn tok old st'.1 st'.2.
Proof.
  intros [p name order σ Hname|p name order σ σ' Hname Hmain] Hinv; simpl in *;
    destruct (deliver_on_course p name order σ Hname Hinv) as [Hp Hafter]; [done|].
  rewrite Hmain in Hafter. by apply Hafter.
Qed.

Lemma ordered_rtc_on_course st st' :
  rtc (ordered set test arn tok) st st' →
  on_course arn tok old st.1 st.2 → on_course arn tok old st'.1 st'.2.
Proof. induction 1; eauto using ordered_on_course. Qed.

(** The scheduler that delivers each step once is an ordered one. *)
Lemma deliver_next_ordered order st :
  rtc (ordered set test arn tok) st (deliver_next set test arn tok order st).
Proof.
  destruct st as [p σ]. unfold deliver_next. simpl.
  destruct (step_of p) as [name|] eqn:Hname; [|done].
  destruct (main_with set test order (step_event arn tok name) σ) as [r σ'] eqn:Hmain.
  simpl. apply rtc_once. case_decide as Hr; simplify_eq/=.
  - by eapply ordered_next.
  - replace σ' with (main_with set test order (step_event arn tok name) σ).2
      by by rewrite Hmain.
    by apply ordered_again.
Qed.

Lemma attempt_ordered orders st :
  rtc (ordered set test arn tok) st (attempt set test arn tok orders st).
Proof.
  revert st. induction orders as [|order orders IH]; intros st; [done|].
  unfold attempt. simpl. etrans; [apply deliver_next_ordered|apply IH].
Qed.

End deliveries.

#[export] Instance skip_accepts : Accepts skip.
Proof. intros arn tok s w _ _ _. by eexists. Qed.

#[export] Instance check_pending_accepts : Accepts check_pending.
Proof.
  intros arn tok s w Hs Hpend [val Hval]. eexists.
  unfold check_pending, bind, svc_GetSecretValue, call. simpl.
  change store_GetSecretValue with (GetSecretValue (Σ:=store)).
  by rewrite (pending_value arn tok (remote w) s), Hval.
Qed.

(** * Completing a rotation *)

Section completion.
Context (set test : downstream store).
Context `{!Downstream set, !Downstream test, !Accepts set, !Accepts test}.
Context (arn tok old : string).
Implicit Types (σ : store) (s : secret) (order : list string → list string) (p : phase).

(** A working downstream step succeeds. *)
Lemma downstream_succeeds p name order σ :
  p = AtSet ∨ p = AtTest → step_of p = Some name → on_course arn tok old p σ →
  (main_with set test order (step_event arn tok name) σ).1 = Succeeded.
Proof.
  intros Hp Hname Hinv.
  destruct (on_course_pending arn tok old p σ Hp Hinv) as (s & Hs & _ & Hpend & Hval).
  unfold main_with, HandleRequest_with, bind.
  rewrite (validate_pending _ tok arn s) by done.
  destruct Hp as [-> | ->]; simplify_eq/=.
  - rewrite dispatch_with_set by done. unfold bind. cbn [Arn Token step_event].
    by destruct (accepts (h:=set) arn tok s (after_describe (step_event arn tok "setSecret")
                                                 (boot σ) σ) Hs Hpend Hval) as [w' ->].
  - rewrite dispatch_with_test by done. unfold bind. cbn [Arn Token step_event].
    by destruct (accepts (h:=test) arn tok s (after_describe (step_event arn tok "testSecret")
                                                  (boot σ) σ) Hs Hpend Hval) as [w' ->].
Qed.

(** A delivery of createSecret moves the scheduler on. *)
Lemma deliver_create order σ :
  on_course arn tok old AtCreate σ →
  ∃ σ', deliver_next set test arn tok order (AtCreate, σ) = (AtSet, σ') ∧
        on_course arn tok old AtSet σ'.
Proof.
  intros Hinv.
  destruct (create_on_course arn tok old order σ Hinv) as (σ' & Hmain & Hset).
  exists σ'. split; [|done].
  unfold deliver_next. simpl. by rewrite main_with_other, Hmain, decide_True.
Qed.

(** A delivery of setSecret or testSecret with a working step moves the
    scheduler on and leaves the secret waiting for finishSecret. *)
Lemma deliver_downstream p order σ :
  p = AtSet ∨ p = AtTest → on_course arn tok old p σ →
  ∃ σ', deliver_next set test arn tok order (p, σ) = (after p, σ') ∧
        on_course arn tok old AtTest σ'.
Proof.
  intros Hp Hinv.
  assert (∃ name, step_of p = Some name) as [name Hname] by (destruct Hp as [-> | ->]; eauto).
  destruct (deliver_on_course set test arn tok old p name order σ Hname Hinv) as [Hkeep _].
  unfold deliver_next. cbn [fst snd]. rewrite Hname. cbv zeta.
  rewrite decide_True by by apply (downstream_succeeds p).
  eexists. split; [done|].
  destruct Hp as [-> | ->]; [by apply (on_course_after arn tok old AtSet)|done].
Qed.

(** One delivery of createSecret, setSecret and testSecret, under any
    iteration order, takes the rotation to finishSecret. *)
Lemma attempt_to_finish order1 order2 order3 σ :
  on_course arn tok old AtCreate σ →
  ∃ σ', attempt set test arn tok [order1; order2; order3] (AtCreate, σ) = (AtFinish, σ') ∧
        on_course arn tok old AtTest σ'.
Proof.
  intros Hinv.
  destruct (deliver_create order1 σ Hinv) as (σ1 & Hrun1 & Hinv1).
  destruct (deliver_downstream AtSet order2 σ1) as (σ2 & Hrun2 & Hinv2); [by auto..|].
  destruct (deliver_downstream AtTest order3 σ2) as (σ3 & Hrun3 & Hinv3); [by auto..|].
  exists σ3. split; [|done]. unfold attempt. cbn [foldl].
  rewrite Hrun1, Hrun2. cbn [after]. by rewrite Hrun3.
Qed.

(** From setSecret or testSecret at most two deliveries reach
    finishSecret. *)
Lemma attempt_downstream p order σ :
  p = AtSet ∨ p = AtTest → on_course arn tok old p σ →
  ∃ n σ', n ≤ 2 ∧ attempt set test arn tok (replicate n order) (p, σ) = (AtFinish, σ') ∧
          on_course arn tok old AtTest σ'.
Proof.
  intros [-> | ->] Hinv.
  - destruct (deliver_downstream AtSet order σ) as (σ1 & Hrun1 & Hinv1); [by auto..|].
    destruct (deliver_downstream AtTest order σ1) as (σ2 & Hrun2 & Hinv2); [by auto..|].
    exists 2, σ2. split; [lia|]. unfold attempt. cbn [replicate foldl].
    rewrite Hrun1. cbn [after]. by rewrite Hrun2.
  - destruct (deliver_downstream AtTest order σ) as (σ1 & Hrun1 & Hinv1); [by auto..|].
    exists 1, σ1. split; [lia|]. unfold attempt. cbn [replicate foldl]. by rewrite Hrun1.
Qed.

(** From any phase but the last, as long as the token's version does not
    hold AWSCURRENT, at most three deliveries reach finishSecret. *)
Lemma attempt_reaches_finish p order σ :
  p ≠ Rotated → on_course arn tok old p σ →
  (∀ s, secrets σ !! arn = Some s → tok ∉ dom (holders AWSCURRENT (versions s))) →
  ∃ n σ', n ≤ 3 ∧ attempt set test arn tok (replicate n order) (p, σ) = (AtFinish, σ') ∧
          on_course arn tok old AtTest σ'.
Proof.
  intros Hp Hinv Hnot. destruct p; [| | | |done].
  - destruct (deliver_create order σ Hinv) as (σ1 & Hrun1 & Hset).
    destruct (attempt_downstream AtSet order σ1) as (n & σ' & Hn & Hrun & Hinv');
      [by auto..|].
    exists (S n), σ'. split; [lia|]. split; [|done].
    unfold attempt in *. cbn [replicate foldl]. by rewrite Hrun1.
  - destruct (attempt_downstream AtSet order σ) as (n & σ' & Hn & Hrun & Hinv');
      [by auto..|].
    exists n, σ'. split; [lia|done].
  - destruct (attempt_downstream AtTest order σ) as (n & σ' & Hn & Hrun & Hinv');
      [by auto..|].
    exists n, σ'. split; [lia|done].
  - exists 0, σ. split; [lia|]. split; [done|].
    by apply (on_course_unpromoted arn tok old AtFinish).
Qed.

(** The delivery of finishSecret under an iteration order that visits
    the holder of AWSCURRENT first ends the rotation: the token's version
    holds AWSCURRENT and its value is the one served. *)
Lemma deliver_finish σ :
  on_course arn tok old AtTest σ →
  ∃ cur σ' s' val,
    deliver_next set test arn tok (first_visit cur) (AtFinish, σ) = (Rotated, σ') ∧
    secrets σ' !! arn = Some s' ∧ holder AWSCURRENT (versions s') = Some tok ∧
    versions s' !! tok ≫= value = Some val ∧ serves s' val.
Proof.
  intros Htest.
  destruct (finish_promotes_on_course arn tok old σ Htest) as (cur & σ' & Hmain & Hfin & Htok).
  destruct (on_course_serves arn tok old Rotated σ' Hfin)
    as (s' & val & Hs' & Hval & _ & [[_ Hnot]|(_ & Hholder & Hvalue)]).
  { rewrite Hs' in Htok. by destruct Hnot. }
  exists cur, σ', s', val. split; [|done].
  unfold deliver_next. simpl. rewrite main_with_other, Hmain by done. by rewrite decide_True.
Qed.

(** Deliveries up to finishSecret followed by such a delivery of
    finishSecret end the rotation. *)
Lemma attempt_completes orders st σ :
  attempt set test arn tok orders st = (AtFinish, σ) → on_course arn tok old AtTest σ →
  ∃ cur σ' s' val,
    attempt set test arn tok (orders ++ [first_visit cur]) st = (Rotated, σ') ∧
    secrets σ' !! arn = Some s' ∧ holder AWSCURRENT (versions s') = Some tok ∧
    versions s' !! tok ≫= value = Some val ∧ serves s' val.
Proof.
  intros Hrun Htest.
  destruct (deliver_finish σ Htest) as (cur & σ' & s' & val & Hfin & Hend).
  exists cur, σ', s', val. split; [|done].
  unfold attempt in *. by rewrite foldl_app, Hrun.
Qed.

End completion.

(** * The placeholders of the source *)

Section placeholders.
Context (arn tok : string).
Implicit Types (σ : store) (order : list string → list string) (p : phase).

(** An invocation for setSecret or testSecret never succeeds. *)
Lemma main_placeholder_fails order req σ :
  Step req = Some "setSecret" ∨ Step req = Some "testSecret" →
  (main order req σ).1 ≠ Succeeded.
Proof.
  intros Hstep.
  destruct (main_cases order req σ) as [(err & _ & ->)|[[_ ->]|(p & _ & ->)]]; [done| |done].
  by destruct Hstep as [Hstep|Hstep];
    [rewrite dispatch_set by done|rewrite dispatch_test by done].
Qed.

(** With the placeholders the scheduler never gets past setSecret. *)
Lemma source_ordered_phase st st' :
  ordered setSecret testSecret arn tok st st' →
  st.1 = AtCreate ∨ st.1 = AtSet → st'.1 = AtCreate ∨ st'.1 = AtSet.
Proof.
  intros [p name order σ Hname|p name order σ σ' Hname Hmain]; simpl; [done|].
  intros [-> | ->]; simplify_eq/=; [by right|].
  rewrite main_with_source in Hmain.
  destruct (main_placeholder_fails order (step_event arn tok "setSecret") σ); [by left|].
  by rewrite Hmain.
Qed.

Lemma source_rtc_phase st st' :
  rtc (ordered setSecret testSecret arn tok) st st' →
  st.1 = AtCreate ∨ st.1 = AtSet → st'.1 = AtCreate ∨ st'.1 = AtSet.
Proof. induction 1; eauto using source_ordered_phase. Qed.

End placeholders.

(** * The rotation under the ordered scheduler *)

(** Under the ordered scheduler a consumer of the secret
    always reads a value, whatever the downstream steps do short of
    changing the secrets, however often each step is delivered and
    whatever the iteration orders.  From a consistent store in which the
    token is pending and the secret serves [old], every state the
    scheduler reaches serves [old], the token's version not holding
    AWSCURRENT, or, its phase being finishSecret or later, serves the
    value of the token's version, which holds AWSCURRENT; past
    createSecret the token's version has a value. *)
Theorem ordered_rotation_serves (set test : downstream store)
    `{!Downstream set, !Downstream test} arn tok old σ s p σ' :
  store_consistent σ → secrets σ !! arn = Some s → pending_for s tok → serves s old →
  rtc (ordered set test arn tok) (AtCreate, σ) (p, σ') →
  ∃ s' val, secrets σ' !! arn = Some s' ∧ serves s' val ∧
            (p ≠ AtCreate → is_Some (versions s' !! tok ≫= value)) ∧
            (val = old ∧ tok ∉ dom (holders AWSCURRENT (versions s')) ∨
             (p = AtFinish ∨ p = Rotated) ∧ holder AWSCURRENT (versions s') = Some tok ∧
             versions s' !! tok ≫= value = Some val).
Proof.
  intros Hσ Hs Hpend Hold Hrtc. apply (on_course_serves arn tok old p σ').
  apply (ordered_rtc_on_course set test arn tok old _ _ Hrtc).
  by apply (start_on_course arn tok old σ s).
Qed.

(** With downstream steps that work, that is, return
    whenever the pending value can be read, the scheduler that delivers
    each step once completes the rotation, provided the iteration order
    of the finishSecret invocation visits the holder of AWSCURRENT first:
    four deliveries take it from createSecret to the end, where the
    token's version holds AWSCURRENT and its value is the one served. *)
Theorem ordered_rotation_completes (set test : downstream store)
    `{!Downstream set, !Downstream test, !Accepts set, !Accepts test}
    arn tok old σ s order1 order2 order3 :
  store_consistent σ → secrets σ !! arn = Some s → pending_for s tok → serves s old →
  ∃ cur σ' s' val,
    attempt set test arn tok [order1; order2; order3; first_visit cur] (AtCreate, σ) =
    (Rotated, σ') ∧
    secrets σ' !! arn = Some s' ∧ holder AWSCURRENT (versions s') = Some tok ∧
    versions s' !! tok ≫= value = Some val ∧ serves s' val.
Proof.
  intros Hσ Hs Hpend Hold.
  pose proof (start_on_course arn tok old σ s Hσ Hs Hpend Hold) as Hinv.
  destruct (attempt_to_finish set test arn tok old order1 order2 order3 σ Hinv)
    as (σ3 & Hrun & Htest).
  exact (attempt_completes set test arn tok old [order1; order2; order3] _ σ3 Hrun Htest).
Qed.

(** C22 (safety): the scheduler can record a rotation as finished that
    has not happened.  With working downstream steps, when the iteration
    order of the finishSecret invocation visits the token's version
    first, four deliveries take the scheduler from createSecret to the
    end, and the secret still serves its old value: the token's version
    does not hold AWSCURRENT. *)
Theorem rotation_recorded_without_promotion (set test : downstream store)
    `{!Downstream set, !Downstream test, !Accepts set, !Accepts test}
    arn tok old σ s order1 order2 order3 :
  store_consistent σ → secrets σ !! arn = Some s → pending_for s tok → serves s old →
  ∃ σ' s',
    attempt set test arn tok [order1; order2; order3; first_visit tok] (AtCreate, σ) =
    (Rotated, σ') ∧
    secrets σ' !! arn = Some s' ∧ serves s' old ∧
    tok ∉ dom (holders AWSCURRENT (versions s')).
Proof.
  intros Hσ Hs Hpend Hold.
  pose proof (start_on_course arn tok old σ s Hσ Hs Hpend Hold) as Hinv.
  destruct (attempt_to_finish set test arn tok old order1 order2 order3 σ Hinv)
    as (σ3 & Hrun & Htest).
  destruct (on_course_serves arn tok old AtTest σ3 Htest)
    as (s' & val & Hs' & Hval & _ & [[-> Hnot]|[[?|?] _]]); [|done..].
  exists σ3, s'. split; [|done].
  change [order1; order2; order3; first_visit tok]
    with ([order1; order2; order3] ++ [first_visit tok]).
  unfold attempt in *. rewrite foldl_app, Hrun. unfold deliver_next. simpl.
  rewrite main_with_other, (finish_skips_on_course arn tok old σ3 Htest) by done.
  by rewrite decide_True.
Qed.

(** C13 (safety): with the placeholders of the source the rotation never
    gets past setSecret.  Whatever the ordered scheduler delivers to the
    program as it is, its phase is createSecret or setSecret, and the
    secret serves its old value from a version other than the token's. *)
Theorem source_rotation_stalls arn tok old σ s p σ' :
  store_consistent σ → secrets σ !! arn = Some s → pending_for s tok → serves s old →
  rtc (ordered setSecret testSecret arn tok) (AtCreate, σ) (p, σ') →
  (p = AtCreate ∨ p = AtSet) ∧
  ∃ s', secrets σ' !! arn = Some s' ∧ serves s' old ∧
        tok ∉ dom (holders AWSCURRENT (versions s')).
Proof.
  intros Hσ Hs Hpend Hold Hrtc.
  pose proof (source_rtc_phase arn tok _ _ Hrtc (or_introl eq_refl)) as Hp. simpl in Hp.
  split; [done|].
  pose proof (ordered_rtc_on_course setSecret testSecret arn tok old _ _ Hrtc
                (start_on_course arn tok old σ s Hσ Hs Hpend Hold)) as Hinv.
  destruct (on_course_serves arn tok old p σ' Hinv)
    as (s' & val & Hs' & Hval & _ & [[-> Hnot]|[[-> | ->] _]]);
    [by eauto|by destruct Hp..].
Qed.

(** * The scenario of the specification under the ordered scheduler *)

Lemma scenario_start_pending : pending_for scenario_start "v2".
Proof. by apply (pending_for_intro _ _ (Version None [AWSPENDING])). Qed.

Lemma scenario_start_consistent : store_consistent scenario_store.
Proof. by_compute. Qed.

(** With downstream steps that read the pending value the four deliveries
    end in the finished store, or, when finishSecret visits "v2" first,
    in the store in which "v1" is still current; with the placeholders of
    the source the scheduler is still at setSecret after four. *)
Lemma scenario_ordered :
  attempt check_pending check_pending "db-pwd" "v2" [id; id; id; first_visit "v1"]
    (AtCreate, scenario_store) = (Rotated, scenario_finished) ∧
  attempt check_pending check_pending "db-pwd" "v2" [id; id; id; first_visit "v2"]
    (AtCreate, scenario_store) = (Rotated, scenario_created) ∧
  attempt setSecret testSecret "db-pwd" "v2" [id; id; id; first_visit "v1"]
    (AtCreate, scenario_store) = (AtSet, scenario_created).
Proof. by vm_compute. Qed.

Lemma ordered_rotation_serves_witness :
  ∃ s' val, secrets scenario_finished !! "db-pwd" = Some s' ∧ serves s' val ∧
            (Rotated ≠ AtCreate → is_Some (versions s' !! "v2" ≫= value)) ∧
            (val = "old123" ∧ "v2" ∉ dom (holders AWSCURRENT (versions s')) ∨
             (Rotated = AtFinish ∨ Rotated = Rotated) ∧
             holder AWSCURRENT (versions s') = Some "v2" ∧
             versions s' !! "v2" ≫= value = Some val).
Proof.
  apply (ordered_rotation_serves skip check_pending "db-pwd" "v2" "old123"
           scenario_store scenario_start Rotated scenario_finished);
    [apply scenario_start_consistent|done|apply scenario_start_pending|by vm_compute|].
  replace (Rotated, scenario_finished)
    with (attempt skip check_pending "db-pwd" "v2" [id; id; id; first_visit "v1"]
            (AtCreate, scenario_store)) by by vm_compute.
  apply attempt_ordered.
Defined.

Lemma ordered_rotation_completes_witness :
  ∃ cur σ' s' val,
    attempt check_pending check_pending "db-pwd" "v2" [id; id; id; first_visit cur]
      (AtCreate, scenario_store) = (Rotated, σ') ∧
    secrets σ' !! "db-pwd" = Some s' ∧ holder AWSCURRENT (versions s') = Some "v2" ∧
    versions s' !! "v2" ≫= value = Some val ∧ serves s' val.
Proof.
  apply (ordered_rotation_completes check_pending check_pending "db-pwd" "v2" "old123"
           scenario_store scenario_start id id id);
    [apply scenario_start_consistent|done|apply scenario_start_pending|by vm_compute].
Defined.

Lemma rotation_recorded_without_promotion_witness :
  ∃ σ' s',
    attempt skip skip "db-pwd" "v2" [id; id; id; first_visit "v2"]
      (AtCreate, scenario_store) = (Rotated, σ') ∧
    secrets σ' !! "db-pwd" = Some s' ∧ serves s' "old123" ∧
    "v2" ∉ dom (holders AWSCURRENT (versions s')).
Proof.
  apply (rotation_recorded_without_promotion skip skip "db-pwd" "v2" "old123"
           scenario_store scenario_start id id id);
    [apply scenario_start_consistent|done|apply scenario_start_pending|by vm_compute].
Defined.

Lemma source_rotation_stalls_witness :
  (AtSet = AtCreate ∨ AtSet = AtSet) ∧
  ∃ s', secrets scenario_created !! "db-pwd" = Some s' ∧ serves s' "old123" ∧
        "v2" ∉ dom (holders AWSCURRENT (versions s')).
Proof.
  apply (source_rotation_stalls "db-pwd" "v2" "old123" scenario_store scenario_start
           AtSet scenario_created);
    [apply scenario_start_consistent|done|apply scenario_start_pending|by vm_compute|].
  replace (AtSet, scenario_created)
    with (attempt setSecret testSecret "db-pwd" "v2" [id; id; id; first_visit "v1"]
            (AtCreate, scenario_store)) by by vm_compute.
  apply attempt_ordered.
Defined.
