(* ===== verification/Propagation.v ===== *)
(** * Errors abort the invocation

    The specification asks that every error of the store that is not
    recognised as "resource not found" halt the invocation and surface as
    a failure, and that nothing be retried within an invocation.  This
    file proves it of the program, call site by call site: when the call
    an invocation waits for is answered with such an error, the
    invocation ends with a failure and makes no further call.

    The property is stated on the replaying client, where an invocation
    is a function of the answers it has received: [abrupt ok h] says of
    the handler [h] that, stuck at a call, it ends in a result that is
    not [ok] once that call is answered with a fatal error.  The rules
    follow the structure of the handlers, as those of [coupled] and
    [steady] do. *)

From stdpp Require Import base tactics option list strings gmap.
From S2P Require Import Prelude GoRuntime SecretsManager Store Validator.
From S2P Require Import CreateSecret FinishSecret Handler Replay Concurrent.

Open Scope prog_scope.

(** * Definitions *)

(** The answer that carries an error, for each operation. *)
Definition refusal (c : api_call) (err : error) : answer :=
  match c with
  | DescribeSecretCall _ => DescribeSecretAnswer (inr err)
  | GetSecretValueCall _ => GetSecretValueAnswer (inr err)
  | GetRandomPasswordCall _ => GetRandomPasswordAnswer (inr err)
  | PutSecretValueCall _ => PutSecretValueAnswer (inr err)
  | UpdateSecretVersionStageCall _ => UpdateSecretVersionStageAnswer (inr err)
  end.

(** The errors the program does not recognise: all but the errors of the
    service whose code is "resource not found" (lines 97-98). *)
Definition fatal (err : error) : Prop :=
  as_awserr err ≠ Some ErrCodeResourceNotFoundException.

#[export] Instance fatal_dec err : Decision (fatal err).
Proof. unfold fatal. apply _. Defined.

(** The results of a call that the program may go on from. *)
Definition accepted {O} (r : O + error) : Prop :=
  match r with
  | inl _ => True
  | inr err => ¬ fatal err
  end.

(** An outcome that is a failure: a panic, or a value that is not [ok]. *)
Definition failed {A} (ok : A → Prop) (o : outcome panic_value A) : Prop :=
  match o with
  | Panicked _ => True
  | Returned a => ¬ ok a
  end.

(** A program that fails without a call. *)
Definition aborts {A} (ok : A → Prop) (h : sm replay A) : Prop :=
  preserves quiet h ∧ ∀ w, failed ok (h w).1.

(** [abrupt ok h]: when the call at which a run of [h] is stuck is
    answered with a fatal error, the run ends, without a further call, in
    a failure. *)
Definition abrupt {A} (ok : A → Prop) (h : sm replay A) : Prop :=
  steady h ∧
  ∀ w w' c err,
    blocked (remote w) = None → blocked (remote (h w).2) = Some c → fatal err →
    remote w' = Replay (script (remote w) ++ [refusal c err]) None → calls w' = calls w →
    blocked (remote (h w').2) = None ∧ failed ok (h w').1.

(** * The rules *)

Section rules.
Implicit Types (w : world replay api_call).

Lemma fatal_stable err : ¬ ¬ fatal err → fatal err.
Proof. unfold fatal. intros Hnn Heq. apply Hnn. intros Hne. by apply Hne. Qed.

Lemma aborts_panic {A} (ok : A → Prop) p : aborts ok (panic p).
Proof. split; [solve_preserves|done]. Qed.

Lemma aborts_ret {A} (ok : A → Prop) (a : A) : ¬ ok a → aborts ok (ret a).
Proof. split; [solve_preserves|done]. Qed.

(** A program that makes no call is never stuck. *)
Lemma abrupt_quiet {A} (ok : A → Prop) (h : sm replay A) :
  steady h → preserves quiet h → abrupt ok h.
Proof.
  intros Hs Hq. split; [done|]. intros w w' c err Hb Hstuck.
  destruct (Hq w) as [Hrem _]. rewrite Hrem in Hstuck. congruence.
Qed.

Lemma abrupt_ret {A} (ok : A → Prop) (a : A) : abrupt ok (ret a).
Proof. apply abrupt_quiet; [apply steady_ret|solve_preserves]. Qed.

Lemma abrupt_panic {A} (ok : A → Prop) p : abrupt ok (panic p).
Proof. apply abrupt_quiet; [apply steady_panic|solve_preserves]. Qed.

Lemma abrupt_deref {A} (p : option A) : abrupt (λ _, True) (deref p).
Proof. apply abrupt_quiet; [apply steady_deref|apply deref_quiet]. Qed.

Lemma abrupt_log format args : abrupt (λ _, True) (log_Printf format args).
Proof. apply abrupt_quiet; [apply steady_log|apply log_Printf_quiet]. Qed.

(** A call that is answered with a fatal error returns it. *)
Lemma abrupt_call {I O} (event : I → api_call) (read : answer → option (O + error)) i :
  (∀ err, read (refusal (event i) err) = Some (inr err)) →
  abrupt accepted (call (replay_op event read) event i).
Proof.
  intros Hread. split; [apply steady_call|].
  intros w w' c err Hb Hstuck Hfatal Hw' Hcalls. simpl in *. unfold replay_op in *.
  rewrite Hb in Hstuck. rewrite Hw'. simpl.
  destruct (script (remote w)) as [|a rest]; simpl in *; [|done].
  injection Hstuck as <-. rewrite Hread. simpl. split; [done|]. by intros Hacc.
Qed.

(** The rule of sequence: what follows a failure of the first part fails
    without a call. *)
Lemma abrupt_bind {A B} (okc : A → Prop) (ok : B → Prop)
    (c : sm replay A) (k : A → sm replay B) :
  abrupt okc c → (∀ a, ¬ okc a → aborts ok (k a)) → (∀ a, abrupt ok (k a)) →
  abrupt ok (bind c k).
Proof.
  intros [Hsc Hc] Hfail Hk. split; [apply steady_bind; [done|intros a; apply Hk]|].
  intros w w' b err Hb Hstuck Hfatal Hw' Hcalls.
  destruct Hsc as [Hm Hst]. specialize (Hst w w' [refusal b err] Hb Hw' Hcalls).
  specialize (Hc w w' b err Hb). unfold bind in *.
  destruct (c w) as [r w1], (c w') as [r' w1']. simpl in *.
  destruct (blocked (remote w1)) as [b1|] eqn:Hb1.
  - destruct (metered_continue k r w1) as [_ Hrem]; [intros a; apply Hk|].
    rewrite Hrem, Hb1 in Hstuck by eauto. destruct (Hc Hstuck Hfatal Hw' Hcalls) as [Hb' Hr'].
    destruct r' as [a|p]; simpl in *; [|done].
    destruct (Hfail a Hr') as [Hq Hf]. destruct (Hq w1') as [Hrem' _].
    split; [by rewrite Hrem'|apply Hf].
  - destruct Hst as (-> & Hc1 & Hr1). destruct r as [a|p]; simpl in *; [|congruence].
    destruct (Hk a) as [_ Hka]. by apply (Hka w1 w1' b err).
Qed.

Lemma abrupt_DescribeSecret i : abrupt accepted (svc_DescribeSecret i).
Proof. by apply abrupt_call. Qed.
Lemma abrupt_GetSecretValue i : abrupt accepted (svc_GetSecretValue i).
Proof. by apply abrupt_call. Qed.
Lemma abrupt_GetRandomPassword i : abrupt accepted (svc_GetRandomPassword i).
Proof. by apply abrupt_call. Qed.
Lemma abrupt_PutSecretValue i : abrupt accepted (svc_PutSecretValue i).
Proof. by apply abrupt_call. Qed.
Lemma abrupt_UpdateSecretVersionStage i : abrupt accepted (svc_UpdateSecretVersionStage i).
Proof. by apply abrupt_call. Qed.

End rules.

Create HintDb abrupt discriminated.
#[export] Hint Resolve abrupt_ret abrupt_panic abrupt_deref abrupt_log
  abrupt_DescribeSecret abrupt_GetSecretValue abrupt_GetRandomPassword
  abrupt_PutSecretValue abrupt_UpdateSecretVersionStage : abrupt.

(** What follows a result that is not [ok]: nothing follows a result
    that is, a panic follows an error, and an error is returned as it
    is. *)
Ltac solve_aborts :=
  let a := fresh "a" in
  let Hn := fresh "Hn" in
  intros a Hn;
  first
    [ solve [exfalso; apply Hn; done]
    | destruct a;
      first [ solve [exfalso; apply Hn; done]
            | solve [apply aborts_panic]
            | solve [apply aborts_ret; done] ] ].

(** Prove that a program built from binds, matches and conditionals is
    abrupt. *)
Ltac solve_abrupt :=
  repeat first
    [ progress intros
    | progress cbv zeta
    | solve [eauto with abrupt]
    | eapply abrupt_bind; [solve [eauto with abrupt]|solve [solve_aborts]|]
    | match goal with
      | |- abrupt _ (match ?x with _ => _ end) => destruct x
      | |- abrupt _ (if ?b then _ else _) => destruct b
      end ].

(** * The handlers *)

Section handlers.
Implicit Types (req : SecretsManagerEvent) (Arn Token : option string)
  (order : list string → list string).

Lemma check_staging_abrupt (ok : option error → Prop) req desc :
  abrupt ok (check_staging req desc).
Proof. apply abrupt_quiet; [apply check_staging_steady|apply check_staging_quiet]. Qed.

(** The validation returns the error of its describe call. *)
Lemma validate_abrupt req : abrupt (λ e, e = None) (validate req).
Proof. pose proof (check_staging_abrupt (λ e, e = None) req). unfold validate. solve_abrupt. Qed.

Lemma generate_and_put_abrupt Arn Token : abrupt (λ _, True) (generate_and_put Arn Token).
Proof. unfold generate_and_put. solve_abrupt. Qed.

(** The error of the lookup of the pending value is fatal unless its
    code is "resource not found" (lines 96-99 and 124-126). *)
Lemma createSecret_abrupt Arn Token : abrupt (λ _, True) (createSecret Arn Token).
Proof.
  pose proof (generate_and_put_abrupt Arn Token). unfold createSecret.
  eapply abrupt_bind; [apply abrupt_GetSecretValue|solve_aborts|].
  intros [cur|err]; [|apply abrupt_panic].
  eapply abrupt_bind; [apply abrupt_GetSecretValue| |solve_abrupt].
  intros [pend|err] Hn; [exfalso; by apply Hn|].
  apply fatal_stable in Hn. unfold fatal in Hn.
  destruct (as_awserr err) as [code|]; [|apply aborts_panic].
  destruct (decide (code ≠ ErrCodeResourceNotFoundException)) as [?|Heq];
    [apply aborts_panic|]. destruct Hn. f_equal. by apply dec_stable.
Qed.

Lemma scan_versions_abrupt Arn Token m keys :
  abrupt (λ _, True) (scan_versions Arn Token m keys).
Proof. apply abrupt_quiet; [apply scan_versions_steady|apply scan_versions_quiet]. Qed.

Lemma promote_abrupt Arn Token cv : abrupt (λ _, True) (promote Arn Token cv).
Proof. unfold promote. solve_abrupt. Qed.

Lemma finishSecret_abrupt order Arn Token : abrupt (λ _, True) (finishSecret order Arn Token).
Proof.
  pose proof (scan_versions_abrupt Arn Token). pose proof (promote_abrupt Arn Token).
  unfold finishSecret. solve_abrupt.
Qed.

Lemma setSecret_abrupt Arn Token : abrupt (λ _, True) (setSecret Arn Token).
Proof. apply abrupt_panic. Qed.

Lemma testSecret_abrupt Arn Token : abrupt (λ _, True) (testSecret Arn Token).
Proof. apply abrupt_panic. Qed.

(** The handler returns the error of the validation and panics with
    those of the steps. *)
Lemma HandleRequest_abrupt order req : abrupt (λ e, e = None) (HandleRequest order req).
Proof.
  pose proof (validate_abrupt req).
  pose proof (createSecret_abrupt (Arn req) (Token req)).
  pose proof (setSecret_abrupt (Arn req) (Token req)).
  pose proof (testSecret_abrupt (Arn req) (Token req)).
  pose proof (finishSecret_abrupt order (Arn req) (Token req)).
  unfold HandleRequest, dispatch. solve_abrupt.
Qed.

End handlers.

(** * Invocations *)

Section invocations.
Implicit Types (t : thread) (c : api_call) (err : error).

(** The call an invocation waits for is the call its run is stuck at. *)
Lemma poll_stuck t c :
  poll t = Waiting c →
  blocked (remote (HandleRequest (visiting t) (delivered t)
                     (boot (Replay (heard t) None))).2) = Some c.
Proof.
  unfold poll, main.
  destruct (HandleRequest _ _ _) as [[[e|]|p] w]; simpl;
    by destruct (blocked (remote w)); intros; simplify_eq.
Qed.

(** Answered with a fatal error, the invocation ends with a failure. *)
Lemma poll_refused t c err :
  poll t = Waiting c → fatal err →
  ∃ msg, poll (hear (refusal c err) t) = Finished (Failed msg).
Proof.
  intros Hc%poll_stuck Hfatal.
  destruct (HandleRequest_abrupt (visiting t) (delivered t)) as [_ Hab].
  destruct (Hab (boot (Replay (heard t) None))
              (boot (Replay (heard t ++ [refusal c err]) None)) c err) as [Hb Hf]; [done..|].
  clear Hc Hab. unfold poll, hear, main. simpl.
  destruct (HandleRequest _ _ _) as [[[e|]|p] w]; simpl in *; rewrite Hb; by eauto.
Qed.

End invocations.

(** * Theorems *)

(** C14 (error): errors abort the invocation.  When the call an
    invocation waits for is answered with an error, whatever the call
    and whatever the error, unless it is an error of the service with
    the code "resource not found", the invocation ends at once: it makes
    no further call and its answer to the runtime is a failure.  Nothing
    is retried within an invocation and no error is masked. *)
Theorem error_ends_invocation t c err :
  poll t = Waiting c → fatal err →
  ∃ msg, poll (hear (refusal c err) t) = Finished (Failed msg).
Proof. apply poll_refused. Qed.

(** The createSecret invocation of the scenario, about to store the
    password, is told that the service cannot be reached. *)
Lemma error_ends_invocation_witness :
  ∃ msg,
    poll (hear (refusal
                  (PutSecretValueCall
                     (put_pending_request (Some "db-pwd") (Some "v2")
                        (Some scenario_password)))
                  (awserrError "RequestError" "send request failed"))
            scenario_writer) = Finished (Failed msg).
Proof.
  apply (error_ends_invocation scenario_writer); [by vm_compute|by_compute].
Defined.

(** The one error that is not fatal, at the one call where it is
    recognised: the lookup of the pending value answered with "resource
    not found" is followed by the generation of a password. *)
Lemma resource_not_found_continues :
  poll (Thread (scenario_event "createSecret") id
          (answers scenario_store
             (take 3 (calls_of id (scenario_event "createSecret") scenario_store)))) =
  Waiting (GetRandomPasswordCall random_password_request).
Proof. by vm_compute. Qed.
