(* ===== verification/Faults.v ===== *)
(** * A service that fails: lost requests and lost responses

    The specification treats every error of the store other than
    "resource not found" as fatal for the invocation and leaves recovery
    to redelivery.  This file models the failures of the communication
    with the store: a call whose request is lost has no effect and is
    answered with an error; a call whose response is lost is performed by
    the store and is answered with an error all the same.

    The failing service is an instance of the client interface
    ([faulty_api]): a service together with the plan of the faults to
    come, so the handlers and the theorems proved against the interface
    apply to it as they are.  Seen from the store, a turn of an
    invocation against the failing service is one of three turns
    ([reply]); the invariants of [Converge] hold under all three,
    whatever the error it is answered with: the store stays consistent,
    an invocation that is answered with errors knows nothing that is
    false, and every change settles one unit of the work left.  Faults
    before the label moves are recovered from by redelivery; what is
    lost otherwise is the answer: after a lost response to the update of
    finishSecret the rotation has happened and no invocation for the
    token succeeds any more. *)

From stdpp Require Import base tactics option list strings gmap relations.
From S2P Require Import Prelude GoRuntime SecretsManager Store Validator.
From S2P Require Import CreateSecret FinishSecret Handler Rotation Progress.
From S2P Require Import Replay Concurrent Converge Scheduler Propagation.

Open Scope prog_scope.

(** * Definitions *)

(** The two ways a call can fail on its way. *)
Inductive fault : Type :=
| RequestLost
| ResponseLost.

#[export] Instance fault_eq_dec : EqDecision fault.
Proof. solve_decision. Defined.

(** The error of the SDK for a call that got no response. *)
Definition unreachable : error := awserrError "RequestError" "send request failed".

(** A service and the faults of the calls to come: one entry for each
    call, [None] for a call that goes through; the calls after the end of
    the plan go through. *)
Record faulty (Σ : Type) : Type := Faulty {
  service : Σ;
  plan : list (option fault);
}.

Arguments Faulty {Σ} _ _.
Arguments service {Σ} _.
Arguments plan {Σ} _.

Section faulty.
Context `{SecretsManagerAPI Σ}.

(** An operation of the failing service. *)
Definition faulty_op {I O} (op : I → Σ → (O + error) * Σ) (i : I) (φ : faulty Σ)
    : (O + error) * faulty Σ :=
  match plan φ with
  | Some RequestLost :: rest => (inr unreachable, Faulty (service φ) rest)
  | Some ResponseLost :: rest => (inr unreachable, Faulty (op i (service φ)).2 rest)
  | None :: rest => ((op i (service φ)).1, Faulty (op i (service φ)).2 rest)
  | [] => ((op i (service φ)).1, Faulty (op i (service φ)).2 [])
  end.

#[export] Instance faulty_api : SecretsManagerAPI (faulty Σ) := {|
  DescribeSecret := faulty_op DescribeSecret;
  GetSecretValue := faulty_op GetSecretValue;
  GetRandomPassword := faulty_op GetRandomPassword;
  PutSecretValue := faulty_op PutSecretValue;
  UpdateSecretVersionStage := faulty_op UpdateSecretVersionStage;
|}.

(** What can come of a call [c] made in the state [σ] of the service: the
    answer the invocation receives and the state the service is left in.
    An error that stands for a lost answer may be any error. *)
Inductive reply (c : api_call) (σ : Σ) : answer → Σ → Prop :=
| reply_served : reply c σ (respond c σ).1 (respond c σ).2
| reply_request_lost err : reply c σ (refusal c err) σ
| reply_response_lost err : reply c σ (refusal c err) (respond c σ).2.

(** One turn of an invocation of the pool against a service that may
    fail. *)
Inductive fault_step : relation (config (Σ:=Σ)) :=
| fault_turn pool σ i t c a σ' :
    pool !! i = Some t → poll t = Waiting c → reply c σ a σ' →
    fault_step (pool, σ) (<[i := hear a t]> pool, σ').

End faulty.

(** A turn that changes a secret, after any number of turns. *)
Definition fault_write : relation (config (Σ:=store)) :=
  λ cfg cfg', ∃ mid, rtc fault_step cfg mid ∧ fault_step mid cfg' ∧
                     secrets cfg'.2 ≠ secrets mid.2.

(** The ordered scheduler against the failing store.  A delivery runs the
    program against the store under any plan of faults, and the scheduler
    moves on after a success; what the deployment plugs in for setSecret
    and testSecret is any step that leaves the secrets alone, whether it
    succeeds or not. *)
Inductive lossy (arn tok : string) : relation (phase * store) :=
| lossy_again p name order l σ :
    step_of p = Some name →
    lossy arn tok (p, σ) (p, service (main order (step_event arn tok name) (Faulty σ l)).2)
| lossy_next p name order l σ φ' :
    step_of p = Some name →
    main order (step_event arn tok name) (Faulty σ l) = (Succeeded, φ') →
    lossy arn tok (p, σ) (after p, service φ')
| lossy_downstream p p' σ σ' :
    p = AtSet ∨ p = AtTest → p' = p ∨ p' = after p → secrets σ' = secrets σ →
    lossy arn tok (p, σ) (p', σ').

(** The plans without a fault. *)
Definition faultless {Σ} (φ : faulty Σ) : Prop := Forall (λ f, f = None) (plan φ).

(** The pool and the store after the turns of a schedule against the
    failing store. *)
Definition fault_scheduled (turns : list nat) (cfg : config (Σ:=faulty store))
    : config (Σ:=store) :=
  ((default cfg (schedule turns cfg)).1, service (default cfg (schedule turns cfg)).2).

(** Two deliveries of the createSecret event of the scenario, against a
    store that loses the response to the fifth call. *)
Definition lossy_creates : config (Σ:=faulty store) :=
  (two_creates.1, Faulty scenario_store [None; None; None; None; Some ResponseLost]).

(** * The failing service, seen from the service *)

Section projection.
Context `{SecretsManagerAPI Σ}.
Implicit Types (φ : faulty Σ) (σ : Σ) (c : api_call) (t : thread).

(** With no fault planned the failing service is the service. *)
Lemma faulty_op_through {I O} (op : I → Σ → (O + error) * Σ) i φ :
  plan φ = [] ∨ (∃ rest, plan φ = None :: rest) →
  (faulty_op op i φ).1 = (op i (service φ)).1 ∧
  service (faulty_op op i φ).2 = (op i (service φ)).2.
Proof. unfold faulty_op. by intros [->|[rest ->]]. Qed.

(** A call to the failing service is one of the three replies. *)
Lemma faulty_op_reply {I O} (op : I → Σ → (O + error) * Σ) i φ :
  ((faulty_op op i φ).1 = (op i (service φ)).1 ∨ (faulty_op op i φ).1 = inr unreachable) ∧
  (service (faulty_op op i φ).2 = (op i (service φ)).2 ∨
   (faulty_op op i φ).1 = inr unreachable ∧ service (faulty_op op i φ).2 = service φ).
Proof. unfold faulty_op. destruct (plan φ) as [|[[]|] rest]; simpl; auto. Qed.

Lemma respond_faulty c φ : reply c (service φ) (respond c φ).1 (service (respond c φ).2).
Proof.
  destruct c as [i|i|i|i|i]; simpl; unfold faulty_op;
    destruct (plan φ) as [|[[]|] rest]; simpl;
    first [ exact (reply_served _ (service φ))
          | exact (reply_request_lost _ (service φ) unreachable)
          | exact (reply_response_lost _ (service φ) unreachable) ].
Qed.

Lemma step_faulty (cfg cfg' : config (Σ:=faulty Σ)) :
  step cfg cfg' → fault_step (cfg.1, service cfg.2) (cfg'.1, service cfg'.2).
Proof. intros [pool φ i t c Ht Hc]. simpl. econstructor; [done..|apply respond_faulty]. Qed.

Lemma steps_faulty (cfg cfg' : config (Σ:=faulty Σ)) :
  rtc step cfg cfg' → rtc fault_step (cfg.1, service cfg.2) (cfg'.1, service cfg'.2).
Proof. induction 1; [done|]. eapply rtc_l; [by apply step_faulty|done]. Qed.

(** The state a reply leaves is the state before or the state after the
    call. *)
Lemma reply_state c σ a σ' : reply c σ a σ' → σ' = σ ∨ σ' = (respond c σ).2.
Proof. intros []; auto. Qed.

(** Every invariant of the service holds under faults. *)
Lemma reply_keeps (Inv : Σ → Prop) `{!ServiceInvariant Inv} c σ a σ' :
  reply c σ a σ' → Inv σ → Inv σ'.
Proof. intros [-> | ->]%reply_state; [done|]. by apply respond_keeps. Qed.

Lemma fault_step_keeps (Inv : Σ → Prop) `{!ServiceInvariant Inv} (cfg cfg' : config (Σ:=Σ)) :
  fault_step cfg cfg' → Inv cfg.2 → Inv cfg'.2.
Proof. intros [pool σ i t c a σ' _ _ Hr]. by apply (reply_keeps Inv c σ a). Qed.

Lemma fault_steps_keep (Inv : Σ → Prop) `{!ServiceInvariant Inv} (cfg cfg' : config (Σ:=Σ)) :
  rtc fault_step cfg cfg' → Inv cfg.2 → Inv cfg'.2.
Proof.
  induction 1 as [|c1 c2 c3 Hstep _ IH]; [done|]. intros ?.
  by eapply IH, (fault_step_keeps Inv).
Qed.

#[export] Instance faulty_invariant (Inv : Σ → Prop) `{!ServiceInvariant Inv} :
  ServiceInvariant (λ φ : faulty Σ, Inv (service φ)).
Proof.
  split; simpl; intros i φ Hφ; unfold faulty_op;
    destruct (plan φ) as [|[[]|] rest]; simpl; first [done | by apply ServiceInvariant0].
Qed.

(** Every turn uses up one of the five calls of its invocation, answered
    or not. *)
Lemma fault_step_budget (cfg cfg' : config (Σ:=Σ)) :
  fault_step cfg cfg' → S (pool_budget cfg') = pool_budget cfg.
Proof.
  intros [pool σ i t c a σ' Ht Hp _]. unfold pool_budget. simpl.
  pose proof (sum_list_with_insert budget pool i t (hear a t) Ht) as Hsum.
  apply poll_waiting_budget in Hp. unfold budget in *. simpl in *.
  rewrite length_app in Hsum. simpl in *. lia.
Qed.

Lemma fault_nsteps_budget n (cfg cfg' : config (Σ:=Σ)) :
  nsteps fault_step n cfg cfg' → n + pool_budget cfg' = pool_budget cfg.
Proof. induction 1 as [|n c1 c2 c3 Hstep%fault_step_budget _ IH]; simpl; lia. Qed.

Lemma fault_step_sn (cfg : config (Σ:=Σ)) : sn fault_step cfg.
Proof.
  apply (wf_projected lt pool_budget); [|apply lt_wf].
  intros c2 c1 Hstep%fault_step_budget. lia.
Qed.

(** An invocation writes once at most, heard or not. *)
Lemma fault_step_unfinished (cfg cfg' : config (Σ:=Σ)) :
  fault_step cfg cfg' → pool_unfinished cfg' ≤ pool_unfinished cfg.
Proof.
  intros [pool σ i t c a σ' Ht Hp _]. unfold pool_unfinished. simpl.
  pose proof (sum_list_with_insert unfinished pool i t (hear a t) Ht).
  pose proof (unfinished_bound (hear a t)).
  unfold unfinished in *. rewrite Hp in *. lia.
Qed.

Lemma fault_steps_unfinished (cfg cfg' : config (Σ:=Σ)) :
  rtc fault_step cfg cfg' → pool_unfinished cfg' ≤ pool_unfinished cfg.
Proof. induction 1 as [|c1 c2 c3 Hstep%fault_step_unfinished _ IH]; [done|lia]. Qed.

End projection.

(** * What an invocation knows, under faults *)

Section knowledge.
Implicit Types (σ : store) (t : thread) (c : api_call) (cfg : config (Σ:=store)).

(** An error teaches nothing. *)
Lemma hear_refusal_informed σ t c err :
  poll t = Waiting c → informed σ t → informed σ (hear (refusal c err) t).
Proof.
  intros Hc Ht tok Htok. destruct (decide (heard t = [])) as [Hrs|Hrs].
  - destruct Htok as (desc & stages & Hhd & _). unfold hear in Hhd. simpl in Hhd.
    rewrite Hrs, (poll_fresh t c Hrs Hc) in Hhd. by simplify_eq/=.
  - by apply Ht, (learnt_hear (refusal c err)).
Qed.

(** The invocation that receives the reply knows nothing that is false
    of the state the reply leaves, and neither do the others. *)
Lemma reply_informed σ t c a σ' :
  poll t = Waiting c → reply c σ a σ' → informed σ t → informed σ' (hear a t).
Proof.
  intros Hc [|err|err] Ht.
  - by apply hear_informed.
  - by apply hear_refusal_informed.
  - apply (informed_respond σ t _ c Hc). by apply hear_refusal_informed.
Qed.

Lemma reply_informed_other σ t t' c a σ' :
  poll t = Waiting c → reply c σ a σ' → informed σ t' → informed σ' t'.
Proof.
  intros Hc [-> | ->]%reply_state Ht'; [done|]. by apply (informed_respond σ t t' c).
Qed.

Lemma fault_step_sound cfg cfg' : sound cfg → fault_step cfg cfg' → sound cfg'.
Proof.
  intros [Hσ Hpool] Hstep. destruct Hstep as [pool σ i t c a σ' Ht Hc Hr]. simpl in *.
  split; simpl; [by apply (reply_keeps store_consistent c σ a)|].
  pose proof (Forall_lookup_1 _ _ _ _ Hpool Ht). apply Forall_insert.
  - eapply Forall_impl; [done|]. intros t' ?. by eapply reply_informed_other.
  - by eapply reply_informed.
Qed.

Lemma fault_step_named cfg cfg' : named cfg → fault_step cfg cfg' → named cfg'.
Proof.
  intros Hpool Hstep. destruct Hstep as [pool σ i t c a σ' Ht Hc Hr].
  pose proof (Forall_lookup_1 _ _ _ _ Hpool Ht). by apply Forall_insert.
Qed.

Lemma fault_steps_named cfg cfg' : named cfg → rtc fault_step cfg cfg' → named cfg'.
Proof. intros Hs Hsteps. induction Hsteps; eauto using fault_step_named. Qed.

Lemma fault_steps_sound cfg cfg' : sound cfg → rtc fault_step cfg cfg' → sound cfg'.
Proof. intros Hs Hsteps. induction Hsteps; eauto using fault_step_sound. Qed.

(** A turn changes no secret or settles one unit of the work left,
    whether its answer arrives or not. *)
Lemma fault_step_settles cfg cfg' :
  sound cfg → named cfg → fault_step cfg cfg' →
  secrets cfg'.2 = secrets cfg.2 ∨ remaining cfg'.2 < remaining cfg.2.
Proof.
  intros Hs Hn Hstep. destruct Hstep as [pool σ i t c a σ' Ht Hc Hr]. simpl.
  destruct (reply_state c σ a σ' Hr) as [-> | ->]; [by left|].
  apply (step_settles (pool, σ) (<[i := hear (respond c σ).1 t]> pool, (respond c σ).2) Hs Hn).
  by constructor.
Qed.

Lemma fault_steps_remaining cfg cfg' :
  sound cfg → named cfg → rtc fault_step cfg cfg' → remaining cfg'.2 ≤ remaining cfg.2.
Proof.
  intros Hs Hn Hsteps. induction Hsteps as [|c1 c2 c3 Hstep _ IH]; [done|].
  pose proof (fault_step_sound _ _ Hs Hstep). pose proof (fault_step_named _ _ Hn Hstep).
  destruct (fault_step_settles _ _ Hs Hn Hstep) as [Heq|?]; [|etrans; [by apply IH|lia]].
  etrans; [by apply IH|]. unfold remaining. by rewrite Heq.
Qed.

(** A turn that changes a secret is the last turn of its invocation. *)
Lemma fault_write_step_unfinished cfg cfg' :
  fault_step cfg cfg' → secrets cfg'.2 ≠ secrets cfg.2 →
  S (pool_unfinished cfg') = pool_unfinished cfg.
Proof.
  intros Hstep Hne. destruct Hstep as [pool σ i t c a σ' Ht Hc Hr]. simpl in *.
  destruct (reply_state c σ a σ' Hr) as [-> | ->]; [done|].
  destruct (mutating c) eqn:Hm; [|by rewrite respond_read_secrets in Hne].
  destruct (poll_after_write t c a Hc Hm) as [r Hr'].
  pose proof (sum_list_with_insert unfinished pool i t (hear a t) Ht) as Hsum.
  unfold pool_unfinished, unfinished in *. simpl. rewrite Hc, Hr' in Hsum. lia.
Qed.

Lemma fault_write_settles cfg cfg' :
  sound cfg → named cfg → fault_write cfg cfg' →
  sound cfg' ∧ named cfg' ∧ remaining cfg'.2 < remaining cfg.2 ∧
  S (pool_unfinished cfg') ≤ pool_unfinished cfg.
Proof.
  intros Hs Hn (mid & Hsteps & Hstep & Hne).
  pose proof (fault_steps_sound _ _ Hs Hsteps) as Hs'.
  pose proof (fault_steps_named _ _ Hn Hsteps) as Hn'.
  pose proof (fault_steps_remaining _ _ Hs Hn Hsteps).
  pose proof (fault_steps_unfinished _ _ Hsteps).
  pose proof (fault_write_step_unfinished _ _ Hstep Hne).
  split; [by eapply fault_step_sound|]. split; [by eapply fault_step_named|].
  destruct (fault_step_settles _ _ Hs' Hn' Hstep); [done|lia].
Qed.

Lemma fault_writes_settle n cfg cfg' :
  sound cfg → named cfg → nsteps fault_write n cfg cfg' →
  n + remaining cfg'.2 ≤ remaining cfg.2 ∧ n + pool_unfinished cfg' ≤ pool_unfinished cfg.
Proof.
  intros Hs Hn Hsteps. induction Hsteps as [|n c1 c2 c3 Hturn _ IH]; [lia|].
  destruct (fault_write_settles _ _ Hs Hn Hturn) as (Hs' & Hn' & ? & ?).
  destruct (IH Hs' Hn'). lia.
Qed.

Lemma fault_write_sn cfg : sound cfg → named cfg → sn fault_write cfg.
Proof.
  intros Hs Hn. remember (remaining cfg.2) as k eqn:Hk. revert cfg Hs Hn Hk.
  induction (lt_wf k) as [k _ IH]. intros cfg Hs Hn ->. constructor. intros cfg' Hturn.
  destruct (fault_write_settles _ _ Hs Hn Hturn) as (Hs' & Hn' & Hlt & _). by eapply IH.
Qed.

End knowledge.

(** * One invocation against the failing service *)

Section sequential.
Context `{SecretsManagerAPI Σ}.
Implicit Types (φ : faulty Σ) (req : SecretsManagerEvent) (order : list string → list string).

(** An invocation against the failing service is a sequence of turns
    under faults. *)
Lemma main_faulty_steps order req φ :
  rtc fault_step ([spawn order req], service φ)
    ((solo_end order req φ).1, service (main order req φ).2).
Proof.
  pose proof (steps_faulty _ _ (solo_steps order req φ)) as Hsteps.
  by rewrite (proj1 (solo_end_main order req φ)) in Hsteps.
Qed.

(** With no fault planned, no fault happens. *)
Lemma respond_through c φ :
  faultless φ →
  (respond c φ).1 = (respond c (service φ)).1 ∧
  service (respond c φ).2 = (respond c (service φ)).2 ∧ faultless (respond c φ).2.
Proof.
  unfold faultless. intros Hplan.
  destruct c as [i|i|i|i|i]; simpl; unfold faulty_op;
    by destruct Hplan as [|f rest -> Hrest].
Qed.

Lemma step_through (cfg cfg' : config (Σ:=faulty Σ)) :
  faultless cfg.2 → step cfg cfg' →
  faultless cfg'.2 ∧ step (cfg.1, service cfg.2) (cfg'.1, service cfg'.2).
Proof.
  intros Hplan Hstep. destruct Hstep as [pool φ i t c Ht Hc]. simpl in *.
  destruct (respond_through c φ Hplan) as (-> & -> & ?). split; [done|]. by constructor.
Qed.

Lemma steps_through (cfg cfg' : config (Σ:=faulty Σ)) :
  faultless cfg.2 → rtc step cfg cfg' →
  rtc step (cfg.1, service cfg.2) (cfg'.1, service cfg'.2).
Proof.
  intros Hplan Hsteps. induction Hsteps as [|c1 c2 c3 Hstep _ IH]; [done|].
  destruct (step_through _ _ Hplan Hstep) as [Hplan' Hstep'].
  eapply rtc_l; [done|by apply IH].
Qed.

(** Whether a pool has a turn left does not depend on the service. *)
Lemma nf_projected (cfg : config (Σ:=faulty Σ)) :
  nf step cfg → nf step (cfg.1, service cfg.2).
Proof.
  intros Hnf [cfg' Hstep]. apply Hnf. destruct cfg as [pool φ].
  inversion Hstep as [? ? i t c Ht Hc]; subst. eexists. by eapply step_turn.
Qed.

(** With no fault planned, an invocation against the failing service is
    the invocation against the service. *)
Lemma main_through order req φ :
  faultless φ →
  (main order req φ).1 = (main order req (service φ)).1 ∧
  service (main order req φ).2 = (main order req (service φ)).2.
Proof.
  intros Hplan.
  pose proof (steps_through ([spawn order req], φ) _ Hplan (solo_steps order req φ)) as Hsteps.
  pose proof (solo_end_unique order req (service φ) _ Hsteps
                (nf_projected _ (solo_end_nf order req φ))) as Heq.
  destruct (solo_end_main order req φ) as [Hst Hout].
  destruct (solo_end_main order req (service φ)) as [Hst' Hout'].
  rewrite <-Heq in Hst', Hout'. unfold outcomes in *. simpl in *. split; [|congruence].
  rewrite Hout in Hout'. by simplify_eq.
Qed.

End sequential.

(** * The run against the failing service and the run against the service *)

Section prefix.
Context `{SecretsManagerAPI Σ}.
Implicit Types (φ : faulty Σ) (σ : Σ) (req : SecretsManagerEvent)
  (order : list string → list string) (c : api_call) (t : thread).

(** The error of a lost answer is fatal. *)
Lemma unreachable_fatal : fatal unreachable.
Proof. done. Qed.

(** What the failing service answers to a call, by the head of its plan. *)
Lemma respond_head_through c σ rest :
  respond c (Faulty σ (None :: rest)) = ((respond c σ).1, Faulty (respond c σ).2 rest).
Proof. by destruct c. Qed.

Lemma respond_head_request_lost c σ rest :
  respond c (Faulty σ (Some RequestLost :: rest)) = (refusal c unreachable, Faulty σ rest).
Proof. by destruct c. Qed.

Lemma respond_head_response_lost c σ rest :
  respond c (Faulty σ (Some ResponseLost :: rest)) =
  (refusal c unreachable, Faulty (respond c σ).2 rest).
Proof. by destruct c. Qed.

(** Turns against the service are turns against the failing service
    when no fault is planned for them. *)
Lemma step_lift (cfg cfg' : config (Σ:=Σ)) rest :
  step cfg cfg' →
  step (cfg.1, Faulty cfg.2 (None :: rest)) (cfg'.1, Faulty cfg'.2 rest).
Proof.
  intros [pool σ i t c Ht Hc]. simpl.
  pose proof (step_turn (Σ:=faulty Σ) pool (Faulty σ (None :: rest)) i t c Ht Hc) as Hstep.
  by rewrite respond_head_through in Hstep.
Qed.

Lemma nsteps_lift k (cfg cfg' : config (Σ:=Σ)) rest :
  nsteps step k cfg cfg' →
  nsteps step k (cfg.1, Faulty cfg.2 (replicate k None ++ rest)) (cfg'.1, Faulty cfg'.2 rest).
Proof.
  induction 1 as [|k c1 c2 c3 Hstep _ IH]; simpl; [constructor|].
  eapply nsteps_l; [by apply step_lift|done].
Qed.

(** A plan has no fault, or a first one. *)
Lemma plan_first_fault (l : list (option fault)) :
  Forall (λ f, f = None) l ∨ ∃ n f rest, l = replicate n None ++ Some f :: rest.
Proof.
  induction l as [|[f|] l [IH|(n & f' & rest & ->)]]; [by left|..].
  - right. by exists 0, f, l.
  - right. by exists 0, f, (replicate n None ++ Some f' :: rest).
  - left. by constructor.
  - right. by exists (S n), f', rest.
Qed.

(** The plan has no fault for the calls of the invocation: the
    invocation is that against the service. *)
Lemma main_unreached order req σ rest :
  let cs := calls_of order req σ in
  (main order req (Faulty σ (replicate (length cs) None ++ rest))).1 =
    (main order req σ).1 ∧
  service (main order req (Faulty σ (replicate (length cs) None ++ rest))).2 =
    (main order req σ).2.
Proof.
  intros cs. set (φ := Faulty σ (replicate (length cs) None ++ rest)).
  pose proof (nsteps_lift _ _ _ rest (after_calls_nsteps order req σ (length cs) (le_n _)))
    as Hsteps%rtc_nsteps_2.
  assert (nf step ((solo_end order req σ).1, Faulty (solo_end order req σ).2 rest)) as Hnf.
  { intros [cfg' Hstep]. apply (solo_end_nf order req σ).
    inversion Hstep as [? ? i t c Ht Hc]; subst. eexists. by eapply step_turn. }
  pose proof (solo_end_unique order req φ _ Hsteps Hnf) as Heq.
  destruct (solo_end_main order req φ) as [Hst Hout].
  destruct (solo_end_main order req σ) as [Hst' Hout'].
  unfold outcomes in Hout, Hout'. rewrite <-Heq in Hst, Hout. cbn [fst snd] in Hst, Hout.
  split; [|by rewrite <-Hst, <-Hst'].
  assert (poll <$> (solo_end order req σ).1 = [Finished (main order req φ).1]) as Hout2
    by exact Hout.
  rewrite Hout' in Hout2. by simplify_eq.
Qed.

(** The first fault meets a call of the invocation: the invocation
    fails, and the service has performed the calls before it, and that
    call too when it is the response that is lost. *)
Lemma main_faulted order req σ n f rest :
  let cs := calls_of order req σ in
  n < length cs →
  ∃ msg,
    (main order req (Faulty σ (replicate n None ++ Some f :: rest))).1 = Failed msg ∧
    service (main order req (Faulty σ (replicate n None ++ Some f :: rest))).2 =
      exec σ (take (match f with RequestLost => n | ResponseLost => S n end) cs).
Proof.
  intros cs Hn. set (φ := Faulty σ (replicate n None ++ Some f :: rest)).
  pose proof (nsteps_lift _ _ _ (Some f :: rest)
                (after_calls_nsteps order req σ n (Nat.lt_le_incl _ _ Hn)))
    as Hsteps%rtc_nsteps_2.
  destruct (lookup_lt_is_Some_2 cs n Hn) as [c Hc].
  pose proof (poll_waiting order req σ n c Hc) as Hpoll.
  set (t := Thread req order (answers σ (take n cs))) in *.
  destruct (poll_refused t c unreachable Hpoll unreachable_fatal) as [msg Hmsg].
  set (σ' := match f with
             | RequestLost => exec σ (take n cs)
             | ResponseLost => (respond c (exec σ (take n cs))).2
             end).
  assert (step ([t], Faulty (exec σ (take n cs)) (Some f :: rest))
            ([hear (refusal c unreachable) t], Faulty σ' rest)) as Hstep.
  { pose proof (step_turn (Σ:=faulty Σ) [t] (Faulty (exec σ (take n cs)) (Some f :: rest))
                  0 t c eq_refl Hpoll) as Hturn.
    destruct f; [by rewrite respond_head_request_lost in Hturn
                |by rewrite respond_head_response_lost in Hturn]. }
  assert (nf step ([hear (refusal c unreachable) t], Faulty σ' rest)) as Hnf.
  { intros [cfg' Hnext]. inversion Hnext as [? ? i t' c' Ht' Hc']; subst.
    apply list_lookup_singleton_Some in Ht' as [-> <-]. congruence. }
  pose proof (solo_end_unique order req φ _ (rtc_r _ _ _ Hsteps Hstep) Hnf) as Heq.
  destruct (solo_end_main order req φ) as [Hst Hout].
  unfold outcomes in Hout. rewrite <-Heq in Hst, Hout. cbn [fst snd fmap list_fmap] in Hst, Hout.
  exists msg. split; [rewrite Hmsg in Hout; by simplify_eq|]. rewrite <-Hst. cbn [service].
  destruct f; [done|]. subst σ'. by rewrite (take_S_r cs n c Hc), exec_app.
Qed.

(** An invocation against the failing service is the invocation against
    the service, or it fails and the service has performed some of its
    calls, the first ones. *)
Lemma main_faulty_cases order req φ :
  let cs := calls_of order req (service φ) in
  (main order req φ).1 = (main order req (service φ)).1 ∧
  service (main order req φ).2 = (main order req (service φ)).2 ∨
  ∃ msg k, (main order req φ).1 = Failed msg ∧ k ≤ length cs ∧
           service (main order req φ).2 = exec (service φ) (take k cs).
Proof.
  intros cs. destruct φ as [σ l]. simpl in *.
  destruct (plan_first_fault l) as [Hnone|(n & f & rest & ->)];
    [left; by apply main_through|].
  destruct (decide (n < length cs)) as [Hn|Hn].
  - right. destruct (main_faulted order req σ n f rest Hn) as (msg & Hr & Hs).
    exists msg, (match f with RequestLost => n | ResponseLost => S n end).
    split; [done|]. split; [destruct f; lia|done].
  - left. replace n with (length cs + (n - length cs)) by lia.
    rewrite replicate_add, <-app_assoc. apply main_unreached.
Qed.

End prefix.

Section changes.
Implicit Types (φ : faulty store) (req : SecretsManagerEvent)
  (order : list string → list string) (cfg : config (Σ:=store)).

(** Turns under faults leave the secrets as they were or settle some of
    the work left. *)
Lemma fault_steps_settle cfg cfg' :
  sound cfg → named cfg → rtc fault_step cfg cfg' →
  secrets cfg'.2 = secrets cfg.2 ∨ remaining cfg'.2 < remaining cfg.2.
Proof.
  intros Hs Hn Hsteps. induction Hsteps as [|c1 c2 c3 Hstep Hrest IH]; [by left|].
  pose proof (fault_step_sound _ _ Hs Hstep) as Hs'.
  pose proof (fault_step_named _ _ Hn Hstep) as Hn'.
  pose proof (fault_steps_remaining _ _ Hs' Hn' Hrest).
  destruct (fault_step_settles _ _ Hs Hn Hstep) as [Heq|?]; [|right; lia].
  destruct (IH Hs' Hn') as [Heq'|?]; [left; congruence|right].
  unfold remaining in *. by rewrite <-Heq.
Qed.

Lemma main_faulty_settles order req φ :
  store_consistent (service φ) → Token req ≠ Some EmptyString →
  secrets (service (main order req φ).2) = secrets (service φ) ∨
  remaining (service (main order req φ).2) < remaining (service φ).
Proof.
  intros Hσ Htok.
  apply (fault_steps_settle ([spawn order req], service φ)
           ((solo_end order req φ).1, service (main order req φ).2));
    [apply fresh_sound; simpl|..|apply main_faulty_steps]; [done|by repeat constructor..].
Qed.

End changes.

(** * A lost response to the update of finishSecret *)

Section lost_response.
Implicit Types (σ : store) (s : secret) (φ : faulty store) (req : SecretsManagerEvent)
  (order : list string → list string) (w : world (faulty store) api_call).

(** A describe call that goes through is answered by the store. *)
Lemma faulty_describe_through arn σ s rest :
  secrets σ !! arn = Some s →
  DescribeSecret (describe_request (Some arn)) (Faulty σ (None :: rest)) =
  (inl {| DescribeSecretOutput.RotationEnabled := rotation_enabled s;
          DescribeSecretOutput.VersionIdsToStages := describe_versions (versions s) |},
   Faulty σ rest).
Proof.
  intros Hs. pose proof (store_describe arn σ s Hs) as Hd. simpl in *.
  unfold faulty_op. simpl. by rewrite Hd.
Qed.

(** What the validation answers when its describe call goes through. *)
Lemma validate_through req tok arn s enabled σ rest w :
  Token req = Some tok → Arn req = Some arn → remote w = Faulty σ (None :: rest) →
  secrets σ !! arn = Some s → rotation_enabled s = Some enabled →
  validate req w =
  (Returned (verdict_error (classify enabled (labels_of s tok)) tok arn),
   after_describe req w (Faulty σ rest)).
Proof.
  intros Htok Harn Hw Hs Hen.
  erewrite validate_described by (rewrite Harn, Hw; by apply faulty_describe_through).
  erewrite check_staging_classified; [|done..|]; simpl.
  - by rewrite describe_versions_labels.
  - apply describe_versions_slices.
Qed.

(** The three calls of a finishSecret invocation, the last one performed
    by the store and its response lost: the invocation fails and the
    label has moved. *)
Lemma main_finish_lost_response order req tok arn σ s cur :
  Token req = Some tok → Arn req = Some arn → Step req = Some "finishSecret" →
  secrets σ !! arn = Some s → one_holder (versions s) → pending_for s tok →
  cur ∈ dom (holders AWSCURRENT (versions s)) →
  first_version order (describe_versions (versions s)) = Some cur →
  main order req (Faulty σ [None; None; Some ResponseLost]) =
  (Failed (Error unreachable),
   Faulty (set_versions arn s (promoted tok cur (versions s)) σ) []).
Proof.
  intros Htok Harn Hstep Hs Hone Hpend Hcur Hfirst.
  destruct (Hpend) as (Hen & v & Hv & _ & Hnot).
  assert (cur ≠ tok) as Hne.
  { intros ->. apply elem_of_holders in Hcur as (v' & ? & ?). by simplify_eq. }
  unfold main. erewrite HandleRequest_run_validated; last first.
  { erewrite (validate_through req tok arn s true σ) by done. by rewrite pending_labels. }
  rewrite dispatch_finish, Harn, Htok by done. unfold bind.
  erewrite finishSecret_run_other; [|by apply faulty_describe_through|done..].
  erewrite promote_run_refused; [done|]. simpl. unfold faulty_op. simpl.
  f_equal. f_equal. unfold promote_request.
  by rewrite (store_move_label arn AWSCURRENT cur tok σ s).
Qed.

(** Once the token's version carries AWSCURRENT no invocation for the
    token succeeds, whatever faults are to come, and none changes the
    store. *)
Lemma main_faulty_already_current order req tok arn φ s v :
  Token req = Some tok → Arn req = Some arn →
  secrets (service φ) !! arn = Some s → rotation_enabled s = Some true →
  versions s !! tok = Some v → AWSCURRENT ∈ stages v →
  (main order req φ).1 ≠ Succeeded ∧ service (main order req φ).2 = service φ.
Proof.
  intros Htok Harn Hs Hen Hv Hcur. unfold main.
  pose proof (store_describe arn (service φ) s Hs) as Hd. simpl in Hd.
  destruct (DescribeSecret (describe_request (Arn req)) φ) as [[desc|err] φ'] eqn:Hdesc.
  - assert (desc = {| DescribeSecretOutput.RotationEnabled := rotation_enabled s;
                      DescribeSecretOutput.VersionIdsToStages :=
                        describe_versions (versions s) |} ∧ service φ' = service φ)
      as [-> Hφ'].
    { rewrite Harn in Hdesc. simpl in Hdesc. unfold faulty_op in Hdesc. rewrite Hd in Hdesc.
      by destruct (plan φ) as [|[[]|] rest]; simplify_eq/=. }
    rewrite (HandleRequest_run_rejected order req (boot φ) (err_already_current tok arn)
               (after_describe req (boot φ) φ')); [done|].
    rewrite (validate_described req _ φ' (boot φ) Hdesc).
    erewrite check_staging_classified; [|done..|]; simpl.
    + rewrite describe_versions_labels, (labels_of_Some s tok v)
        by (done || by intros Hnil; rewrite Hnil in Hcur; apply elem_of_nil in Hcur).
      unfold classify. simpl. by rewrite decide_True.
    + apply describe_versions_slices.
  - assert (service φ' = service φ) as Hφ'.
    { rewrite Harn in Hdesc. simpl in Hdesc. unfold faulty_op in Hdesc. rewrite Hd in Hdesc.
      by destruct (plan φ) as [|[[]|] rest]; simplify_eq/=. }
    by rewrite (HandleRequest_run_rejected order req (boot φ) err
                  (after_describe req (boot φ) φ'))
      by exact (validate_describe_failed req err φ' (boot φ) Hdesc).
Qed.

End lost_response.

(** * The ordered scheduler against the failing store *)

Section lossy.
Context (arn tok old : string).
Implicit Types (σ : store) (p : phase) (order : list string → list string).

(** The store after the first calls of an invocation: the secrets are
    as they were, or the invocation is complete. *)
Lemma prefix_secrets order req σ k :
  k ≤ length (calls_of order req σ) →
  secrets (exec σ (take k (calls_of order req σ))) = secrets σ ∨
  exec σ (take k (calls_of order req σ)) = (main order req σ).2.
Proof.
  intros Hk. destruct (decide (k = length (calls_of order req σ))) as [->|Hne].
  - right. by rewrite firstn_all, main_exec.
  - left. apply (after_calls_secrets order req σ k). lia.
Qed.

(** A delivery under faults keeps the invariant of the phase, and one
    that succeeded establishes that of the next. *)
Lemma lossy_deliver_on_course p name order l σ :
  step_of p = Some name → on_course arn tok old p σ →
  let out := main order (step_event arn tok name) (Faulty σ l) in
  on_course arn tok old p (service out.2) ∧
  (out.1 = Succeeded → on_course arn tok old (after p) (service out.2)).
Proof.
  intros Hname Hinv. cbv zeta.
  destruct (deliver_on_course setSecret testSecret arn tok old p name order σ Hname Hinv)
    as [Hp Hafter]. rewrite main_with_source in Hp, Hafter.
  destruct (main_faulty_cases order (step_event arn tok name) (Faulty σ l))
    as [[-> ->]|(msg & k & -> & Hk & ->)]; [done|]. simpl. split; [|done].
  destruct (prefix_secrets order (step_event arn tok name) σ k Hk) as [Heq| ->]; [|done].
  by apply (on_course_secrets arn tok old p σ).
Qed.

Lemma lossy_on_course st st' :
  lossy arn tok st st' →
  on_course arn tok old st.1 st.2 → on_course arn tok old st'.1 st'.2.
Proof.
  intros [p name order l σ Hname|p name order l σ φ' Hname Hmain|p p' σ σ' Hp Hp' Heq] Hinv;
    simpl in *.
  - by apply lossy_deliver_on_course.
  - destruct (lossy_deliver_on_course p name order l σ Hname Hinv) as [_ Hafter].
    rewrite Hmain in Hafter. by apply Hafter.
  - apply (on_course_secrets arn tok old p' σ); [done|].
    destruct Hp' as [-> | ->]; [done|].
    apply on_course_after; [by destruct Hp as [-> | ->]|done].
Qed.

Lemma lossy_rtc_on_course st st' :
  rtc (lossy arn tok) st st' →
  on_course arn tok old st.1 st.2 → on_course arn tok old st'.1 st'.2.
Proof. induction 1; eauto using lossy_on_course. Qed.

(** A delivery against the store is a delivery against the failing store
    with no fault planned. *)
Lemma lossy_faultless p name order σ :
  step_of p = Some name →
  lossy arn tok (p, σ) (p, (main order (step_event arn tok name) σ).2) ∧
  ∀ σ', main order (step_event arn tok name) σ = (Succeeded, σ') →
        lossy arn tok (p, σ) (after p, σ').
Proof.
  intros Hname.
  destruct (main_through order (step_event arn tok name) (Faulty σ []) (Forall_nil_2 _))
    as [Hr Hs]. simpl in Hr, Hs. rewrite <-Hs. split; [by apply lossy_again|].
  intros σ' Hmain. rewrite Hmain in Hr, Hs. simpl in Hr, Hs. rewrite <-Hs.
  apply (lossy_next arn tok p name order []); [done|].
  by destruct (main _ _ (Faulty σ [])); simplify_eq/=.
Qed.

(** The ordered scheduler is the ordered scheduler against a store that
    does not fail. *)
Lemma ordered_lossy (set test : downstream store) `{!Downstream set, !Downstream test}
    st st' :
  ordered set test arn tok st st' → lossy arn tok st st'.
Proof.
  intros [p name order σ Hname|p name order σ σ' Hname Hmain];
    pose proof (main_with_downstream set test order (step_event arn tok name) σ) as Hdown;
    destruct (lossy_faultless p name order σ Hname) as [Hagain Hnext];
    destruct p; simplify_eq/=; rewrite ?main_with_other in * by done; auto;
    rewrite ?Hmain in Hdown; apply lossy_downstream; auto.
Qed.

(** Once the token's version carries AWSCURRENT the scheduler that waits
    at finishSecret waits for ever, and the store stays as it is. *)
Lemma lossy_stuck σ s v st st' :
  secrets σ !! arn = Some s → rotation_enabled s = Some true →
  versions s !! tok = Some v → AWSCURRENT ∈ stages v →
  rtc (lossy arn tok) st st' → st = (AtFinish, σ) → st' = (AtFinish, σ).
Proof.
  intros Hs Hen Hv Hcur Hsteps. induction Hsteps as [|st1 st2 st3 Hstep _ IH]; [done|].
  intros ->. apply IH.
  inversion Hstep as [p name order l σ1 Hname|p name order l σ1 φ' Hname Hmain|
                      p p' σ1 σ' Hp]; subst.
  - by rewrite (proj2 (main_faulty_already_current order (step_event arn tok name) tok arn
                         (Faulty σ l) s v eq_refl eq_refl Hs Hen Hv Hcur)).
  - destruct (main_faulty_already_current order (step_event arn tok name) tok arn
                (Faulty σ l) s v eq_refl eq_refl Hs Hen Hv Hcur) as [Hne _].
    by rewrite Hmain in Hne.
  - by destruct Hp.
Qed.

End lossy.

(** * Theorems *)

(** A turn without fault is one of the turns under faults. *)
Lemma step_fault_step `{SecretsManagerAPI Σ} (cfg cfg' : config (Σ:=Σ)) :
  step cfg cfg' → fault_step cfg cfg'.
Proof. intros [pool σ i t c Ht Hc]. econstructor; [done..|constructor]. Qed.

Lemma fault_scheduled_steps turns (cfg : config (Σ:=faulty store)) :
  is_Some (schedule turns cfg) →
  rtc fault_step (cfg.1, service cfg.2) (fault_scheduled turns cfg).
Proof.
  intros [cfg' Hs]. unfold fault_scheduled. rewrite Hs. simpl.
  by apply steps_faulty, (schedule_steps turns).
Qed.


(** C19 (termination): invocations that overlap and calls that fail
    change a consistent store finitely often.  From a pool of fresh
    invocations, none with the empty string as token, under every
    interleaving and whatever requests and responses are lost: the turns
    are strongly normalising, at most five for each invocation; the turns
    that change a secret are strongly normalising, [n] of them lower the
    work left on the pending versions by at least [n], and they are no
    more than the invocations, since an invocation writes once at most
    whether it hears of it or not. *)
Theorem faults_converge (cfg : config (Σ:=store)) :
  store_consistent cfg.2 → Forall (λ t, heard t = []) cfg.1 → named cfg →
  sn fault_step cfg ∧ sn fault_write cfg ∧
  ∀ n cfg', (nsteps fault_step n cfg cfg' → n ≤ 5 * length cfg.1) ∧
            (nsteps fault_write n cfg cfg' →
             n + remaining cfg'.2 ≤ remaining cfg.2 ∧ n ≤ length cfg.1).
Proof.
  intros Hσ Hfresh Hnamed. pose proof (fresh_sound cfg Hσ Hfresh) as Hsound.
  split; [apply fault_step_sn|]. split; [by apply fault_write_sn|].
  intros n cfg'. split.
  - intros Hsteps%fault_nsteps_budget. pose proof (pool_budget_bound cfg). lia.
  - intros [? ?]%fault_writes_settle; [|done..].
    pose proof (pool_unfinished_bound cfg). lia.
Qed.

(** Whatever is lost during an invocation, the invocation
    has done nothing or has made progress.  Against the failing store,
    under any plan of faults, an invocation whose token is not the empty
    string leaves the store consistent with every value kept, and leaves
    the secrets as they were or has settled some of the work left on the
    pending versions, whether it reports success or failure. *)
Theorem faulty_invocation_settles order req (φ : faulty store) :
  store_consistent (service φ) → Token req ≠ Some EmptyString →
  store_consistent (service (main order req φ).2) ∧
  extends (service φ) (service (main order req φ).2) ∧
  (secrets (service (main order req φ).2) = secrets (service φ) ∨
   remaining (service (main order req φ).2) < remaining (service φ)).
Proof.
  intros Hσ Htok.
  split; [by apply (main_keeps (λ φ, store_consistent (service φ)))|].
  split; [by apply (main_keeps (λ φ', extends (service φ) (service φ')))|].
  by apply main_faulty_settles.
Qed.

(** The failing service with no fault planned is the
    service.  An invocation against it gives the answer and leaves the
    state that the invocation against the service itself gives and
    leaves, for every service. *)
Theorem faultless_is_main `{SecretsManagerAPI Σ} order req (φ : faulty Σ) :
  faultless φ →
  (main order req φ).1 = (main order req (service φ)).1 ∧
  service (main order req φ).2 = (main order req (service φ)).2.
Proof. apply main_through. Qed.

(** C20 (error): a lost response to the update of finishSecret cannot be
    recovered by redelivery.  When the store performs the update and the
    response is lost, the invocation fails although AWSCURRENT has moved
    to the token's version; from then on every invocation for the token
    is rejected, whatever the faults to come, so the ordered scheduler,
    which waits at finishSecret for a success, waits for ever while the
    store stays as it is: the rotation has happened and is never
    recorded. *)
Theorem lost_response_is_final order tok arn σ s cur :
  secrets σ !! arn = Some s → one_holder (versions s) → pending_for s tok →
  cur ∈ dom (holders AWSCURRENT (versions s)) →
  first_version order (describe_versions (versions s)) = Some cur →
  ∃ σ' s',
    main order (step_event arn tok "finishSecret")
      (Faulty σ [None; None; Some ResponseLost]) =
      (Failed (Error unreachable), Faulty σ' []) ∧
    secrets σ' !! arn = Some s' ∧ holder AWSCURRENT (versions s') = Some tok ∧
    ∀ st, rtc (lossy arn tok) (AtFinish, σ') st → st = (AtFinish, σ').
Proof.
  intros Hs Hone Hpend Hcur Hfirst.
  destruct (Hpend) as (Hen & v & Hv & _ & Hnot).
  exists (set_versions arn s (promoted tok cur (versions s)) σ),
    (Secret (rotation_enabled s) (promoted tok cur (versions s))).
  split; [by apply (main_finish_lost_response order _ tok arn σ s cur)|].
  split; [apply set_versions_lookup|]. split; [by apply moved_label_holder|].
  intros st Hsteps.
  eapply (lossy_stuck arn tok _ (Secret (rotation_enabled s) (promoted tok cur (versions s)))
            (Version (value v) (AWSCURRENT :: stages v)));
    [apply set_versions_lookup|done|by apply promoted_lookup|set_solver|done..].
Qed.

(** C18 (refinement): an invocation against the failing service is the
    invocation against the service, cut short.  Either no fault meets a
    call of the invocation, and its answer and the state it leaves are
    those of the invocation against the service, as they are whenever no
    fault is planned; or it fails, and the service has performed the
    first calls of the invocation against the service and no other. *)
Theorem faulty_invocation_is_prefix `{SecretsManagerAPI Σ} order req (φ : faulty Σ) :
  let cs := calls_of order req (service φ) in
  let same := (main order req φ).1 = (main order req (service φ)).1 ∧
              service (main order req φ).2 = (main order req (service φ)).2 in
  (faultless φ → same) ∧
  (same ∨ ∃ msg k, (main order req φ).1 = Failed msg ∧ k ≤ length cs ∧
                   service (main order req φ).2 = exec (service φ) (take k cs)).
Proof. split; [apply main_through|apply main_faulty_cases]. Qed.

(** C11 (safety): under the ordered scheduler a consumer of the secret
    always reads a value, whatever fails on the way.  The scheduler
    delivers the steps in order, each any number of times, under any
    iteration order and any plan of lost requests and lost responses, and
    takes the next step after a success; what is plugged in for setSecret
    and testSecret leaves the secrets alone.  From a consistent store in
    which the token is pending and the secret serves [old], every state
    it reaches serves [old], the token's version not holding AWSCURRENT,
    or, its phase being finishSecret or later, serves the value of the
    token's version, which holds AWSCURRENT; past createSecret the
    token's version has a value. *)
Theorem lossy_rotation_serves arn tok old σ s p σ' :
  store_consistent σ → secrets σ !! arn = Some s → pending_for s tok → serves s old →
  rtc (lossy arn tok) (AtCreate, σ) (p, σ') →
  ∃ s' val, secrets σ' !! arn = Some s' ∧ serves s' val ∧
            (p ≠ AtCreate → is_Some (versions s' !! tok ≫= value)) ∧
            (val = old ∧ tok ∉ dom (holders AWSCURRENT (versions s')) ∨
             (p = AtFinish ∨ p = Rotated) ∧ holder AWSCURRENT (versions s') = Some tok ∧
             versions s' !! tok ≫= value = Some val).
Proof.
  intros Hσ Hs Hpend Hold Hrtc. apply (on_course_serves arn tok old p σ').
  apply (lossy_rtc_on_course arn tok old _ _ Hrtc).
  by apply (start_on_course arn tok old σ s).
Qed.

(** C12 (liveness): a rotation that faults have disturbed can still be
    completed.  From whatever state the ordered scheduler has reached
    against the failing store, deliveries, downstream steps and faults in
    any number, as long as it has not recorded the end and the token's
    version does not hold AWSCURRENT, at most three deliveries without
    faults, under any iteration order and with downstream steps that
    work, followed by a delivery of finishSecret whose iteration order
    visits the holder of AWSCURRENT first, end the rotation: the token's
    version holds AWSCURRENT and its value is the one served. *)
Theorem lossy_rotation_recovers (set test : downstream store)
    `{!Downstream set, !Downstream test, !Accepts set, !Accepts test}
    arn tok old σ s p σ' order :
  store_consistent σ → secrets σ !! arn = Some s → pending_for s tok → serves s old →
  rtc (lossy arn tok) (AtCreate, σ) (p, σ') → p ≠ Rotated →
  (∀ s', secrets σ' !! arn = Some s' → tok ∉ dom (holders AWSCURRENT (versions s'))) →
  ∃ n cur σ'' s'' val,
    n ≤ 3 ∧
    attempt set test arn tok (replicate n order ++ [first_visit cur]) (p, σ') =
    (Rotated, σ'') ∧
    secrets σ'' !! arn = Some s'' ∧ holder AWSCURRENT (versions s'') = Some tok ∧
    versions s'' !! tok ≫= value = Some val ∧ serves s'' val.
Proof.
  intros Hσ Hs Hpend Hold Hrtc Hp Hnot.
  pose proof (lossy_rtc_on_course arn tok old _ _ Hrtc
                (start_on_course arn tok old σ s Hσ Hs Hpend Hold)) as Hinv.
  destruct (attempt_reaches_finish set test arn tok old p order σ' Hp Hinv Hnot)
    as (n & σ3 & Hn & Hrun & Htest).
  destruct (attempt_completes set test arn tok old (replicate n order) _ σ3 Hrun Htest)
    as (cur & σ'' & s'' & val & Hend).
  by exists n, cur, σ'', s'', val.
Qed.

(** * Instances *)


Lemma faults_converge_witness :
  sn fault_step create_and_finish ∧ sn fault_write create_and_finish ∧
  ∀ n cfg', (nsteps fault_step n create_and_finish cfg' →
             n ≤ 5 * length create_and_finish.1) ∧
            (nsteps fault_write n create_and_finish cfg' →
             n + remaining cfg'.2 ≤ remaining create_and_finish.2 ∧
             n ≤ length create_and_finish.1).
Proof. apply faults_converge; [by_compute|by repeat constructor..]. Defined.

(** The first delivery stores the value and fails, its response lost; the
    second finds the value and succeeds. *)
Lemma lossy_creates_end :
  outcomes (fault_scheduled [0; 0; 0; 0; 0; 1; 1; 1] lossy_creates) =
    [Finished (Failed (Error unreachable)); Finished Succeeded] ∧
  secrets (fault_scheduled [0; 0; 0; 0; 0; 1; 1; 1] lossy_creates).2 =
    secrets scenario_created.
Proof. by vm_compute. Qed.

Lemma faulty_invocation_settles_witness :
  store_consistent
    (service (main id (scenario_event "createSecret")
                (Faulty scenario_store [None; None; None; None; Some ResponseLost])).2) ∧
  extends scenario_store
    (service (main id (scenario_event "createSecret")
                (Faulty scenario_store [None; None; None; None; Some ResponseLost])).2) ∧
  (secrets (service (main id (scenario_event "createSecret")
                       (Faulty scenario_store [None; None; None; None; Some ResponseLost])).2) =
     secrets scenario_store ∨
   remaining (service (main id (scenario_event "createSecret")
                         (Faulty scenario_store
                            [None; None; None; None; Some ResponseLost])).2) <
     remaining scenario_store).
Proof.
  apply (faulty_invocation_settles id (scenario_event "createSecret")
           (Faulty scenario_store [None; None; None; None; Some ResponseLost]));
    [by_compute|done].
Defined.

Lemma faultless_is_main_witness :
  (main id (scenario_event "createSecret") (Faulty scenario_store [None; None])).1 =
    (main id (scenario_event "createSecret") scenario_store).1 ∧
  service (main id (scenario_event "createSecret") (Faulty scenario_store [None; None])).2 =
    (main id (scenario_event "createSecret") scenario_store).2.
Proof.
  apply (faultless_is_main id (scenario_event "createSecret")
           (Faulty scenario_store [None; None])).
  by repeat constructor.
Defined.

Lemma lost_response_is_final_witness :
  ∃ σ' s',
    main (first_visit "v1") (step_event "db-pwd" "v2" "finishSecret")
      (Faulty scenario_created [None; None; Some ResponseLost]) =
      (Failed (Error unreachable), Faulty σ' []) ∧
    secrets σ' !! "db-pwd" = Some s' ∧ holder AWSCURRENT (versions s') = Some "v2" ∧
    ∀ st, rtc (lossy "db-pwd" "v2") (AtFinish, σ') st → st = (AtFinish, σ').
Proof.
  apply (lost_response_is_final (first_visit "v1") "v2" "db-pwd" scenario_created
           scenario_secret "v1");
    first [by vm_compute | apply scenario_secret_pending | by_compute].
Defined.

(** The plan of the scenario that loses the response to the put of
    createSecret: the invocation fails after its five calls. *)
Lemma faulty_invocation_is_prefix_witness :
  let φ := Faulty scenario_store [None; None; None; None; Some ResponseLost] in
  let cs := calls_of id (scenario_event "createSecret") scenario_store in
  let same := (main id (scenario_event "createSecret") φ).1 =
                (main id (scenario_event "createSecret") scenario_store).1 ∧
              service (main id (scenario_event "createSecret") φ).2 =
                (main id (scenario_event "createSecret") scenario_store).2 in
  (faultless φ → same) ∧
  (same ∨ ∃ msg k, (main id (scenario_event "createSecret") φ).1 = Failed msg ∧
                   k ≤ length cs ∧
                   service (main id (scenario_event "createSecret") φ).2 =
                     exec scenario_store (take k cs)).
Proof.
  apply (faulty_invocation_is_prefix id (scenario_event "createSecret")
           (Faulty scenario_store [None; None; None; None; Some ResponseLost])).
Defined.

(** The first delivery of createSecret loses the response to its put. *)
Lemma lossy_rotation_serves_witness :
  ∃ s' val,
    secrets (service (main id (step_event "db-pwd" "v2" "createSecret")
                        (Faulty scenario_store
                           [None; None; None; None; Some ResponseLost])).2) !! "db-pwd" =
      Some s' ∧ serves s' val ∧
    (AtCreate ≠ AtCreate → is_Some (versions s' !! "v2" ≫= value)) ∧
    (val = "old123" ∧ "v2" ∉ dom (holders AWSCURRENT (versions s')) ∨
     (AtCreate = AtFinish ∨ AtCreate = Rotated) ∧
     holder AWSCURRENT (versions s') = Some "v2" ∧
     versions s' !! "v2" ≫= value = Some val).
Proof.
  apply (lossy_rotation_serves "db-pwd" "v2" "old123" scenario_store scenario_start AtCreate);
    [apply scenario_start_consistent|done|apply scenario_start_pending|by vm_compute|].
  apply rtc_once.
  apply (lossy_again "db-pwd" "v2" AtCreate "createSecret" id
           [None; None; None; None; Some ResponseLost] scenario_store eq_refl).
Defined.

(** The first delivery of createSecret loses the response to its put;
    the rotation is completed all the same. *)
Lemma lossy_rotation_recovers_witness :
  ∃ n cur σ'' s'' val,
    n ≤ 3 ∧
    attempt check_pending check_pending "db-pwd" "v2" (replicate n id ++ [first_visit cur])
      (AtCreate, service (main id (step_event "db-pwd" "v2" "createSecret")
                            (Faulty scenario_store
                               [None; None; None; None; Some ResponseLost])).2) =
    (Rotated, σ'') ∧
    secrets σ'' !! "db-pwd" = Some s'' ∧ holder AWSCURRENT (versions s'') = Some "v2" ∧
    versions s'' !! "v2" ≫= value = Some val ∧ serves s'' val.
Proof.
  apply (lossy_rotation_recovers check_pending check_pending "db-pwd" "v2" "old123"
           scenario_store scenario_start AtCreate);
    [apply scenario_start_consistent|done|apply scenario_start_pending|by vm_compute| |done|].
  - apply rtc_once.
    apply (lossy_again "db-pwd" "v2" AtCreate "createSecret" id
             [None; None; None; None; Some ResponseLost] scenario_store eq_refl).
  - intros s' Hs'. vm_compute in Hs'. injection Hs' as <-. by vm_compute.
Defined.
